(** * Classical AMG kernels of pyamg ([amg_core/ruge_stuben.h])

    A shallow embedding of the strength-of-connection, C/F-splitting,
    compatible-relaxation and interpolation kernels (direct, standard,
    modified standard, extended and extended+i), together with the
    properties proved about them.

    Conventions of the embedding.
    - The index type [I] of the templates is [Z].  Signed overflow is
      undefined in C++ and is not modelled.
    - A C array is a [list]; [a.[i]] reads and [a.[i <- v]] writes.  An
      access outside the array is undefined in C++: here a read yields
      the element type's zero and a write leaves the array unchanged.
    - The scalar types [T] and [F] of the templates are the parameters
      of the type class [Scalar]; it has a binary64 instance (the
      instantiation pyamg ships) and an exact rational instance.
    - A [for] loop over a fixed range is a fold over that range; a loop
      left by [break] is [for_break]; the [while] loops of the CLJP
      splitting and of [cr_helper] take fuel.
    - Functions the header calls but does not define are parameters:
      [vertex_coloring_mis] of graph.h, [signof] of linalg.h, and
      [srand]/[rand]/[RAND_MAX] of the C library, whose hidden generator
      state is passed explicitly.  [mynorm] of linalg.h is a field of
      the class [Magnitude].
    - What a kernel prints is returned as a list of [message]s.
    - [assert] is compiled out, as in a build with NDEBUG.

    The file has three parts: the embedding, the vocabulary of the
    statements, and the properties with their proofs. *)

From Stdlib Require Import ZArith List Bool Lia QArith Qabs.
From Stdlib Require Import Floats.PrimFloat Numbers.Cyclic.Int63.Uint63.
From Stdlib Require Floats.SpecFloat Floats.FloatOps Floats.FloatAxioms.
From stdpp Require Import base list.

Local Close Scope Q_scope.
Local Open Scope Z_scope.

(** ** Arrays indexed by [Z] *)

Class Zero (A : Type) := zero_of : A.
#[global] Instance Zero_Z : Zero Z := 0.

Definition aget {A} `{Zero A} (a : list A) (i : Z) : A :=
  if i <? 0 then zero_of else default zero_of (a !! Z.to_nat i).

Definition aset {A} (a : list A) (i : Z) (v : A) : list A :=
  if i <? 0 then a else <[Z.to_nat i := v]> a.

Notation "a .[ i ]" := (aget a i) (at level 1, left associativity, format "a .[ i ]").
Notation "a .[ i <- v ]" := (aset a i v) (at level 1, left associativity, format "a .[ i  <-  v ]").

Definition zlen {A} (a : list A) : Z := Z.of_nat (length a).

Arguments aget : simpl never.
Arguments aset : simpl never.

(** ** Loops *)

(** The indices [lo, lo+1, ..., hi-1] of [for (i = lo; i < hi; i++)]. *)
Definition range (lo hi : Z) : list Z := seqZ lo (hi - lo).

Definition for_ {St} (lo hi : Z) (body : Z -> St -> St) (st : St) : St :=
  fold_left (fun s i => body i s) (range lo hi) st.

(** [for (i = lo; i < hi; i++)] whose body may [break]: the body returns
    the new state and whether it left the loop. *)
Fixpoint for_break_list {St} (body : Z -> St -> St * bool) (l : list Z) (st : St) : St :=
  match l with
  | [] => st
  | i :: l' => let '(st', brk) := body i st in
               if brk then st' else for_break_list body l' st'
  end.

Definition for_break {St} (lo hi : Z) (body : Z -> St -> St * bool) (st : St) : St :=
  for_break_list body (range lo hi) st.

(** [for (i = hi - 1; i != -1; i--)] with [hi >= 0]. *)
Definition for_down {St} (hi : Z) (body : Z -> St -> St) (st : St) : St :=
  fold_left (fun s i => body i s) (reverse (range 0 hi)) st.

(** ** Scalars: the template parameters [T] and [F] *)

Class Scalar (T : Type) := {
  s_zero : T;
  s_one : T;
  s_add : T -> T -> T;
  s_sub : T -> T -> T;
  s_mul : T -> T -> T;
  s_div : T -> T -> T;
  s_opp : T -> T;
  s_ltb : T -> T -> bool;          (* operator<  *)
  s_leb : T -> T -> bool;          (* operator<= *)
  s_eqb : T -> T -> bool;          (* operator== *)
  s_of_int : Z -> T;               (* conversion from an integer *)
  numeric_limits_min : T;          (* std::numeric_limits<T>::min() *)
}.

#[global] Instance Zero_Scalar {T} `{Scalar T} : Zero T | 10 := @s_zero T _.

Declare Scope scalar_scope.
Delimit Scope scalar_scope with sc.
Infix "+" := s_add : scalar_scope.
Infix "-" := s_sub : scalar_scope.
Infix "*" := s_mul : scalar_scope.
Infix "/" := s_div : scalar_scope.
Notation "- x" := (s_opp x) : scalar_scope.
Notation "a <? b" := (s_ltb a b) : scalar_scope.
Notation "a >? b" := (s_ltb b a) : scalar_scope.
Notation "a >=? b" := (s_leb b a) : scalar_scope.
Notation "a ==? b" := (s_eqb a b) (at level 70) : scalar_scope.

(** [std::max(a, b)] is [(a < b) ? b : a]. *)
Definition std_max {T} `{Scalar T} (a b : T) : T := if (a <? b)%sc then b else a.

(** [mynorm] of linalg.h, mapping a value to its magnitude, and the
    implicit conversion of a magnitude back to a value. *)
Class Magnitude (T F : Type) := {
  mynorm : T -> F;
  of_magnitude : F -> T;
}.

(** The comparisons form a total preorder (no NaN). *)
Class ScalarOrder (T : Type) `{Scalar T} : Prop := {
  s_leb_refl : forall a : T, s_leb a a = true;
  s_leb_trans : forall a b c : T, s_leb a b = true -> s_leb b c = true -> s_leb a c = true;
  s_ltb_leb : forall a b : T, s_ltb a b = true -> s_leb a b = true;
  s_nltb_leb : forall a b : T, s_ltb a b = false -> s_leb b a = true;
}.

(** A value is ordered when it compares [<=] with itself: every
    rational is, and every binary64 value except NaN. *)
Definition ordered {T} `{Scalar T} (a : T) : bool := s_leb a a.

(** The comparisons form a total preorder on the ordered values, a
    comparison that holds has an ordered right operand, and [0] and
    [std::numeric_limits<T>::min()] are ordered.  The exact rationals
    and binary64, NaN included, both satisfy this. *)
Class ScalarOrdered (T : Type) `{Scalar T} : Prop := {
  so_leb_trans : forall a b c : T,
    s_leb a b = true -> s_leb b c = true -> s_leb a c = true;
  so_ltb_leb : forall a b : T, s_ltb a b = true -> s_leb a b = true;
  so_leb_ordered : forall a b : T, s_leb a b = true -> ordered b = true;
  so_nltb_leb : forall a b : T,
    ordered a = true -> ordered b = true -> s_ltb a b = false -> s_leb b a = true;
  so_zero_ordered : ordered (s_zero : T) = true;
  so_min_ordered : ordered (numeric_limits_min : T) = true;
}.

(** [operator<] is a strict partial order; binary64 satisfies this even
    with NaN, which compares false with everything. *)
Class ScalarStrict (T : Type) `{Scalar T} : Prop := {
  s_ltb_irrefl : forall a : T, s_ltb a a = false;
  s_ltb_trans : forall a b c : T, s_ltb a b = true -> s_ltb b c = true -> s_ltb a c = true;
}.

(** Zero compares equal to itself and a positive value is not zero; this
    too holds for binary64. *)
Class ScalarZero (T : Type) `{Scalar T} : Prop := {
  s_eqb_zero : s_eqb (s_zero : T) s_zero = true;
  s_pos_nonzero : forall a : T, s_ltb s_zero a = true -> s_eqb a s_zero = false;
}.

(** *** Exact rationals *)

#[global] Instance Q_Scalar : Scalar Q := {|
  s_zero := 0%Q;
  s_one := 1%Q;
  s_add := Qplus;
  s_sub := Qminus;
  s_mul := Qmult;
  s_div := Qdiv;
  s_opp := Qopp;
  s_ltb := fun a b => negb (Qle_bool b a);
  s_leb := Qle_bool;
  s_eqb := Qeq_bool;
  s_of_int := inject_Z;
  numeric_limits_min := Qmake 1 (2 ^ 1022);
|}.

#[global] Instance Q_Magnitude : Magnitude Q Q := {|
  mynorm := Qabs;
  of_magnitude := fun x => x;
|}.

(** *** IEEE 754 binary64, the C++ [double] *)

Definition double := PrimFloat.float.

Definition double_of_int (z : Z) : double :=
  if z <? 0 then PrimFloat.opp (PrimFloat.of_uint63 (Uint63.of_Z (- z)))
  else PrimFloat.of_uint63 (Uint63.of_Z z).

#[global] Instance double_Scalar : Scalar double := {|
  s_zero := 0%float;
  s_one := 1%float;
  s_add := PrimFloat.add;
  s_sub := PrimFloat.sub;
  s_mul := PrimFloat.mul;
  s_div := PrimFloat.div;
  s_opp := PrimFloat.opp;
  s_ltb := PrimFloat.ltb;
  s_leb := PrimFloat.leb;
  s_eqb := PrimFloat.eqb;
  s_of_int := double_of_int;
  numeric_limits_min := 0x1p-1022%float;
|}.

#[global] Instance double_Magnitude : Magnitude double double := {|
  mynorm := PrimFloat.abs;
  of_magnitude := fun x => x;
|}.

(** ** Strength of connection *)

Section StrengthOfConnection.
Context {T F : Type} `{Scalar T, Scalar F}.

(** The output buffers [Sp], [Sj], [Sx] and the running count [nnz]. *)
Record soc_state := {
  nnz : Z;
  Sp : list Z;
  Sj : list Z;
  Sx : list T;
}.

(** [Sj[nnz] = Aj[jj]; Sx[nnz] = Ax[jj]; nnz++;] *)
Definition soc_emit (Aj : list Z) (Ax : list T) (jj : Z) (st : soc_state) : soc_state :=
  {| nnz := nnz st + 1;
     Sp := Sp st;
     Sj := (Sj st).[nnz st <- Aj.[jj]];
     Sx := (Sx st).[nnz st <- Ax.[jj]] |}.

(** The body shared by the two strength templates, which differ only in
    the start value [init] of [max_offdiagonal] and in the measure
    [norm] applied to an entry ([mynorm(Ax[jj])] or [-Ax[jj]]). *)
Definition soc_max_offdiagonal (init : F) (norm : T -> F)
    (Aj : list Z) (Ax : list T) (i row_start row_end : Z) : F :=
  for_ row_start row_end
    (fun jj max_offdiagonal =>
       if negb (Aj.[jj] =? i)
       then std_max max_offdiagonal (norm Ax.[jj])
       else max_offdiagonal)
    init.

Definition soc_entry (norm : T -> F) (threshold : F)
    (Aj : list Z) (Ax : list T) (i jj : Z) (st : soc_state) : soc_state :=
  let norm_jj := norm Ax.[jj] in
  (* Add entry if it exceeds the threshold *)
  let st :=
    if (norm_jj >=? threshold)%sc
    then (if negb (Aj.[jj] =? i) then soc_emit Aj Ax jj st else st)
    else st in
  (* Always add the diagonal *)
  if Aj.[jj] =? i then soc_emit Aj Ax jj st else st.

Definition soc_row (init : F) (norm : T -> F) (theta : F)
    (Ap Aj : list Z) (Ax : list T) (i : Z) (st : soc_state) : soc_state :=
  let row_start := Ap.[i] in
  let row_end := Ap.[i + 1] in
  let max_offdiagonal := soc_max_offdiagonal init norm Aj Ax i row_start row_end in
  let threshold := (theta * max_offdiagonal)%sc in
  let st := for_ row_start row_end (soc_entry norm threshold Aj Ax i) st in
  {| nnz := nnz st; Sp := (Sp st).[i + 1 <- nnz st]; Sj := Sj st; Sx := Sx st |}.

Definition soc_kernel (init : F) (norm : T -> F) (n_row : Z) (theta : F)
    (Ap Aj : list Z) (Ax : list T) (Sp0 Sj0 : list Z) (Sx0 : list T) : soc_state :=
  for_ 0 n_row (soc_row init norm theta Ap Aj Ax)
    {| nnz := 0; Sp := Sp0.[0 <- 0]; Sj := Sj0; Sx := Sx0 |}.

(** Row [i] of a CSR matrix as the list of its (column, value) pairs. *)
Definition csr_row (Ap Aj : list Z) (Ax : list T) (i : Z) : list (Z * T) :=
  map (fun p => (Aj.[p], Ax.[p])) (range Ap.[i] Ap.[i + 1]).

Definition out_row (st : soc_state) (i : Z) : list (Z * T) :=
  csr_row (Sp st) (Sj st) (Sx st) i.
End StrengthOfConnection.

Arguments soc_state : clear implicits.

(** [classical_strength_of_connection_abs]: the maximum starts from
    [std::numeric_limits<F>::min()] and entries are measured by [mynorm]. *)
Definition classical_strength_of_connection_abs {T F} `{Scalar T, Scalar F, !Magnitude T F}
    (n_row : Z) (theta : F) (Ap Aj : list Z) (Ax : list T)
    (Sp0 Sj0 : list Z) (Sx0 : list T) : soc_state T :=
  soc_kernel numeric_limits_min mynorm n_row theta Ap Aj Ax Sp0 Sj0 Sx0.

(** [classical_strength_of_connection_min]: the maximum starts from [0.0]
    and entries are measured by [-Ax[jj]]. *)
Definition classical_strength_of_connection_min {T} `{Scalar T}
    (n_row : Z) (theta : T) (Ap Aj : list Z) (Ax : list T)
    (Sp0 Sj0 : list Z) (Sx0 : list T) : soc_state T :=
  soc_kernel s_zero s_opp n_row theta Ap Aj Ax Sp0 Sj0 Sx0.

(** [maximum_row_value]: [x[i]] receives the largest magnitude of row [i]. *)
Definition maximum_row_value {T F} `{Scalar T, Scalar F, !Magnitude T F}
    (n_row : Z) (x : list T) (Ap Aj : list Z) (Ax : list T) : list T :=
  for_ 0 n_row
    (fun i x =>
       let max_entry : F := numeric_limits_min in
       let row_start := Ap.[i] in
       let row_end := Ap.[i + 1] in
       (* Find this row's max entry *)
       let max_entry :=
         for_ row_start row_end
           (fun jj max_entry => std_max max_entry (mynorm Ax.[jj])) max_entry in
       x.[i <- of_magnitude max_entry])
    x.

(** ** C/F splittings *)

Definition F_NODE : Z := 0.
Definition C_NODE : Z := 1.
Definition U_NODE : Z := 2.

(** [std::fill(a, a + n, v)] *)
Definition fill {A} (a : list A) (n : Z) (v : A) : list A :=
  for_ 0 n (fun i a => a.[i <- v]) a.

(** [std::swap(a[x], a[y])] *)
Definition swap (a : list Z) (x y : Z) : list Z :=
  let tmp := a.[x] in
  let a := a.[x <- a.[y]] in
  a.[y <- tmp].

(** [std::vector<I> v(n, x)] *)
Definition vector {A} (n : Z) (x : A) : list A := replicate (Z.to_nat n) x.

(** *** Ruge-Stuben splitting *)

Record rs_state := {
  lambda : list Z;
  interval_ptr : list Z;
  interval_count : list Z;
  index_to_node : list Z;
  node_to_index : list Z;
  splitting : list Z;
}.

Definition set_splitting (st : rs_state) (s : list Z) : rs_state :=
  {| lambda := lambda st; interval_ptr := interval_ptr st;
     interval_count := interval_count st; index_to_node := index_to_node st;
     node_to_index := node_to_index st; splitting := s |}.

Definition set_interval_count (st : rs_state) (c : list Z) : rs_state :=
  {| lambda := lambda st; interval_ptr := interval_ptr st;
     interval_count := c; index_to_node := index_to_node st;
     node_to_index := node_to_index st; splitting := splitting st |}.

(** Lines 231-245: the buckets of equal [lambda], laid out one after
    the other in [index_to_node].  The bucket [lambda = n_nodes] is not
    visited by the second loop: its start stays [0] and its count is
    not reset, so the index of line 241 can reach [n_nodes] or more
    when rows of [T] hold [n_nodes] entries; [rs_init_in_range] below
    tells when every access of these lines is inside its vector. *)
Definition rs_init_intervals (n_nodes : Z) (lambda : list Z) : rs_state :=
  let interval_ptr := vector (n_nodes + 1) 0 in
  let interval_count := vector (n_nodes + 1) 0 in
  let index_to_node := vector n_nodes 0 in
  let node_to_index := vector n_nodes 0 in
  let interval_count :=
    for_ 0 n_nodes
      (fun i cnt => cnt.[lambda.[i] <- cnt.[lambda.[i]] + 1]) interval_count in
  let '(interval_ptr, interval_count, _) :=
    for_ 0 n_nodes
      (fun i '(ptr, cnt, cumsum) =>
         let ptr := ptr.[i <- cumsum] in
         let cumsum := cumsum + cnt.[i] in
         let cnt := cnt.[i <- 0] in
         (ptr, cnt, cumsum))
      (interval_ptr, interval_count, 0) in
  let '(interval_count, index_to_node, node_to_index) :=
    for_ 0 n_nodes
      (fun i '(cnt, i2n, n2i) =>
         let lambda_i := lambda.[i] in
         let index := interval_ptr.[lambda_i] + cnt.[lambda_i] in
         let i2n := i2n.[index <- i] in
         let n2i := n2i.[i <- index] in
         let cnt := cnt.[lambda_i <- cnt.[lambda_i] + 1] in
         (cnt, i2n, n2i))
      (interval_count, index_to_node, node_to_index) in
  {| lambda := lambda; interval_ptr := interval_ptr;
     interval_count := interval_count; index_to_node := index_to_node;
     node_to_index := node_to_index; splitting := [] |}.

(** Lines 289-306: move [k] to the end of its interval and into the
    next one. *)
Definition rs_increment (n_nodes k : Z) (st : rs_state) : rs_state :=
  if (lambda st).[k] >=? n_nodes - 1 then st else
  let lambda_k := (lambda st).[k] in
  let old_pos := (node_to_index st).[k] in
  let new_pos := (interval_ptr st).[lambda_k] + (interval_count st).[lambda_k] - 1 in
  let n2i := (node_to_index st).[(index_to_node st).[old_pos] <- new_pos] in
  let n2i := n2i.[(index_to_node st).[new_pos] <- old_pos] in
  let i2n := swap (index_to_node st) old_pos new_pos in
  (* update intervals *)
  let cnt := interval_count st in
  let cnt := cnt.[lambda_k <- cnt.[lambda_k] - 1] in
  let cnt := cnt.[lambda_k + 1 <- cnt.[lambda_k + 1] + 1] in
  let ptr := (interval_ptr st).[lambda_k + 1 <- new_pos] in
  (* increment lambda_k *)
  let lam := (lambda st).[k <- (lambda st).[k] + 1] in
  {| lambda := lam; interval_ptr := ptr; interval_count := cnt;
     index_to_node := i2n; node_to_index := n2i; splitting := splitting st |}.

(** Lines 316-336: move [j] to the beginning of its interval and into
    the previous one. *)
Definition rs_decrement (j : Z) (st : rs_state) : rs_state :=
  if (lambda st).[j] =? 0 then st else
  let lambda_j := (lambda st).[j] in
  let old_pos := (node_to_index st).[j] in
  let new_pos := (interval_ptr st).[lambda_j] in
  let n2i := (node_to_index st).[(index_to_node st).[old_pos] <- new_pos] in
  let n2i := n2i.[(index_to_node st).[new_pos] <- old_pos] in
  let i2n := swap (index_to_node st) old_pos new_pos in
  (* update intervals *)
  let cnt := interval_count st in
  let cnt := cnt.[lambda_j <- cnt.[lambda_j] - 1] in
  let cnt := cnt.[lambda_j - 1 <- cnt.[lambda_j - 1] + 1] in
  let ptr := interval_ptr st in
  let ptr := ptr.[lambda_j <- ptr.[lambda_j] + 1] in
  let ptr := ptr.[lambda_j - 1 <- ptr.[lambda_j] - cnt.[lambda_j - 1]] in
  (* decrement lambda_j *)
  let lam := (lambda st).[j <- (lambda st).[j] - 1] in
  {| lambda := lam; interval_ptr := ptr; interval_count := cnt;
     index_to_node := i2n; node_to_index := n2i; splitting := splitting st |}.

(** Lines 278-310: every [U] node that [i] influences becomes [F], and
    the [U] nodes it depended on gain weight. *)
Definition rs_mark_dependents (n_nodes : Z) (Sp Sj Tp Tj : list Z) (i : Z)
    (st : rs_state) : rs_state :=
  for_ Tp.[i] Tp.[i + 1]
    (fun jj st =>
       let j := Tj.[jj] in
       if (splitting st).[j] =? U_NODE then
         let st := set_splitting st (splitting st).[j <- F_NODE] in
         for_ Sp.[j] Sp.[j + 1]
           (fun kk st =>
              let k := Sj.[kk] in
              if (splitting st).[k] =? U_NODE then rs_increment n_nodes k st else st)
           st
       else st)
    st.

(** Lines 313-338. *)
Definition rs_demote_influences (Sp Sj : list Z) (i : Z) (st : rs_state) : rs_state :=
  for_ Sp.[i] Sp.[i + 1]
    (fun jj st =>
       let j := Sj.[jj] in
       if (splitting st).[j] =? U_NODE then rs_decrement j st else st)
    st.

(** One iteration of the main loop, lines 258-339.  The [assert] of
    line 273 is compiled out (NDEBUG), as in a release build. *)
Definition rs_select (n_nodes : Z) (Sp Sj Tp Tj : list Z) (top_index : Z)
    (st : rs_state) : rs_state :=
  let i := (index_to_node st).[top_index] in
  let lambda_i := (lambda st).[i] in
  (* remove i from its interval *)
  let st := set_interval_count st
              (interval_count st).[lambda_i <- (interval_count st).[lambda_i] - 1] in
  if (splitting st).[i] =? F_NODE then st
  else
    let st := set_splitting st (splitting st).[i <- C_NODE] in
    let st := rs_mark_dependents n_nodes Sp Sj Tp Tj i st in
    rs_demote_influences Sp Sj i st.

(** Lines 250-254: all nodes with no neighbors become F nodes. *)
Definition rs_prepass (n_nodes : Z) (Tp Tj : list Z) (lambda splitting : list Z) : list Z :=
  for_ 0 n_nodes
    (fun i splitting =>
       if (lambda.[i] =? 0) || ((lambda.[i] =? 1) && (Tj.[Tp.[i]] =? i))
       then splitting.[i <- F_NODE] else splitting)
    splitting.

Definition rs_cf_splitting (n_nodes : Z) (Sp Sj Tp Tj : list Z) (splitting0 : list Z) : list Z :=
  (* compute lambdas *)
  let lambda :=
    for_ 0 n_nodes (fun i lam => lam.[i <- Tp.[i + 1] - Tp.[i]]) (vector n_nodes 0) in
  let st := rs_init_intervals n_nodes lambda in
  let spl := fill splitting0 n_nodes U_NODE in
  let spl := rs_prepass n_nodes Tp Tj lambda spl in
  let st := set_splitting st spl in
  (* Now add elements to C and F, in descending order of lambda *)
  let st := for_down n_nodes (rs_select n_nodes Sp Sj Tp Tj) st in
  splitting st.

(** *** CLJP splitting *)

(** The C library generator behind [srand] and [rand]: [srand seed]
    replaces the hidden state by one that depends on the seed alone, and
    [rand] returns a value in [0, RAND_MAX] and advances the state. *)
Record libc_rand (G : Type) := {
  srand : Z -> G;
  rand : G -> Z * G;
  RAND_MAX : Z;
}.
Arguments srand {G}.
Arguments rand {G}.
Arguments RAND_MAX {G}.

Section CLJP.
Context {W : Type} `{Scalar W}.
Context {G : Type} (libc : libc_rand G).
(** [vertex_coloring_mis(n, Sp, Sj, x)] of graph.h: the colouring it
    writes to [x]. *)
Context (vertex_coloring_mis : Z -> list Z -> list Z -> list Z -> list Z).

Record cljp_state := {
  c_splitting : list Z;
  weight : list W;
  edgemark : list Z;
  c_dep_cache : list Z;
  D : list Z;
  Dlist : list Z;
  nD : Z;
  unassigned : Z;
  pass : Z;
}.

Definition with_splitting (st : cljp_state) (s : list Z) : cljp_state :=
  {| c_splitting := s; weight := weight st; edgemark := edgemark st;
     c_dep_cache := c_dep_cache st; D := D st; Dlist := Dlist st; nD := nD st;
     unassigned := unassigned st; pass := pass st |}.

Definition with_D (st : cljp_state) (d : list Z) : cljp_state :=
  {| c_splitting := c_splitting st; weight := weight st; edgemark := edgemark st;
     c_dep_cache := c_dep_cache st; D := d; Dlist := Dlist st; nD := nD st;
     unassigned := unassigned st; pass := pass st |}.

Definition with_cache (st : cljp_state) (c : list Z) : cljp_state :=
  {| c_splitting := c_splitting st; weight := weight st; edgemark := edgemark st;
     c_dep_cache := c; D := D st; Dlist := Dlist st; nD := nD st;
     unassigned := unassigned st; pass := pass st |}.

(** [*std::max_element(v.begin(), v.end())] *)
Definition max_element (v : list Z) : Z := fold_left Z.max v (hd 0 v).

(** Lines 392-415: the initial weights. *)
Definition cljp_base_weights (g : G) (n : Z) (Sp Sj : list Z) (colorflag : Z)
    : list W * G :=
  let coloring := vector n 0 in
  let weight : list W := vector n s_zero in
  if colorflag =? 1 then
    let coloring := vertex_coloring_mis n Sp Sj coloring in
    let ncolors := max_element coloring + 1 in
    (for_ 0 n
       (fun i w => w.[i <- (s_of_int coloring.[i] / s_of_int ncolors)%sc]) weight,
     g)
  else
    let g := srand libc 2448422 in
    for_ 0 n
      (fun i '(w, g) =>
         let '(r, g) := rand libc g in
         (w.[i <- (s_of_int r / s_of_int (RAND_MAX libc))%sc], g))
      (weight, g).

Definition cljp_init_weights (n : Z) (Sp Sj : list Z) (weight : list W) : list W :=
  for_ 0 n
    (fun i w =>
       for_ Sp.[i] Sp.[i + 1]
         (fun jj w =>
            let j := Sj.[jj] in
            if negb (i =? j) then w.[j <- (w.[j] + s_one)%sc] else w)
         w)
    weight.

(** Lines 430-436 and 439-445: scan a row for a heavier [U] neighbour
    of [i]; [D[i]] is cleared and the scan left at the first one. *)
Definition cljp_scan (Ap Aj : list Z) (i : Z) (st : cljp_state) : cljp_state :=
  for_break Ap.[i] Ap.[i + 1]
    (fun jj st =>
       let j := Aj.[jj] in
       if ((c_splitting st).[j] =? U_NODE) && ((weight st).[j] >? (weight st).[i])%sc
       then (with_D st (D st).[i <- 0], true)
       else (st, false))
    st.

(** Lines 427-455: the body of the selection scan for node [i]. *)
Definition cljp_consider (Sp Sj Tp Tj : list Z) (i : Z) (st : cljp_state) : cljp_state :=
  if (c_splitting st).[i] =? U_NODE then
    let st := with_D st (D st).[i <- 1] in
    (* check row (S_i^T) *)
    let st := cljp_scan Sp Sj i st in
    (* check col (S_i) *)
    let st := if (D st).[i] =? 1 then cljp_scan Tp Tj i st else st in
    if (D st).[i] =? 1 then
      {| c_splitting := c_splitting st; weight := weight st;
         edgemark := edgemark st; c_dep_cache := c_dep_cache st; D := D st;
         Dlist := (Dlist st).[nD st <- i]; nD := nD st + 1;
         unassigned := unassigned st - 1; pass := pass st |}
    else st
  else with_D st (D st).[i <- 0].

(** Lines 425-459: select the independent set. *)
Definition cljp_select (n : Z) (Sp Sj Tp Tj : list Z) (st : cljp_state) : cljp_state :=
  let st :=
    {| c_splitting := c_splitting st; weight := weight st; edgemark := edgemark st;
       c_dep_cache := c_dep_cache st; D := D st; Dlist := Dlist st; nD := 0;
       unassigned := unassigned st; pass := pass st |} in
  let st := for_ 0 n (cljp_consider Sp Sj Tp Tj) st in
  for_ 0 (nD st)
    (fun i st => with_splitting st (c_splitting st).[(Dlist st).[i] <- C_NODE]) st.

(** Lines 471-476 and 499-505: remove the edge [e], lower the weight of
    its end [j], and make [j] an F node once its weight is below 1. *)
Definition cljp_remove_edge (e j : Z) (st : cljp_state) : cljp_state :=
  let edgemark := (edgemark st).[e <- 0] in
  let weight := (weight st).[j <- ((weight st).[j] - s_one)%sc] in
  if (weight.[j] <? s_one)%sc then
    {| c_splitting := (c_splitting st).[j <- F_NODE]; weight := weight;
       edgemark := edgemark; c_dep_cache := c_dep_cache st; D := D st;
       Dlist := Dlist st; nD := nD st; unassigned := unassigned st - 1;
       pass := pass st |}
  else
    {| c_splitting := c_splitting st; weight := weight;
       edgemark := edgemark; c_dep_cache := c_dep_cache st; D := D st;
       Dlist := Dlist st; nD := nD st; unassigned := unassigned st;
       pass := pass st |}.

(** Lines 465-479 (P5): nbrs that influence C points are not good C points. *)
Definition cljp_P5 (Sp Sj : list Z) (st : cljp_state) : cljp_state :=
  for_ 0 (nD st)
    (fun iD st =>
       let c := (Dlist st).[iD] in
       for_ Sp.[c] Sp.[c + 1]
         (fun jj st =>
            let j := Sj.[jj] in
            if ((c_splitting st).[j] =? U_NODE) && negb ((edgemark st).[jj] =? 0)
            then cljp_remove_edge jj j st else st)
         st)
    st.

(** Lines 484-510 (P6). *)
Definition cljp_P6 (Sp Sj Tp Tj : list Z) (st : cljp_state) : cljp_state :=
  for_ 0 (nD st)
    (fun iD st =>
       let c := (Dlist st).[iD] in
       let st :=
         for_ Tp.[c] Tp.[c + 1]
           (fun jj st =>
              let j := Tj.[jj] in
              if (c_splitting st).[j] =? U_NODE
              then with_cache st (c_dep_cache st).[j <- c] else st)
           st in
       for_ Tp.[c] Tp.[c + 1]
         (fun jj st =>
            let j := Tj.[jj] in
            for_ Sp.[j] Sp.[j + 1]
              (fun kk st =>
                 let k := Sj.[kk] in
                 if ((c_splitting st).[k] =? U_NODE) && negb ((edgemark st).[kk] =? 0)
                 then (if (c_dep_cache st).[k] =? c
                       then cljp_remove_edge kk k st else st)
                 else st)
              st)
         st)
    st.

(** One pass of the selection loop, lines 421-510. *)
Definition cljp_round (n : Z) (Sp Sj Tp Tj : list Z) (st : cljp_state) : cljp_state :=
  let st :=
    {| c_splitting := c_splitting st; weight := weight st; edgemark := edgemark st;
       c_dep_cache := c_dep_cache st; D := D st; Dlist := Dlist st; nD := nD st;
       unassigned := unassigned st; pass := pass st + 1 |} in
  let st := cljp_select n Sp Sj Tp Tj st in
  let st := cljp_P5 Sp Sj st in
  cljp_P6 Sp Sj Tp Tj st.

(** [while (unassigned > 0)], with fuel. *)
Fixpoint cljp_loop (fuel : nat) (n : Z) (Sp Sj Tp Tj : list Z) (st : cljp_state)
    : option cljp_state :=
  if unassigned st >? 0 then
    match fuel with
    | O => None
    | S fuel => cljp_loop fuel n Sp Sj Tp Tj (cljp_round n Sp Sj Tp Tj st)
    end
  else Some st.

(** The state on entry to the selection loop, lines 372-416. *)
Definition cljp_init (g : G) (n : Z) (Sp Sj : list Z) (splitting0 : list Z)
    (colorflag : Z) : cljp_state * G :=
  let nnz := Sp.[n] in
  let '(w, g) := cljp_base_weights g n Sp Sj colorflag in
  ({| c_splitting := fill splitting0 n U_NODE;
      weight := cljp_init_weights n Sp Sj w;
      edgemark := vector nnz 1;
      c_dep_cache := vector n (-1);
      D := vector n 0;
      Dlist := vector n 0;
      nD := 0;
      unassigned := n;
      pass := 0 |}, g).

(** Lines 514-523: after the loop. *)
Definition cljp_finish (n : Z) (Sp : list Z) (st : cljp_state) : cljp_state :=
  let em :=
    for_ 0 Sp.[n]
      (fun i em => if em.[i] =? 0 then em.[i <- -1] else em) (edgemark st) in
  let spl :=
    for_ 0 n
      (fun i spl => if spl.[i] =? U_NODE then spl.[i <- F_NODE] else spl)
      (c_splitting st) in
  {| c_splitting := spl; weight := weight st; edgemark := em;
     c_dep_cache := c_dep_cache st; D := D st; Dlist := Dlist st; nD := nD st;
     unassigned := unassigned st; pass := pass st |}.

(** [cljp_naive_splitting]: the splitting it leaves in the caller's
    array, and the state in which it leaves the C library generator;
    [None] when the fuel does not suffice for the selection loop. *)
Definition cljp_naive_splitting (fuel : nat) (g : G) (n : Z) (Sp Sj Tp Tj : list Z)
    (splitting0 : list Z) (colorflag : Z) : option (list Z * G) :=
  let '(st, g) := cljp_init g n Sp Sj splitting0 colorflag in
  match cljp_loop fuel n Sp Sj Tp Tj st with
  | Some st => Some (c_splitting (cljp_finish n Sp st), g)
  | None => None
  end.
End CLJP.

Arguments cljp_state : clear implicits.

(** ** Direct interpolation *)

(** [rs_direct_interpolation_pass1]: the row pointer [Bp] of the
    prolongator. *)
Definition rs_direct_interpolation_pass1 (n_nodes : Z) (Sp Sj : list Z)
    (splitting : list Z) (Bp : list Z) : list Z :=
  let Bp := Bp.[0 <- 0] in
  snd
    (for_ 0 n_nodes
       (fun i '(nnz, Bp) =>
          let nnz :=
            if splitting.[i] =? C_NODE then nnz + 1
            else
              for_ Sp.[i] Sp.[i + 1]
                (fun jj nnz =>
                   if (splitting.[Sj.[jj]] =? C_NODE) && negb (Sj.[jj] =? i)
                   then nnz + 1 else nnz)
                nnz in
          (nnz, Bp.[i + 1 <- nnz]))
       (0, Bp)).

Section DirectInterpolation.
Context {T : Type} `{Scalar T}.

(** Lines 583-627: the entries of the F row [i]. *)
Definition rs_direct_F_row (Ap Aj : list Z) (Ax : list T) (Sp Sj : list Z) (Sx : list T)
    (splitting Bp : list Z) (i : Z) (B : list Z * list T) : list Z * list T :=
  let '(sum_strong_pos, sum_strong_neg) :=
    for_ Sp.[i] Sp.[i + 1]
      (fun jj '(pos, neg) =>
         if (splitting.[Sj.[jj]] =? C_NODE) && negb (Sj.[jj] =? i) then
           if (Sx.[jj] <? s_zero)%sc then (pos, (neg + Sx.[jj])%sc)
           else ((pos + Sx.[jj])%sc, neg)
         else (pos, neg))
      (s_zero, s_zero) in
  let '(sum_all_pos, sum_all_neg, diag) :=
    for_ Ap.[i] Ap.[i + 1]
      (fun jj '(pos, neg, diag) =>
         if Aj.[jj] =? i then (pos, neg, (diag + Ax.[jj])%sc)
         else if (Ax.[jj] <? s_zero)%sc then (pos, (neg + Ax.[jj])%sc, diag)
         else ((pos + Ax.[jj])%sc, neg, diag))
      (s_zero, s_zero, s_zero) in
  let alpha := (sum_all_neg / sum_strong_neg)%sc in
  let beta := (sum_all_pos / sum_strong_pos)%sc in
  let '(diag, beta) :=
    if (sum_strong_pos ==? s_zero)%sc then ((diag + sum_all_pos)%sc, s_zero)
    else (diag, beta) in
  let neg_coeff := (- alpha / diag)%sc in
  let pos_coeff := (- beta / diag)%sc in
  let nnz := Bp.[i] in
  let '(Bj, Bx, _) :=
    for_ Sp.[i] Sp.[i + 1]
      (fun jj '(Bj, Bx, nnz) =>
         if (splitting.[Sj.[jj]] =? C_NODE) && negb (Sj.[jj] =? i) then
           let Bj := Bj.[nnz <- Sj.[jj]] in
           let Bx :=
             if (Sx.[jj] <? s_zero)%sc then Bx.[nnz <- (neg_coeff * Sx.[jj])%sc]
             else Bx.[nnz <- (pos_coeff * Sx.[jj])%sc] in
           (Bj, Bx, nnz + 1)
         else (Bj, Bx, nnz))
      (fst B, snd B, nnz) in
  (Bj, Bx).

(** [rs_direct_interpolation_pass2]: the column indices [Bj] and the
    values [Bx] of the prolongator. *)
Definition rs_direct_interpolation_pass2 (n_nodes : Z)
    (Ap Aj : list Z) (Ax : list T) (Sp Sj : list Z) (Sx : list T)
    (splitting Bp : list Z) (Bj : list Z) (Bx : list T) : list Z * list T :=
  let '(Bj, Bx) :=
    for_ 0 n_nodes
      (fun i '(Bj, Bx) =>
         if splitting.[i] =? C_NODE then (Bj.[Bp.[i] <- i], Bx.[Bp.[i] <- s_one])
         else rs_direct_F_row Ap Aj Ax Sp Sj Sx splitting Bp i (Bj, Bx))
      (Bj, Bx) in
  let '(map, _) :=
    for_ 0 n_nodes
      (fun i '(map, sum) => (map.[i <- sum], sum + splitting.[i]))
      (vector n_nodes 0, 0) in
  let Bj := for_ 0 Bp.[n_nodes] (fun i Bj => Bj.[i <- map.[Bj.[i]]]) Bj in
  (Bj, Bx).

End DirectInterpolation.

(** ** Removal of strong F-F connections *)

(** Lines 1044-1057: do [row] and [j] have a common strong C-point? *)
Definition common_C_point (C_rowptr C_colinds splitting : list Z) (row j : Z) : bool :=
  for_break C_rowptr.[row] C_rowptr.[row + 1]
    (fun ii dependence =>
       let row_ind := C_colinds.[ii] in
       let dependence :=
         if splitting.[row_ind] =? C_NODE then
           for_ C_rowptr.[j] C_rowptr.[j + 1]
             (fun kk dependence =>
                if C_colinds.[kk] =? row_ind then true else dependence)
             dependence
         else dependence in
       (dependence, dependence))
    false.

Definition remove_strong_FF_connections {T} `{Scalar T}
    (n_nodes : Z) (C_rowptr C_colinds : list Z)
    (C_data : list T) (splitting : list Z) : list T :=
  (* For each F-point *)
  for_ 0 n_nodes
    (fun row C_data =>
       if splitting.[row] =? F_NODE then
         for_ C_rowptr.[row] C_rowptr.[row + 1]
           (fun jj C_data =>
              let j := C_colinds.[jj] in
              if splitting.[j] =? F_NODE then
                if common_C_point C_rowptr C_colinds splitting row j
                then C_data
                else C_data.[jj <- s_zero]
              else C_data)
           C_data
       else C_data)
    C_data.

(** ** Compatible relaxation *)

(** [std::abs] on a real scalar: its magnitude, as a scalar. *)
Definition std_abs {T} `{Magnitude T T} (x : T) : T := of_magnitude (mynorm x).

Section CompatibleRelaxation.
Context {T : Type} `{Scalar T, !Magnitude T T}.

(** What [cr_helper] updates in place, and its local vectors. *)
Record cr_state := {
  cr_e : list T;
  cr_indices : list Z;
  cr_splitting : list Z;
  cr_gamma : list T;
  cr_omega : list T;
}.

(** Lines 687-694: divide each element of [e] by the target vector and
    take the infinity norm. *)
Definition cr_scale (B : list T) (indices : list Z) (e : list T) : list T * T :=
  let num_Fpts := indices.[0] in
  for_ 1 (num_Fpts + 1)
    (fun i '(e, inf_norm) =>
       let pt := indices.[i] in
       let e := e.[pt <- std_abs (e.[pt] / B.[pt])%sc] in
       let inf_norm := if (e.[pt] >? inf_norm)%sc then e.[pt] else inf_norm in
       (e, inf_norm))
    (e, s_zero).

(** Lines 697-705: the candidate set measure and the candidates. *)
Definition cr_candidates (indices : list Z) (e : list T) (inf_norm thetacs : T)
    (gamma : list T) : list T * list Z :=
  let num_Fpts := indices.[0] in
  for_ 1 (num_Fpts + 1)
    (fun i '(gamma, Uindex) =>
       let pt := indices.[i] in
       let gamma := gamma.[pt <- (e.[pt] / inf_norm)%sc] in
       let Uindex := if (gamma.[pt] >? thetacs)%sc then Uindex ++ [pt] else Uindex in
       (gamma, Uindex))
    (gamma, []).

(** Lines 709-722: the weights [omega_i = |N_i \ C| + gamma_i]. *)
Definition cr_weights (n : Z) (A_rowptr A_colinds splitting : list Z)
    (gamma : list T) (Uindex : list Z) : list T :=
  let set_size := zlen Uindex in
  for_ 0 set_size
    (fun i omega =>
       let pt := Uindex.[i] in
       let num_neighbors :=
         for_ A_rowptr.[pt] A_rowptr.[pt + 1]
           (fun j num_neighbors =>
              let neighbor := A_colinds.[j] in
              if splitting.[neighbor] =? 0 then num_neighbors + 1 else num_neighbors)
           0 in
       omega.[pt <- (s_of_int num_neighbors + gamma.[pt])%sc])
    (vector n s_zero).

(** Lines 727-736: the candidate of maximal weight, [-1] when every
    weight is zero. *)
Definition cr_heaviest (Uindex : list Z) (omega : list T) : T * Z :=
  for_ 0 (zlen Uindex)
    (fun i '(max_weight, new_pt) =>
       let pt := Uindex.[i] in
       if (omega.[pt] >? max_weight)%sc then (omega.[pt], pt)
       else (max_weight, new_pt))
    (s_zero, -1).

(** Lines 741-768: [new_pt] becomes a C-point, its neighbours leave the
    candidate set, and their neighbours still in it gain weight. *)
Definition cr_add_C_point (A_rowptr A_colinds : list Z) (new_pt : Z) (st : cr_state)
    : cr_state :=
  let splitting := (cr_splitting st).[new_pt <- 1] in
  let gamma := (cr_gamma st).[new_pt <- s_zero] in
  let '(neighbors, omega) :=
    for_ A_rowptr.[new_pt] A_rowptr.[new_pt + 1]
      (fun i '(neighbors, omega) =>
         let temp := A_colinds.[i] in
         (neighbors ++ [temp], omega.[temp <- s_zero]))
      ([], cr_omega st) in
  let num_neighbors := zlen neighbors in
  let omega :=
    for_ 0 num_neighbors
      (fun i omega =>
         let pt := neighbors.[i] in
         for_ A_rowptr.[pt] A_rowptr.[pt + 1]
           (fun j omega =>
              let temp := A_colinds.[j] in
              if negb (omega.[temp] ==? s_zero)%sc
              then omega.[temp <- (omega.[temp] + s_one)%sc] else omega)
           omega)
      omega in
  {| cr_e := cr_e st; cr_indices := cr_indices st; cr_splitting := splitting;
     cr_gamma := gamma; cr_omega := omega |}.

(** [while (true)] of lines 725-769, with fuel; it is left when no
    candidate has a positive weight. *)
Fixpoint cr_loop (fuel : nat) (A_rowptr A_colinds Uindex : list Z) (st : cr_state)
    : option cr_state :=
  let '(_, new_pt) := cr_heaviest Uindex (cr_omega st) in
  if new_pt <? 0 then Some st
  else
    match fuel with
    | O => None
    | S fuel =>
        cr_loop fuel A_rowptr A_colinds Uindex (cr_add_C_point A_rowptr A_colinds new_pt st)
    end.

(** Lines 774-787: [indices[0]], which [num_Fpts] refers to, counts the
    F-points; they follow from cell 1 up, and the C-points from cell
    [n] down. *)
Definition cr_reorder (n : Z) (splitting indices : list Z) : list Z :=
  let indices := indices.[0 <- 0] in
  let '(indices, _, _) :=
    for_ 0 n
      (fun i '(indices, next_Find, next_Cind) =>
         if splitting.[i] =? 0 then
           let indices := indices.[next_Find <- i] in
           let indices := indices.[0 <- indices.[0] + 1] in
           (indices, next_Find + 1, next_Cind)
         else
           (indices.[next_Cind <- i], next_Find, next_Cind - 1))
      (indices, 1, n) in
  indices.

(** [cr_helper]: the arrays [e], [indices], [splitting] and [gamma] as
    it leaves them; [None] when the fuel does not suffice for the loop. *)
Definition cr_helper (fuel : nat) (A_rowptr A_colinds : list Z) (B e : list T)
    (indices splitting : list Z) (gamma : list T) (thetacs : T)
    : option (list T * list Z * list Z * list T) :=
  let n := zlen splitting in
  let '(e, inf_norm) := cr_scale B indices e in
  let '(gamma, Uindex) := cr_candidates indices e inf_norm thetacs gamma in
  let omega := cr_weights n A_rowptr A_colinds splitting gamma Uindex in
  match cr_loop fuel A_rowptr A_colinds Uindex
          {| cr_e := e; cr_indices := indices; cr_splitting := splitting;
             cr_gamma := gamma; cr_omega := omega |} with
  | Some st =>
      Some (cr_e st, cr_reorder n (cr_splitting st) (cr_indices st),
            cr_splitting st, cr_gamma st)
  | None => None
  end.

End CompatibleRelaxation.

Arguments cr_state : clear implicits.

(** ** Standard and distance-two interpolation: the row pointers *)

(** [rs_standard_interpolation_pass1]: the row pointer [P_rowptr] of
    the prolongator. *)
Definition rs_standard_interpolation_pass1 (n_nodes : Z) (C_rowptr C_colinds : list Z)
    (splitting : list Z) (P_rowptr : list Z) : list Z :=
  let P_rowptr := P_rowptr.[0 <- 0] in
  snd
    (for_ 0 n_nodes
       (fun i '(nnz, P_rowptr) =>
          let nnz :=
            if splitting.[i] =? C_NODE then nnz + 1
            else
              for_ C_rowptr.[i] C_rowptr.[i + 1]
                (fun jj nnz =>
                   if (splitting.[C_colinds.[jj]] =? C_NODE) && negb (C_colinds.[jj] =? i)
                   then nnz + 1 else nnz)
                nnz in
          (nnz, P_rowptr.[i + 1 <- nnz]))
       (0, P_rowptr)).

(** [distance_two_amg_interpolation_pass1]: an F-point row also counts
    the strong C-points of its strong F-neighbours. *)
Definition distance_two_amg_interpolation_pass1 (n_nodes : Z)
    (C_rowptr C_colinds : list Z) (splitting : list Z) (P_rowptr : list Z) : list Z :=
  let P_rowptr := P_rowptr.[0 <- 0] in
  snd
    (for_ 0 n_nodes
       (fun i '(nnz, P_rowptr) =>
          let nnz :=
            (* +1 nnz for C-point rows *)
            if splitting.[i] =? C_NODE then nnz + 1
            else
              for_ C_rowptr.[i] C_rowptr.[i + 1]
                (fun jj nnz =>
                   let this_point := C_colinds.[jj] in
                   (* Strong C-point connections *)
                   if splitting.[this_point] =? C_NODE then nnz + 1
                   (* Strong F-point connections (excluding self) *)
                   else if negb (this_point =? i) then
                     for_ C_rowptr.[this_point] C_rowptr.[this_point + 1]
                       (fun kk nnz =>
                          if splitting.[C_colinds.[kk]] =? C_NODE then nnz + 1 else nnz)
                       nnz
                   else nnz)
                nnz in
          (nnz, P_rowptr.[i + 1 <- nnz]))
       (0, P_rowptr)).

(** ** Standard interpolation *)

(** The lines that the second passes print to the standard output:
    "Inner denominator was zero.", "Outer denominator was zero: diagonal
    plus sum of weak connections was zero.", "Outer denominator was
    zero." and "Inner denominator of outer denominator is zero.". *)
Inductive message :=
  | Inner_denominator_was_zero
  | Outer_denominator_was_zero_weak_sum
  | Outer_denominator_was_zero
  | Inner_denominator_of_outer_denominator_is_zero.

(** The literal [1e-16]: the scalar nearest to [10^-16]. *)
Definition tiny {T} `{Scalar T} : T := (s_one / s_of_int (10 ^ 16))%sc.

Section StandardInterpolation.
Context {T : Type} `{Scalar T, !Magnitude T T}.
Variables (n_nodes : Z).
Variables (A_rowptr A_colinds : list Z) (A_data : list T).
Variables (C_rowptr C_colinds : list Z) (C_data : list T).
Variables (splitting P_rowptr : list Z).

(** Lines 895-908: [a_ii] plus the sum of the weak connections of row
    [i]. *)
Definition rs_standard_denominator (i : Z) : T :=
  (* Start by summing entire row of A *)
  let denominator :=
    for_ A_rowptr.[i] A_rowptr.[i + 1]
      (fun mm denominator => (denominator + A_data.[mm])%sc) s_zero in
  (* Then subtract off the strong connections *)
  for_ C_rowptr.[i] C_rowptr.[i + 1]
    (fun mm denominator =>
       if negb (C_colinds.[mm] =? i) then (denominator - C_data.[mm])%sc
       else denominator)
    denominator.

(** Lines 935-941: [a_kj], found by a search over row [k] of [A] that
    is left at the first match. *)
Definition rs_standard_a_kj (k j : Z) : T :=
  for_break A_rowptr.[k] A_rowptr.[k + 1]
    (fun search_ind a_kj =>
       if A_colinds.[search_ind] =? j then (A_data.[search_ind], true)
       else (a_kj, false))
    s_zero.

(** Lines 948-961: the sum of the entries of row [k] of [A] in the
    columns of the strong C-points of [i]. *)
Definition rs_standard_inner_denominator (i k : Z) : T :=
  for_ C_rowptr.[i] C_rowptr.[i + 1]
    (fun ll inner_denominator =>
       if splitting.[C_colinds.[ll]] =? C_NODE then
         let l := C_colinds.[ll] in
         for_ A_rowptr.[k] A_rowptr.[k + 1]
           (fun search_ind inner_denominator =>
              if A_colinds.[search_ind] =? l
              then (inner_denominator + A_data.[search_ind])%sc
              else inner_denominator)
           inner_denominator
       else inner_denominator)
    s_zero.

(** Lines 921-969: the numerator of the weight of the entry at [jj] of
    row [i], and the lines printed on the way. *)
Definition rs_standard_numerator (i jj : Z) (out : list message) : T * list message :=
  let j := C_colinds.[jj] in
  for_ C_rowptr.[i] C_rowptr.[i + 1]
    (fun kk '(numerator, out) =>
       if (splitting.[C_colinds.[kk]] =? F_NODE) && negb (C_colinds.[kk] =? i) then
         let k := C_colinds.[kk] in
         let a_ik := C_data.[kk] in
         let a_kj := rs_standard_a_kj k j in
         if (std_abs a_kj >? tiny)%sc then
           let inner_denominator := rs_standard_inner_denominator i k in
           let out :=
             if (std_abs inner_denominator <? tiny)%sc
             then out ++ [Inner_denominator_was_zero] else out in
           ((numerator + a_ik * a_kj / inner_denominator)%sc, out)
         else (numerator, out)
       else (numerator, out))
    (C_data.[jj], out).

(** Lines 892-977: the entries of the F-point row [i]. *)
Definition rs_standard_F_row (i : Z) (P : list Z * list T * list message)
    : list Z * list T * list message :=
  let '(P_colinds, P_data, out) := P in
  let denominator := rs_standard_denominator i in
  let nnz := P_rowptr.[i] in
  let '(P_colinds, P_data, out, _) :=
    for_ C_rowptr.[i] C_rowptr.[i + 1]
      (fun jj '(P_colinds, P_data, out, nnz) =>
         if splitting.[C_colinds.[jj]] =? C_NODE then
           let P_colinds := P_colinds.[nnz <- C_colinds.[jj]] in
           let '(numerator, out) := rs_standard_numerator i jj out in
           let out :=
             if (std_abs denominator <? tiny)%sc
             then out ++ [Outer_denominator_was_zero_weak_sum] else out in
           let P_data := P_data.[nnz <- (- numerator / denominator)%sc] in
           (P_colinds, P_data, out, nnz + 1)
         else (P_colinds, P_data, out, nnz))
      (P_colinds, P_data, out, nnz) in
  (P_colinds, P_data, out).

(** [rs_standard_interpolation_pass2]: the column indices and the
    values of the prolongator, and the lines printed. *)
Definition rs_standard_interpolation_pass2
    (P_colinds : list Z) (P_data : list T) : list Z * list T * list message :=
  let '(P_colinds, P_data, out) :=
    for_ 0 n_nodes
      (fun i '(P_colinds, P_data, out) =>
         if splitting.[i] =? C_NODE
         then (P_colinds.[P_rowptr.[i] <- i], P_data.[P_rowptr.[i] <- s_one], out)
         else rs_standard_F_row i (P_colinds, P_data, out))
      (P_colinds, P_data, []) in
  let '(map, _) :=
    for_ 0 n_nodes
      (fun i '(map, sum) => (map.[i <- sum], sum + splitting.[i]))
      (vector n_nodes 0, 0) in
  let P_colinds :=
    for_ 0 P_rowptr.[n_nodes] (fun i P_colinds => P_colinds.[i <- map.[P_colinds.[i]]])
      P_colinds in
  (P_colinds, P_data, out).

End StandardInterpolation.

(** ** Modified standard and distance-two interpolation *)

Section SignedInterpolation.
Context {T : Type} `{Scalar T, !Magnitude T T}.
(** [signof] of linalg.h. *)
Context (signof : T -> T).
Variables (n_nodes : Z).
Variables (A_rowptr A_colinds : list Z) (A_data : list T).
Variables (C_rowptr C_colinds : list Z) (C_data : list T).
Variables (splitting P_rowptr : list Z).

(** [a_kj] and [a_kk] (lines 1181-1191): the search over row [k] of
    [A] runs to the end of the row. *)
Definition search_a_kj_a_kk (k j : Z) : T * T :=
  for_ A_rowptr.[k] A_rowptr.[k + 1]
    (fun search_ind '(a_kj, a_kk) =>
       if A_colinds.[search_ind] =? j then (A_data.[search_ind], a_kk)
       else if A_colinds.[search_ind] =? k then (a_kj, A_data.[search_ind])
       else (a_kj, a_kk))
    (s_zero, s_zero).

(** The first entry of row [k] of [A] in column [j], [0] when there is
    none (lines 1606-1612, 2008-2014): the search is left at the first
    match. *)
Definition first_entry (k j : Z) : T :=
  for_break A_rowptr.[k] A_rowptr.[k + 1]
    (fun search_ind a =>
       if A_colinds.[search_ind] =? j then (A_data.[search_ind], true)
       else (a, false))
    s_zero.

(** Lines 1213-1221: the first entry [a_kl] of row [k] of [A] in
    column [l] is added when its sign differs from the sign of [a_kk]. *)
Definition add_a_kl (k l : Z) (a_kk inner_denominator : T) : T :=
  for_break A_rowptr.[k] A_rowptr.[k + 1]
    (fun search_ind inner_denominator =>
       if A_colinds.[search_ind] =? l then
         let a_kl := A_data.[search_ind] in
         (if negb (signof a_kl ==? signof a_kk)%sc
          then (inner_denominator + a_kl)%sc else inner_denominator,
          true)
       else (inner_denominator, false))
    inner_denominator.

(** Lines 1204-1225: the inner denominator of
    [mod_standard_interpolation_pass2], over the strong C-points of [i]. *)
Definition mod_standard_inner_denominator (i k : Z) (a_kk : T) : T :=
  for_ C_rowptr.[i] C_rowptr.[i + 1]
    (fun ll inner_denominator =>
       if splitting.[C_colinds.[ll]] =? C_NODE then
         let l := C_colinds.[ll] in
         add_a_kl k l a_kk inner_denominator
       else inner_denominator)
    s_zero.

(** Lines 1939-1978: the inner denominator of
    [extended_interpolation_pass2], over the strong C-points of [i] and
    the strong C-points of its other strong F-points. *)
Definition extended_inner_denominator (i k : Z) (a_kk : T) : T :=
  for_ C_rowptr.[i] C_rowptr.[i + 1]
    (fun ll inner_denominator =>
       let this_point := C_colinds.[ll] in
       (* Strong C-connections *)
       if splitting.[this_point] =? C_NODE then
         add_a_kl k this_point a_kk inner_denominator
       (* Strong F-connections (excluding self) *)
       else if negb (this_point =? i) then
         for_ C_rowptr.[this_point] C_rowptr.[this_point + 1]
           (fun ff inner_denominator =>
              let d2_point := C_colinds.[ff] in
              if splitting.[d2_point] =? C_NODE
              then add_a_kl k d2_point a_kk inner_denominator
              else inner_denominator)
           inner_denominator
       else inner_denominator)
    s_zero.

(** Lines 1562-1616: the inner denominator of
    [extended_plusi_interpolation_pass2] adds [a_ki]. *)
Definition extended_plusi_inner_denominator (i k : Z) (a_kk : T) : T :=
  let inner_denominator := extended_inner_denominator i k a_kk in
  (* Add a_ki to inner denominator *)
  let a_ki := first_entry k i in
  let a_ki := if (signof a_ki ==? signof a_kk)%sc then s_zero else a_ki in
  (inner_denominator + a_ki)%sc.

(** The block "Sum over strongly connected F points" (lines 1174-1232,
    1532-1626, 1662-1756, 1904-1985 and 2018-2099): the five copies
    differ in the column [j] the weight is for, in the start value of
    the numerator and in the inner denominator [inner]. *)
Definition signed_numerator (inner : Z -> Z -> T -> T) (i j : Z) (numerator : T)
    (out : list message) : T * list message :=
  for_ C_rowptr.[i] C_rowptr.[i + 1]
    (fun kk '(numerator, out) =>
       if (splitting.[C_colinds.[kk]] =? F_NODE) && negb (C_colinds.[kk] =? i) then
         (* Get column k and value a_ik *)
         let k := C_colinds.[kk] in
         let a_ik := C_data.[kk] in
         let '(a_kj, a_kk) := search_a_kj_a_kk k j in
         (* If sign of a_kj matches sign of a_kk, ignore a_kj in sum *)
         let a_kj := if (signof a_kj ==? signof a_kk)%sc then s_zero else a_kj in
         if (std_abs a_kj >? tiny)%sc then
           let inner_denominator := inner i k a_kk in
           let out :=
             if (std_abs inner_denominator <? tiny)%sc
             then out ++ [Inner_denominator_was_zero] else out in
           ((numerator + a_ik * a_kj / inner_denominator)%sc, out)
         else (numerator, out)
       else (numerator, out))
    (numerator, out).

(** Lines 1134-1241: the entries of the F-point row [i] of
    [mod_standard_interpolation_pass2]. *)
Definition mod_standard_F_row (i : Z) (P : list Z * list T * list message)
    : list Z * list T * list message :=
  let '(P_colinds, P_data, out) := P in
  let denominator := rs_standard_denominator A_rowptr A_data C_rowptr C_colinds C_data i in
  let nnz := P_rowptr.[i] in
  let '(P_colinds, P_data, out, _) :=
    for_ C_rowptr.[i] C_rowptr.[i + 1]
      (fun jj '(P_colinds, P_data, out, nnz) =>
         if splitting.[C_colinds.[jj]] =? C_NODE then
           let P_colinds := P_colinds.[nnz <- C_colinds.[jj]] in
           let j := C_colinds.[jj] in
           let '(numerator, out) :=
             signed_numerator mod_standard_inner_denominator i j C_data.[jj] out in
           let out :=
             if (std_abs denominator <? tiny)%sc
             then out ++ [Outer_denominator_was_zero_weak_sum] else out in
           let P_data := P_data.[nnz <- (- numerator / denominator)%sc] in
           (P_colinds, P_data, out, nnz + 1)
         else (P_colinds, P_data, out, nnz))
      (P_colinds, P_data, out, nnz) in
  (P_colinds, P_data, out).

(** [mod_standard_interpolation_pass2]: the column indices and the
    values of the prolongator, and the lines printed. *)
Definition mod_standard_interpolation_pass2
    (P_colinds : list Z) (P_data : list T) : list Z * list T * list message :=
  let '(P_colinds, P_data, out) :=
    for_ 0 n_nodes
      (fun i '(P_colinds, P_data, out) =>
         if splitting.[i] =? C_NODE
         then (P_colinds.[P_rowptr.[i] <- i], P_data.[P_rowptr.[i] <- s_one], out)
         else mod_standard_F_row i (P_colinds, P_data, out))
      (P_colinds, P_data, []) in
  let '(map, _) :=
    for_ 0 n_nodes
      (fun i '(map, sum) => (map.[i <- sum], sum + splitting.[i]))
      (vector n_nodes 0, 0) in
  let P_colinds :=
    for_ 0 P_rowptr.[n_nodes] (fun i P_colinds => P_colinds.[i <- map.[P_colinds.[i]]])
      P_colinds in
  (P_colinds, P_data, out).

(** Lines 1846-1881 (and 1388-1424): the outer denominator of the
    distance-two formulas, [a_ii] plus the weak connections that are
    not distance-two strong C-connections. *)
Definition extended_denominator (i : Z) : T :=
  (* Start by summing entire row of A *)
  let denominator :=
    for_ A_rowptr.[i] A_rowptr.[i + 1]
      (fun mm denominator => (denominator + A_data.[mm])%sc) s_zero in
  for_ C_rowptr.[i] C_rowptr.[i + 1]
    (fun mm denominator =>
       let this_point := C_colinds.[mm] in
       let denominator :=
         if negb (this_point =? i) then (denominator - C_data.[mm])%sc else denominator in
       if (splitting.[this_point] =? F_NODE) && negb (this_point =? i) then
         for_ C_rowptr.[this_point] C_rowptr.[this_point + 1]
           (fun ff denominator =>
              let d2_point := C_colinds.[ff] in
              if splitting.[d2_point] =? C_NODE then
                for_break A_rowptr.[i] A_rowptr.[i + 1]
                  (fun search_ind denominator =>
                     if A_colinds.[search_ind] =? d2_point
                     then ((denominator - A_data.[search_ind])%sc, true)
                     else (denominator, false))
                  denominator
              else denominator)
           denominator
       else denominator)
    denominator.

(** Lines 1426-1505: [extended_plusi_interpolation_pass2] adds to the
    outer denominator a term for every other strong F-point of [i]. *)
Definition extended_plusi_denominator (i : Z) (out : list message) : T * list message :=
  for_ C_rowptr.[i] C_rowptr.[i + 1]
    (fun kk '(denominator, out) =>
       if (splitting.[C_colinds.[kk]] =? F_NODE) && negb (C_colinds.[kk] =? i) then
         let k := C_colinds.[kk] in
         let a_ik := C_data.[kk] in
         let '(a_ki, a_kk) := search_a_kj_a_kk k i in
         let a_ki := if (signof a_ki ==? signof a_kk)%sc then s_zero else a_ki in
         if (std_abs a_ki >? tiny)%sc then
           let inner_denominator := extended_inner_denominator i k a_kk in
           let inner_denominator := (inner_denominator + a_ki)%sc in
           let out :=
             if (std_abs inner_denominator <? tiny)%sc
             then out ++ [Inner_denominator_of_outer_denominator_is_zero] else out in
           ((denominator + a_ik * a_ki / inner_denominator)%sc, out)
         else (denominator, out)
       else (denominator, out))
    (extended_denominator i, out).

(** Lines 1885-2108 (and 1509-1766): the entries of the F-point row
    [i] of the distance-two formulas, for the outer denominator
    [denominator] and the inner denominator [inner]: one entry for
    every strong C-point, and for every other strong F-point one entry
    for each of its strong C-points. *)
Definition distance_two_entries (inner : Z -> Z -> T -> T) (denominator : T) (i : Z)
    (P : list Z * list T * list message) : list Z * list T * list message :=
  let '(P_colinds, P_data, out) := P in
  let nnz := P_rowptr.[i] in
  let '(P_colinds, P_data, out, _) :=
    for_ C_rowptr.[i] C_rowptr.[i + 1]
      (fun jj '(P_colinds, P_data, out, nnz) =>
         let neighbor := C_colinds.[jj] in
         (* strong distance-one C-points *)
         if splitting.[neighbor] =? C_NODE then
           let P_colinds := P_colinds.[nnz <- neighbor] in
           let '(numerator, out) := signed_numerator inner i neighbor C_data.[jj] out in
           let out :=
             if (std_abs denominator <? tiny)%sc
             then out ++ [Outer_denominator_was_zero] else out in
           let P_data := P_data.[nnz <- (- numerator / denominator)%sc] in
           (P_colinds, P_data, out, nnz + 1)
         (* strong distance-two C-points *)
         else if negb (neighbor =? i) then
           for_ C_rowptr.[neighbor] C_rowptr.[neighbor + 1]
             (fun dd '(P_colinds, P_data, out, nnz) =>
                let neighbor2 := C_colinds.[dd] in
                if splitting.[neighbor2] =? C_NODE then
                  let P_colinds := P_colinds.[nnz <- neighbor2] in
                  let a_ij := first_entry i neighbor2 in
                  let '(numerator, out) := signed_numerator inner i neighbor2 a_ij out in
                  let out :=
                    if (std_abs denominator <? tiny)%sc
                    then out ++ [Outer_denominator_was_zero] else out in
                  let P_data := P_data.[nnz <- (- numerator / denominator)%sc] in
                  (P_colinds, P_data, out, nnz + 1)
                else (P_colinds, P_data, out, nnz))
             (P_colinds, P_data, out, nnz)
         else (P_colinds, P_data, out, nnz))
      (P_colinds, P_data, out, nnz) in
  (P_colinds, P_data, out).

(** [extended_interpolation_pass2]. *)
Definition extended_interpolation_pass2
    (P_colinds : list Z) (P_data : list T) : list Z * list T * list message :=
  let '(P_colinds, P_data, out) :=
    for_ 0 n_nodes
      (fun i '(P_colinds, P_data, out) =>
         if splitting.[i] =? C_NODE
         then (P_colinds.[P_rowptr.[i] <- i], P_data.[P_rowptr.[i] <- s_one], out)
         else
           let denominator := extended_denominator i in
           distance_two_entries extended_inner_denominator denominator i
             (P_colinds, P_data, out))
      (P_colinds, P_data, []) in
  let '(map, _) :=
    for_ 0 n_nodes
      (fun i '(map, sum) => (map.[i <- sum], sum + splitting.[i]))
      (vector n_nodes 0, 0) in
  let P_colinds :=
    for_ 0 P_rowptr.[n_nodes] (fun i P_colinds => P_colinds.[i <- map.[P_colinds.[i]]])
      P_colinds in
  (P_colinds, P_data, out).

(** [extended_plusi_interpolation_pass2]. *)
Definition extended_plusi_interpolation_pass2
    (P_colinds : list Z) (P_data : list T) : list Z * list T * list message :=
  let '(P_colinds, P_data, out) :=
    for_ 0 n_nodes
      (fun i '(P_colinds, P_data, out) =>
         if splitting.[i] =? C_NODE
         then (P_colinds.[P_rowptr.[i] <- i], P_data.[P_rowptr.[i] <- s_one], out)
         else
           let '(denominator, out) := extended_plusi_denominator i out in
           distance_two_entries extended_plusi_inner_denominator denominator i
             (P_colinds, P_data, out))
      (P_colinds, P_data, []) in
  let '(map, _) :=
    for_ 0 n_nodes
      (fun i '(map, sum) => (map.[i <- sum], sum + splitting.[i]))
      (vector n_nodes 0, 0) in
  let P_colinds :=
    for_ 0 P_rowptr.[n_nodes] (fun i P_colinds => P_colinds.[i <- map.[P_colinds.[i]]])
      P_colinds in
  (P_colinds, P_data, out).

End SignedInterpolation.

(** * Vocabulary of the statements *)

(** ** Well-formed inputs *)

(** The columns stored in row [i] of a CSR pattern. *)
Definition csr_cols (Ap Aj : list Z) (i : Z) : list Z :=
  map (fun p => Aj.[p]) (range Ap.[i] Ap.[i + 1]).

(** [Ap[r] <= Ap[r+1]] for every row [r] below [n]. *)
Definition row_ptr_ok (n : Z) (Ap : list Z) : bool :=
  forallb (fun r => Ap.[r] <=? Ap.[r + 1]) (range 0 n).

(** What the caller owes: monotone row pointers and output buffers that
    hold [n_row + 1] row pointers and as many entries as [A] stores. *)
Definition soc_input_ok {T} (n_row : Z) (Ap Sp0 Sj0 : list Z) (Sx0 : list T) : bool :=
  (0 <=? n_row) && row_ptr_ok n_row Ap && (n_row + 1 <=? zlen Sp0)
  && (Ap.[n_row] - Ap.[0] <=? zlen Sj0) && (Ap.[n_row] - Ap.[0] <=? zlen Sx0).

(** ** Strength of connection *)

(** [m] is a greatest element of [l]. *)
Definition is_greatest {F} `{Scalar F} (m : F) (l : list F) : Prop :=
  In m l /\ forall x, In x l -> s_leb x m = true.

(** The measures [norm Ax[jj]] of the off-diagonal entries stored at
    the positions [lo <= jj < hi] of row [i]. *)
Definition offdiag_measures {T F} `{Scalar T} (norm : T -> F)
    (Aj : list Z) (Ax : list T) (i lo hi : Z) : list F :=
  map (fun jj => norm Ax.[jj]) (List.filter (fun jj => negb (Aj.[jj] =? i)) (range lo hi)).

(** The first [nnz] cells of [Sj], [Sx] hold the entries [l]. *)
Definition soc_holds {T} `{Scalar T} (st : soc_state T) (l : list (Z * T)) : Prop :=
  nnz st = zlen l /\
  forall p, 0 <= p < zlen l -> l !! Z.to_nat p = Some ((Sj st).[p], (Sx st).[p]).

(** The buffers keep their lengths and [Sp] is not written. *)
Definition soc_frame {T} (st0 st : soc_state T) : Prop :=
  Sp st = Sp st0 /\ zlen (Sj st) = zlen (Sj st0) /\ zlen (Sx st) = zlen (Sx st0).

Section SOCVocabulary.
Context {T F : Type} `{Scalar T, Scalar F}.
Variables (init : F) (norm : T -> F) (theta : F).
Variables (Ap Aj : list Z) (Ax : list T).

(** The entries that [soc_entry] appends for position [jj] of row [i]:
    a diagonal entry always, another entry when it meets the threshold. *)
Definition soc_kept (threshold : F) (i jj : Z) : list (Z * T) :=
  if Aj.[jj] =? i then [(Aj.[jj], Ax.[jj])]
  else if (norm Ax.[jj] >=? threshold)%sc then [(Aj.[jj], Ax.[jj])]
  else [].

Definition soc_threshold (i : Z) : F :=
  (theta * soc_max_offdiagonal init norm Aj Ax i Ap.[i] Ap.[i + 1])%sc.

Definition soc_kept_row (i : Z) : list (Z * T) :=
  flat_map (soc_kept (soc_threshold i) i) (range Ap.[i] Ap.[i + 1]).

Definition soc_kept_upto (k : Z) : list (Z * T) :=
  flat_map soc_kept_row (range 0 k).

(** After the rows below [k]: the buffers hold what those rows keep and
    [Sp[r]] is the number of entries kept by the rows below [r]. *)
Definition soc_rows_done (Sp0 Sj0 : list Z) (Sx0 : list T) (k : Z) (st : soc_state T) : Prop :=
  soc_holds st (soc_kept_upto k)
  /\ zlen (Sp st) = zlen Sp0 /\ zlen (Sj st) = zlen Sj0 /\ zlen (Sx st) = zlen Sx0
  /\ forall r, 0 <= r <= k -> (Sp st).[r] = zlen (soc_kept_upto r).
End SOCVocabulary.

(** ** Ruge-Stuben splitting *)





(** ** CLJP splitting *)

(** The number of [U] nodes of a splitting. *)
Definition count_U (spl : list Z) : Z :=
  zlen (List.filter (fun x => x =? U_NODE) spl).

(** What every pass of the selection loop keeps: [unassigned] counts
    the [U] nodes, and the arrays of the nodes have [n] cells. *)
Definition cljp_inv {W} (n : Z) (st : cljp_state W) : Prop :=
  unassigned st = count_U (c_splitting st)
  /\ zlen (c_splitting st) = n /\ zlen (D st) = n /\ zlen (Dlist st) = n.

(** [i] is a [U] node and no [U] node is heavier. *)
Definition maximal_U {W} `{Scalar W} (st : cljp_state W) (i : Z) : Prop :=
  (c_splitting st).[i] = U_NODE
  /\ forall j, (c_splitting st).[j] = U_NODE ->
       ((weight st).[j] >? (weight st).[i])%sc = false.

(** [i] is among the nodes selected in this pass. *)
Definition in_Dlist {W} (st : cljp_state W) (i : Z) : Prop :=
  exists p, 0 <= p < nD st /\ (Dlist st).[p] = i.

(** A [U] neighbour stored in row [i] of the pattern [(Ap, Aj)] is
    strictly heavier than [i]. *)
Definition outweighed {W} `{Scalar W} (Ap Aj : list Z) (st : cljp_state W) (i : Z) : bool :=
  existsb (fun jj => ((c_splitting st).[Aj.[jj]] =? U_NODE)
                     && ((weight st).[Aj.[jj]] >? (weight st).[i])%sc)
    (range Ap.[i] Ap.[i + 1]).

(** The test a pass applies to node [i]: it is a [U] node and no [U]
    neighbour in its row of [S] or of [T] is strictly heavier. *)
Definition selectable {W} `{Scalar W} (Sp Sj Tp Tj : list Z) (st : cljp_state W) (i : Z)
    : bool :=
  ((c_splitting st).[i] =? U_NODE)
  && negb (outweighed Sp Sj st i) && negb (outweighed Tp Tj st i).

(** What the scan over the nodes below [k] has established. *)
Definition select_inv {W} `{Scalar W} (Sp Sj Tp Tj : list Z)
    (st0 : cljp_state W) (k : Z) (s : cljp_state W) : Prop :=
  c_splitting s = c_splitting st0 /\ weight s = weight st0
  /\ zlen (D s) = zlen (D st0) /\ zlen (Dlist s) = zlen (Dlist st0)
  /\ 0 <= nD s <= k /\ unassigned s = unassigned st0 - nD s
  /\ (forall p, 0 <= p < nD s -> 0 <= (Dlist s).[p] < k)
  /\ (forall p q, 0 <= p < q -> q < nD s -> (Dlist s).[p] < (Dlist s).[q])
  /\ (forall i, 0 <= i < k -> (in_Dlist s i <-> selectable Sp Sj Tp Tj st0 i = true)).

(** What the weight updates keep: the invariant, and an [unassigned]
    no larger than [u]. *)
Definition cljp_below {W} (n u : Z) (st : cljp_state W) : Prop :=
  cljp_inv n st /\ unassigned st <= u.

(** The first [n] cells hold node tags. *)
Definition tags_ok (n : Z) (spl : list Z) : Prop :=
  forall i, 0 <= i < n -> spl.[i] = F_NODE \/ spl.[i] = C_NODE \/ spl.[i] = U_NODE.

(** A generator that always returns [r], for evaluating the splitting
    on concrete inputs. *)
Definition constant_rand (r : Z) : libc_rand unit :=
  {| srand := fun _ => tt; rand := fun g => (r, g); RAND_MAX := 2147483647 |}.

(** ** Removal of strong F-F connections *)

(** Column [m] is stored in row [row]. *)
Definition stored_in_row (C_rowptr C_colinds : list Z) (row m : Z) : Prop :=
  exists p, C_rowptr.[row] <= p < C_rowptr.[row + 1] /\ C_colinds.[p] = m.

(** Some C-point [m] is stored both in row [row] and in row [j]. *)
Definition common_strong_C (C_rowptr C_colinds splitting : list Z) (row j : Z) : Prop :=
  exists m, splitting.[m] = C_NODE
            /\ stored_in_row C_rowptr C_colinds row m
            /\ stored_in_row C_rowptr C_colinds j m.

(** The connection stored at [e] in row [row] is to be removed. *)
Definition strong_FF_without_C (C_rowptr C_colinds splitting : list Z) (row e : Z) : Prop :=
  splitting.[row] = F_NODE /\ splitting.[C_colinds.[e]] = F_NODE
  /\ ~ common_strong_C C_rowptr C_colinds splitting row C_colinds.[e].

(** The test the code applies to the entry at [jj] of row [row]. *)
Definition removes (C_rowptr C_colinds splitting : list Z) (row jj : Z) : bool :=
  (splitting.[row] =? F_NODE) && (splitting.[C_colinds.[jj]] =? F_NODE)
  && negb (common_C_point C_rowptr C_colinds splitting row C_colinds.[jj]).

(** ** Interpolation *)

(** The positions of row [i] of [S] that hold a C-point other than [i]:
    the entries an F-point row [i] interpolates from. *)
Definition strong_C_entries (Sp Sj splitting : list Z) (i : Z) : list Z :=
  List.filter (fun jj => (splitting.[Sj.[jj]] =? C_NODE) && negb (Sj.[jj] =? i))
    (range Sp.[i] Sp.[i + 1]).

(** The number of entries of row [i] of the prolongator. *)
Definition P_row_size (Sp Sj splitting : list Z) (i : Z) : Z :=
  if splitting.[i] =? C_NODE then 1 else zlen (strong_C_entries Sp Sj splitting i).

Definition zsum (l : list Z) : Z := fold_right Z.add 0 l.

(** The number of C-points stored in row [k] of [S]. *)
Definition C_points_in_row (Sp Sj splitting : list Z) (k : Z) : Z :=
  zlen (List.filter (fun kk => splitting.[Sj.[kk]] =? C_NODE) (range Sp.[k] Sp.[k + 1])).

(** The number of entries of row [i] of the distance-two prolongator:
    for an F-point, its strong C-points and, for every other strong
    F-point of the row, the C-points of that point's row. *)
Definition P_row_size_distance_two (Sp Sj splitting : list Z) (i : Z) : Z :=
  if splitting.[i] =? C_NODE then 1
  else zsum (map (fun jj =>
                    if splitting.[Sj.[jj]] =? C_NODE then 1
                    else if negb (Sj.[jj] =? i) then C_points_in_row Sp Sj splitting Sj.[jj]
                    else 0)
               (range Sp.[i] Sp.[i + 1])).

(** What a first pass leaves in the row pointer, for the row sizes
    [size]. *)
Definition row_pointer_of (size : Z -> Z) (n_nodes : Z) (Bp0 Bp : list Z) : Prop :=
  length Bp = length Bp0
  /\ Bp.[0] = 0
  /\ (forall i, 0 <= i < n_nodes -> Bp.[i + 1] = Bp.[i] + size i)
  /\ (forall j, n_nodes < j -> Bp.[j] = Bp0.[j]).

(** [0] stored in the cells listed in [l]. *)
Definition zero_at {T} `{Scalar T} (l : list Z) (d : list T) : list T :=
  fold_left (fun d p => d.[p <- s_zero]) l d.

(** The cells that [remove_strong_FF_connections] clears for the row
    [row]. *)
Definition removed_in_row (C_rowptr C_colinds splitting : list Z) (row : Z) : list Z :=
  if splitting.[row] =? F_NODE then
    List.filter
      (fun jj => (splitting.[C_colinds.[jj]] =? F_NODE)
                 && negb (common_C_point C_rowptr C_colinds splitting row C_colinds.[jj]))
      (range C_rowptr.[row] C_rowptr.[row + 1])
  else [].

(** The values [l] stored in the cells [pos], [pos + 1], ... of [a]. *)
Fixpoint write_from {A} (a : list A) (pos : Z) (l : list A) : list A :=
  match l with
  | [] => a
  | v :: l' => write_from a.[pos <- v] (pos + 1) l'
  end.

(** Lines 630-634 number the C-points: the column of the point [c] is
    the sum of [splitting[k]] over the points [k] below [c]. *)
Definition coarse_index (splitting : list Z) (c : Z) : Z :=
  zsum (map (fun k => splitting.[k]) (range 0 c)).

Section DirectVocabulary.
Context {T : Type} `{Scalar T}.
Variables (Ap Aj : list Z) (Ax : list T) (Sp Sj : list Z) (Sx : list T).
Variables (splitting : list Z).

(** Lines 583-612: [neg_coeff] and [pos_coeff] of the F-point row [i]. *)
Definition rs_direct_coefficients (i : Z) : T * T :=
  let '(sum_strong_pos, sum_strong_neg) :=
    for_ Sp.[i] Sp.[i + 1]
      (fun jj '(pos, neg) =>
         if (splitting.[Sj.[jj]] =? C_NODE) && negb (Sj.[jj] =? i) then
           if (Sx.[jj] <? s_zero)%sc then (pos, (neg + Sx.[jj])%sc)
           else ((pos + Sx.[jj])%sc, neg)
         else (pos, neg))
      (s_zero, s_zero) in
  let '(sum_all_pos, sum_all_neg, diag) :=
    for_ Ap.[i] Ap.[i + 1]
      (fun jj '(pos, neg, diag) =>
         if Aj.[jj] =? i then (pos, neg, (diag + Ax.[jj])%sc)
         else if (Ax.[jj] <? s_zero)%sc then (pos, (neg + Ax.[jj])%sc, diag)
         else ((pos + Ax.[jj])%sc, neg, diag))
      (s_zero, s_zero, s_zero) in
  let alpha := (sum_all_neg / sum_strong_neg)%sc in
  let beta := (sum_all_pos / sum_strong_pos)%sc in
  let '(diag, beta) :=
    if (sum_strong_pos ==? s_zero)%sc then ((diag + sum_all_pos)%sc, s_zero)
    else (diag, beta) in
  ((- alpha / diag)%sc, (- beta / diag)%sc).

(** Lines 617-620: the weight of the entry at [jj] of the F-point row [i]. *)
Definition rs_direct_weight (i jj : Z) : T :=
  if (Sx.[jj] <? s_zero)%sc then (fst (rs_direct_coefficients i) * Sx.[jj])%sc
  else (snd (rs_direct_coefficients i) * Sx.[jj])%sc.

(** Row [i] of the prolongator of direct interpolation, with the
    columns numbered by [col]: the entry [1] for a C-point, and for an
    F-point one weighted entry per strong C-point, in the order of [S]. *)
Definition rs_direct_row (col : Z -> Z) (i : Z) : list (Z * T) :=
  if splitting.[i] =? C_NODE then [(col i, s_one)]
  else map (fun jj => (col Sj.[jj], rs_direct_weight i jj))
         (strong_C_entries Sp Sj splitting i).
End DirectVocabulary.

(** ** Compatible relaxation *)

(** In [cr_helper] the tag [0] marks an F-point and any other tag a
    C-point: the points of each kind below [n], in increasing order. *)
Definition cr_F_points (n : Z) (splitting : list Z) : list Z :=
  List.filter (fun i => splitting.[i] =? 0) (range 0 n).

Definition cr_C_points (n : Z) (splitting : list Z) : list Z :=
  List.filter (fun i => negb (splitting.[i] =? 0)) (range 0 n).

(** The number of cells of [omega] that hold a nonzero weight. *)
Definition nonzero_weights {T} `{Scalar T} (omega : list T) : Z :=
  zlen (List.filter (fun w => negb (w ==? s_zero)%sc) omega).

Section StandardVocabulary.
Context {T : Type} `{Scalar T, !Magnitude T T}.
Variables (A_rowptr A_colinds : list Z) (A_data : list T).
Variables (C_rowptr C_colinds : list Z) (C_data : list T).
Variables (splitting : list Z).

(** Line 971: the weight [-numerator / denominator] of the entry at
    [jj] of the F-point row [i]. *)
Definition rs_standard_weight (i jj : Z) : T :=
  (- fst (rs_standard_numerator A_rowptr A_colinds A_data C_rowptr C_colinds C_data
            splitting i jj [])
   / rs_standard_denominator A_rowptr A_data C_rowptr C_colinds C_data i)%sc.

(** Row [i] of the prolongator of standard interpolation, with the
    columns numbered by [col]. *)
Definition rs_standard_row (col : Z -> Z) (i : Z) : list (Z * T) :=
  if splitting.[i] =? C_NODE then [(col i, s_one)]
  else map (fun jj => (col C_colinds.[jj], rs_standard_weight i jj))
         (strong_C_entries C_rowptr C_colinds splitting i).
End StandardVocabulary.

(** The sum of a list of rationals. *)
Definition qsum (l : list Q) : Q := fold_right Qplus 0%Q l.

(** Row [i] of a prolongator whose F-point rows hold the entries
    [entries i], given with the points they interpolate from: the
    columns are numbered by [col]. *)
Definition interpolation_row {T} `{Scalar T} (splitting : list Z)
    (entries : Z -> list (Z * T)) (col : Z -> Z) (i : Z) : list (Z * T) :=
  if splitting.[i] =? C_NODE then [(col i, s_one)]
  else map (fun cv => (col (fst cv), snd cv)) (entries i).

Section SignedVocabulary.
Context {T : Type} `{Scalar T, !Magnitude T T}.
Context (signof : T -> T).
Variables (A_rowptr A_colinds : list Z) (A_data : list T).
Variables (C_rowptr C_colinds : list Z) (C_data : list T).
Variables (splitting : list Z).

(** The weight [-numerator / denominator] for the point [j] of the
    F-point row [i], from the start value [a_ij] of the numerator. *)
Definition signed_weight (inner : Z -> Z -> T -> T) (denominator : T) (i j : Z) (a_ij : T)
    : T :=
  (- fst (signed_numerator signof A_rowptr A_colinds A_data C_rowptr C_colinds C_data
            splitting inner i j a_ij [])
   / denominator)%sc.

(** The entries of the F-point row [i] of modified standard
    interpolation: one per C-point other than [i] stored in row [i] of
    [C]. *)
Definition mod_standard_entries (i : Z) : list (Z * T) :=
  map (fun jj =>
         (C_colinds.[jj],
          signed_weight
            (mod_standard_inner_denominator signof A_rowptr A_colinds A_data
               C_rowptr C_colinds splitting)
            (rs_standard_denominator A_rowptr A_data C_rowptr C_colinds C_data i)
            i C_colinds.[jj] C_data.[jj]))
    (strong_C_entries C_rowptr C_colinds splitting i).

(** The points the F-point row [i] of a distance-two formula
    interpolates from, each with the start value [a_ij] of its
    numerator: every C-point stored in row [i] of [C] and, for every
    other point [k] stored there and different from [i], the C-points
    stored in row [k] of [C], in this order. *)
Definition distance_two_targets (i : Z) : list (Z * T) :=
  flat_map
    (fun jj =>
       let neighbor := C_colinds.[jj] in
       if splitting.[neighbor] =? C_NODE then [(neighbor, C_data.[jj])]
       else if negb (neighbor =? i) then
         map (fun dd => (C_colinds.[dd], first_entry A_rowptr A_colinds A_data i C_colinds.[dd]))
           (List.filter (fun dd => splitting.[C_colinds.[dd]] =? C_NODE)
              (range C_rowptr.[neighbor] C_rowptr.[neighbor + 1]))
       else [])
    (range C_rowptr.[i] C_rowptr.[i + 1]).

(** The entries of the F-point row [i] of a distance-two formula. *)
Definition distance_two_row_entries (inner : Z -> Z -> T -> T) (denominator : Z -> T)
    (i : Z) : list (Z * T) :=
  map (fun ja => (fst ja, signed_weight inner (denominator i) i (fst ja) (snd ja)))
    (distance_two_targets i).

Definition extended_entries : Z -> list (Z * T) :=
  distance_two_row_entries
    (extended_inner_denominator signof A_rowptr A_colinds A_data C_rowptr C_colinds splitting)
    (extended_denominator A_rowptr A_colinds A_data C_rowptr C_colinds C_data splitting).

Definition extended_plusi_entries : Z -> list (Z * T) :=
  distance_two_row_entries
    (extended_plusi_inner_denominator signof A_rowptr A_colinds A_data C_rowptr C_colinds
       splitting)
    (fun i => fst (extended_plusi_denominator signof A_rowptr A_colinds A_data
                     C_rowptr C_colinds C_data splitting i [])).

End SignedVocabulary.

(** * Properties *)

(** ** Arrays *)

Section ArrayFacts.
Context {A : Type} `{Zero A}.
Implicit Types (a : list A) (i j : Z) (v : A).

Lemma length_aset a i v : length (a.[i <- v]) = length a.
Proof. unfold aset. destruct (i <? 0); [done | apply length_insert]. Qed.

Lemma zlen_aset a i v : zlen (a.[i <- v]) = zlen a.
Proof. unfold zlen. by rewrite length_aset. Qed.

Lemma aget_aset_eq a i v : 0 <= i < zlen a -> (a.[i <- v]).[i] = v.
Proof.
  unfold aget, aset, zlen. intros Hi.
  destruct (Z.ltb_spec i 0); [lia |].
  rewrite list_lookup_insert_eq; [done | lia].
Qed.

Lemma aget_aset_ne a i j v : i <> j -> (a.[i <- v]).[j] = a.[j].
Proof.
  unfold aget, aset. intros Hij.
  destruct (Z.ltb_spec j 0); [done |].
  destruct (Z.ltb_spec i 0); [done |].
  rewrite list_lookup_insert_ne; [done | lia].
Qed.

Lemma aset_oob a i v : i < 0 \/ zlen a <= i -> a.[i <- v] = a.
Proof.
  unfold aset, zlen. intros Hi.
  destruct (Z.ltb_spec i 0); [done |].
  apply list_insert_ge. lia.
Qed.

Lemma aget_oob a i : i < 0 \/ zlen a <= i -> a.[i] = zero_of.
Proof.
  unfold aget, zlen. intros Hi.
  destruct (Z.ltb_spec i 0); [done |].
  rewrite lookup_ge_None_2; [done | lia].
Qed.

(** A write changes at most the cell it names. *)
Lemma aget_aset a i j v :
  (a.[i <- v]).[j] = a.[j] \/ (i = j /\ (a.[i <- v]).[j] = v).
Proof.
  destruct (Z.eq_dec i j) as [-> | Hne]; [| left; by apply aget_aset_ne].
  destruct (Z.ltb_spec j 0); [left; by rewrite aset_oob by lia |].
  destruct (Z.ltb_spec j (zlen a)); [right; split; [done | by apply aget_aset_eq] |].
  left. by rewrite aset_oob by lia.
Qed.

Lemma aget_lookup a i x : 0 <= i -> a !! Z.to_nat i = Some x -> a.[i] = x.
Proof.
  unfold aget. intros Hi Hx. destruct (Z.ltb_spec i 0); [lia |]. by rewrite Hx.
Qed.

Lemma lookup_aget a i : 0 <= i < zlen a -> a !! Z.to_nat i = Some a.[i].
Proof.
  unfold aget, zlen. intros Hi. destruct (Z.ltb_spec i 0); [lia |].
  destruct (lookup_lt_is_Some_2 a (Z.to_nat i)) as [x Hx]; [lia |]. by rewrite Hx.
Qed.

End ArrayFacts.

Lemma zlen_vector {A} n (x : A) : 0 <= n -> zlen (vector n x) = n.
Proof. unfold zlen, vector. rewrite length_replicate. lia. Qed.


(** ** Loops *)

Lemma range_nil lo hi : hi <= lo -> range lo hi = [].
Proof. intros. unfold range. apply seqZ_nil. lia. Qed.

Lemma range_cons lo hi : lo < hi -> range lo hi = lo :: range (lo + 1) hi.
Proof.
  intros. unfold range. rewrite seqZ_cons by lia.
  f_equal. f_equal; lia.
Qed.

Lemma range_snoc lo hi : lo <= hi -> range lo (hi + 1) = range lo hi ++ [hi].
Proof.
  intros. unfold range.
  replace (hi + 1 - lo) with ((hi - lo) + 1) by lia.
  rewrite seqZ_app by lia. f_equal.
  rewrite seqZ_cons by lia. rewrite seqZ_nil by lia. f_equal. lia.
Qed.

Lemma elem_of_range i lo hi : i ∈ range lo hi <-> lo <= i < hi.
Proof. unfold range. rewrite elem_of_seqZ. lia. Qed.

Lemma length_range lo hi : length (range lo hi) = Z.to_nat (hi - lo).
Proof. apply length_seqZ. Qed.

Lemma lookup_range lo hi (k : nat) :
  lo + Z.of_nat k < hi -> range lo hi !! k = Some (lo + Z.of_nat k).
Proof. intros. unfold range. apply lookup_seqZ_lt. lia. Qed.

Section LoopFacts.
Context {St : Type}.
Implicit Types (st : St) (lo hi : Z).

Lemma fold_left_invariant (P : St -> Prop) (body : Z -> St -> St) (l : list Z) st :
  P st -> (forall i s, i ∈ l -> P s -> P (body i s)) ->
  P (fold_left (fun s i => body i s) l st).
Proof.
  revert st. induction l as [| i l IH]; intros st Hst Hbody; simpl; [done |].
  apply IH.
  - apply Hbody; [left | done].
  - intros j s Hj. apply Hbody. by right.
Qed.

(** An invariant that does not mention the loop index. *)
Lemma for_invariant (P : St -> Prop) lo hi (body : Z -> St -> St) st :
  P st -> (forall i s, lo <= i < hi -> P s -> P (body i s)) ->
  P (for_ lo hi body st).
Proof.
  intros Hst Hbody. unfold for_. apply fold_left_invariant; [done |].
  intros i s Hi. apply Hbody. by apply elem_of_range.
Qed.


Lemma for_break_invariant (P : St -> Prop) lo hi (body : Z -> St -> St * bool) st :
  P st -> (forall i s, lo <= i < hi -> P s -> P (fst (body i s))) ->
  P (for_break lo hi body st).
Proof.
  unfold for_break. intros Hst Hbody.
  assert (Hin : forall i, i ∈ range lo hi -> lo <= i < hi) by (intros i; apply elem_of_range).
  revert st Hst. induction (range lo hi) as [| i l IH]; intros st Hst; simpl; [done |].
  specialize (Hbody i st (Hin i (list_elem_of_here _ _)) Hst).
  destruct (body i st) as [st' brk]; simpl in Hbody.
  destruct brk; [done |]. apply IH; [| done].
  intros j Hj. apply Hin. by right.
Qed.

Lemma for_nil lo hi (body : Z -> St -> St) st : hi <= lo -> for_ lo hi body st = st.
Proof. intros. unfold for_. by rewrite range_nil. Qed.

Lemma for_snoc lo hi (body : Z -> St -> St) st :
  lo <= hi -> for_ lo (hi + 1) body st = body hi (for_ lo hi body st).
Proof. intros. unfold for_. rewrite range_snoc by done. by rewrite fold_left_app. Qed.

Lemma for_cons lo hi (body : Z -> St -> St) st :
  lo < hi -> for_ lo hi body st = for_ (lo + 1) hi body (body lo st).
Proof. intros. unfold for_. by rewrite range_cons. Qed.

(** An invariant indexed by the number of iterations done. *)
Lemma for_induction (P : Z -> St -> Prop) lo hi (body : Z -> St -> St) st :
  lo <= hi -> P lo st ->
  (forall i s, lo <= i < hi -> P i s -> P (i + 1) (body i s)) ->
  P hi (for_ lo hi body st).
Proof.
  intros Hle Hst Hbody.
  assert (Hk : forall k : nat, lo + Z.of_nat k <= hi ->
                 P (lo + Z.of_nat k) (for_ lo (lo + Z.of_nat k) body st)).
  { induction k as [| k IH]; intros Hk.
    - rewrite for_nil by lia. by replace (lo + Z.of_nat 0) with lo by lia.
    - replace (lo + Z.of_nat (S k)) with ((lo + Z.of_nat k) + 1) by lia.
      rewrite for_snoc by lia. apply Hbody; [lia |]. apply IH. lia. }
  specialize (Hk (Z.to_nat (hi - lo))).
  replace (lo + Z.of_nat (Z.to_nat (hi - lo))) with hi in Hk by lia.
  apply Hk. lia.
Qed.

End LoopFacts.

(** ** Ruge-Stuben splitting: F is absorbing *)

Section RSFacts.
Variables (n_nodes : Z) (Sp Sj Tp Tj : list Z).












End RSFacts.


(** ** Strength of connection: what the output rows hold *)

Lemma row_ptr_ok_spec n Ap :
  row_ptr_ok n Ap = true -> forall r, 0 <= r < n -> Ap.[r] <= Ap.[r + 1].
Proof.
  unfold row_ptr_ok. rewrite forallb_forall. intros Hall r Hr.
  apply Z.leb_le, Hall, list_elem_of_In, elem_of_range. lia.
Qed.

Section SOCFacts.
Context {T F : Type} `{Scalar T, Scalar F}.
Variables (init : F) (norm : T -> F) (theta : F).
Variables (Ap Aj : list Z) (Ax : list T).

Implicit Types (st : soc_state T).

Local Abbreviation soc_kept := (soc_kept norm Aj Ax).
Local Abbreviation soc_threshold := (soc_threshold init norm theta Ap Aj Ax).
Local Abbreviation soc_kept_row := (soc_kept_row init norm theta Ap Aj Ax).
Local Abbreviation soc_kept_upto := (soc_kept_upto init norm theta Ap Aj Ax).
Local Abbreviation soc_rows_done := (soc_rows_done init norm theta Ap Aj Ax).

Lemma zlen_app {A} (l1 l2 : list A) : zlen (l1 ++ l2) = zlen l1 + zlen l2.
Proof. unfold zlen. rewrite length_app. lia. Qed.

Lemma zlen_nonneg {A} (l : list A) : 0 <= zlen l.
Proof. unfold zlen. lia. Qed.

Lemma soc_emit_holds jj st l :
  soc_holds st l -> zlen l < zlen (Sj st) -> zlen l < zlen (Sx st) ->
  soc_holds (soc_emit Aj Ax jj st) (l ++ [(Aj.[jj], Ax.[jj])]).
Proof.
  intros [Hn Hl] Hcj Hcx. pose proof (zlen_nonneg l) as Hl0.
  split; simpl; [rewrite zlen_app; unfold zlen at 2; simpl; lia |].
  intros p Hp. rewrite zlen_app in Hp. unfold zlen at 2 in Hp. simpl in Hp.
  rewrite Hn. destruct (Z.eq_dec p (zlen l)) as [-> | Hne].
  - rewrite !aget_aset_eq by lia.
    rewrite lookup_app_r by (unfold zlen; lia).
    unfold zlen. replace (_ - _)%nat with 0%nat by lia. done.
  - rewrite !aget_aset_ne by done.
    rewrite lookup_app_l by (unfold zlen in *; lia). apply Hl. lia.
Qed.

Lemma zlen_soc_kept threshold i jj : zlen (soc_kept threshold i jj) <= 1.
Proof. unfold soc_kept, zlen. repeat destruct (_ : bool); simpl; lia. Qed.

Lemma soc_frame_refl st : soc_frame st st.
Proof. done. Qed.

Lemma soc_frame_emit st0 st jj : soc_frame st0 st -> soc_frame st0 (soc_emit Aj Ax jj st).
Proof. intros (? & ? & ?). split; [done |]. simpl. by rewrite !zlen_aset. Qed.

Lemma soc_entry_holds threshold i jj st0 st l :
  soc_frame st0 st -> soc_holds st l ->
  zlen l < zlen (Sj st) -> zlen l < zlen (Sx st) ->
  soc_frame st0 (soc_entry norm threshold Aj Ax i jj st)
  /\ soc_holds (soc_entry norm threshold Aj Ax i jj st) (l ++ soc_kept threshold i jj).
Proof.
  intros Hfr Hst Hcj Hcx. unfold soc_entry, soc_kept.
  destruct (Z.eqb_spec Aj.[jj] i) as [Heq | Hne]; simpl.
  - destruct (_ >=? _)%sc; (split; [by apply soc_frame_emit | by apply soc_emit_holds]).
  - destruct (_ >=? _)%sc.
    + split; [by apply soc_frame_emit | by apply soc_emit_holds].
    + by rewrite app_nil_r.
Qed.

Lemma zlen_flat_map_le {A B} (f : A -> list B) (l : list A) :
  (forall x, zlen (f x) <= 1) -> zlen (flat_map f l) <= zlen l.
Proof.
  intros Hf. induction l as [| x l IH]; simpl; [done |].
  rewrite zlen_app. specialize (Hf x). unfold zlen in *. simpl. lia.
Qed.

Lemma zlen_range lo hi : lo <= hi -> zlen (range lo hi) = hi - lo.
Proof. intros. unfold zlen. rewrite length_range. lia. Qed.

Lemma flat_map_range_snoc {B} (f : Z -> list B) lo hi :
  lo <= hi -> flat_map f (range lo (hi + 1)) = flat_map f (range lo hi) ++ f hi.
Proof.
  intros. rewrite range_snoc by done. rewrite flat_map_app. simpl. by rewrite app_nil_r.
Qed.

(** The second loop over a row appends the entries the row keeps. *)
Lemma soc_entries_hold threshold i lo hi st l :
  soc_holds st l ->
  zlen l + (hi - lo) <= zlen (Sj st) -> zlen l + (hi - lo) <= zlen (Sx st) ->
  let st' := for_ lo hi (soc_entry norm threshold Aj Ax i) st in
  soc_frame st st' /\ soc_holds st' (l ++ flat_map (soc_kept threshold i) (range lo hi)).
Proof.
  intros Hst Hcj Hcx. simpl.
  destruct (Z.le_gt_cases hi lo) as [Hle | Hlt].
  { rewrite for_nil, range_nil by done. simpl. by rewrite app_nil_r. }
  apply (for_induction (fun k s =>
           soc_frame st s /\ soc_holds s (l ++ flat_map (soc_kept threshold i) (range lo k))));
    [lia | |].
  - rewrite range_nil by lia. simpl. by rewrite app_nil_r.
  - intros k s Hk [Hfr Hs].
    rewrite flat_map_range_snoc, app_assoc by lia.
    pose proof (zlen_flat_map_le (soc_kept threshold i) (range lo k)
                  (zlen_soc_kept threshold i)) as Hlen.
    rewrite zlen_range in Hlen by lia.
    destruct Hfr as (HSp & HSj & HSx).
    apply soc_entry_holds; [done | done | |]; rewrite zlen_app; lia.
Qed.

Lemma zlen_soc_kept_row i : zlen (soc_kept_row i) <= Z.max 0 (Ap.[i + 1] - Ap.[i]).
Proof.
  unfold soc_kept_row.
  pose proof (zlen_flat_map_le (soc_kept (soc_threshold i) i) (range Ap.[i] Ap.[i + 1])
                (zlen_soc_kept _ i)) as Hlen.
  destruct (Z.le_gt_cases Ap.[i] Ap.[i + 1]).
  - rewrite zlen_range in Hlen by done. lia.
  - rewrite range_nil in * by lia. unfold zlen in *. simpl in *. lia.
Qed.

Lemma soc_kept_upto_succ k : 0 <= k -> soc_kept_upto (k + 1) = soc_kept_upto k ++ soc_kept_row k.
Proof. intros. unfold soc_kept_upto. by apply flat_map_range_snoc. Qed.

Lemma zlen_soc_kept_upto n k :
  row_ptr_ok n Ap = true -> 0 <= k <= n -> zlen (soc_kept_upto k) <= Ap.[k] - Ap.[0].
Proof.
  intros Hok Hk. pose proof (row_ptr_ok_spec n Ap Hok) as Hmono.
  assert (Hnat : forall m : nat, Z.of_nat m <= n ->
            zlen (soc_kept_upto (Z.of_nat m)) <= Ap.[Z.of_nat m] - Ap.[0]).
  { induction m as [| m IH]; intros Hm.
    - change (Z.of_nat 0) with 0. unfold soc_kept_upto.
      rewrite range_nil by lia. unfold zlen. simpl. lia.
    - replace (Z.of_nat (S m)) with (Z.of_nat m + 1) by lia.
      rewrite soc_kept_upto_succ, zlen_app by lia.
      pose proof (zlen_soc_kept_row (Z.of_nat m)).
      specialize (Hmono (Z.of_nat m)). lia. }
  specialize (Hnat (Z.to_nat k)). rewrite Z2Nat.id in Hnat by lia. apply Hnat. lia.
Qed.

Lemma soc_kernel_rows_done n_row Sp0 Sj0 Sx0 :
  0 <= n_row -> row_ptr_ok n_row Ap = true ->
  n_row + 1 <= zlen Sp0 ->
  Ap.[n_row] - Ap.[0] <= zlen Sj0 -> Ap.[n_row] - Ap.[0] <= zlen Sx0 ->
  soc_rows_done Sp0 Sj0 Sx0 n_row
    (soc_kernel init norm n_row theta Ap Aj Ax Sp0 Sj0 Sx0).
Proof.
  intros Hn Hok HcSp HcSj HcSx. pose proof (row_ptr_ok_spec n_row Ap Hok) as Hmono.
  assert (Hend : forall k, 0 <= k <= n_row -> Ap.[k] <= Ap.[n_row]).
  { intros k Hk.
    assert (Hm : forall m : nat, k + Z.of_nat m <= n_row -> Ap.[k] <= Ap.[k + Z.of_nat m]).
    { induction m as [| m IH]; intros Hm.
      - replace (k + Z.of_nat 0) with k by lia. lia.
      - specialize (Hmono (k + Z.of_nat m)).
        replace (k + Z.of_nat (S m)) with (k + Z.of_nat m + 1) by lia. lia. }
    specialize (Hm (Z.to_nat (n_row - k))).
    replace (k + Z.of_nat (Z.to_nat (n_row - k))) with n_row in Hm by lia.
    apply Hm. lia. }
  unfold soc_kernel. apply (for_induction (soc_rows_done Sp0 Sj0 Sx0)); [done | |].
  - unfold soc_rows_done, soc_holds; simpl. rewrite zlen_aset.
    unfold soc_kept_upto. rewrite range_nil by lia. simpl.
    split; [split; [done | unfold zlen; simpl; lia] |].
    repeat split; try done. intros r Hr. replace r with 0 by lia.
    rewrite aget_aset_eq by lia. assert (r = 0) as -> by lia.
    rewrite range_nil by lia. done.
  - intros k st Hk (Hst & HlSp & HlSj & HlSx & HSp).
    pose proof (zlen_soc_kept_upto n_row k Hok ltac:(lia)) as Hupto.
    pose proof (Hend (k + 1) ltac:(lia)) as Hend1.
    pose proof (Hmono k ltac:(lia)) as Hmk.
    destruct (soc_entries_hold (soc_threshold k) k Ap.[k] Ap.[k + 1] st (soc_kept_upto k))
      as [(HfSp & HfSj & HfSx) Hst']; [done | lia | lia |].
    unfold soc_rows_done, soc_row. fold (soc_threshold k).
    set (st' := for_ _ _ _ st) in *.
    rewrite soc_kept_upto_succ by lia. fold (soc_kept_row k) in Hst'.
    split; [exact Hst' |]. simpl. rewrite zlen_aset, HfSp.
    repeat split; try congruence.
    intros r Hr. destruct Hst' as [Hnnz _].
    destruct (Z.eq_dec r (k + 1)) as [-> | Hne].
    + rewrite aget_aset_eq by lia. rewrite Hnnz. by rewrite soc_kept_upto_succ by lia.
    + rewrite aget_aset_ne by done. apply HSp. lia.
Qed.

Lemma soc_kept_upto_prefix k n :
  0 <= k <= n -> exists rest, soc_kept_upto n = soc_kept_upto k ++ rest.
Proof.
  intros Hk. replace n with (k + Z.of_nat (Z.to_nat (n - k))) by lia.
  induction (Z.to_nat (n - k)) as [| m [rest IH]].
  - exists []. rewrite app_nil_r. f_equal. lia.
  - exists (rest ++ soc_kept_row (k + Z.of_nat m)).
    replace (k + Z.of_nat (S m)) with (k + Z.of_nat m + 1) by lia.
    rewrite soc_kept_upto_succ by lia. rewrite IH. by rewrite app_assoc.
Qed.

(** Row [i] of the output is exactly what row [i] of the input keeps. *)
Lemma soc_out_row Sp0 Sj0 Sx0 n st i :
  soc_rows_done Sp0 Sj0 Sx0 n st -> 0 <= i < n -> out_row st i = soc_kept_row i.
Proof.
  intros ([Hnnz Hcells] & _ & _ & _ & HSp) Hi.
  unfold out_row, csr_row. rewrite (HSp i), (HSp (i + 1)) by lia.
  rewrite soc_kept_upto_succ, zlen_app by lia.
  set (a := zlen (soc_kept_upto i)). set (row := soc_kept_row i).
  assert (Ha : 0 <= a) by apply zlen_nonneg.
  destruct (soc_kept_upto_prefix (i + 1) n) as [rest Hrest]; [lia |].
  rewrite soc_kept_upto_succ in Hrest by lia. fold row in Hrest.
  apply list_eq. intros q. rewrite list_lookup_fmap.
  destruct (decide (q < length row)%nat) as [Hq | Hq].
  - rewrite lookup_range by (unfold zlen; lia). simpl.
    destruct (lookup_lt_is_Some_2 row q Hq) as [x Hx]. rewrite Hx.
    specialize (Hcells (a + Z.of_nat q)). rewrite Hrest in Hcells.
    rewrite !zlen_app in Hcells. fold a in Hcells.
    rewrite <- Hcells by (pose proof (zlen_nonneg rest); unfold zlen; lia).
    rewrite <- app_assoc, lookup_app_r by (unfold a, zlen; lia).
    rewrite lookup_app_l by (unfold a, zlen; lia).
    rewrite <- Hx. f_equal. unfold a, zlen. lia.
  - rewrite (lookup_ge_None_2 row) by lia.
    rewrite lookup_ge_None_2; [done |]. rewrite length_range. unfold zlen. lia.
Qed.

(** Membership in what a row keeps. *)
Lemma in_soc_kept_row i c v :
  In (c, v) (soc_kept_row i) <->
  exists jj, Ap.[i] <= jj < Ap.[i + 1] /\ Aj.[jj] = c /\ Ax.[jj] = v
             /\ (c = i \/ (norm v >=? soc_threshold i)%sc = true).
Proof.
  unfold soc_kept_row. rewrite in_flat_map. split.
  - intros (jj & Hjj & Hin). apply list_elem_of_In, elem_of_range in Hjj.
    exists jj. unfold soc_kept in Hin.
    destruct (Z.eqb_spec Aj.[jj] i) as [Heq | Hne].
    + destruct Hin as [[= <- <-] | []]. auto.
    + destruct (_ >=? _)%sc eqn:Hpass; [| done].
      destruct Hin as [[= <- <-] | []]. auto.
  - intros (jj & Hjj & <- & <- & Hkeep). exists jj.
    split; [by apply list_elem_of_In, elem_of_range |].
    unfold soc_kept. destruct (Z.eqb_spec Aj.[jj] i) as [Heq | Hne]; [by left |].
    destruct Hkeep as [Heq | ->]; [done | by left].
Qed.

End SOCFacts.

(** ** The running maximum of a row *)

Section MaxFacts.
Context {F : Type} `{ScalarOrder F}.

Lemma std_max_ge_l (a b : F) : s_leb a (std_max a b) = true.
Proof.
  unfold std_max. destruct (a <? b)%sc eqn:Hlt.
  - by apply s_ltb_leb.
  - apply s_leb_refl.
Qed.

Lemma std_max_ge_r (a b : F) : s_leb b (std_max a b) = true.
Proof.
  unfold std_max. destruct (a <? b)%sc eqn:Hlt.
  - apply s_leb_refl.
  - by apply s_nltb_leb.
Qed.

Lemma std_max_cases (a b : F) : std_max a b = a \/ std_max a b = b.
Proof. unfold std_max. destruct (a <? b)%sc; auto. Qed.

Lemma fold_std_max_greatest (l : list F) (init : F) :
  is_greatest (fold_left std_max l init) (init :: l).
Proof.
  revert init. induction l as [| x l IH]; intros init; simpl.
  - split; [by left |]. intros y [<- | []]. apply s_leb_refl.
  - destruct (IH (std_max init x)) as [Hin Hmax]. split.
    + destruct Hin as [Heq | Hin]; [| by right; right].
      rewrite <- Heq. destruct (std_max_cases init x) as [-> | ->]; [by left | by right; left].
    + assert (Hm : s_leb (std_max init x) (fold_left std_max l (std_max init x)) = true)
        by (apply Hmax; by left).
      intros y [<- | [<- | Hy]].
      * eapply s_leb_trans; [apply std_max_ge_l | exact Hm].
      * eapply s_leb_trans; [apply std_max_ge_r | exact Hm].
      * apply Hmax. by right.
Qed.

Lemma soc_max_offdiagonal_greatest {T} `{Scalar T} (init : F) (norm : T -> F)
    (Aj : list Z) (Ax : list T) (i lo hi : Z) :
  is_greatest (soc_max_offdiagonal init norm Aj Ax i lo hi)
    (init :: offdiag_measures norm Aj Ax i lo hi).
Proof.
  unfold soc_max_offdiagonal, offdiag_measures, for_.
  replace (fold_left _ (range lo hi) init)
    with (fold_left std_max
            (map (fun jj => norm Ax.[jj])
               (List.filter (fun jj => negb (Aj.[jj] =? i)) (range lo hi))) init).
  { apply fold_std_max_greatest. }
  generalize init. induction (range lo hi) as [| jj l IH]; intros m; simpl; [done |].
  destruct (negb (Aj.[jj] =? i)); simpl; apply IH.
Qed.

End MaxFacts.

#[global] Instance Q_ScalarOrder : ScalarOrder Q.
Proof.
  split; simpl.
  - intros a. apply Qle_bool_iff, Qle_refl.
  - intros a b c. rewrite !Qle_bool_iff. apply Qle_trans.
  - intros a b Hlt. apply negb_true_iff in Hlt. apply Qle_bool_iff, Qlt_le_weak, Qnot_le_lt.
    intros Hle. apply Qle_bool_iff in Hle. congruence.
  - intros a b Hlt. by apply negb_false_iff in Hlt.
Qed.

#[global] Instance Q_ScalarStrict : ScalarStrict Q.
Proof.
  split; simpl.
  - intros a. apply negb_false_iff, Qle_bool_iff, Qle_refl.
  - intros a b c Hab Hbc. apply negb_true_iff in Hab, Hbc. apply negb_true_iff.
    destruct (Qle_bool c a) eqn:Hca; [| done]. apply Qle_bool_iff in Hca.
    assert (Hlt1 : (a < b)%Q).
    { apply Qnot_le_lt. intros Hle. apply Qle_bool_iff in Hle. congruence. }
    assert (Hlt2 : (b < c)%Q).
    { apply Qnot_le_lt. intros Hle. apply Qle_bool_iff in Hle. congruence. }
    exfalso. apply (Qlt_irrefl a).
    eapply Qlt_le_trans; [| exact Hca]. by eapply Qlt_trans.
Qed.

(** ** The running maximum of a row when some values are not ordered *)

Section OrderedMaxFacts.
Context {F : Type} `{ScalarOrdered F}.

Lemma std_max_ordered (a b : F) : ordered a = true -> ordered (std_max a b) = true.
Proof.
  intros Ha. unfold std_max. destruct (a <? b)%sc eqn:Hlt; [| done].
  by eapply so_leb_ordered, so_ltb_leb.
Qed.

(** [std::max] keeps its first argument when the second is not ordered. *)
Lemma std_max_skips (a b : F) : ordered b = false -> std_max a b = a.
Proof.
  intros Hb. unfold std_max. destruct (a <? b)%sc eqn:Hlt; [| done].
  apply so_ltb_leb, so_leb_ordered in Hlt. congruence.
Qed.

Lemma std_max_ordered_ge_l (a b : F) : ordered a = true -> s_leb a (std_max a b) = true.
Proof.
  intros Ha. unfold std_max. destruct (a <? b)%sc eqn:Hlt; [by apply so_ltb_leb | done].
Qed.

Lemma std_max_ordered_ge_r (a b : F) :
  ordered a = true -> ordered b = true -> s_leb b (std_max a b) = true.
Proof.
  intros Ha Hb. unfold std_max. destruct (a <? b)%sc eqn:Hlt; [done | by apply so_nltb_leb].
Qed.

Lemma std_max_one_of (a b : F) : std_max a b = a \/ std_max a b = b.
Proof. unfold std_max. destruct (a <? b)%sc; auto. Qed.

Lemma fold_std_max_ordered_greatest (l : list F) (init : F) :
  ordered init = true ->
  is_greatest (fold_left std_max l init) (init :: List.filter ordered l).
Proof.
  revert init. induction l as [| x l IH]; intros init Hinit; simpl.
  - split; [by left |]. intros y [<- | []]. done.
  - destruct (ordered x) eqn:Hx.
    + destruct (IH (std_max init x) (std_max_ordered init x Hinit)) as [Hin Hmax]. split.
      * destruct Hin as [Heq | Hin]; [| by right; right].
        rewrite <- Heq. destruct (std_max_one_of init x) as [-> | ->]; [by left | by right; left].
      * assert (Hm : s_leb (std_max init x) (fold_left std_max l (std_max init x)) = true)
          by (apply Hmax; by left).
        intros y [<- | [<- | Hy]].
        -- apply so_leb_trans with (std_max init x);
             [by apply std_max_ordered_ge_l | exact Hm].
        -- apply so_leb_trans with (std_max init x);
             [by apply std_max_ordered_ge_r | exact Hm].
        -- apply Hmax. by right.
    + rewrite std_max_skips by done. by apply IH.
Qed.

Lemma soc_max_offdiagonal_ordered_greatest {T} `{Scalar T} (init : F) (norm : T -> F)
    (Aj : list Z) (Ax : list T) (i lo hi : Z) :
  ordered init = true ->
  is_greatest (soc_max_offdiagonal init norm Aj Ax i lo hi)
    (init :: List.filter ordered (offdiag_measures norm Aj Ax i lo hi)).
Proof.
  intros Hinit. unfold soc_max_offdiagonal, offdiag_measures, for_.
  replace (fold_left _ (range lo hi) init)
    with (fold_left std_max
            (map (fun jj => norm Ax.[jj])
               (List.filter (fun jj => negb (Aj.[jj] =? i)) (range lo hi))) init).
  { by apply fold_std_max_ordered_greatest. }
  generalize init. induction (range lo hi) as [| jj l IH]; intros m; simpl; [done |].
  destruct (negb (Aj.[jj] =? i)); simpl; apply IH.
Qed.

End OrderedMaxFacts.

#[global] Instance Q_ScalarOrdered : ScalarOrdered Q.
Proof.
  split; unfold ordered; simpl.
  - intros a b c. rewrite !Qle_bool_iff. apply Qle_trans.
  - intros a b Hlt. apply negb_true_iff in Hlt. apply Qle_bool_iff, Qlt_le_weak, Qnot_le_lt.
    intros Hle. apply Qle_bool_iff in Hle. congruence.
  - intros a b _. apply Qle_bool_iff, Qle_refl.
  - intros a b _ _ Hlt. by apply negb_false_iff in Hlt.
  - reflexivity.
  - apply Qle_bool_iff, Qle_refl.
Qed.

(** ** The comparisons of binary64 *)

Ltac sf_signs :=
  repeat match goal with
         | s : bool |- _ => destruct s
         end;
  simpl; try congruence.

Ltac sf_order :=
  repeat match goal with
         | |- context [(?a ?= ?b)%Z] => destruct (Z.compare_spec a b); simpl
         | H : context [(?a ?= ?b)%Z] |- _ => destruct (Z.compare_spec a b); simpl in H
         | |- context [PosDef.Pos.compare_cont Eq ?a ?b] =>
             change (PosDef.Pos.compare_cont Eq a b) with (Pos.compare a b);
             destruct (Pos.compare_spec a b); simpl
         | H : context [PosDef.Pos.compare_cont Eq ?a ?b] |- _ =>
             change (PosDef.Pos.compare_cont Eq a b) with (Pos.compare a b) in H;
             destruct (Pos.compare_spec a b); simpl in H
         end;
  try congruence; try lia.

Section SpecFloatOrder.
Import SpecFloat.
Implicit Types (a b c : spec_float).

Lemma SFleb_trans a b c : SFleb a b = true -> SFleb b c = true -> SFleb a c = true.
Proof.
  unfold SFleb.
  destruct a as [sa | sa | | sa ma ea], b as [sb | sb | | sb mb eb],
    c as [sc | sc | | sc mc ec]; sf_signs; intros; sf_order.
Qed.

Lemma SFltb_trans a b c : SFltb a b = true -> SFltb b c = true -> SFltb a c = true.
Proof.
  unfold SFltb.
  destruct a as [sa | sa | | sa ma ea], b as [sb | sb | | sb mb eb],
    c as [sc | sc | | sc mc ec]; sf_signs; intros; sf_order.
Qed.

Lemma SFltb_irrefl a : SFltb a a = false.
Proof. unfold SFltb. destruct a as [sa | sa | | sa ma ea]; sf_signs; sf_order. Qed.

Lemma SFltb_leb a b : SFltb a b = true -> SFleb a b = true.
Proof. unfold SFltb, SFleb. destruct (SFcompare a b) as [[] |]; congruence. Qed.

Lemma SFleb_ordered a b : SFleb a b = true -> SFleb b b = true.
Proof.
  unfold SFleb.
  destruct a as [sa | sa | | sa ma ea], b as [sb | sb | | sb mb eb];
    sf_signs; intros; sf_order.
Qed.

Lemma SFnltb_leb a b :
  SFleb a a = true -> SFleb b b = true -> SFltb a b = false -> SFleb b a = true.
Proof.
  unfold SFleb, SFltb.
  destruct a as [sa | sa | | sa ma ea], b as [sb | sb | | sb mb eb];
    sf_signs; intros; sf_order.
Qed.

Lemma SFpos_nonzero z a : SFltb (S754_zero z) a = true -> SFeqb a (S754_zero z) = false.
Proof. unfold SFltb, SFeqb. destruct a as [sa | sa | | sa ma ea]; sf_signs. Qed.

End SpecFloatOrder.

#[global] Instance double_ScalarOrdered : ScalarOrdered double.
Proof.
  split; unfold ordered; simpl.
  - intros a b c. rewrite !FloatAxioms.leb_spec. apply SFleb_trans.
  - intros a b. rewrite FloatAxioms.ltb_spec, FloatAxioms.leb_spec. apply SFltb_leb.
  - intros a b. rewrite !FloatAxioms.leb_spec. apply SFleb_ordered.
  - intros a b. rewrite FloatAxioms.ltb_spec, !FloatAxioms.leb_spec. apply SFnltb_leb.
  - reflexivity.
  - reflexivity.
Qed.

#[global] Instance double_ScalarStrict : ScalarStrict double.
Proof.
  split; simpl.
  - intros a. rewrite FloatAxioms.ltb_spec. apply SFltb_irrefl.
  - intros a b c. rewrite !FloatAxioms.ltb_spec. apply SFltb_trans.
Qed.

#[global] Instance double_ScalarZero : ScalarZero double.
Proof.
  split; simpl.
  - reflexivity.
  - intros a. rewrite FloatAxioms.ltb_spec, FloatAxioms.eqb_spec.
    change (FloatOps.Prim2SF 0%float) with (SpecFloat.S754_zero false).
    apply SFpos_nonzero.
Qed.

(** ** Strength of connection: diagonal and threshold *)

Lemma soc_kernel_out_row {T F} `{Scalar T, Scalar F} (init : F) (norm : T -> F)
    n_row theta Ap Aj (Ax : list T) Sp0 Sj0 Sx0 i :
  soc_input_ok n_row Ap Sp0 Sj0 Sx0 = true -> 0 <= i < n_row ->
  out_row (soc_kernel init norm n_row theta Ap Aj Ax Sp0 Sj0 Sx0) i
  = soc_kept_row init norm theta Ap Aj Ax i.
Proof.
  unfold soc_input_ok. rewrite !andb_true_iff, !Z.leb_le.
  intros ((((Hn & Hok) & HSp) & HSj) & HSx) Hi.
  eapply soc_out_row; [| done]. by apply soc_kernel_rows_done.
Qed.

(** C5: in both strength variants, a stored diagonal entry [A[i,i]] is
    copied to row [i] of [S] with its value, for every threshold
    [theta] and whether or not it meets the threshold. *)
Theorem soc_diagonal_always_kept {T F} `{Scalar T, Scalar F, !Magnitude T F}
    (n_row : Z) (theta_abs : F) (theta_min : T) (Ap Aj : list Z) (Ax : list T)
    (Sp0 Sj0 : list Z) (Sx0 : list T) (i jj : Z) :
  soc_input_ok n_row Ap Sp0 Sj0 Sx0 = true ->
  0 <= i < n_row -> Ap.[i] <= jj < Ap.[i + 1] -> Aj.[jj] = i ->
  In (i, Ax.[jj])
     (out_row (classical_strength_of_connection_abs n_row theta_abs Ap Aj Ax Sp0 Sj0 Sx0) i)
  /\ In (i, Ax.[jj])
        (out_row (classical_strength_of_connection_min n_row theta_min Ap Aj Ax Sp0 Sj0 Sx0) i).
Proof.
  intros Hok Hi Hjj Hdiag.
  unfold classical_strength_of_connection_abs, classical_strength_of_connection_min.
  rewrite !soc_kernel_out_row by done.
  split; apply in_soc_kept_row; exists jj; auto.
Qed.

(** C2, as the code has it: [classical_strength_of_connection_min] puts
    a stored off-diagonal entry [(i,j)] in [S] exactly when
    [-A[i,j] >= theta * m], where [m] is the greatest of [0] and the
    ordered [-A[i,k]] over the off-diagonal entries stored in row [i];
    no absolute value is taken.  A value that is not ordered (for
    binary64: NaN) is skipped by [std::max] and fails the comparison
    with the threshold, so the statement holds for the exact rationals
    and for binary64, whatever the row and [theta] hold. *)
Theorem soc_min_strong_iff {T} `{ScalarOrdered T}
    (n_row : Z) (theta : T) (Ap Aj : list Z) (Ax : list T)
    (Sp0 Sj0 : list Z) (Sx0 : list T) (i : Z) :
  soc_input_ok n_row Ap Sp0 Sj0 Sx0 = true ->
  0 <= i < n_row ->
  exists m : T,
    is_greatest m
      (s_zero :: List.filter ordered (offdiag_measures s_opp Aj Ax i Ap.[i] Ap.[i + 1]))
    /\ forall jj, Ap.[i] <= jj < Ap.[i + 1] -> Aj.[jj] <> i ->
         (In (Aj.[jj], Ax.[jj])
             (out_row (classical_strength_of_connection_min n_row theta Ap Aj Ax Sp0 Sj0 Sx0) i)
          <-> (- Ax.[jj] >=? theta * m)%sc = true).
Proof.
  intros Hok Hi.
  exists (soc_max_offdiagonal s_zero s_opp Aj Ax i Ap.[i] Ap.[i + 1]).
  split; [apply soc_max_offdiagonal_ordered_greatest, so_zero_ordered |].
  intros jj Hjj Hoff. unfold classical_strength_of_connection_min.
  rewrite soc_kernel_out_row by done. rewrite in_soc_kept_row.
  fold (soc_threshold s_zero s_opp theta Ap Aj Ax i). split.
  - intros (jj' & _ & Hc & Hv & [Hd | Hpass]); [congruence | exact Hpass].
  - intros Hpass. exists jj. auto.
Qed.

Lemma soc_diagonal_always_kept_witness :
  soc_input_ok 3 [0;2;5;7] [0;0;0;0] (replicate 7 0) (replicate 7 0%Q) = true
  /\ In (1, 4%Q)
       (out_row (classical_strength_of_connection_abs 3 (1 # 2)%Q [0;2;5;7]
                   [0;1;0;1;2;1;2] [4;-3;-1;4;-3;-1;4]%Q
                   [0;0;0;0] (replicate 7 0) (replicate 7 0%Q)) 1)
  /\ In (1, 4%Q)
       (out_row (classical_strength_of_connection_min 3 (1 # 2)%Q [0;2;5;7]
                   [0;1;0;1;2;1;2] [4;-3;-1;4;-3;-1;4]%Q
                   [0;0;0;0] (replicate 7 0) (replicate 7 0%Q)) 1).
Proof.
  split; [reflexivity |].
  apply (soc_diagonal_always_kept (T:=Q) (F:=Q) 3 (1 # 2)%Q (1 # 2)%Q [0;2;5;7]
           [0;1;0;1;2;1;2] [4;-3;-1;4;-3;-1;4]%Q [0;0;0;0] (replicate 7 0)
           (replicate 7 0%Q) 1 3);
    [reflexivity | lia | change (2 <= 3 < 5); lia | reflexivity].
Defined.

(** C2 with the maximum taken over the off-diagonal entries alone
    fails: in the row [(0,0) = 2, (0,1) = 1]
    with [theta = 1] the greatest [-A[0,k]] over the off-diagonal
    entries is [-1] and [-A[0,1] = -1 >= 1 * -1], yet the entry [(0,1)]
    is not in [S]: the code's maximum never falls below [0]. *)
Lemma soc_min_offdiagonal_maximum_fails :
  is_greatest (- 1)%Q (offdiag_measures s_opp [0;1] [2;1]%Q 0 0 2)
  /\ (s_opp 1%Q >=? s_mul 1%Q (- 1)%Q)%sc = true
  /\ out_row (classical_strength_of_connection_min 1 1%Q [0;2] [0;1] [2;1]%Q
                [0;0] [0;0] [0;0]%Q) 0 = [(0, 2%Q)].
Proof.
  split; [| split; reflexivity].
  split; [by left |]. intros x [<- | []]. reflexivity.
Qed.

Lemma soc_min_strong_iff_witness :
  soc_input_ok 1 [0;3] [0;0] [0;0;0] [0;0;0]%float = true
  /\ exists m : double,
       is_greatest m
         (s_zero
          :: List.filter ordered (offdiag_measures s_opp [0;1;2] [2;-1;nan]%float 0 0 3))
       /\ forall jj, 0 <= jj < 3 -> [0;1;2].[jj] <> 0 ->
            (In ([0;1;2].[jj], [2;-1;nan]%float.[jj])
                (out_row (classical_strength_of_connection_min 1 0.25%float [0;3] [0;1;2]
                            [2;-1;nan]%float [0;0] [0;0;0] [0;0;0]%float) 0)
             <-> (- [2;-1;nan]%float.[jj] >=? 0.25%float * m)%sc = true).
Proof.
  split; [reflexivity |].
  apply (soc_min_strong_iff (T:=double) 1 0.25%float [0;3] [0;1;2] [2;-1;nan]%float
           [0;0] [0;0;0] [0;0;0]%float 0);
    [reflexivity | lia].
Defined.

(** ** [maximum_row_value] on an empty row *)

Lemma maximum_row_value_empty_row_generic {T F} `{Scalar T, Scalar F, !Magnitude T F}
    (n_row : Z) (x : list T) (Ap Aj : list Z) (Ax : list T) (i : Z) :
  0 <= i < n_row -> n_row <= zlen x -> Ap.[i] = Ap.[i + 1] ->
  maximum_row_value (F:=F) n_row x Ap Aj Ax !! Z.to_nat i
  = Some (of_magnitude (numeric_limits_min : F)).
Proof.
  intros Hi Hlen Hrow. unfold maximum_row_value.
  pose (P := fun (k : Z) (y : list T) =>
               zlen y = zlen x /\ (i < k -> y.[i] = of_magnitude (numeric_limits_min : F))).
  match goal with |- ?r !! _ = _ => assert (HP : P n_row r) end.
  { apply (for_induction P); [lia | split; [done | lia] |]. unfold P.
    intros k y Hk [Hy Hi']. split; [by rewrite zlen_aset |]. intros Hik.
    destruct (Z.eq_dec k i) as [-> | Hne].
    - rewrite aget_aset_eq by lia. by rewrite Hrow, for_nil by lia.
    - rewrite aget_aset_ne by done. apply Hi'. lia. }
  destruct HP as [Hx' Hval]. rewrite lookup_aget by lia. by rewrite Hval by lia.
Qed.

(** C10: for a row [i] with no stored entry ([Ap[i] = Ap[i+1]]),
    [maximum_row_value] stores [std::numeric_limits<F>::min()] in
    [x[i]]; for binary64 that is [0x1p-1022], the smallest positive
    normal number (its predecessor is subnormal), which is neither [0]
    nor minus infinity. *)
Theorem maximum_row_value_empty_row {T F} `{Scalar T, Scalar F, !Magnitude T F}
    (n_row : Z) (x : list T) (Ap Aj : list Z) (Ax : list T) (i : Z) :
  0 <= i < n_row -> n_row <= zlen x -> Ap.[i] = Ap.[i + 1] ->
  maximum_row_value (F:=F) n_row x Ap Aj Ax !! Z.to_nat i
  = Some (of_magnitude (numeric_limits_min : F))
  /\ (numeric_limits_min : double) = 0x1p-1022%float
  /\ PrimFloat.classify (numeric_limits_min : double) = FloatClass.PNormal
  /\ PrimFloat.classify (PrimFloat.next_down (numeric_limits_min : double)) = FloatClass.PSubn
  /\ ((numeric_limits_min : double) ==? s_zero)%sc = false
  /\ ((numeric_limits_min : double) ==? PrimFloat.neg_infinity)%sc = false.
Proof.
  intros Hi Hlen Hrow. split; [by apply maximum_row_value_empty_row_generic |].
  repeat split; vm_compute; reflexivity.
Qed.

Lemma maximum_row_value_empty_row_witness :
  maximum_row_value (F:=double) 2 [7; 7]%float [0;0;2] [0;1] [1; -3]%float !! 0%nat
  = Some 0x1p-1022%float.
Proof.
  refine (proj1 (maximum_row_value_empty_row (T:=double) (F:=double) 2 [7; 7]%float
                   [0;0;2] [0;1] [1; -3]%float 0 _ _ _));
    [lia | vm_compute; discriminate | reflexivity].
Defined.


(** ** Ruge-Stuben splitting: a node left undecided *)

(** C4, on the code: the strength matrix of
    [[4, -1, 0], [0, 4, 0], [0, -1, 4]] at [theta = 1/4] keeps every
    stored entry, its transpose has the three entries of column 1 in
    row 1, and [rs_cf_splitting] returns with node 1 still [U_NODE]:
    the count of the bucket [lambda = n_nodes] is never reset and its
    start is never set, so node 1 is overwritten in [index_to_node] and
    never visited. *)
Theorem rs_cf_splitting_leaves_U_node :
  (let S := classical_strength_of_connection_abs (T:=double) (F:=double) 3 0.25%float
              [0;2;3;5] [0;1;1;1;2] [4; -1; 4; -1; 4]%float
              [0;0;0;0] [0;0;0;0;0] [0;0;0;0;0]%float in
   (Sp S, Sj S) = ([0;2;3;5], [0;1;1;1;2]))
  /\ rs_cf_splitting 3 [0;2;3;5] [0;1;1;1;2] [0;1;4;5] [0;0;1;2;2] [0;0;0]
     = [F_NODE; U_NODE; F_NODE].
Proof. split; vm_compute; reflexivity. Qed.

(** ** Direct interpolation on the 1D Laplacian *)

(** C3: for [tridiag(-1, 2, -1)] of order 5, with [S = A] and the
    splitting [C,F,C,F,C], pass 1 yields the row pointer
    [0,1,3,4,6,7]; pass 2 yields, in binary64, the value 1 in each C
    row 0, 2, 4 (coarse columns 0, 1, 2), two entries 0.5 at coarse
    columns 0 and 1 in row 1, and two entries 0.5 at coarse columns 1
    and 2 in row 3, whatever the output buffers held. *)
Theorem direct_interpolation_laplacian_1d (Bp0 Bj0 : list Z) (Bx0 : list double) :
  length Bp0 = 6%nat -> length Bj0 = 7%nat -> length Bx0 = 7%nat ->
  let Ap := [0;2;5;8;11;13] in
  let Aj := [0;1; 0;1;2; 1;2;3; 2;3;4; 3;4] in
  let Ax := [2;-1; -1;2;-1; -1;2;-1; -1;2;-1; -1;2]%float in
  let splitting := [C_NODE; F_NODE; C_NODE; F_NODE; C_NODE] in
  rs_direct_interpolation_pass1 5 Ap Aj splitting Bp0 = [0;1;3;4;6;7]
  /\ rs_direct_interpolation_pass2 5 Ap Aj Ax Ap Aj Ax splitting [0;1;3;4;6;7] Bj0 Bx0
     = ([0; 0;1; 1; 1;2; 2], [1; 0.5;0.5; 1; 0.5;0.5; 1]%float).
Proof.
  intros HBp HBj HBx.
  do 7 (destruct Bp0 as [| ? Bp0]; try discriminate HBp).
  do 8 (destruct Bj0 as [| ? Bj0]; try discriminate HBj).
  do 8 (destruct Bx0 as [| ? Bx0]; try discriminate HBx).
  split; vm_compute; reflexivity.
Qed.

Lemma direct_interpolation_laplacian_1d_witness :
  rs_direct_interpolation_pass1 5 [0;2;5;8;11;13] [0;1; 0;1;2; 1;2;3; 2;3;4; 3;4]
    [C_NODE; F_NODE; C_NODE; F_NODE; C_NODE] (replicate 6 0) = [0;1;3;4;6;7]
  /\ rs_direct_interpolation_pass2 5 [0;2;5;8;11;13] [0;1; 0;1;2; 1;2;3; 2;3;4; 3;4]
       [2;-1; -1;2;-1; -1;2;-1; -1;2;-1; -1;2]%float
       [0;2;5;8;11;13] [0;1; 0;1;2; 1;2;3; 2;3;4; 3;4]
       [2;-1; -1;2;-1; -1;2;-1; -1;2;-1; -1;2]%float
       [C_NODE; F_NODE; C_NODE; F_NODE; C_NODE] [0;1;3;4;6;7]
       (replicate 7 0) (replicate 7 0%float)
     = ([0; 0;1; 1; 1;2; 2], [1; 0.5;0.5; 1; 0.5;0.5; 1]%float).
Proof.
  apply (direct_interpolation_laplacian_1d (replicate 6 0) (replicate 7 0)
           (replicate 7 0%float)); reflexivity.
Defined.

(** ** Removal of strong F-F connections *)

Lemma row_ptr_mono n Ap a b :
  row_ptr_ok n Ap = true -> 0 <= a <= b -> b <= n -> Ap.[a] <= Ap.[b].
Proof.
  intros Hok Hab Hb. pose proof (row_ptr_ok_spec n Ap Hok) as Hmono.
  assert (Hm : forall m : nat, a + Z.of_nat m <= n -> Ap.[a] <= Ap.[a + Z.of_nat m]).
  { induction m as [| m IH]; intros Hm.
    - replace (a + Z.of_nat 0) with a by lia. lia.
    - specialize (Hmono (a + Z.of_nat m)).
      replace (a + Z.of_nat (S m)) with (a + Z.of_nat m + 1) by lia. lia. }
  specialize (Hm (Z.to_nat (b - a))).
  replace (a + Z.of_nat (Z.to_nat (b - a))) with b in Hm by lia.
  apply Hm. lia.
Qed.

Section RemoveFFFacts.
Variables (C_rowptr C_colinds splitting : list Z).

Lemma fold_flag_existsb (t : Z -> bool) (l : list Z) (d : bool) :
  fold_left (fun dep kk => if t kk then true else dep) l d = d || existsb t l.
Proof.
  revert d. induction l as [| kk l IH]; intros d; simpl; [by rewrite orb_false_r |].
  rewrite IH. destruct (t kk), d; done.
Qed.

Lemma common_C_point_existsb row j :
  common_C_point C_rowptr C_colinds splitting row j
  = existsb (fun ii => (splitting.[C_colinds.[ii]] =? C_NODE)
                       && existsb (fun kk => C_colinds.[kk] =? C_colinds.[ii])
                            (range C_rowptr.[j] C_rowptr.[j + 1]))
      (range C_rowptr.[row] C_rowptr.[row + 1]).
Proof.
  unfold common_C_point, for_break.
  assert (Hinner : forall (t : Z -> bool) lo hi d,
            for_ lo hi (fun kk dep => if t kk then true else dep) d
            = d || existsb t (range lo hi)).
  { intros. unfold for_. apply fold_flag_existsb. }
  induction (range C_rowptr.[row] C_rowptr.[row + 1]) as [| ii l IH]; simpl; [done |].
  destruct (_ =? C_NODE); simpl; [| exact IH].
  rewrite !(Hinner (fun kk => C_colinds.[kk] =? C_colinds.[ii])). simpl.
  destruct (existsb _ (range C_rowptr.[j] C_rowptr.[j + 1])); [done | exact IH].
Qed.

Lemma common_C_point_spec row j :
  common_C_point C_rowptr C_colinds splitting row j = true
  <-> common_strong_C C_rowptr C_colinds splitting row j.
Proof.
  rewrite common_C_point_existsb, existsb_exists. split.
  - intros (ii & Hii & Htest). apply andb_true_iff in Htest as [HC Hkk].
    apply existsb_exists in Hkk as (kk & Hkk & Heq).
    apply list_elem_of_In, elem_of_range in Hii, Hkk.
    apply Z.eqb_eq in HC, Heq.
    exists C_colinds.[ii]. split; [done |]. split; [by exists ii | by exists kk].
  - intros (m & HC & (ii & Hii & Hm1) & (kk & Hkk & Hm2)).
    exists ii. split; [by apply list_elem_of_In, elem_of_range |].
    apply andb_true_iff. split; [apply Z.eqb_eq; congruence |].
    apply existsb_exists. exists kk.
    split; [by apply list_elem_of_In, elem_of_range | apply Z.eqb_eq; congruence].
Qed.

Local Abbreviation removes := (removes C_rowptr C_colinds splitting).

Lemma removes_spec row jj :
  removes row jj = true <-> strong_FF_without_C C_rowptr C_colinds splitting row jj.
Proof.
  unfold removes, strong_FF_without_C.
  rewrite !andb_true_iff, !Z.eqb_eq, negb_true_iff, <- common_C_point_spec.
  destruct (common_C_point _ _ _ _ _); intuition congruence.
Qed.

Context {T : Type} `{Scalar T}.

(** The loop over one row writes [0] at the positions it removes and
    nowhere else. *)
Lemma remove_row_spec row lo hi (d : list T) e :
  0 <= e < zlen d ->
  let d' :=
    for_ lo hi
      (fun jj C_data =>
         let j := C_colinds.[jj] in
         if splitting.[j] =? F_NODE then
           if common_C_point C_rowptr C_colinds splitting row j
           then C_data else C_data.[jj <- s_zero]
         else C_data) d in
  zlen d' = zlen d
  /\ d'.[e] = if (lo <=? e) && (e <? hi) && (splitting.[C_colinds.[e]] =? F_NODE)
                 && negb (common_C_point C_rowptr C_colinds splitting row C_colinds.[e])
              then s_zero else d.[e].
Proof.
  intros He. simpl.
  destruct (Z.le_gt_cases hi lo) as [Hle | Hlt].
  { rewrite for_nil by done. split; [done |].
    destruct (Z.leb_spec lo e), (Z.ltb_spec e hi); simpl; try done; lia. }
  apply (for_induction (fun k d' =>
           zlen d' = zlen d
           /\ d'.[e] = if (lo <=? e) && (e <? k) && (splitting.[C_colinds.[e]] =? F_NODE)
                          && negb (common_C_point C_rowptr C_colinds splitting row C_colinds.[e])
                       then s_zero else d.[e])); [lia | |].
  - split; [done |]. destruct (Z.leb_spec lo e), (Z.ltb_spec e lo); simpl; try done; lia.
  - intros k d' Hk [Hlen Hcell].
    destruct (Z.eq_dec k e) as [-> | Hne].
    + replace (lo <=? e) with true by (symmetry; apply Z.leb_le; lia).
      replace (e <? e + 1) with true by (symmetry; apply Z.ltb_lt; lia).
      replace (e <? e) with false in Hcell by (symmetry; apply Z.ltb_ge; lia).
      rewrite andb_false_r in Hcell. simpl in *.
      destruct (_ =? F_NODE); simpl; [| done].
      destruct (common_C_point _ _ _ _ _); simpl; [done |].
      split; [by rewrite zlen_aset |]. apply aget_aset_eq. lia.
    + assert (Hsame : (e <? k + 1) = (e <? k)).
      { destruct (Z.ltb_spec e (k + 1)), (Z.ltb_spec e k); try done; lia. }
      rewrite Hsame.
      destruct (splitting.[C_colinds.[k]] =? F_NODE); [| done].
      destruct (common_C_point _ _ _ row C_colinds.[k]); [done |].
      split; [by rewrite zlen_aset |]. by rewrite aget_aset_ne.
Qed.

End RemoveFFFacts.

(** C6: [remove_strong_FF_connections] writes [0] to [C_data[e]] for
    exactly the stored entries [e] of a row [row] with
    [splitting[row] = F], [splitting[j] = F] for the column [j] of [e],
    and no C-point stored both in row [row] and in row [j]; every
    other cell of [C_data] keeps its value.  ([C_rowptr] and
    [C_colinds] are read only.) *)
Theorem remove_strong_FF_connections_spec {T} `{Scalar T}
    (n_nodes : Z) (C_rowptr C_colinds : list Z) (C_data : list T) (splitting : list Z) :
  0 <= n_nodes -> row_ptr_ok n_nodes C_rowptr = true ->
  let C_data' := remove_strong_FF_connections n_nodes C_rowptr C_colinds C_data splitting in
  length C_data' = length C_data
  /\ (forall row e,
        0 <= row < n_nodes -> C_rowptr.[row] <= e < C_rowptr.[row + 1] ->
        0 <= e < zlen C_data ->
        (strong_FF_without_C C_rowptr C_colinds splitting row e -> C_data'.[e] = s_zero)
        /\ (~ strong_FF_without_C C_rowptr C_colinds splitting row e ->
            C_data'.[e] = C_data.[e]))
  /\ (forall e,
        (forall row, 0 <= row < n_nodes -> ~ C_rowptr.[row] <= e < C_rowptr.[row + 1]) ->
        C_data'.[e] = C_data.[e]).
Proof.
  intros Hn Hok. simpl.
  (* after the rows below [k]: a cell of such a row holds its final
     value, any other cell its initial one *)
  pose (P := fun (k : Z) (d : list T) =>
    zlen d = zlen C_data
    /\ forall e, 0 <= e < zlen C_data ->
         (forall row, 0 <= row < k -> C_rowptr.[row] <= e < C_rowptr.[row + 1] ->
            d.[e] = if removes C_rowptr C_colinds splitting row e
                    then s_zero else C_data.[e])
         /\ ((forall row, 0 <= row < k -> ~ C_rowptr.[row] <= e < C_rowptr.[row + 1]) ->
             d.[e] = C_data.[e])).
  assert (HP : P n_nodes
                 (remove_strong_FF_connections n_nodes C_rowptr C_colinds C_data splitting)).
  { unfold remove_strong_FF_connections. apply (for_induction P); [done | |]; unfold P.
    - split; [done |]. intros e He. split; [intros row Hrow; lia | done].
    - intros k d Hk [Hlen Hcells].
      set (d' := if splitting.[k] =? F_NODE then _ else d).
      assert (Hd' : zlen d' = zlen d
                /\ forall e, 0 <= e < zlen d ->
                     d'.[e] = if (C_rowptr.[k] <=? e) && (e <? C_rowptr.[k + 1])
                                 && removes C_rowptr C_colinds splitting k e
                              then s_zero else d.[e]).
      { unfold d', removes. destruct (splitting.[k] =? F_NODE) eqn:HF.
        - split.
          { apply (for_invariant (fun b : list T => zlen b = zlen d)); [done |].
            intros jj b _ Hb. destruct (splitting.[C_colinds.[jj]] =? F_NODE); [| done].
            destruct (common_C_point _ _ _ _ _); [done | by rewrite zlen_aset]. }
          intros e He.
          destruct (remove_row_spec C_rowptr C_colinds splitting k
                      C_rowptr.[k] C_rowptr.[k + 1] d e He) as [_ Hrow].
          cbv zeta in Hrow. rewrite Hrow. simpl. by rewrite <- !andb_assoc.
        - split; [done |]. intros e _. simpl. by rewrite !andb_false_r. }
      destruct Hd' as [Hlen' Hcell']. split; [congruence |].
      intros e He. rewrite Hcell' by lia.
      destruct (Hcells e He) as [Hin Hout].
      destruct (Z.leb_spec C_rowptr.[k] e) as [Hlo | Hlo];
        destruct (Z.ltb_spec e C_rowptr.[k + 1]) as [Hhi | Hhi]; simpl.
      + (* [e] lies in row [k], hence in no row below *)
        assert (Hbelow : forall row, 0 <= row < k ->
                  ~ C_rowptr.[row] <= e < C_rowptr.[row + 1]).
        { intros row Hrow [_ Hlt].
          pose proof (row_ptr_mono n_nodes C_rowptr (row + 1) k Hok ltac:(lia) ltac:(lia)).
          lia. }
        split.
        * intros row Hrow Hrange. destruct (Z.eq_dec row k) as [-> | Hne].
          -- destruct (removes _ _ _ k e); [done | by apply Hout].
          -- exfalso. apply (Hbelow row); [lia | done].
        * intros Hnone. exfalso. apply (Hnone k); lia.
      + split.
        * intros row Hrow Hrange. apply Hin; [| done].
          destruct (Z.eq_dec row k) as [-> | Hne]; lia.
        * intros Hnone. apply Hout. intros row Hrow. apply Hnone. lia.
      + split.
        * intros row Hrow Hrange. apply Hin; [| done].
          destruct (Z.eq_dec row k) as [-> | Hne]; lia.
        * intros Hnone. apply Hout. intros row Hrow. apply Hnone. lia.
      + split.
        * intros row Hrow Hrange. apply Hin; [| done].
          destruct (Z.eq_dec row k) as [-> | Hne]; lia.
        * intros Hnone. apply Hout. intros row Hrow. apply Hnone. lia. }
  destruct HP as [Hlen Hcells].
  split; [unfold zlen in Hlen; lia |]. split.
  - intros row e Hrow Hrange He. destruct (Hcells e He) as [Hin _].
    rewrite (Hin row Hrow Hrange).
    pose proof (removes_spec C_rowptr C_colinds splitting row e) as Hspec.
    destruct (removes C_rowptr C_colinds splitting row e).
    + split; [done |]. intros Hnot. exfalso. apply Hnot, Hspec. done.
    + split; [| done]. intros Hyes. apply Hspec in Hyes. done.
  - intros e Hnone.
    destruct (Z.lt_ge_cases e 0) as [Hneg | Hpos]; [by rewrite !aget_oob by lia |].
    destruct (Z.lt_ge_cases e (zlen C_data)) as [Hin | Hbig].
    + apply Hcells; [lia | done].
    + by rewrite !aget_oob by lia.
Qed.

Lemma remove_strong_FF_connections_spec_witness :
  strong_FF_without_C [0;1;3;5;6] [1;0;2;1;3;2] [0;0;1;0] 0 0
  /\ (remove_strong_FF_connections 4 [0;1;3;5;6] [1;0;2;1;3;2]
        [5;5;5;5;5;5]%Q [0;0;1;0]).[0] = 0%Q.
Proof.
  assert (Hrm : strong_FF_without_C [0;1;3;5;6] [1;0;2;1;3;2] [0;0;1;0] 0 0)
    by (apply removes_spec; reflexivity).
  split; [exact Hrm |].
  refine (proj1 (proj1 (proj2 (remove_strong_FF_connections_spec (T:=Q) 4 [0;1;3;5;6]
                                 [1;0;2;1;3;2] [5;5;5;5;5;5]%Q [0;0;1;0] _ _))
                   0 0 _ _ _) Hrm);
    [lia | reflexivity | lia | change (0 <= 0 < 1); lia | change (0 <= 0 < 6); lia].
Defined.

(** ** CLJP splitting *)

Lemma count_U_nonneg spl : 0 <= count_U spl.
Proof. apply zlen_nonneg. Qed.

Lemma count_U_insert (spl : list Z) (i : nat) (v : Z) :
  spl !! i = Some U_NODE -> v <> U_NODE ->
  count_U (<[i := v]> spl) = count_U spl - 1.
Proof.
  unfold count_U, zlen. revert i. induction spl as [| x spl IH]; intros i Hi Hv; [done |].
  destruct i as [| i]; simpl in *.
  - injection Hi as ->. destruct (Z.eqb_spec v U_NODE); [done |]. simpl. lia.
  - specialize (IH i Hi Hv). destruct (x =? U_NODE); simpl; lia.
Qed.

(** Deciding a [U] node lowers the count by one. *)
Lemma count_U_aset spl j v :
  spl.[j] = U_NODE -> v <> U_NODE -> count_U (spl.[j <- v]) = count_U spl - 1.
Proof.
  unfold aget, aset. intros Hj Hv. destruct (j <? 0); [done |].
  apply count_U_insert; [| done].
  destruct (spl !! Z.to_nat j) as [x |]; simpl in Hj; [by subst | done].
Qed.

Lemma aget_U_in_bounds (spl : list Z) j : spl.[j] = U_NODE -> 0 <= j < zlen spl.
Proof.
  intros Hj. destruct (Z.lt_ge_cases j 0); [by rewrite aget_oob in Hj by lia |].
  destruct (Z.lt_ge_cases j (zlen spl)); [lia | by rewrite aget_oob in Hj by lia].
Qed.

Lemma fill_all {A} (a : list A) (v : A) : fill a (zlen a) v = replicate (length a) v.
Proof.
  unfold fill.
  pose (P := fun (k : Z) (b : list A) =>
               length b = length a
               /\ forall i : nat, Z.of_nat i < k -> b !! i = Some v).
  assert (HP : P (zlen a) (for_ 0 (zlen a) (fun i b => b.[i <- v]) a)).
  { apply (for_induction P); [apply zlen_nonneg | split; [done | lia] |]. unfold P.
    intros k b Hk [Hlen Hcells]. split; [by rewrite length_aset |].
    intros i Hi. unfold aset. destruct (Z.ltb_spec k 0); [lia |].
    destruct (decide (Z.to_nat k = i)) as [<- | Hne].
    - apply list_lookup_insert_eq. unfold zlen in Hk. lia.
    - rewrite list_lookup_insert_ne by done. apply Hcells. lia. }
  destruct HP as [Hlen Hcells]. apply list_eq. intros i.
  destruct (decide (i < length a)%nat) as [Hi | Hi].
  - rewrite Hcells by (unfold zlen; lia). symmetry. by apply lookup_replicate_2.
  - rewrite !lookup_ge_None_2; [done | rewrite length_replicate; lia | lia].
Qed.

Lemma count_U_replicate (m : nat) : count_U (replicate m U_NODE) = Z.of_nat m.
Proof.
  unfold count_U, zlen. induction m as [| m IH]; [done |]. simpl. lia.
Qed.

Section CLJPFacts.
Context {W : Type} `{ScalarStrict W}.
Variables (n : Z) (Sp Sj Tp Tj : list Z).
Implicit Types (st s : cljp_state W).

Local Abbreviation selectable := (selectable Sp Sj Tp Tj).
Local Abbreviation select_inv := (select_inv Sp Sj Tp Tj).

(** A scan clears [D[i]] when a heavier [U] neighbour is stored in the
    row, and changes nothing otherwise. *)
Lemma cljp_scan_spec Ap Aj i st :
  cljp_scan Ap Aj i st
  = if outweighed Ap Aj st i then with_D st (D st).[i <- 0] else st.
Proof.
  unfold cljp_scan, for_break, outweighed.
  induction (range Ap.[i] Ap.[i + 1]) as [| jj l IH]; simpl; [done |].
  destruct (_ && _); simpl; [done | exact IH].
Qed.

Lemma maximal_U_selectable st i : maximal_U st i -> selectable st i = true.
Proof.
  intros [HU Hmax]. unfold selectable. rewrite HU. simpl.
  assert (Hrow : forall Ap Aj, outweighed Ap Aj st i = false).
  { intros Ap Aj. unfold outweighed.
    destruct (existsb _ _) eqn:Hex; [| done].
    apply existsb_exists in Hex as (jj & _ & Hjj).
    apply andb_true_iff in Hjj as [HjU Hheavy]. apply Z.eqb_eq in HjU.
    by rewrite (Hmax _ HjU) in Hheavy. }
  by rewrite !Hrow.
Qed.

Lemma selectable_ext st st' i :
  c_splitting st' = c_splitting st -> weight st' = weight st ->
  selectable st' i = selectable st i.
Proof. unfold selectable, outweighed. by intros -> ->. Qed.

(** What the body of the selection scan does with node [k]. *)
Lemma cljp_consider_spec k s :
  0 <= k < zlen (D s) ->
  cljp_consider Sp Sj Tp Tj k s
  = if selectable s k then
      {| c_splitting := c_splitting s; weight := weight s; edgemark := edgemark s;
         c_dep_cache := c_dep_cache s; D := (D s).[k <- 1];
         Dlist := (Dlist s).[nD s <- k]; nD := nD s + 1;
         unassigned := unassigned s - 1; pass := pass s |}
    else
      with_D s (if (c_splitting s).[k] =? U_NODE
                then (D s).[k <- 1].[k <- 0] else (D s).[k <- 0]).
Proof.
  intros Hk. unfold cljp_consider, selectable.
  destruct ((c_splitting s).[k] =? U_NODE); simpl; [| done].
  set (s1 := with_D s (D s).[k <- 1]).
  assert (Hset : (D s).[k <- 1].[k] = 1) by (by apply aget_aset_eq).
  assert (Hclr : (D s).[k <- 1].[k <- 0].[k] = 0)
    by (apply aget_aset_eq; by rewrite zlen_aset).
  rewrite (cljp_scan_spec Sp Sj k s1).
  change (outweighed Sp Sj s1 k) with (outweighed Sp Sj s k).
  destruct (outweighed Sp Sj s k); simpl.
  - rewrite Hclr. simpl. by rewrite Hclr.
  - rewrite Hset. simpl. rewrite (cljp_scan_spec Tp Tj k s1).
    change (outweighed Tp Tj s1 k) with (outweighed Tp Tj s k).
    destruct (outweighed Tp Tj s k); simpl.
    + by rewrite Hclr.
    + by rewrite Hset.
Qed.

Lemma cljp_consider_inv st0 k s :
  zlen (D st0) = n -> zlen (Dlist st0) = n -> 0 <= k < n ->
  select_inv st0 k s -> select_inv st0 (k + 1) (cljp_consider Sp Sj Tp Tj k s).
Proof.
  intros HlD HlDl Hk (Hspl & Hw & HD & HDl & HnD & Hun & Hsel & Hinc & Hiff).
  rewrite cljp_consider_spec by lia.
  rewrite (selectable_ext st0 s k Hspl Hw).
  assert (Hfresh : ~ in_Dlist s k).
  { intros (p & Hp & Hpk). specialize (Hsel p Hp). lia. }
  destruct (selectable st0 k) eqn:Hk_sel.
  - (* [k] is appended to [Dlist] *)
    assert (Hnew : (Dlist s).[nD s <- k].[nD s] = k) by (apply aget_aset_eq; lia).
    assert (Hold : forall p, 0 <= p < nD s -> (Dlist s).[nD s <- k].[p] = (Dlist s).[p])
      by (intros p Hp; apply aget_aset_ne; lia).
    unfold select_inv; simpl.
    split; [done |]. split; [done |]. split; [by rewrite zlen_aset |].
    split; [by rewrite zlen_aset |]. split; [lia |]. split; [lia |]. split; [| split].
    + intros p Hp. destruct (Z.eq_dec p (nD s)) as [-> | Hne]; [rewrite Hnew; lia |].
      rewrite Hold by lia. specialize (Hsel p ltac:(lia)). lia.
    + intros p q Hpq Hq. destruct (Z.eq_dec q (nD s)) as [-> | Hne].
      * rewrite Hnew, Hold by lia. specialize (Hsel p ltac:(lia)). lia.
      * rewrite !Hold by lia. apply Hinc; lia.
    + intros i Hi. destruct (Z.eq_dec i k) as [-> | Hne].
      * split; [done |]. intros _. exists (nD s). simpl. split; [lia | done].
      * rewrite <- Hiff by lia. unfold in_Dlist; simpl. split.
        -- intros (p & Hp & Hpi). destruct (Z.eq_dec p (nD s)) as [-> | Hp'].
           ++ rewrite Hnew in Hpi. lia.
           ++ exists p. split; [lia |]. by rewrite <- Hold by lia.
        -- intros (p & Hp & Hpi). exists p. split; [lia |]. by rewrite Hold.
  - (* [k] is not a [U] node or has a heavier neighbour *)
    set (d := if _ =? U_NODE then _ else _).
    assert (Hd : zlen d = zlen (D s)).
    { unfold d. destruct (_ =? U_NODE); by rewrite !zlen_aset. }
    unfold select_inv; simpl. rewrite Hd.
    split; [done |]. split; [done |]. split; [done |]. split; [done |].
    split; [lia |]. split; [done |]. split; [| split; [done |]].
    + intros p Hp. specialize (Hsel p Hp). lia.
    + intros i Hi. destruct (Z.eq_dec i k) as [-> | Hne].
      * rewrite Hk_sel. split; [intros Hin; by apply Hfresh in Hin | done].
      * apply Hiff. lia.
Qed.

(** The second loop of the selection turns the nodes of [Dlist] into C
    nodes; they are distinct [U] nodes, so the count of [U] nodes drops
    by [nD]. *)
Lemma cljp_mark_selected s :
  0 <= nD s ->
  (forall p, 0 <= p < nD s -> (c_splitting s).[(Dlist s).[p]] = U_NODE) ->
  (forall p q, 0 <= p < q -> q < nD s -> (Dlist s).[p] < (Dlist s).[q]) ->
  exists spl,
    for_ 0 (nD s)
      (fun i st => with_splitting st (c_splitting st).[(Dlist st).[i] <- C_NODE]) s
    = with_splitting s spl
    /\ zlen spl = zlen (c_splitting s)
    /\ count_U spl = count_U (c_splitting s) - nD s
    /\ (forall p, 0 <= p < nD s -> spl.[(Dlist s).[p]] = C_NODE).
Proof.
  intros HnD HU Hinc.
  pose (P := fun (k : Z) (st : cljp_state W) =>
    exists spl, st = with_splitting s spl
      /\ zlen spl = zlen (c_splitting s)
      /\ count_U spl = count_U (c_splitting s) - k
      /\ (forall p, 0 <= p < k -> spl.[(Dlist s).[p]] = C_NODE)
      /\ (forall p, k <= p < nD s -> spl.[(Dlist s).[p]] = U_NODE)).
  assert (HP : P (nD s) (for_ 0 (nD s)
             (fun i st => with_splitting st (c_splitting st).[(Dlist st).[i] <- C_NODE]) s)).
  { apply (for_induction P); [done | |]; unfold P.
    - exists (c_splitting s).
      split; [by destruct s |]. split; [done |]. split; [lia |].
      split; [intros p Hp; lia | intros p Hp; apply HU; lia].
    - intros k st Hk (spl & -> & Hlen & Hcnt & HC & HUk). simpl.
      exists (spl.[(Dlist s).[k] <- C_NODE]).
      assert (Hk_U : spl.[(Dlist s).[k]] = U_NODE) by (apply HUk; lia).
      pose proof (aget_U_in_bounds _ _ Hk_U) as Hbounds.
      split; [done |]. split; [by rewrite zlen_aset |].
      split; [rewrite count_U_aset by done; lia |]. split.
      + intros p Hp. destruct (Z.eq_dec p k) as [-> | Hne].
        * by apply aget_aset_eq.
        * rewrite aget_aset_ne; [apply HC; lia |].
          specialize (Hinc p k ltac:(lia) ltac:(lia)). lia.
      + intros p Hp. rewrite aget_aset_ne; [apply HUk; lia |].
        specialize (Hinc k p ltac:(lia) ltac:(lia)). lia. }
  destruct HP as (spl & Heq & Hlen & Hcnt & HC & _). by exists spl.
Qed.

(** The selection: the invariant is kept, [unassigned] drops by the
    number [nD] of nodes selected, the nodes selected are those that
    pass the test, and they become C nodes. *)
Lemma cljp_select_full st :
  cljp_inv n st ->
  let st' := cljp_select n Sp Sj Tp Tj st in
  cljp_inv n st' /\ 0 <= nD st'
  /\ unassigned st' = unassigned st - nD st'
  /\ (forall i, in_Dlist st' i <-> selectable st i = true)
  /\ (forall i, in_Dlist st' i -> (c_splitting st').[i] = C_NODE).
Proof.
  intros (Hun & Hlspl & HlD & HlDl). simpl. unfold cljp_select.
  set (st0 := {| c_splitting := c_splitting st; nD := 0 |}).
  assert (Hn : 0 <= n) by (rewrite <- HlD; apply zlen_nonneg).
  assert (Hscan : select_inv st0 n (for_ 0 n (cljp_consider Sp Sj Tp Tj) st0)).
  { apply (for_induction (select_inv st0)); [done | |].
    - unfold select_inv; simpl.
      split; [done |]. split; [done |]. split; [done |]. split; [done |].
      split; [lia |]. split; [lia |]. split; [intros; lia |]. split; [intros; lia |].
      intros i Hi. lia.
    - intros k s Hk Hs. by apply cljp_consider_inv. }
  set (s := for_ 0 n (cljp_consider Sp Sj Tp Tj) st0) in *.
  destruct Hscan as (Hspl & Hw & HD & HDl & HnD & Hunass & Hsel & Hinc & Hiff).
  simpl in *.
  assert (Hiff' : forall i, in_Dlist s i <-> selectable st i = true).
  { intros i. rewrite <- (selectable_ext st st0 i eq_refl eq_refl). split.
    - intros Hin. apply Hiff; [| done]. destruct Hin as (p & Hp & <-). by apply Hsel.
    - intros Hi. apply Hiff; [| done].
      unfold selectable in Hi.
      apply andb_true_iff in Hi as [Hi _]. apply andb_true_iff in Hi as [Hi _].
      apply Z.eqb_eq in Hi. simpl in Hi. apply aget_U_in_bounds in Hi. lia. }
  assert (HU : forall p, 0 <= p < nD s -> (c_splitting s).[(Dlist s).[p]] = U_NODE).
  { intros p Hp. rewrite Hspl.
    assert (Hin : in_Dlist s (Dlist s).[p]) by (by exists p).
    apply Hiff' in Hin. unfold selectable in Hin.
    apply andb_true_iff in Hin as [Hin _]. apply andb_true_iff in Hin as [Hin _].
    by apply Z.eqb_eq in Hin. }
  destruct (cljp_mark_selected s) as (spl & -> & Hlen & Hcnt & HC); [lia | done | done |].
  simpl. split; [| split; [lia | split; [done | split; [done |]]]].
  - unfold cljp_inv; simpl. rewrite Hcnt, Hlen, Hspl. repeat split; lia.
  - intros i (p & Hp & <-). simpl in *. by apply HC.
Qed.

Lemma cljp_select_spec st :
  cljp_inv n st ->
  let st' := cljp_select n Sp Sj Tp Tj st in
  cljp_inv n st' /\ 0 <= nD st'
  /\ unassigned st' = unassigned st - nD st'
  /\ (forall i, maximal_U st i -> in_Dlist st' i /\ (c_splitting st').[i] = C_NODE).
Proof.
  intros Hinv. destruct (cljp_select_full st Hinv) as (Hinv' & HnD & Hun & Hiff & HC).
  simpl. split; [done |]. split; [done |]. split; [done |].
  intros i Hmx. apply maximal_U_selectable, Hiff in Hmx. split; [done | by apply HC].
Qed.

(** Two nodes selected in the same pass can be neighbours only when
    neither outweighs the other: a neighbour [j] of a selected [i],
    itself selected, is not strictly heavier than [i]. *)
Lemma cljp_select_neighbours st i j :
  cljp_inv n st ->
  in_Dlist (cljp_select n Sp Sj Tp Tj st) i ->
  in_Dlist (cljp_select n Sp Sj Tp Tj st) j ->
  In j (csr_cols Sp Sj i) \/ In j (csr_cols Tp Tj i) ->
  ((weight st).[j] >? (weight st).[i])%sc = false.
Proof.
  intros Hinv Hi Hj Hadj.
  destruct (cljp_select_full st Hinv) as (_ & _ & _ & Hiff & _).
  apply Hiff in Hi, Hj. unfold selectable in Hi, Hj.
  apply andb_true_iff in Hi as [Hi HiT]. apply andb_true_iff in Hi as [_ HiS].
  apply andb_true_iff in Hj as [Hj _]. apply andb_true_iff in Hj as [HjU _].
  apply negb_true_iff in HiS, HiT.
  assert (Hrow : forall Ap Aj, outweighed Ap Aj st i = false -> In j (csr_cols Ap Aj i) ->
            ((weight st).[j] >? (weight st).[i])%sc = false).
  { intros Ap Aj Hout Hin. unfold csr_cols in Hin. apply in_map_iff in Hin as (jj & <- & Hjj).
    unfold outweighed in Hout.
    destruct ((weight st).[Aj.[jj]] >? (weight st).[i])%sc eqn:Hheavy; [| done].
    rewrite <- Hout. symmetry. apply existsb_exists. exists jj.
    split; [done |]. by rewrite HjU, Hheavy. }
  destruct Hadj as [Hin | Hin]; eauto.
Qed.

(** Removing an edge to a [U] node keeps the invariant and does not
    raise [unassigned]. *)
Lemma cljp_remove_edge_inv e j st :
  (c_splitting st).[j] = U_NODE -> cljp_inv n st ->
  cljp_inv n (cljp_remove_edge e j st)
  /\ unassigned (cljp_remove_edge e j st) <= unassigned st.
Proof.
  intros HU (Hun & Hlspl & HlD & HlDl). unfold cljp_remove_edge.
  destruct (_ <? _)%sc; unfold cljp_inv; simpl.
  - rewrite count_U_aset, zlen_aset by done. repeat split; try done; lia.
  - repeat split; try done; lia.
Qed.

Local Abbreviation cljp_below := (cljp_below n).

Lemma cljp_below_remove_edge u e j st :
  (c_splitting st).[j] = U_NODE -> cljp_below u st -> cljp_below u (cljp_remove_edge e j st).
Proof.
  intros HU [Hinv Hle].
  destruct (cljp_remove_edge_inv e j st HU Hinv) as [Hinv' Hle']. split; [done | lia].
Qed.

Lemma cljp_P5_below u st : cljp_below u st -> cljp_below u (cljp_P5 Sp Sj st).
Proof.
  intros Hst. unfold cljp_P5.
  apply for_invariant; [done |]. intros iD s _ Hs.
  apply for_invariant; [done |]. intros jj s' _ Hs'.
  destruct (Z.eqb_spec (c_splitting s').[Sj.[jj]] U_NODE) as [HU | _]; simpl; [| done].
  destruct (negb _); [| done]. by apply cljp_below_remove_edge.
Qed.

Lemma cljp_P6_below u st : cljp_below u st -> cljp_below u (cljp_P6 Sp Sj Tp Tj st).
Proof.
  intros Hst. unfold cljp_P6.
  apply for_invariant; [done |]. intros iD s _ Hs.
  apply for_invariant.
  - apply for_invariant; [done |]. intros jj s' _ Hs'.
    destruct (_ =? U_NODE); done.
  - intros jj s' _ Hs'. apply for_invariant; [done |]. intros kk s'' _ Hs''.
    destruct (Z.eqb_spec (c_splitting s'').[Sj.[kk]] U_NODE) as [HU | _]; simpl; [| done].
    destruct (negb _); [| done]. destruct (_ =? _); [| done].
    by apply cljp_below_remove_edge.
Qed.

(** A [U] node that no [U] node outweighs exists as long as a [U] node
    does: [operator<] is a strict partial order. *)
Lemma exists_maximal (w : Z -> W) (l : list Z) :
  l <> [] ->
  exists i, i ∈ l /\ forall j, j ∈ l -> (w j >? w i)%sc = false.
Proof.
  induction l as [| x l IH]; [done |]. intros _.
  destruct l as [| y l].
  { exists x. split; [left |]. intros j Hj. apply list_elem_of_singleton in Hj as ->.
    apply s_ltb_irrefl. }
  destruct IH as (m & Hm & Hmax); [done |].
  destruct (w m <? w x)%sc eqn:Hmx.
  - exists x. split; [left |]. intros j Hj.
    apply elem_of_cons in Hj as [-> | Hj]; [apply s_ltb_irrefl |].
    destruct (w x <? w j)%sc eqn:Hxj; [| done].
    rewrite <- (Hmax j Hj). symmetry. by eapply s_ltb_trans.
  - exists m. split; [by right |]. intros j Hj.
    apply elem_of_cons in Hj as [-> | Hj]; [done | by apply Hmax].
Qed.

Lemma exists_maximal_U st : 0 < count_U (c_splitting st) -> exists i, maximal_U st i.
Proof.
  intros Hpos.
  pose (us := List.filter (fun i => (c_splitting st).[i] =? U_NODE)
                (range 0 (zlen (c_splitting st)))).
  assert (Hus : forall i, i ∈ us <-> (c_splitting st).[i] = U_NODE).
  { intros i. unfold us. rewrite list_elem_of_In, filter_In, <- list_elem_of_In.
    rewrite elem_of_range, Z.eqb_eq. split; [tauto |].
    intros HU. split; [by apply aget_U_in_bounds | done]. }
  destruct (exists_maximal (fun i => (weight st).[i]) us) as (i & Hi & Hmax).
  - intros Hnil. enough (count_U (c_splitting st) = 0) by lia.
    unfold count_U, zlen.
    destruct (List.filter _ (c_splitting st)) as [| x l] eqn:Hf; [done |].
    assert (Hx : In x (List.filter (fun x => x =? U_NODE) (c_splitting st)))
      by (rewrite Hf; by left).
    apply filter_In in Hx as [Hx HxU]. apply Z.eqb_eq in HxU. subst x.
    apply list_elem_of_In, list_elem_of_lookup in Hx as [k Hk].
    assert (Hin : Z.of_nat k ∈ us).
    { apply Hus. apply aget_lookup; [lia |]. by rewrite Nat2Z.id. }
    rewrite Hnil in Hin. by apply not_elem_of_nil in Hin.
  - exists i. split; [by apply Hus |]. intros j Hj. apply Hmax. by apply Hus.
Qed.

(** One pass of the loop entered with [unassigned > 0]: a maximal [U]
    node exists, every maximal [U] node is selected, and [unassigned]
    strictly decreases. *)
Lemma cljp_round_progress st :
  cljp_inv n st -> 0 < unassigned st ->
  cljp_inv n (cljp_round n Sp Sj Tp Tj st)
  /\ unassigned (cljp_round n Sp Sj Tp Tj st) < unassigned st.
Proof.
  intros Hinv Hpos. unfold cljp_round.
  set (st1 := {| c_splitting := c_splitting st; pass := pass st + 1 |}).
  assert (Hinv1 : cljp_inv n st1) by done.
  destruct (cljp_select_spec st1 Hinv1) as (Hinv2 & HnD & Hun & Hmax).
  set (st2 := cljp_select n Sp Sj Tp Tj st1) in *.
  destruct (exists_maximal_U st1) as (i & Hi).
  { simpl. destruct Hinv as [Hcount _]. lia. }
  destruct (Hmax i Hi) as [(p & Hp & _) _].
  assert (Hbelow : cljp_below (unassigned st - 1) st2).
  { split; [done |]. simpl in Hun. lia. }
  apply cljp_P5_below, cljp_P6_below in Hbelow. destruct Hbelow as [Hinv' Hle].
  split; [done | lia].
Qed.

(** With fuel for every node, the loop ends, in a state with no
    unassigned node. *)
Lemma cljp_loop_terminates (fuel : nat) st :
  cljp_inv n st -> unassigned st <= Z.of_nat fuel ->
  exists st', cljp_loop fuel n Sp Sj Tp Tj st = Some st'
              /\ cljp_inv n st' /\ unassigned st' = 0.
Proof.
  revert st. induction fuel as [| fuel IH]; intros st Hinv Hfuel.
  - exists st. simpl.
    assert (Hge : 0 <= unassigned st) by (destruct Hinv as [-> _]; apply count_U_nonneg).
    destruct (Z.gtb_spec (unassigned st) 0); [lia |].
    split; [done |]. split; [done | lia].
  - simpl. destruct (Z.gtb_spec (unassigned st) 0) as [Hpos | Hzero].
    + destruct (cljp_round_progress st Hinv ltac:(lia)) as [Hinv' Hlt].
      apply IH; [done | lia].
    + exists st.
      assert (Hge : 0 <= unassigned st) by (destruct Hinv as [-> _]; apply count_U_nonneg).
      split; [done |]. split; [done | lia].
Qed.

End CLJPFacts.

Section CLJPRuns.
Context {W : Type} `{Scalar W} {G : Type}.
Variables (libc : libc_rand G) (vertex_coloring_mis : Z -> list Z -> list Z -> list Z -> list Z).
Variables (n : Z) (Sp Sj Tp Tj : list Z) (splitting0 : list Z) (colorflag : Z).

(** The loop is entered in a state that satisfies the invariant. *)
Lemma cljp_init_inv g :
  zlen splitting0 = n ->
  cljp_inv n (fst (cljp_init libc vertex_coloring_mis g n Sp Sj splitting0 colorflag)).
Proof.
  intros Hlen. assert (Hn : 0 <= n) by (rewrite <- Hlen; apply zlen_nonneg).
  unfold cljp_init. destruct (cljp_base_weights _ _ _ _ _ _ _) as [w g']. simpl.
  unfold cljp_inv; simpl. subst n. rewrite fill_all, count_U_replicate.
  rewrite !zlen_vector by done. unfold zlen. rewrite length_replicate. done.
Qed.


End CLJPRuns.

(** C7: [cljp_naive_splitting] terminates.  The selection loop is
    entered in a state where [unassigned] counts the [U] nodes; in
    every pass entered from such a state with [unassigned > 0] there is
    a [U] node that no [U] node outweighs, every such node is selected
    and becomes a C node, the pass ends in such a state again and with
    a smaller [unassigned]; so [n] passes suffice and the call returns. *)
Theorem cljp_naive_splitting_terminates {W} `{ScalarStrict W} {G}
    (libc : libc_rand G) (vertex_coloring_mis : Z -> list Z -> list Z -> list Z -> list Z)
    (g : G) (n : Z) (Sp Sj Tp Tj splitting0 : list Z) (colorflag : Z) :
  zlen splitting0 = n ->
  cljp_inv n (fst (cljp_init libc vertex_coloring_mis g n Sp Sj splitting0 colorflag))
  /\ (forall st : cljp_state W,
        cljp_inv n st -> 0 < unassigned st ->
        (exists i, maximal_U st i)
        /\ (forall i, maximal_U st i ->
              in_Dlist (cljp_select n Sp Sj Tp Tj st) i
              /\ (c_splitting (cljp_select n Sp Sj Tp Tj st)).[i] = C_NODE)
        /\ cljp_inv n (cljp_round n Sp Sj Tp Tj st)
        /\ unassigned (cljp_round n Sp Sj Tp Tj st) < unassigned st)
  /\ exists res,
       cljp_naive_splitting libc vertex_coloring_mis (Z.to_nat n) g n Sp Sj Tp Tj
         splitting0 colorflag = Some res.
Proof.
  intros Hlen.
  pose proof (cljp_init_inv libc vertex_coloring_mis n Sp Sj splitting0 colorflag g Hlen)
    as Hinit.
  split; [done |]. split.
  - intros st Hinv Hpos. split.
    + apply exists_maximal_U. destruct Hinv as [<- _]. done.
    + split; [apply (cljp_select_spec n Sp Sj Tp Tj st Hinv) |].
      by apply cljp_round_progress.
  - unfold cljp_naive_splitting.
    destruct (cljp_init _ _ _ _ _ _ _ _) as [st0 g'] eqn:Hst0. simpl in Hinit.
    destruct (cljp_loop_terminates n Sp Sj Tp Tj (Z.to_nat n) st0 Hinit) as (st' & -> & _).
    + unfold cljp_init in Hst0.
      destruct (cljp_base_weights _ _ _ _ _ _ _) as [w g'']. injection Hst0 as <- _.
      simpl. rewrite <- Hlen. unfold zlen. lia.
    + by eexists.
Qed.

Lemma cljp_naive_splitting_terminates_witness :
  exists res,
    cljp_naive_splitting (W:=Q) (constant_rand 0) (fun _ _ _ c => c) 3 tt 3
      [0;0;1;2] [0;1] [0;1;2;2] [1;2] [0;0;0] 0 = Some res.
Proof.
  refine (proj2 (proj2 (cljp_naive_splitting_terminates (W:=Q) (constant_rand 0)
                          (fun _ _ _ c => c) tt 3 [0;0;1;2] [0;1] [0;1;2;2] [1;2]
                          [0;0;0] 0 _))).
  reflexivity.
Defined.


(** The rows of a strength matrix do not depend on what the output
    buffers held. *)
Lemma soc_rows_independent_of_buffers {T F} `{Scalar T, Scalar F}
    (init : F) (norm : T -> F) n_row theta Ap Aj (Ax : list T)
    Sp1 Sj1 Sx1 Sp2 Sj2 Sx2 i :
  soc_input_ok n_row Ap Sp1 Sj1 Sx1 = true ->
  soc_input_ok n_row Ap Sp2 Sj2 Sx2 = true -> 0 <= i < n_row ->
  out_row (soc_kernel init norm n_row theta Ap Aj Ax Sp1 Sj1 Sx1) i
  = out_row (soc_kernel init norm n_row theta Ap Aj Ax Sp2 Sj2 Sx2) i.
Proof. intros Hok1 Hok2 Hi. by rewrite !soc_kernel_out_row. Qed.



(** ** CLJP splitting: equal weights do not block selection *)

(** C1, on the code: three nodes, node 1 depending on node 0 and node 2
    on node 1, one colour for all three.  Nodes 0 and 1 enter the
    first pass with the same weight 1; the selection tests
    [weight[j] > weight[i]], which is false between them, so both are
    selected in that pass although [(1,0)] is an entry of [S], and the
    call returns with all three nodes C. *)
Theorem cljp_select_adjacent_equal_weights :
  let Sp := [0;0;1;2] in let Sj := [0;1] in
  let Tp := [0;1;2;2] in let Tj := [1;2] in
  let one_colour := fun (_ : Z) (_ _ _ : list Z) => [0;0;0] in
  let st0 := fst (cljp_init (W:=double) (constant_rand 0) one_colour tt 3 Sp Sj [0;0;0] 1) in
  let st1 := cljp_select 3 Sp Sj Tp Tj st0 in
  weight st0 = [1; 1; 0]%float
  /\ csr_cols Sp Sj 1 = [0] /\ csr_cols Tp Tj 0 = [1]
  /\ nD st1 = 2 /\ take 2 (Dlist st1) = [0; 1]
  /\ c_splitting st1 = [C_NODE; C_NODE; U_NODE]
  /\ cljp_naive_splitting (W:=double) (constant_rand 0) one_colour 3 tt 3 Sp Sj Tp Tj
       [0;0;0] 1 = Some ([C_NODE; C_NODE; C_NODE], tt).
Proof. repeat split; vm_compute; reflexivity. Qed.

(** ** CLJP splitting: only C and F on return *)

Lemma tags_ok_aset n spl j v :
  v = F_NODE \/ v = C_NODE \/ v = U_NODE -> tags_ok n spl -> tags_ok n (spl.[j <- v]).
Proof.
  intros Hv Hspl i Hi. destruct (aget_aset spl j i v) as [-> | [_ ->]]; [by apply Hspl | done].
Qed.

Lemma aget_fill {A} `{Zero A} (a : list A) n v i :
  0 <= i < n -> n <= zlen a -> (fill a n v).[i] = v.
Proof.
  intros Hi Hn. unfold fill.
  pose (P := fun (k : Z) (b : list A) => zlen b = zlen a /\ (i < k -> b.[i] = v)).
  enough (HP : P n (for_ 0 n (fun i b => b.[i <- v]) a)) by (apply HP; lia).
  apply (for_induction P); [lia | split; [done | lia] |]. unfold P.
  intros k b Hk [Hlen Hcell]. split; [by rewrite zlen_aset |]. intros Hik.
  destruct (Z.eq_dec k i) as [-> | Hne].
  - apply aget_aset_eq. lia.
  - rewrite aget_aset_ne by done. apply Hcell. lia.
Qed.

Section CLJPTags.
Context {W : Type} `{Scalar W}.
Variables (n : Z) (Sp Sj Tp Tj : list Z).
Implicit Types (st : cljp_state W).

Lemma c_splitting_scan Ap Aj i st : c_splitting (cljp_scan Ap Aj i st) = c_splitting st.
Proof.
  unfold cljp_scan.
  apply (for_break_invariant (fun s => c_splitting s = c_splitting st)); [done |].
  intros jj s _ Hs. by destruct (_ && _).
Qed.

Lemma c_splitting_consider i st :
  c_splitting (cljp_consider Sp Sj Tp Tj i st) = c_splitting st.
Proof.
  unfold cljp_consider. destruct (_ =? U_NODE); [| done].
  set (s2 := cljp_scan Sp Sj i _).
  assert (Hs2 : c_splitting s2 = c_splitting st) by (unfold s2; by rewrite c_splitting_scan).
  set (s3 := if (D s2).[i] =? 1 then _ else s2).
  assert (Hs3 : c_splitting s3 = c_splitting st).
  { unfold s3. destruct (_ =? 1); [by rewrite c_splitting_scan | done]. }
  destruct ((D s3).[i] =? 1); simpl; exact Hs3.
Qed.

Lemma tags_ok_select st :
  tags_ok n (c_splitting st) -> tags_ok n (c_splitting (cljp_select n Sp Sj Tp Tj st)).
Proof.
  intros Hst. unfold cljp_select.
  apply (for_invariant (fun s => tags_ok n (c_splitting s))).
  - apply (for_invariant (fun s => tags_ok n (c_splitting s))); [done |].
    intros i s _ Hs. by rewrite c_splitting_consider.
  - intros i s _ Hs. simpl. apply tags_ok_aset; auto.
Qed.

Lemma tags_ok_remove_edge e j st :
  tags_ok n (c_splitting st) -> tags_ok n (c_splitting (cljp_remove_edge e j st)).
Proof.
  intros Hst. unfold cljp_remove_edge.
  destruct (_ <? _)%sc; simpl; [apply tags_ok_aset; auto | done].
Qed.

Lemma tags_ok_round st :
  tags_ok n (c_splitting st) -> tags_ok n (c_splitting (cljp_round n Sp Sj Tp Tj st)).
Proof.
  intros Hst. unfold cljp_round, cljp_P6, cljp_P5.
  apply (for_invariant (fun s => tags_ok n (c_splitting s))).
  - apply (for_invariant (fun s => tags_ok n (c_splitting s))).
    + by apply tags_ok_select.
    + intros iD s _ Hs.
      apply (for_invariant (fun s => tags_ok n (c_splitting s))); [done |].
      intros jj s' _ Hs'. destruct (_ && _); [by apply tags_ok_remove_edge | done].
  - intros iD s _ Hs.
    apply (for_invariant (fun s => tags_ok n (c_splitting s))).
    + apply (for_invariant (fun s => tags_ok n (c_splitting s))); [done |].
      intros jj s' _ Hs'. by destruct (_ =? U_NODE).
    + intros jj s' _ Hs'.
      apply (for_invariant (fun s => tags_ok n (c_splitting s))); [done |].
      intros kk s'' _ Hs''. destruct (_ && _); [| done].
      destruct (_ =? _); [by apply tags_ok_remove_edge | done].
Qed.

Lemma tags_ok_loop fuel st st' :
  tags_ok n (c_splitting st) -> cljp_loop fuel n Sp Sj Tp Tj st = Some st' ->
  tags_ok n (c_splitting st').
Proof.
  revert st. induction fuel as [| fuel IH]; intros st Hst; simpl.
  - destruct (_ >? 0); [done |]. by intros [= <-].
  - destruct (_ >? 0); [| by intros [= <-]].
    apply IH. by apply tags_ok_round.
Qed.

(** The last loop leaves no [U] among the first [n] cells. *)
Lemma cljp_finish_spec st i :
  0 <= i < n -> tags_ok n (c_splitting st) ->
  (c_splitting (cljp_finish n Sp st)).[i] = F_NODE
  \/ (c_splitting (cljp_finish n Sp st)).[i] = C_NODE.
Proof.
  intros Hi Hst. unfold cljp_finish; simpl.
  pose (P := fun (k : Z) (spl : list Z) =>
               tags_ok n spl /\ (i < k -> spl.[i] <> U_NODE)).
  match goal with |- ?r.[_] = _ \/ _ => assert (HP : P n r) end.
  { apply (for_induction P); [lia | split; [done | lia] |]. unfold P.
    intros k spl Hk [Htags Hcell].
    destruct (Z.eqb_spec spl.[k] U_NODE) as [HU | HnU].
    - split; [apply tags_ok_aset; auto |]. intros Hik.
      destruct (Z.eq_dec k i) as [-> | Hne].
      + rewrite aget_aset_eq by (by apply aget_U_in_bounds). done.
      + rewrite aget_aset_ne by done. apply Hcell. lia.
    - split; [done |]. intros Hik.
      destruct (Z.eq_dec k i) as [-> | Hne]; [done | apply Hcell; lia]. }
  destruct HP as [Htags Hcell]. specialize (Hcell ltac:(lia)).
  destruct (Htags i Hi) as [? | [? | ?]]; auto. done.
Qed.

End CLJPTags.

(** Whenever [cljp_naive_splitting] returns, each of the [n] entries of
    the splitting is [F_NODE] or [C_NODE]. *)
Lemma cljp_naive_splitting_all_C_or_F {W} `{Scalar W} {G}
    (libc : libc_rand G) (vertex_coloring_mis : Z -> list Z -> list Z -> list Z -> list Z)
    (fuel : nat) (g : G) (n : Z) (Sp Sj Tp Tj splitting0 : list Z) (colorflag : Z)
    (res : list Z * G) (i : Z) :
  n <= zlen splitting0 -> 0 <= i < n ->
  cljp_naive_splitting (W:=W) libc vertex_coloring_mis fuel g n Sp Sj Tp Tj
    splitting0 colorflag = Some res ->
  (fst res).[i] = F_NODE \/ (fst res).[i] = C_NODE.
Proof.
  intros Hlen Hi. unfold cljp_naive_splitting, cljp_init.
  destruct (cljp_base_weights _ _ _ _ _ _ _) as [w g'].
  destruct (cljp_loop _ _ _ _ _ _ _) as [st' |] eqn:Hloop; [| done].
  intros [= <-]. apply (cljp_finish_spec n Sp st' i Hi).
  eapply tags_ok_loop; [| exact Hloop]. simpl.
  intros k Hk. right; right. by apply aget_fill.
Qed.

(** * Further properties of the kernels *)

(** ** Strength of connection: row pointers *)

Lemma soc_kernel_row_pointer {T F} `{Scalar T, Scalar F} (init : F) (norm : T -> F)
    n_row theta Ap Aj (Ax : list T) Sp0 Sj0 Sx0 :
  soc_input_ok n_row Ap Sp0 Sj0 Sx0 = true ->
  let S := soc_kernel init norm n_row theta Ap Aj Ax Sp0 Sj0 Sx0 in
  (Sp S).[0] = 0
  /\ (forall r, 0 <= r < n_row ->
        0 <= (Sp S).[r + 1] - (Sp S).[r] <= Ap.[r + 1] - Ap.[r])
  /\ (Sp S).[n_row] <= Ap.[n_row] - Ap.[0].
Proof.
  unfold soc_input_ok. rewrite !andb_true_iff, !Z.leb_le.
  intros ((((Hn & Hok) & HSp) & HSj) & HSx). simpl.
  destruct (soc_kernel_rows_done init norm theta Ap Aj Ax n_row Sp0 Sj0 Sx0)
    as (_ & _ & _ & _ & Hptr); try done.
  pose proof (row_ptr_ok_spec n_row Ap Hok) as Hmono.
  split; [| split].
  - rewrite Hptr by lia. unfold soc_kept_upto. by rewrite range_nil by lia.
  - intros r Hr. rewrite !Hptr by lia. rewrite soc_kept_upto_succ, zlen_app by lia.
    pose proof (zlen_soc_kept_row init norm theta Ap Aj Ax r).
    pose proof (zlen_nonneg (soc_kept_row init norm theta Ap Aj Ax r)).
    specialize (Hmono r). lia.
  - rewrite Hptr by lia. by apply (zlen_soc_kept_upto init norm theta Ap Aj Ax n_row).
Qed.

(** X1: both strength kernels leave a well-formed row pointer in [Sp]:
    [Sp[0] = 0], the row pointer is non-decreasing, row [r] of [S] has
    no more entries than row [r] of [A], and [Sp[n_row]], the number of
    entries of [S], is at most the number of entries of [A]. *)
Theorem soc_row_pointer_well_formed {T F} `{Scalar T, Scalar F, !Magnitude T F}
    (n_row : Z) (theta_abs : F) (theta_min : T) (Ap Aj : list Z) (Ax : list T)
    (Sp0 Sj0 : list Z) (Sx0 : list T) (S : soc_state T) :
  soc_input_ok n_row Ap Sp0 Sj0 Sx0 = true ->
  S = classical_strength_of_connection_abs n_row theta_abs Ap Aj Ax Sp0 Sj0 Sx0
  \/ S = classical_strength_of_connection_min n_row theta_min Ap Aj Ax Sp0 Sj0 Sx0 ->
  (Sp S).[0] = 0
  /\ (forall r, 0 <= r < n_row ->
        0 <= (Sp S).[r + 1] - (Sp S).[r] <= Ap.[r + 1] - Ap.[r])
  /\ (Sp S).[n_row] <= Ap.[n_row] - Ap.[0].
Proof.
  intros Hok [-> | ->]; by apply soc_kernel_row_pointer.
Qed.

Lemma soc_row_pointer_well_formed_witness :
  let S := classical_strength_of_connection_abs 3 (1 # 2)%Q [0;2;5;7]
             [0;1;0;1;2;1;2] [4;-3;-1;4;-3;-1;4]%Q [0;0;0;0] (replicate 7 0)
             (replicate 7 0%Q) in
  (Sp S).[0] = 0
  /\ (forall r, 0 <= r < 3 ->
        0 <= (Sp S).[r + 1] - (Sp S).[r] <= [0;2;5;7].[r + 1] - [0;2;5;7].[r])
  /\ (Sp S).[3] <= [0;2;5;7].[3] - [0;2;5;7].[0].
Proof.
  apply (soc_row_pointer_well_formed (T:=Q) (F:=Q) 3 (1 # 2)%Q (1 # 2)%Q [0;2;5;7]
           [0;1;0;1;2;1;2] [4;-3;-1;4;-3;-1;4]%Q [0;0;0;0] (replicate 7 0)
           (replicate 7 0%Q)); [reflexivity | by left].
Defined.

(** ** Strength of connection: the rows of the absolute-value kernel *)

Lemma flat_map_filter {A B} (t : A -> bool) (f : A -> B) (l : list A) :
  flat_map (fun a => if t a then [f a] else []) l = map f (List.filter t l).
Proof.
  induction l as [| a l IH]; simpl; [done |]. destruct (t a); simpl; by rewrite IH.
Qed.

Lemma filter_map_comm {A B} (p : B -> bool) (f : A -> B) (l : list A) :
  List.filter p (map f l) = map f (List.filter (fun a => p (f a)) l).
Proof.
  induction l as [| a l IH]; simpl; [done |]. destruct (p (f a)); simpl; by rewrite IH.
Qed.

(** What a row keeps is the row of [A] filtered by the test of
    [soc_entry], in the order of [A]. *)
Lemma soc_kept_row_filter {T F} `{Scalar T, Scalar F} (init : F) (norm : T -> F)
    theta Ap Aj (Ax : list T) i :
  soc_kept_row init norm theta Ap Aj Ax i
  = List.filter
      (fun cv => (fst cv =? i)
                 || (norm (snd cv) >=? soc_threshold init norm theta Ap Aj Ax i)%sc)
      (csr_row Ap Aj Ax i).
Proof.
  unfold soc_kept_row, csr_row. rewrite filter_map_comm, <- flat_map_filter. simpl.
  apply flat_map_ext. intros jj. unfold soc_kept.
  destruct (Aj.[jj] =? i); [done |]. simpl. by destruct (_ >=? _)%sc.
Qed.

(** X2: row [i] of the matrix [S] that
    [classical_strength_of_connection_abs] returns is row [i] of [A]
    with the weak off-diagonal entries dropped, in the order and with
    the values of [A]: an entry [(j, v)] stays when [j = i] or
    [|v| >= theta * m], where [m] is the greatest of
    [std::numeric_limits<F>::min()] and the ordered magnitudes of the
    off-diagonal entries stored in the row.  A magnitude that is not
    ordered (for binary64: NaN) is skipped by [std::max], so the
    statement holds for the exact rationals and for binary64, whatever
    the row and [theta] hold. *)
Theorem soc_abs_row_is_filtered_row {T F} `{Scalar T, ScalarOrdered F, !Magnitude T F}
    (n_row : Z) (theta : F) (Ap Aj : list Z) (Ax : list T)
    (Sp0 Sj0 : list Z) (Sx0 : list T) (i : Z) :
  soc_input_ok n_row Ap Sp0 Sj0 Sx0 = true ->
  0 <= i < n_row ->
  exists m : F,
    is_greatest m
      (numeric_limits_min
       :: List.filter ordered (offdiag_measures mynorm Aj Ax i Ap.[i] Ap.[i + 1]))
    /\ out_row (classical_strength_of_connection_abs n_row theta Ap Aj Ax Sp0 Sj0 Sx0) i
       = List.filter (fun cv => (fst cv =? i) || (mynorm (snd cv) >=? theta * m)%sc)
           (csr_row Ap Aj Ax i).
Proof.
  intros Hok Hi.
  exists (soc_max_offdiagonal numeric_limits_min mynorm Aj Ax i Ap.[i] Ap.[i + 1]).
  split; [apply soc_max_offdiagonal_ordered_greatest, so_min_ordered |].
  unfold classical_strength_of_connection_abs.
  rewrite soc_kernel_out_row by done. apply soc_kept_row_filter.
Qed.

Lemma soc_abs_row_is_filtered_row_witness :
  exists m : double,
    is_greatest m
      (numeric_limits_min
       :: List.filter ordered
            (offdiag_measures mynorm [0;1;0;1;2;1;2] [4;-3;-1;4;nan;-1;4]%float 1 2 5))
    /\ out_row (classical_strength_of_connection_abs 3 0.5%float [0;2;5;7]
                  [0;1;0;1;2;1;2] [4;-3;-1;4;nan;-1;4]%float
                  [0;0;0;0] (replicate 7 0) (replicate 7 0%float)) 1
       = List.filter (fun cv => (fst cv =? 1) || (mynorm (snd cv) >=? 0.5%float * m)%sc)
           (csr_row [0;2;5;7] [0;1;0;1;2;1;2] [4;-3;-1;4;nan;-1;4]%float 1).
Proof.
  apply (soc_abs_row_is_filtered_row (T:=double) (F:=double) 3 0.5%float [0;2;5;7]
           [0;1;0;1;2;1;2] [4;-3;-1;4;nan;-1;4]%float [0;0;0;0] (replicate 7 0)
           (replicate 7 0%float) 1); [reflexivity | lia].
Defined.

(** ** Strength of connection over the rationals: the sign of [theta] *)

Lemma filter_all {A} (p : A -> bool) (l : list A) :
  (forall a, In a l -> p a = true) -> List.filter p l = l.
Proof.
  induction l as [| a l IH]; simpl; intros Hall; [done |].
  rewrite (Hall a) by (by left). f_equal. apply IH. intros b Hb. apply Hall. by right.
Qed.

Lemma Qmult_nonpos_nonneg (a b : Q) : (a <= 0)%Q -> (0 <= b)%Q -> (a * b <= 0)%Q.
Proof. unfold Qle. destruct a as [an ad], b as [bn bd]. simpl. nia. Qed.

Lemma Qopp_nonneg_nonpos (v : Q) : (0 <= - v)%Q -> (v <= 0)%Q.
Proof. unfold Qle. destruct v as [vn vd]. simpl. lia. Qed.

(** X3: in exact arithmetic, [classical_strength_of_connection_abs]
    called with [theta <= 0] drops nothing: every row of [S] is the row
    of [A], entry by entry. *)
Theorem soc_abs_nonpositive_theta_keeps_all
    (n_row : Z) (theta : Q) (Ap Aj : list Z) (Ax : list Q)
    (Sp0 Sj0 : list Z) (Sx0 : list Q) (i : Z) :
  soc_input_ok n_row Ap Sp0 Sj0 Sx0 = true ->
  0 <= i < n_row ->
  (theta <= 0)%Q ->
  out_row (classical_strength_of_connection_abs n_row theta Ap Aj Ax Sp0 Sj0 Sx0) i
  = csr_row Ap Aj Ax i.
Proof.
  intros Hok Hi Htheta. unfold classical_strength_of_connection_abs.
  rewrite soc_kernel_out_row by done. rewrite soc_kept_row_filter.
  apply filter_all. intros [c v] _. simpl. apply orb_true_iff. right.
  unfold soc_threshold.
  set (m := soc_max_offdiagonal _ _ _ _ _ _ _).
  assert (Hm : (0 <= m)%Q).
  { destruct (soc_max_offdiagonal_greatest (F:=Q) numeric_limits_min mynorm Aj Ax i
                Ap.[i] Ap.[i + 1]) as [_ Hge].
    specialize (Hge numeric_limits_min ltac:(by left)). fold m in Hge.
    simpl in Hge. apply Qle_bool_iff in Hge.
    eapply Qle_trans; [| exact Hge]. done. }
  apply Qle_bool_iff. apply Qle_trans with 0%Q; [| apply Qabs_nonneg].
  by apply Qmult_nonpos_nonneg.
Qed.

Lemma soc_abs_nonpositive_theta_keeps_all_witness :
  out_row (classical_strength_of_connection_abs 3 0%Q [0;2;5;7]
             [0;1;0;1;2;1;2] [4;-3;-1;4;-3;-1;4]%Q
             [0;0;0;0] (replicate 7 0) (replicate 7 0%Q)) 1
  = csr_row [0;2;5;7] [0;1;0;1;2;1;2] [4;-3;-1;4;-3;-1;4]%Q 1.
Proof.
  apply (soc_abs_nonpositive_theta_keeps_all 3 0%Q [0;2;5;7]
           [0;1;0;1;2;1;2] [4;-3;-1;4;-3;-1;4]%Q [0;0;0;0] (replicate 7 0)
           (replicate 7 0%Q) 1); [reflexivity | lia | done].
Defined.

(** X4: in exact arithmetic, [classical_strength_of_connection_min]
    called with [theta >= 0] never keeps a positive off-diagonal entry:
    every off-diagonal entry of [S] has a value [<= 0]. *)
Theorem soc_min_keeps_no_positive_offdiagonal
    (n_row : Z) (theta : Q) (Ap Aj : list Z) (Ax : list Q)
    (Sp0 Sj0 : list Z) (Sx0 : list Q) (i c : Z) (v : Q) :
  soc_input_ok n_row Ap Sp0 Sj0 Sx0 = true ->
  0 <= i < n_row ->
  (0 <= theta)%Q ->
  In (c, v)
     (out_row (classical_strength_of_connection_min n_row theta Ap Aj Ax Sp0 Sj0 Sx0) i) ->
  c <> i ->
  (v <= 0)%Q.
Proof.
  intros Hok Hi Htheta Hin Hoff. unfold classical_strength_of_connection_min in Hin.
  rewrite soc_kernel_out_row in Hin by done.
  apply in_soc_kept_row in Hin as (jj & _ & _ & _ & [Hd | Hpass]); [done |].
  unfold soc_threshold in Hpass.
  set (m := soc_max_offdiagonal _ _ _ _ _ _ _) in Hpass.
  assert (Hm : (0 <= m)%Q).
  { destruct (soc_max_offdiagonal_greatest (F:=Q) s_zero s_opp Aj Ax i
                Ap.[i] Ap.[i + 1]) as [_ Hge].
    specialize (Hge s_zero ltac:(by left)). fold m in Hge.
    simpl in Hge. by apply Qle_bool_iff in Hge. }
  simpl in Hpass. apply Qle_bool_iff in Hpass.
  assert (Hneg : (0 <= - v)%Q).
  { eapply Qle_trans; [| exact Hpass]. by apply Qmult_le_0_compat. }
  by apply Qopp_nonneg_nonpos.
Qed.

Lemma soc_min_keeps_no_positive_offdiagonal_witness :
  In (2, (-3)%Q)
     (out_row (classical_strength_of_connection_min 3 (1 # 2)%Q [0;2;5;7]
                 [0;1;0;1;2;1;2] [4;-3;-1;4;-3;-1;4]%Q
                 [0;0;0;0] (replicate 7 0) (replicate 7 0%Q)) 1)
  /\ (-3 <= 0)%Q.
Proof.
  assert (Hin : In (2, (-3)%Q)
            (out_row (classical_strength_of_connection_min 3 (1 # 2)%Q [0;2;5;7]
                        [0;1;0;1;2;1;2] [4;-3;-1;4;-3;-1;4]%Q
                        [0;0;0;0] (replicate 7 0) (replicate 7 0%Q)) 1))
    by (vm_compute; auto).
  split; [exact Hin |].
  apply (soc_min_keeps_no_positive_offdiagonal 3 (1 # 2)%Q [0;2;5;7]
           [0;1;0;1;2;1;2] [4;-3;-1;4;-3;-1;4]%Q [0;0;0;0] (replicate 7 0)
           (replicate 7 0%Q) 1 2 (-3)%Q);
    [reflexivity | lia | done | exact Hin | done].
Defined.

(** ** [maximum_row_value]: every row *)

(** X5: [maximum_row_value] stores in [x[i]], for every row [i] below
    [n_row], the greatest of [std::numeric_limits<F>::min()] and the
    ordered magnitudes of all entries stored in row [i] (the diagonal
    included); a magnitude that is not ordered (for binary64: NaN) is
    skipped by [std::max], so the statement holds for the exact
    rationals and for binary64, whatever the rows hold.  The array
    keeps its length and the cells from [n_row] on keep their values. *)
Theorem maximum_row_value_is_greatest {T F} `{Scalar T, ScalarOrdered F, !Magnitude T F}
    (n_row : Z) (x : list T) (Ap Aj : list Z) (Ax : list T) :
  n_row <= zlen x ->
  let x' := maximum_row_value (F:=F) n_row x Ap Aj Ax in
  length x' = length x
  /\ (forall i, 0 <= i < n_row ->
        exists m : F,
          is_greatest m
            (numeric_limits_min
             :: List.filter ordered
                  (map (fun jj => mynorm Ax.[jj]) (range Ap.[i] Ap.[i + 1])))
          /\ x' !! Z.to_nat i = Some (of_magnitude m))
  /\ (forall j, n_row <= j -> x'.[j] = x.[j]).
Proof.
  intros Hlen. simpl.
  pose (row_max := fun i : Z =>
          for_ Ap.[i] Ap.[i + 1]
            (fun jj (max_entry : F) => std_max max_entry (mynorm Ax.[jj]))
            numeric_limits_min).
  pose (P := fun (k : Z) (y : list T) =>
               zlen y = zlen x
               /\ (forall i, 0 <= i < k -> y.[i] = of_magnitude (row_max i))
               /\ (forall j, k <= j -> y.[j] = x.[j])).
  assert (HP : P (Z.max 0 n_row) (maximum_row_value (F:=F) n_row x Ap Aj Ax)).
  { unfold maximum_row_value. destruct (Z.le_gt_cases n_row 0) as [Hle | Hpos].
    - rewrite for_nil by done. unfold P. split; [done |]. split; [intros; lia | done].
    - replace (Z.max 0 n_row) with n_row by lia.
      apply (for_induction P); [lia | |]; unfold P.
      + split; [done |]. split; [intros; lia | done].
      + intros k y Hk (Hy & Hrows & Hrest). split; [by rewrite zlen_aset |]. split.
        * intros i Hi. destruct (Z.eq_dec k i) as [-> | Hne].
          -- rewrite aget_aset_eq by lia. done.
          -- rewrite aget_aset_ne by done. apply Hrows. lia.
        * intros j Hj. rewrite aget_aset_ne by lia. apply Hrest. lia. }
  destruct HP as (Hx' & Hrows & Hrest).
  split; [unfold zlen in Hx'; lia |]. split.
  - intros i Hi. exists (row_max i). split.
    + unfold row_max, for_.
      replace (fold_left _ (range Ap.[i] Ap.[i + 1]) numeric_limits_min)
        with (fold_left std_max (map (fun jj => mynorm Ax.[jj]) (range Ap.[i] Ap.[i + 1]))
                (numeric_limits_min : F)).
      { apply fold_std_max_ordered_greatest, so_min_ordered. }
      generalize (numeric_limits_min : F).
      induction (range Ap.[i] Ap.[i + 1]) as [| jj l IH]; intros m; simpl; [done | apply IH].
    + rewrite lookup_aget by lia. f_equal. apply Hrows. lia.
  - intros j Hj. destruct (Z.lt_ge_cases j 0); [by rewrite !aget_oob by lia |].
    apply Hrest. lia.
Qed.

Lemma maximum_row_value_is_greatest_witness :
  let x' := maximum_row_value (F:=double) 2 [7; 7]%float [0;3;4] [0;1;2;1]
              [1; -3; nan; 2]%float in
  length x' = 2%nat
  /\ (forall i, 0 <= i < 2 ->
        exists m : double,
          is_greatest m
            (numeric_limits_min
             :: List.filter ordered
                  (map (fun jj => mynorm [1; -3; nan; 2]%float.[jj])
                     (range [0;3;4].[i] [0;3;4].[i + 1])))
          /\ x' !! Z.to_nat i = Some (of_magnitude m))
  /\ (forall j, 2 <= j -> x'.[j] = [7; 7]%float.[j]).
Proof.
  apply (maximum_row_value_is_greatest (T:=double) (F:=double) 2 [7; 7]%float [0;3;4]
           [0;1;2;1] [1; -3; nan; 2]%float).
  change (2 <= 2). lia.
Defined.

(** ** Interpolation: the row pointers of the first passes *)

Lemma for_count (t : Z -> bool) lo hi (n0 : Z) :
  for_ lo hi (fun jj nnz => if t jj then nnz + 1 else nnz) n0
  = n0 + zlen (List.filter t (range lo hi)).
Proof.
  unfold for_. revert n0. induction (range lo hi) as [| jj l IH]; intros n0; simpl.
  - unfold zlen. simpl. lia.
  - rewrite IH. destruct (t jj); [| done]. unfold zlen. simpl. lia.
Qed.

Lemma for_sum (f : Z -> Z) (body : Z -> Z -> Z) lo hi (n0 : Z) :
  (forall jj nnz, body jj nnz = nnz + f jj) ->
  for_ lo hi body n0 = n0 + zsum (map f (range lo hi)).
Proof.
  intros Hbody. unfold for_. revert n0.
  induction (range lo hi) as [| jj l IH]; intros n0; simpl; [lia |].
  rewrite IH, Hbody. lia.
Qed.

(** A loop that adds the size of each row and stores the running total
    builds the row pointer of these sizes. *)
Lemma row_pointer_loop (size : Z -> Z) (step : Z -> Z -> Z) n_nodes (Bp0 : list Z) :
  0 <= n_nodes -> n_nodes + 1 <= zlen Bp0 ->
  (forall i nnz, step i nnz = nnz + size i) ->
  row_pointer_of size n_nodes Bp0
    (snd (for_ 0 n_nodes
            (fun i '(nnz, Bp) => let nnz := step i nnz in (nnz, Bp.[i + 1 <- nnz]))
            (0, Bp0.[0 <- 0]))).
Proof.
  intros Hn Hlen Hstep.
  pose (P := fun (k : Z) (st : Z * list Z) =>
               zlen (snd st) = zlen Bp0 /\ (snd st).[0] = 0 /\ fst st = (snd st).[k]
               /\ (forall i, 0 <= i < k -> (snd st).[i + 1] = (snd st).[i] + size i)
               /\ (forall j, k < j -> (snd st).[j] = Bp0.[j])).
  match goal with |- row_pointer_of _ _ _ (snd ?r) => assert (HP : P n_nodes r) end.
  { apply (for_induction P); [done | |]; unfold P.
    - simpl. rewrite zlen_aset, aget_aset_eq by lia.
      split; [done |]. split; [done |]. split; [done |]. split; [intros; lia |].
      intros j Hj. by rewrite aget_aset_ne by lia.
    - intros k [nnz Bp] Hk (Hl & H0 & Hnnz & Hrows & Hrest). simpl in *.
      rewrite zlen_aset. split; [done |]. split; [by rewrite aget_aset_ne by lia |].
      split; [by rewrite aget_aset_eq by lia |]. split.
      + intros i Hi. destruct (Z.eq_dec i k) as [-> | Hne].
        * rewrite aget_aset_eq, aget_aset_ne by lia. rewrite Hstep. lia.
        * rewrite !aget_aset_ne by lia. apply Hrows. lia.
      + intros j Hj. rewrite aget_aset_ne by lia. apply Hrest. lia. }
  destruct HP as (Hl & H0 & _ & Hrows & Hrest).
  split; [apply Nat2Z.inj; exact Hl |]. done.
Qed.

Lemma rs_direct_interpolation_pass1_row_pointer n_nodes Sp Sj splitting Bp0 :
  0 <= n_nodes -> n_nodes + 1 <= zlen Bp0 ->
  row_pointer_of (P_row_size Sp Sj splitting) n_nodes Bp0
    (rs_direct_interpolation_pass1 n_nodes Sp Sj splitting Bp0).
Proof.
  intros Hn Hlen. unfold rs_direct_interpolation_pass1.
  apply (row_pointer_loop (P_row_size Sp Sj splitting)
           (fun i nnz =>
              if splitting.[i] =? C_NODE then nnz + 1
              else for_ Sp.[i] Sp.[i + 1]
                     (fun jj nnz =>
                        if (splitting.[Sj.[jj]] =? C_NODE) && negb (Sj.[jj] =? i)
                        then nnz + 1 else nnz) nnz)); [done | done |].
  intros i nnz. unfold P_row_size, strong_C_entries.
  destruct (splitting.[i] =? C_NODE); [done |]. apply for_count.
Qed.

Lemma row_pointer_of_mono size n_nodes Bp0 Bp :
  (forall i, 0 <= i < n_nodes -> 0 <= size i) ->
  row_pointer_of size n_nodes Bp0 Bp ->
  forall a b, 0 <= a <= b -> b <= n_nodes -> Bp.[a] <= Bp.[b].
Proof.
  intros Hsize (_ & _ & Hrows & _) a b Hab Hb.
  replace b with (a + Z.of_nat (Z.to_nat (b - a))) by lia.
  assert (Hm : forall m : nat, a + Z.of_nat m <= n_nodes -> Bp.[a] <= Bp.[a + Z.of_nat m]).
  { induction m as [| m IH]; intros Hm.
    - replace (a + Z.of_nat 0) with a by lia. lia.
    - replace (a + Z.of_nat (S m)) with (a + Z.of_nat m + 1) by lia.
      rewrite Hrows by lia. specialize (Hsize (a + Z.of_nat m)). lia. }
  apply Hm. lia.
Qed.

Lemma P_row_size_nonneg Sp Sj splitting i : 0 <= P_row_size Sp Sj splitting i.
Proof. unfold P_row_size. destruct (_ =? _); [lia | apply zlen_nonneg]. Qed.

(** X6: the first pass of direct and of standard interpolation builds
    the row pointer of the prolongator: it starts at [0], a C-point row
    has one entry, an F-point row [i] has one entry for every C-point
    other than [i] stored in row [i] of the strength matrix, the row
    pointer is non-decreasing, and the cells after [n_nodes] are left
    alone. *)
Theorem interpolation_pass1_row_pointer (n_nodes : Z) (Sp Sj splitting Bp0 Bp : list Z) :
  0 <= n_nodes -> n_nodes + 1 <= zlen Bp0 ->
  Bp = rs_direct_interpolation_pass1 n_nodes Sp Sj splitting Bp0
  \/ Bp = rs_standard_interpolation_pass1 n_nodes Sp Sj splitting Bp0 ->
  length Bp = length Bp0
  /\ Bp.[0] = 0
  /\ (forall i, 0 <= i < n_nodes ->
        Bp.[i + 1] - Bp.[i]
        = if splitting.[i] =? C_NODE then 1
          else zlen (List.filter
                       (fun jj => (splitting.[Sj.[jj]] =? C_NODE) && negb (Sj.[jj] =? i))
                       (range Sp.[i] Sp.[i + 1])))
  /\ (forall a b, 0 <= a <= b -> b <= n_nodes -> Bp.[a] <= Bp.[b])
  /\ (forall j, n_nodes < j -> Bp.[j] = Bp0.[j]).
Proof.
  intros Hn Hlen HBp.
  assert (Hptr : row_pointer_of (P_row_size Sp Sj splitting) n_nodes Bp0 Bp).
  { destruct HBp as [-> | ->]; by apply rs_direct_interpolation_pass1_row_pointer. }
  pose proof (row_pointer_of_mono _ _ _ _
                (fun i _ => P_row_size_nonneg Sp Sj splitting i) Hptr) as Hmono.
  destruct Hptr as (HlenBp & H0 & Hrows & Hrest).
  split; [done |]. split; [done |]. split; [| by split].
  intros i Hi. rewrite Hrows by done. unfold P_row_size, strong_C_entries. lia.
Qed.

Lemma interpolation_pass1_row_pointer_witness :
  let Bp := rs_standard_interpolation_pass1 3 [0;2;5;7] [0;1;0;1;2;1;2] [1;0;1] [9;9;9;9;9] in
  length Bp = 5%nat
  /\ Bp.[0] = 0
  /\ (forall i, 0 <= i < 3 ->
        Bp.[i + 1] - Bp.[i]
        = if [1;0;1].[i] =? C_NODE then 1
          else zlen (List.filter
                       (fun jj => ([1;0;1].[[0;1;0;1;2;1;2].[jj]] =? C_NODE)
                                  && negb ([0;1;0;1;2;1;2].[jj] =? i))
                       (range [0;2;5;7].[i] [0;2;5;7].[i + 1])))
  /\ (forall a b, 0 <= a <= b -> b <= 3 -> Bp.[a] <= Bp.[b])
  /\ (forall j, 3 < j -> Bp.[j] = [9;9;9;9;9].[j]).
Proof.
  apply (interpolation_pass1_row_pointer 3 [0;2;5;7] [0;1;0;1;2;1;2] [1;0;1] [9;9;9;9;9]);
    [lia | change (3 + 1 <= 5); lia | by right].
Defined.

Lemma zlen_filter_zsum (t : Z -> bool) (l : list Z) :
  zlen (List.filter t l) = zsum (map (fun jj => if t jj then 1 else 0) l).
Proof.
  induction l as [| jj l IH]; simpl; [done |].
  destruct (t jj); [| lia]. unfold zlen in *. simpl. lia.
Qed.

Lemma zsum_le (f g : Z -> Z) (l : list Z) :
  (forall jj, f jj <= g jj) -> zsum (map f l) <= zsum (map g l).
Proof.
  intros Hfg. induction l as [| jj l IH]; simpl; [lia |]. specialize (Hfg jj). lia.
Qed.

Lemma distance_two_pass1_row_pointer n_nodes Sp Sj splitting Bp0 :
  0 <= n_nodes -> n_nodes + 1 <= zlen Bp0 ->
  row_pointer_of (P_row_size_distance_two Sp Sj splitting) n_nodes Bp0
    (distance_two_amg_interpolation_pass1 n_nodes Sp Sj splitting Bp0).
Proof.
  intros Hn Hlen. unfold distance_two_amg_interpolation_pass1.
  apply (row_pointer_loop (P_row_size_distance_two Sp Sj splitting)
           (fun i nnz =>
              if splitting.[i] =? C_NODE then nnz + 1
              else for_ Sp.[i] Sp.[i + 1]
                     (fun jj nnz =>
                        let this_point := Sj.[jj] in
                        if splitting.[this_point] =? C_NODE then nnz + 1
                        else if negb (this_point =? i) then
                          for_ Sp.[this_point] Sp.[this_point + 1]
                            (fun kk nnz =>
                               if splitting.[Sj.[kk]] =? C_NODE then nnz + 1 else nnz)
                            nnz
                        else nnz) nnz)); [done | done |].
  intros i nnz. unfold P_row_size_distance_two.
  destruct (splitting.[i] =? C_NODE); [done |].
  apply for_sum. intros jj m. simpl.
  destruct (splitting.[Sj.[jj]] =? C_NODE); [done |].
  destruct (negb (Sj.[jj] =? i)); [| lia]. apply for_count.
Qed.

Lemma P_row_size_le_distance_two Sp Sj splitting i :
  P_row_size Sp Sj splitting i <= P_row_size_distance_two Sp Sj splitting i.
Proof.
  unfold P_row_size, P_row_size_distance_two, strong_C_entries.
  destruct (splitting.[i] =? C_NODE); [lia |].
  rewrite zlen_filter_zsum. apply zsum_le. intros jj.
  destruct (splitting.[Sj.[jj]] =? C_NODE); simpl; [destruct (negb _); lia |].
  destruct (negb _); [apply zlen_nonneg | lia].
Qed.

(** X7: [distance_two_amg_interpolation_pass1] builds a row pointer
    that starts at [0]; a C-point row has one entry, and an F-point row
    [i] one entry for every C-point stored in row [i] of the strength
    matrix plus, for every other F-point [k] stored in row [i], one for
    every C-point stored in row [k].  Every row is at least as long as
    the row [rs_standard_interpolation_pass1] lays out for the same
    input, so the distance-two row pointer dominates the standard one. *)
Theorem distance_two_pass1_dominates_standard
    (n_nodes : Z) (C_rowptr C_colinds splitting P_rowptr0 : list Z) :
  0 <= n_nodes -> n_nodes + 1 <= zlen P_rowptr0 ->
  let P2 := distance_two_amg_interpolation_pass1 n_nodes C_rowptr C_colinds splitting
              P_rowptr0 in
  let P1 := rs_standard_interpolation_pass1 n_nodes C_rowptr C_colinds splitting
              P_rowptr0 in
  P2.[0] = 0
  /\ (forall i, 0 <= i < n_nodes ->
        P2.[i + 1] - P2.[i] = P_row_size_distance_two C_rowptr C_colinds splitting i
        /\ 0 <= P1.[i + 1] - P1.[i] <= P2.[i + 1] - P2.[i])
  /\ (forall k, 0 <= k <= n_nodes -> P1.[k] <= P2.[k]).
Proof.
  intros Hn Hlen. simpl.
  destruct (distance_two_pass1_row_pointer n_nodes C_rowptr C_colinds splitting P_rowptr0
              Hn Hlen) as (_ & H20 & H2rows & _).
  destruct (rs_direct_interpolation_pass1_row_pointer n_nodes C_rowptr C_colinds splitting
              P_rowptr0 Hn Hlen) as (_ & H10 & H1rows & _).
  change (rs_direct_interpolation_pass1 n_nodes C_rowptr C_colinds splitting P_rowptr0)
    with (rs_standard_interpolation_pass1 n_nodes C_rowptr C_colinds splitting P_rowptr0)
    in *.
  set (P2 := distance_two_amg_interpolation_pass1 _ _ _ _ _) in *.
  set (P1 := rs_standard_interpolation_pass1 _ _ _ _ _) in *.
  split; [done |]. split.
  - intros i Hi. rewrite H2rows, H1rows by done.
    pose proof (P_row_size_le_distance_two C_rowptr C_colinds splitting i).
    pose proof (P_row_size_nonneg C_rowptr C_colinds splitting i). lia.
  - intros k Hk. replace k with (Z.of_nat (Z.to_nat k)) by lia.
    assert (Hm : forall m : nat, Z.of_nat m <= n_nodes -> P1.[Z.of_nat m] <= P2.[Z.of_nat m]).
    { induction m as [| m IH]; intros Hm.
      - change (Z.of_nat 0) with 0. lia.
      - replace (Z.of_nat (S m)) with (Z.of_nat m + 1) by lia.
        rewrite H2rows, H1rows by lia.
        pose proof (P_row_size_le_distance_two C_rowptr C_colinds splitting (Z.of_nat m)).
        specialize (IH ltac:(lia)). lia. }
    apply Hm. lia.
Qed.

Lemma distance_two_pass1_dominates_standard_witness :
  let P2 := distance_two_amg_interpolation_pass1 3 [0;2;5;7] [0;1;0;1;2;1;2] [1;0;0]
              [9;9;9;9;9] in
  let P1 := rs_standard_interpolation_pass1 3 [0;2;5;7] [0;1;0;1;2;1;2] [1;0;0]
              [9;9;9;9;9] in
  P2.[0] = 0
  /\ (forall i, 0 <= i < 3 ->
        P2.[i + 1] - P2.[i]
        = P_row_size_distance_two [0;2;5;7] [0;1;0;1;2;1;2] [1;0;0] i
        /\ 0 <= P1.[i + 1] - P1.[i] <= P2.[i + 1] - P2.[i])
  /\ (forall k, 0 <= k <= 3 -> P1.[k] <= P2.[k]).
Proof.
  apply (distance_two_pass1_dominates_standard 3 [0;2;5;7] [0;1;0;1;2;1;2] [1;0;0]
           [9;9;9;9;9]); [lia | change (3 + 1 <= 5); lia].
Defined.

(** ** Interpolation: rows written one after the other *)

Section WriteFacts.
Context {A : Type}.
Implicit Types (a pre rest l : list A).

Lemma length_write_from a pos l : length (write_from a pos l) = length a.
Proof.
  revert a pos. induction l as [| v l IH]; intros a pos; simpl; [done |].
  by rewrite IH, length_aset.
Qed.

(** Writing [l] right after the prefix [pre] replaces the first cells of
    what follows. *)
Lemma write_from_app pre rest pos l :
  zlen pre = pos -> (length l <= length rest)%nat ->
  write_from (pre ++ rest) pos l = pre ++ l ++ drop (length l) rest.
Proof.
  revert pre rest pos. induction l as [| v l IH]; intros pre rest pos Hpos Hlen; simpl.
  - by rewrite drop_0.
  - destruct rest as [| r rest]; simpl in Hlen; [lia |].
    assert (Hset : (pre ++ r :: rest).[pos <- v] = (pre ++ [v]) ++ rest).
    { unfold aset. subst pos. unfold zlen.
      destruct (Z.ltb_spec (Z.of_nat (length pre)) 0) as [Hneg | _]; [lia |].
      rewrite Nat2Z.id, insert_app_r_alt by lia.
      replace (length pre - length pre)%nat with 0%nat by lia. simpl.
      by rewrite <- app_assoc. }
    rewrite Hset, IH.
    + by rewrite <- app_assoc.
    + rewrite zlen_app. unfold zlen in *. simpl. lia.
    + lia.
Qed.

End WriteFacts.

Lemma write_loop {A B} (t : Z -> bool) (c : Z -> A) (w : Z -> B)
    (body : Z -> list A * list B * Z -> list A * list B * Z) lo hi a b p :
  (forall jj a b nnz,
     body jj (a, b, nnz)
     = if t jj then (a.[nnz <- c jj], b.[nnz <- w jj], nnz + 1) else (a, b, nnz)) ->
  for_ lo hi body (a, b, p)
  = (write_from a p (map c (List.filter t (range lo hi))),
     write_from b p (map w (List.filter t (range lo hi))),
     p + zlen (List.filter t (range lo hi))).
Proof.
  intros Hbody. unfold for_. revert a b p.
  induction (range lo hi) as [| jj l IH]; intros a b p; simpl.
  - unfold zlen. simpl. f_equal. lia.
  - rewrite Hbody. destruct (t jj); simpl; rewrite IH; [| done].
    f_equal. unfold zlen. simpl. lia.
Qed.

Section RowsFacts.
Context {T : Type} `{Scalar T}.
Variables (row : Z -> list (Z * T)) (body : Z -> list Z * list T -> list Z * list T).
Variables (n : Z) (Bp : list Z).
Hypothesis Hn : 0 <= n.
Hypothesis HBp0 : Bp.[0] = 0.
Hypothesis HBp : forall i, 0 <= i < n -> Bp.[i + 1] = Bp.[i] + zlen (row i).
Hypothesis Hbody : forall i B, 0 <= i < n ->
  body i B = (write_from (fst B) Bp.[i] (map fst (row i)),
              write_from (snd B) Bp.[i] (map snd (row i))).

Lemma row_pointer_prefix k : 0 <= k <= n -> Bp.[k] = zlen (flat_map row (range 0 k)).
Proof.
  intros Hk. replace k with (Z.of_nat (Z.to_nat k)) by lia.
  assert (Hm : forall m : nat, Z.of_nat m <= n ->
            Bp.[Z.of_nat m] = zlen (flat_map row (range 0 (Z.of_nat m)))).
  { induction m as [| m IH]; intros Hm.
    - change (Z.of_nat 0) with 0. by rewrite HBp0, range_nil by lia.
    - replace (Z.of_nat (S m)) with (Z.of_nat m + 1) by lia.
      rewrite flat_map_range_snoc, zlen_app, HBp by lia. rewrite IH by lia. done. }
  apply Hm. lia.
Qed.

(** The loop over the rows leaves all rows, one after the other, at the
    front of the two arrays. *)
Lemma rows_loop (Bj0 : list Z) (Bx0 : list T) :
  Bp.[n] <= zlen Bj0 -> Bp.[n] <= zlen Bx0 ->
  let all := flat_map row (range 0 n) in
  for_ 0 n body (Bj0, Bx0)
  = (map fst all ++ drop (length all) Bj0, map snd all ++ drop (length all) Bx0).
Proof.
  intros HBj HBx. simpl.
  pose (P := fun (k : Z) (B : list Z * list T) =>
               B = (map fst (flat_map row (range 0 k))
                      ++ drop (length (flat_map row (range 0 k))) Bj0,
                    map snd (flat_map row (range 0 k))
                      ++ drop (length (flat_map row (range 0 k))) Bx0)).
  apply (for_induction P); [done | |]; unfold P.
  - rewrite range_nil by lia. simpl. by rewrite !drop_0.
  - intros k B Hk ->. rewrite Hbody by lia. simpl.
    pose proof (row_pointer_prefix k ltac:(lia)) as Hpk.
    pose proof (row_pointer_prefix (k + 1) ltac:(lia)) as Hpk1.
    pose proof (row_pointer_prefix n ltac:(lia)) as Hpn.
    rewrite flat_map_range_snoc in * by lia. rewrite zlen_app in Hpk1.
    set (acc := flat_map row (range 0 k)) in *.
    assert (Hle : Bp.[k + 1] <= Bp.[n]).
    { rewrite Hpn. replace n with (k + 1 + Z.of_nat (Z.to_nat (n - k - 1))) by lia.
      clear Hpn. induction (Z.to_nat (n - k - 1)) as [| m IH].
      - replace (k + 1 + Z.of_nat 0) with (k + 1) by lia.
        rewrite flat_map_range_snoc, zlen_app by lia. fold acc. lia.
      - replace (k + 1 + Z.of_nat (S m)) with (k + 1 + Z.of_nat m + 1) by lia.
        rewrite (flat_map_range_snoc row 0 (k + 1 + Z.of_nat m)), zlen_app by lia.
        pose proof (zlen_nonneg (row (k + 1 + Z.of_nat m))). lia. }
    rewrite !write_from_app.
    + by rewrite !map_app, !length_app, !length_map, !drop_drop, <- !app_assoc.
    + unfold zlen in *. rewrite length_map. lia.
    + rewrite length_drop, length_map. unfold zlen in *. lia.
    + unfold zlen in *. rewrite length_map. lia.
    + rewrite length_drop, length_map. unfold zlen in *. lia.
Qed.

(** The cells of row [i] of the CSR matrix [(Bp, Bj, Bx)] then hold
    [row i]. *)
Lemma csr_row_concat (Bj restj : list Z) (Bx restx : list T) i :
  Bj = map fst (flat_map row (range 0 n)) ++ restj ->
  Bx = map snd (flat_map row (range 0 n)) ++ restx ->
  0 <= i < n ->
  csr_row Bp Bj Bx i = row i.
Proof.
  intros -> -> Hi. unfold csr_row.
  rewrite (row_pointer_prefix i), (row_pointer_prefix (i + 1)) by lia.
  rewrite flat_map_range_snoc, zlen_app by lia.
  set (acc := flat_map row (range 0 i)).
  assert (Hall : exists rest, flat_map row (range 0 n) = acc ++ row i ++ rest).
  { replace n with (i + 1 + Z.of_nat (Z.to_nat (n - i - 1))) by lia.
    induction (Z.to_nat (n - i - 1)) as [| m [rest IH]].
    - exists []. replace (i + 1 + Z.of_nat 0) with (i + 1) by lia.
      rewrite flat_map_range_snoc by lia. by rewrite app_nil_r.
    - exists (rest ++ row (i + 1 + Z.of_nat m)).
      replace (i + 1 + Z.of_nat (S m)) with (i + 1 + Z.of_nat m + 1) by lia.
      rewrite flat_map_range_snoc, IH by lia. by rewrite <- !app_assoc. }
  destruct Hall as [rest ->].
  apply list_eq. intros q. rewrite list_lookup_fmap.
  pose proof (zlen_nonneg acc) as Hacc.
  destruct (decide (q < length (row i))%nat) as [Hq | Hq].
  - rewrite lookup_range by (unfold zlen; lia). simpl.
    destruct (lookup_lt_is_Some_2 (row i) q Hq) as [[c v] Hx]. rewrite Hx. f_equal.
    assert (Hcell : (acc ++ row i ++ rest) !! Z.to_nat (zlen acc + Z.of_nat q) = Some (c, v)).
    { rewrite lookup_app_r by (unfold zlen; lia).
      rewrite lookup_app_l by (unfold zlen; lia).
      rewrite <- Hx. f_equal. unfold zlen. lia. }
    f_equal.
    + apply aget_lookup; [lia |]. rewrite lookup_app_l.
      * by rewrite list_lookup_fmap, Hcell.
      * rewrite length_map. by apply lookup_lt_Some in Hcell.
    + apply aget_lookup; [lia |]. rewrite lookup_app_l.
      * by rewrite list_lookup_fmap, Hcell.
      * rewrite length_map. by apply lookup_lt_Some in Hcell.
  - rewrite (lookup_ge_None_2 (row i)) by lia.
    rewrite lookup_ge_None_2; [done |]. rewrite length_range. unfold zlen. lia.
Qed.

End RowsFacts.

(** ** Interpolation: the numbering of the C-points *)

Lemma zsum_app (l1 l2 : list Z) : zsum (l1 ++ l2) = zsum l1 + zsum l2.
Proof. induction l1 as [| x l1 IH]; simpl; lia. Qed.

Lemma coarse_index_succ splitting c :
  0 <= c -> coarse_index splitting (c + 1) = coarse_index splitting c + splitting.[c].
Proof.
  intros Hc. unfold coarse_index. rewrite range_snoc, map_app, zsum_app by done. simpl. lia.
Qed.

(** The vector [map] of lines 630-634. *)
Lemma coarse_map_spec n splitting c :
  0 <= c < n ->
  (fst (for_ 0 n (fun i '(map, sum) => (map.[i <- sum], sum + splitting.[i]))
          (vector n 0, 0))).[c]
  = coarse_index splitting c.
Proof.
  intros Hc.
  pose (P := fun (k : Z) (st : list Z * Z) =>
               zlen (fst st) = n /\ snd st = coarse_index splitting k
               /\ (c < k -> (fst st).[c] = coarse_index splitting c)).
  match goal with |- (fst ?r).[_] = _ => assert (HP : P n r) end.
  { apply (for_induction P); [lia | |]; unfold P.
    - simpl. split; [apply zlen_vector; lia |]. split; [| lia].
      unfold coarse_index. by rewrite range_nil by lia.
    - intros k [mp sum] Hk (Hl & Hsum & Hcell). simpl in *.
      rewrite zlen_aset. split; [done |]. split.
      + rewrite coarse_index_succ by lia. by rewrite Hsum.
      + intros Hck. destruct (Z.eq_dec k c) as [-> | Hne].
        * rewrite aget_aset_eq by lia. done.
        * rewrite aget_aset_ne by done. apply Hcell. lia. }
  destruct HP as (_ & _ & Hcell). apply Hcell. lia.
Qed.

(** The loop that renumbers the columns applies [f] to each of the
    first cells. *)
Lemma renumber_loop (f : Z -> Z) (done pre rest : list Z) :
  for_ (zlen done) (zlen done + zlen pre) (fun i a => a.[i <- f a.[i]]) (done ++ pre ++ rest)
  = done ++ map f pre ++ rest.
Proof.
  revert done. induction pre as [| x pre IH]; intros done.
  - rewrite for_nil by (unfold zlen; simpl; lia). done.
  - pose proof (zlen_nonneg done) as Hd.
    rewrite for_cons by (unfold zlen; simpl; lia).
    assert (Hget : (done ++ (x :: pre) ++ rest).[zlen done] = x).
    { apply aget_lookup; [done |]. unfold zlen. rewrite Nat2Z.id.
      rewrite lookup_app_r by lia. by replace (_ - _)%nat with 0%nat by lia. }
    assert (Hset : (done ++ (x :: pre) ++ rest).[zlen done <- f x]
                   = (done ++ [f x]) ++ pre ++ rest).
    { unfold aset. destruct (Z.ltb_spec (zlen done) 0) as [Hneg | _]; [lia |].
      unfold zlen. rewrite Nat2Z.id, insert_app_r_alt by lia.
      replace (_ - _)%nat with 0%nat by lia. simpl. by rewrite <- app_assoc. }
    rewrite Hget, Hset.
    replace (zlen done + 1) with (zlen (done ++ [f x]))
      by (rewrite zlen_app; unfold zlen; simpl; lia).
    replace (zlen done + zlen (x :: pre)) with (zlen (done ++ [f x]) + zlen pre)
      by (rewrite zlen_app; unfold zlen; simpl; lia).
    rewrite IH. simpl. by rewrite <- app_assoc.
Qed.

Lemma map_flat_map {A B C} (g : B -> C) (r : A -> list B) (l : list A) :
  map g (flat_map r l) = flat_map (fun a => map g (r a)) l.
Proof. induction l as [| a l IH]; simpl; [done |]. by rewrite map_app, IH. Qed.

Lemma flat_map_ext_in {A B} (r1 r2 : A -> list B) (l : list A) :
  (forall a, In a l -> r1 a = r2 a) -> flat_map r1 l = flat_map r2 l.
Proof.
  induction l as [| a l IH]; simpl; intros Hr; [done |].
  rewrite (Hr a) by (by left). f_equal. apply IH. intros b Hb. apply Hr. by right.
Qed.

(** ** Direct interpolation: the rows of the prolongator *)

Section DirectFacts.
Context {T : Type} `{Scalar T}.
Variables (n_nodes : Z) (Ap Aj : list Z) (Ax : list T) (Sp Sj : list Z) (Sx : list T).
Variables (splitting Bp : list Z).

Local Abbreviation rs_direct_row := (rs_direct_row Ap Aj Ax Sp Sj Sx splitting).

(** The F-point row [i] stores its entries from cell [Bp[i]] on. *)
Lemma rs_direct_F_row_writes i (B : list Z * list T) :
  rs_direct_F_row Ap Aj Ax Sp Sj Sx splitting Bp i B
  = (write_from (fst B) Bp.[i]
       (map (fun jj => Sj.[jj]) (strong_C_entries Sp Sj splitting i)),
     write_from (snd B) Bp.[i]
       (map (rs_direct_weight Ap Aj Ax Sp Sj Sx splitting i)
          (strong_C_entries Sp Sj splitting i))).
Proof.
  unfold rs_direct_F_row, rs_direct_weight, rs_direct_coefficients, strong_C_entries.
  destruct (for_ Sp.[i] Sp.[i + 1] _ (s_zero, s_zero)) as [ssp ssn].
  destruct (for_ Ap.[i] Ap.[i + 1] _ (s_zero, s_zero, s_zero)) as [[sap san] diag].
  destruct (if (ssp ==? s_zero)%sc then _ else _) as [diag' beta]. simpl.
  rewrite (write_loop
             (fun jj => (splitting.[Sj.[jj]] =? C_NODE) && negb (Sj.[jj] =? i))
             (fun jj => Sj.[jj])
             (fun jj => if (Sx.[jj] <? s_zero)%sc
                        then (- (san / ssn) / diag' * Sx.[jj])%sc
                        else (- beta / diag' * Sx.[jj])%sc)); [done |].
  intros jj a b nnz. destruct (_ && _); [| done]. by destruct (_ <? _)%sc.
Qed.

Lemma zlen_rs_direct_row col i : zlen (rs_direct_row col i) = P_row_size Sp Sj splitting i.
Proof.
  unfold rs_direct_row, P_row_size. destruct (_ =? C_NODE); [done |].
  unfold zlen. by rewrite length_map.
Qed.

(** A column stored in a row is a point below [zlen splitting]. *)
Lemma rs_direct_row_cols i c v :
  0 <= i < zlen splitting -> In (c, v) (rs_direct_row (fun c => c) i) ->
  0 <= c < zlen splitting.
Proof.
  intros Hi. unfold rs_direct_row. destruct (_ =? C_NODE).
  - intros [[= <- _] | []]. done.
  - intros Hin. apply in_map_iff in Hin as (jj & [= <- _] & Hjj).
    unfold strong_C_entries in Hjj. apply filter_In in Hjj as [_ Ht].
    apply andb_true_iff in Ht as [HC _]. apply Z.eqb_eq in HC.
    destruct (Z.lt_ge_cases Sj.[jj] 0) as [Hneg | Hpos].
    { rewrite aget_oob in HC by lia. done. }
    destruct (Z.lt_ge_cases Sj.[jj] (zlen splitting)) as [Hlt | Hge]; [lia |].
    rewrite aget_oob in HC by lia. done.
Qed.

Lemma rs_direct_row_renumber (f col : Z -> Z) i :
  (forall c v, In (c, v) (rs_direct_row (fun c => c) i) -> f c = col c) ->
  map (fun cv => (f (fst cv), snd cv)) (rs_direct_row (fun c => c) i) = rs_direct_row col i.
Proof.
  unfold rs_direct_row. destruct (_ =? C_NODE); simpl.
  - intros Hf. by rewrite (Hf i s_one) by (by left).
  - intros Hf. rewrite map_map. apply map_ext_in. intros jj Hjj. simpl.
    rewrite (Hf Sj.[jj] (rs_direct_weight Ap Aj Ax Sp Sj Sx splitting i jj)); [done |].
    apply in_map_iff. by exists jj.
Qed.

Lemma rs_direct_interpolation_pass2_rows (Bj0 : list Z) (Bx0 : list T) :
  0 <= n_nodes -> zlen splitting = n_nodes ->
  Bp.[0] = 0 ->
  (forall i, 0 <= i < n_nodes -> Bp.[i + 1] = Bp.[i] + P_row_size Sp Sj splitting i) ->
  Bp.[n_nodes] <= zlen Bj0 -> Bp.[n_nodes] <= zlen Bx0 ->
  let all := flat_map (rs_direct_row (coarse_index splitting)) (range 0 n_nodes) in
  rs_direct_interpolation_pass2 n_nodes Ap Aj Ax Sp Sj Sx splitting Bp Bj0 Bx0
  = (map fst all ++ drop (length all) Bj0, map snd all ++ drop (length all) Bx0).
Proof.
  intros Hn Hspl HBp0 HBp HBj HBx. simpl. unfold rs_direct_interpolation_pass2.
  pose (raw := rs_direct_row (fun c => c)).
  assert (Hraw : forall i, 0 <= i < n_nodes -> Bp.[i + 1] = Bp.[i] + zlen (raw i)).
  { intros i Hi. unfold raw. rewrite zlen_rs_direct_row. by apply HBp. }
  rewrite (rows_loop raw _ n_nodes Bp Hn HBp0 Hraw); [| | done | done].
  2:{ intros i [Bj Bx] Hi. unfold raw, rs_direct_row. simpl.
      destruct (splitting.[i] =? C_NODE); [done |].
      rewrite rs_direct_F_row_writes. simpl. by rewrite !map_map. }
  destruct (for_ 0 n_nodes _ (vector n_nodes 0, 0)) as [mp sum] eqn:Hmap.
  assert (Hmp : forall c, 0 <= c < n_nodes -> mp.[c] = coarse_index splitting c).
  { intros c Hc. pose proof (coarse_map_spec n_nodes splitting c Hc) as Hcm.
    by rewrite Hmap in Hcm. }
  pose proof (row_pointer_prefix raw n_nodes Bp Hn HBp0 Hraw n_nodes ltac:(lia)) as Hall.
  set (allraw := flat_map raw (range 0 n_nodes)) in *.
  assert (Hren : map (fun cv => (mp.[fst cv], snd cv)) allraw
                 = flat_map (rs_direct_row (coarse_index splitting)) (range 0 n_nodes)).
  { unfold allraw. rewrite map_flat_map. apply flat_map_ext_in. intros i Hi.
    apply list_elem_of_In, elem_of_range in Hi.
    apply rs_direct_row_renumber. intros c v Hin. apply Hmp.
    rewrite <- Hspl. apply (rs_direct_row_cols i c v); [lia | done]. }
  rewrite Hall.
  pose proof (renumber_loop (fun c => mp.[c]) [] (map fst allraw)
                (drop (length allraw) Bj0)) as Hloop.
  simpl in Hloop. change (zlen []) with 0 in Hloop.
  replace (0 + zlen (map fst allraw)) with (zlen allraw) in Hloop
    by (unfold zlen; rewrite length_map; lia).
  rewrite Hloop. rewrite <- Hren.
  rewrite !map_map, !length_map. done.
Qed.

End DirectFacts.

Lemma rs_direct_interpolation_spec {T} `{Scalar T}
    (n_nodes : Z) (Ap Aj : list Z) (Ax : list T) (Sp Sj : list Z) (Sx : list T)
    (splitting Bp0 Bj0 : list Z) (Bx0 : list T) :
  0 <= n_nodes -> zlen splitting = n_nodes -> n_nodes + 1 <= zlen Bp0 ->
  let Bp := rs_direct_interpolation_pass1 n_nodes Sp Sj splitting Bp0 in
  Bp.[n_nodes] <= zlen Bj0 -> Bp.[n_nodes] <= zlen Bx0 ->
  let B := rs_direct_interpolation_pass2 n_nodes Ap Aj Ax Sp Sj Sx splitting Bp Bj0 Bx0 in
  length (fst B) = length Bj0 /\ length (snd B) = length Bx0
  /\ (forall i, 0 <= i < n_nodes ->
        csr_row Bp (fst B) (snd B) i
        = rs_direct_row Ap Aj Ax Sp Sj Sx splitting (coarse_index splitting) i)
  /\ (forall p, Bp.[n_nodes] <= p ->
        (fst B).[p] = Bj0.[p] /\ (snd B).[p] = Bx0.[p]).
Proof.
  intros Hn Hspl HlenBp. simpl. intros HBj HBx.
  destruct (rs_direct_interpolation_pass1_row_pointer n_nodes Sp Sj splitting Bp0 Hn HlenBp)
    as (_ & HBp0 & HBp & _).
  set (Bp := rs_direct_interpolation_pass1 n_nodes Sp Sj splitting Bp0) in *.
  rewrite (rs_direct_interpolation_pass2_rows n_nodes Ap Aj Ax Sp Sj Sx splitting Bp
             Bj0 Bx0 Hn Hspl HBp0 HBp HBj HBx).
  set (row := rs_direct_row Ap Aj Ax Sp Sj Sx splitting (coarse_index splitting)).
  assert (Hrow : forall i, 0 <= i < n_nodes -> Bp.[i + 1] = Bp.[i] + zlen (row i)).
  { intros i Hi. unfold row. rewrite zlen_rs_direct_row. by apply HBp. }
  pose proof (row_pointer_prefix row n_nodes Bp Hn HBp0 Hrow n_nodes ltac:(lia)) as Hall.
  set (all := flat_map row (range 0 n_nodes)) in *. simpl.
  assert (Hlen : forall {A} (f : Z * T -> A) (a : list A),
            zlen all <= zlen a -> length (map f all ++ drop (length all) a) = length a).
  { intros A f a Hle. rewrite length_app, length_map, length_drop. unfold zlen in Hle. lia. }
  split; [apply Hlen; lia |]. split; [apply Hlen; lia |]. split.
  - intros i Hi. by apply (csr_row_concat row n_nodes Bp Hn HBp0 Hrow _ _ _ _ i eq_refl eq_refl).
  - intros p Hp. pose proof (zlen_nonneg all) as Hnonneg.
    assert (Hcell : forall {A} `{Zero A} (pre a : list A),
              length pre = length all -> zlen all <= zlen a ->
              (pre ++ drop (length all) a).[p] = a.[p]).
    { intros A ? pre a Hpre Hle. unfold aget.
      destruct (Z.ltb_spec p 0) as [Hneg | _]; [lia |].
      rewrite lookup_app_r by (unfold zlen in *; lia).
      rewrite lookup_drop. do 2 f_equal. unfold zlen in *. lia. }
    split; apply Hcell; try (by rewrite length_map); lia.
Qed.

(** X8: with the row pointer of [rs_direct_interpolation_pass1],
    [rs_direct_interpolation_pass2] leaves in [(Bp, Bj, Bx)] the CSR
    matrix whose row [i] is, for a C-point, the single entry [1] in the
    column that numbers [i] among the C-points, and, for an F-point,
    one entry [neg_coeff * Sx[jj]] or [pos_coeff * Sx[jj]] (by the sign
    of [Sx[jj]]) per C-point other than [i] stored in row [i] of [S], in
    the order of [S] and in the column that numbers that C-point.  The
    arrays keep their lengths and the cells from [Bp[n_nodes]] on keep
    their values. *)
Theorem rs_direct_interpolation_rows {T} `{Scalar T}
    (n_nodes : Z) (Ap Aj : list Z) (Ax : list T) (Sp Sj : list Z) (Sx : list T)
    (splitting Bp0 Bj0 : list Z) (Bx0 : list T) :
  0 <= n_nodes -> zlen splitting = n_nodes -> n_nodes + 1 <= zlen Bp0 ->
  let Bp := rs_direct_interpolation_pass1 n_nodes Sp Sj splitting Bp0 in
  Bp.[n_nodes] <= zlen Bj0 -> Bp.[n_nodes] <= zlen Bx0 ->
  let B := rs_direct_interpolation_pass2 n_nodes Ap Aj Ax Sp Sj Sx splitting Bp Bj0 Bx0 in
  length (fst B) = length Bj0 /\ length (snd B) = length Bx0
  /\ (forall i, 0 <= i < n_nodes ->
        csr_row Bp (fst B) (snd B) i
        = rs_direct_row Ap Aj Ax Sp Sj Sx splitting (coarse_index splitting) i)
  /\ (forall p, Bp.[n_nodes] <= p ->
        (fst B).[p] = Bj0.[p] /\ (snd B).[p] = Bx0.[p]).
Proof. apply rs_direct_interpolation_spec. Qed.

Lemma rs_direct_interpolation_rows_witness :
  let Sp := [0;2;5;8;11;13] in
  let Sj := [0;1; 0;1;2; 1;2;3; 2;3;4; 3;4] in
  let Sx := [2;-1; -1;2;-1; -1;2;-1; -1;2;-1; -1;2]%Q in
  let spl := [1;0;1;0;1] in
  let Bp := rs_direct_interpolation_pass1 5 Sp Sj spl [0;0;0;0;0;0] in
  let B := rs_direct_interpolation_pass2 5 Sp Sj Sx Sp Sj Sx spl Bp
             (replicate 7 0) (replicate 7 0%Q) in
  length (fst B) = 7%nat /\ length (snd B) = 7%nat
  /\ (forall i, 0 <= i < 5 ->
        csr_row Bp (fst B) (snd B) i
        = rs_direct_row Sp Sj Sx Sp Sj Sx spl (coarse_index spl) i)
  /\ (forall p, Bp.[5] <= p ->
        (fst B).[p] = (replicate 7 0).[p] /\ (snd B).[p] = (replicate 7 0%Q).[p]).
Proof.
  apply (rs_direct_interpolation_rows (T:=Q) 5 [0;2;5;8;11;13]
           [0;1; 0;1;2; 1;2;3; 2;3;4; 3;4]
           [2;-1; -1;2;-1; -1;2;-1; -1;2;-1; -1;2]%Q
           [0;2;5;8;11;13] [0;1; 0;1;2; 1;2;3; 2;3;4; 3;4]
           [2;-1; -1;2;-1; -1;2;-1; -1;2;-1; -1;2]%Q
           [1;0;1;0;1] [0;0;0;0;0;0] (replicate 7 0) (replicate 7 0%Q));
    [lia | reflexivity | change (5 + 1 <= 6); lia
    | change (7 <= 7); lia | change (7 <= 7); lia].
Defined.

(** ** Direct interpolation: the columns of the prolongator *)

Lemma map_aget_range (l : list Z) : map (fun k => l.[k]) (range 0 (zlen l)) = l.
Proof.
  apply list_eq. intros q. rewrite list_lookup_fmap.
  destruct (decide (q < length l)%nat) as [Hq | Hq].
  - rewrite lookup_range by (unfold zlen; lia). simpl.
    rewrite <- (lookup_aget l (0 + Z.of_nat q)) by (unfold zlen; lia).
    f_equal. lia.
  - rewrite (lookup_ge_None_2 l) by lia.
    rewrite lookup_ge_None_2; [done |]. rewrite length_range. unfold zlen. lia.
Qed.

Lemma zsum_tags (l : list Z) :
  (forall t, In t l -> t = F_NODE \/ t = C_NODE) ->
  zsum l = zlen (List.filter (fun t => t =? C_NODE) l).
Proof.
  induction l as [| t l IH]; intros Htags; simpl; [done |].
  rewrite IH by (intros u Hu; apply Htags; by right).
  destruct (Htags t ltac:(by left)) as [-> | ->]; unfold F_NODE, C_NODE, zlen; simpl; lia.
Qed.

Lemma coarse_index_mono splitting a b :
  (forall k, 0 <= k < b -> 0 <= splitting.[k]) ->
  0 <= a <= b -> coarse_index splitting a <= coarse_index splitting b.
Proof.
  intros Hpos Hab.
  assert (Hm : forall m : nat, a + Z.of_nat m <= b ->
            coarse_index splitting a <= coarse_index splitting (a + Z.of_nat m)).
  { induction m as [| m IH]; intros Hm.
    - replace (a + Z.of_nat 0) with a by lia. lia.
    - replace (a + Z.of_nat (S m)) with (a + Z.of_nat m + 1) by lia.
      rewrite coarse_index_succ by lia.
      specialize (Hpos (a + Z.of_nat m) ltac:(lia)). specialize (IH ltac:(lia)). lia. }
  specialize (Hm (Z.to_nat (b - a))).
  replace (a + Z.of_nat (Z.to_nat (b - a))) with b in Hm by lia. apply Hm. lia.
Qed.

Lemma coarse_index_total splitting :
  (forall k, 0 <= k < zlen splitting -> splitting.[k] = F_NODE \/ splitting.[k] = C_NODE) ->
  coarse_index splitting (zlen splitting)
  = zlen (List.filter (fun t => t =? C_NODE) splitting).
Proof.
  intros Htags. unfold coarse_index. rewrite map_aget_range. apply zsum_tags.
  intros t Ht. apply list_elem_of_In, list_elem_of_lookup in Ht as [q Hq].
  pose proof (lookup_lt_Some _ _ _ Hq) as Hlt.
  specialize (Htags (Z.of_nat q) ltac:(unfold zlen; lia)).
  rewrite (aget_lookup splitting (Z.of_nat q) t) in Htags; [done | lia |].
  by rewrite Nat2Z.id.
Qed.

(** A C-point is numbered below the number of C-points. *)
Lemma coarse_index_C_point splitting p :
  (forall k, 0 <= k < zlen splitting -> splitting.[k] = F_NODE \/ splitting.[k] = C_NODE) ->
  splitting.[p] = C_NODE ->
  0 <= coarse_index splitting p < zlen (List.filter (fun t => t =? C_NODE) splitting).
Proof.
  intros Htags HC.
  assert (Hp : 0 <= p < zlen splitting).
  { destruct (Z.lt_ge_cases p 0); [by rewrite aget_oob in HC by lia |].
    destruct (Z.lt_ge_cases p (zlen splitting)); [lia | by rewrite aget_oob in HC by lia]. }
  assert (Hpos : forall k, 0 <= k < zlen splitting -> 0 <= splitting.[k]).
  { intros k Hk. destruct (Htags k Hk) as [-> | ->]; done. }
  rewrite <- coarse_index_total by done.
  pose proof (coarse_index_mono splitting 0 p) as H0.
  pose proof (coarse_index_mono splitting (p + 1) (zlen splitting) Hpos) as H1.
  rewrite coarse_index_succ, HC in H1 by lia.
  change (coarse_index splitting 0) with 0 in H0. unfold C_NODE in H1.
  split; [apply H0; [intros k Hk; apply Hpos |]; lia | lia].
Qed.

(** X9: when [splitting] holds only the tags [F_NODE] and [C_NODE],
    every column index that [rs_direct_interpolation_pass2] leaves in a
    row of the prolongator lies in [[0, n_C)], where [n_C] is the number
    of C-points: the prolongator has one column per C-point. *)
Theorem rs_direct_interpolation_column_range {T} `{Scalar T}
    (n_nodes : Z) (Ap Aj : list Z) (Ax : list T) (Sp Sj : list Z) (Sx : list T)
    (splitting Bp0 Bj0 : list Z) (Bx0 : list T) (i c : Z) (v : T) :
  0 <= n_nodes -> zlen splitting = n_nodes -> n_nodes + 1 <= zlen Bp0 ->
  (forall k, 0 <= k < n_nodes -> splitting.[k] = F_NODE \/ splitting.[k] = C_NODE) ->
  let Bp := rs_direct_interpolation_pass1 n_nodes Sp Sj splitting Bp0 in
  Bp.[n_nodes] <= zlen Bj0 -> Bp.[n_nodes] <= zlen Bx0 ->
  let B := rs_direct_interpolation_pass2 n_nodes Ap Aj Ax Sp Sj Sx splitting Bp Bj0 Bx0 in
  0 <= i < n_nodes ->
  In (c, v) (csr_row Bp (fst B) (snd B) i) ->
  0 <= c < zlen (List.filter (fun t => t =? C_NODE) splitting).
Proof.
  intros Hn Hspl HlenBp Htags. simpl. intros HBj HBx Hi.
  destruct (rs_direct_interpolation_spec n_nodes Ap Aj Ax Sp Sj Sx splitting Bp0 Bj0 Bx0
              Hn Hspl HlenBp HBj HBx) as (_ & _ & Hrows & _).
  rewrite Hrows by done. rewrite <- Hspl in Htags.
  unfold rs_direct_row. destruct (Z.eqb_spec splitting.[i] C_NODE) as [HC | HF].
  - intros [[= <- _] | []]. by apply coarse_index_C_point.
  - intros Hin. apply in_map_iff in Hin as (jj & [= <- _] & Hjj).
    unfold strong_C_entries in Hjj. apply filter_In in Hjj as [_ Ht].
    apply andb_true_iff in Ht as [HC _]. apply Z.eqb_eq in HC.
    by apply coarse_index_C_point.
Qed.

Lemma rs_direct_interpolation_column_range_witness :
  0 <= 1 < zlen (List.filter (fun t => t =? C_NODE) [1;0;1;0;1]).
Proof.
  apply (rs_direct_interpolation_column_range (T:=Q) 5 [0;2;5;8;11;13]
           [0;1; 0;1;2; 1;2;3; 2;3;4; 3;4]
           [2;-1; -1;2;-1; -1;2;-1; -1;2;-1; -1;2]%Q
           [0;2;5;8;11;13] [0;1; 0;1;2; 1;2;3; 2;3;4; 3;4]
           [2;-1; -1;2;-1; -1;2;-1; -1;2;-1; -1;2]%Q
           [1;0;1;0;1] [0;0;0;0;0;0] (replicate 7 0) (replicate 7 0%Q) 1 1 (2 # 4)%Q);
    [lia | reflexivity | change (5 + 1 <= 6); lia | | change (7 <= 7); lia
    | change (7 <= 7); lia | lia | vm_compute; auto].
  intros k Hk.
  assert (Hcases : k = 0 \/ k = 1 \/ k = 2 \/ k = 3 \/ k = 4) by lia.
  destruct Hcases as [-> | [-> | [-> | [-> | ->]]]]; vm_compute; auto.
Defined.

(** ** Direct interpolation in exact arithmetic: constants are reproduced *)

Lemma Q_ltb_zero_true (x : Q) : (x <? s_zero)%sc = true -> (x < 0)%Q.
Proof.
  simpl. intros Hlt. apply negb_true_iff in Hlt. apply Qnot_le_lt. intros Hle.
  apply Qle_bool_iff in Hle. congruence.
Qed.

Lemma Q_ltb_zero_false (x : Q) : (x <? s_zero)%sc = false -> (0 <= x)%Q.
Proof. simpl. intros Hlt. apply negb_false_iff in Hlt. by apply Qle_bool_iff. Qed.

Lemma Q_ltb_zero_neg (x : Q) : (x < 0)%Q -> (x <? s_zero)%sc = true.
Proof.
  intros Hx. destruct (x <? s_zero)%sc eqn:Hlt; [done |].
  apply Q_ltb_zero_false in Hlt. exfalso. by apply (Qlt_not_le x 0).
Qed.

Lemma qsum_negative (l : list Q) :
  l <> [] -> (forall x, In x l -> (x < 0)%Q) -> (qsum l < 0)%Q.
Proof.
  induction l as [| x l IH]; [done |]. intros _ Hneg. simpl.
  destruct l as [| y l].
  - simpl. rewrite Qplus_0_r. apply Hneg. by left.
  - apply Qlt_le_trans with (0 + 0)%Q; [| unfold Qle; simpl; lia].
    apply Qplus_lt_le_compat.
    + apply Hneg. by left.
    + apply Qlt_le_weak, IH; [done |]. intros z Hz. apply Hneg. by right.
Qed.

Lemma qsum_scale (c : Q) (f : Z -> Q) (l : list Z) :
  (qsum (map (fun jj => c * f jj) l) == c * qsum (map f l))%Q.
Proof. induction l as [| jj l IH]; simpl; [ring |]. rewrite IH. ring. Qed.

Section DirectSums.
Variables (Ap Aj : list Z) (Ax : list Q) (Sp Sj : list Z) (Sx : list Q).
Variables (splitting : list Z) (i : Z).

(** Lines 571-579 when every strong C-point entry is negative. *)
Lemma direct_strong_sums :
  (forall jj, In jj (strong_C_entries Sp Sj splitting i) -> (Sx.[jj] < 0)%Q) ->
  exists ssn : Q,
    for_ Sp.[i] Sp.[i + 1]
      (fun jj '(pos, neg) =>
         if (splitting.[Sj.[jj]] =? C_NODE) && negb (Sj.[jj] =? i) then
           if (Sx.[jj] <? s_zero)%sc then (pos, (neg + Sx.[jj])%sc)
           else ((pos + Sx.[jj])%sc, neg)
         else (pos, neg))
      (s_zero, s_zero) = (0%Q, ssn)
    /\ (ssn == qsum (map (fun jj => Sx.[jj]) (strong_C_entries Sp Sj splitting i)))%Q.
Proof.
  unfold strong_C_entries, for_. intros Hneg.
  set (t := fun jj => (splitting.[Sj.[jj]] =? C_NODE) && negb (Sj.[jj] =? i)) in *.
  assert (Hgen : forall l (neg : Q),
            (forall jj, In jj (List.filter t l) -> (Sx.[jj] < 0)%Q) ->
            exists ssn : Q,
              fold_left
                (fun s jj =>
                   (fun jj '(pos, neg) =>
                      if t jj then
                        if (Sx.[jj] <? s_zero)%sc then (pos, (neg + Sx.[jj])%sc)
                        else ((pos + Sx.[jj])%sc, neg)
                      else (pos, neg)) jj s) l (0%Q, neg) = (0%Q, ssn)
              /\ (ssn == neg + qsum (map (fun jj => Sx.[jj]) (List.filter t l)))%Q).
  { induction l as [| jj l IH]; intros neg Hl; cbn [fold_left List.filter map].
    - exists neg. split; [done | simpl; ring].
    - cbn [List.filter] in Hl. destruct (t jj) eqn:Ht; cbn [map].
      + rewrite (Q_ltb_zero_neg Sx.[jj]) by (apply Hl; by left).
        destruct (IH (neg + Sx.[jj])%Q) as (ssn & Hfold & Hssn).
        { intros kk Hkk. apply Hl. by right. }
        exists ssn. split; [exact Hfold |]. rewrite Hssn. simpl. ring.
      + by apply IH. }
  destruct (Hgen (range Sp.[i] Sp.[i + 1]) 0%Q Hneg) as (ssn & Hfold & Hssn).
  exists ssn. split; [exact Hfold |]. rewrite Hssn. ring.
Qed.

(** Lines 581-592 when no off-diagonal entry of the row is positive. *)
Lemma direct_all_sums :
  (forall jj, Ap.[i] <= jj < Ap.[i + 1] -> Aj.[jj] <> i -> (Ax.[jj] <= 0)%Q) ->
  exists sap san diag : Q,
    for_ Ap.[i] Ap.[i + 1]
      (fun jj '(pos, neg, diag) =>
         if Aj.[jj] =? i then (pos, neg, (diag + Ax.[jj])%sc)
         else if (Ax.[jj] <? s_zero)%sc then (pos, (neg + Ax.[jj])%sc, diag)
         else ((pos + Ax.[jj])%sc, neg, diag))
      (s_zero, s_zero, s_zero) = (sap, san, diag)
    /\ (sap == 0)%Q
    /\ (san + diag == qsum (map (fun jj => Ax.[jj]) (range Ap.[i] Ap.[i + 1])))%Q
    /\ (diag == qsum (map (fun jj => Ax.[jj])
                        (List.filter (fun jj => Aj.[jj] =? i) (range Ap.[i] Ap.[i + 1]))))%Q.
Proof.
  unfold for_. intros Hoff.
  assert (Hgen : forall l (pos neg dg : Q),
            (forall jj, In jj l -> Aj.[jj] <> i -> (Ax.[jj] <= 0)%Q) ->
            exists sap san diag : Q,
              fold_left
                (fun s jj =>
                   (fun jj '(pos, neg, diag) =>
                      if Aj.[jj] =? i then (pos, neg, (diag + Ax.[jj])%sc)
                      else if (Ax.[jj] <? s_zero)%sc then (pos, (neg + Ax.[jj])%sc, diag)
                      else ((pos + Ax.[jj])%sc, neg, diag)) jj s) l (pos, neg, dg)
              = (sap, san, diag)
              /\ (sap == pos)%Q
              /\ (san + diag == neg + dg + qsum (map (fun jj => Ax.[jj]) l))%Q
              /\ (diag == dg + qsum (map (fun jj => Ax.[jj])
                                       (List.filter (fun jj => Aj.[jj] =? i) l)))%Q).
  { induction l as [| jj l IH]; intros pos neg dg Hl; cbn [fold_left List.filter map].
    - exists pos, neg, dg. split; [done |]. split; [done |]. split; simpl; ring.
    - assert (Hl' : forall kk, In kk l -> Aj.[kk] <> i -> (Ax.[kk] <= 0)%Q)
        by (intros kk Hkk; apply Hl; by right).
      destruct (Z.eqb_spec Aj.[jj] i) as [Hd | Hnd]; cbn [map].
      + destruct (IH pos neg (dg + Ax.[jj])%Q Hl') as (sap & san & diag & Hf & Hp & Hs & Hd').
        exists sap, san, diag. split; [exact Hf |]. split; [done |].
        split; [rewrite Hs | rewrite Hd']; simpl; ring.
      + destruct (Ax.[jj] <? s_zero)%sc eqn:Hlt.
        * destruct (IH pos (neg + Ax.[jj])%Q dg Hl')
            as (sap & san & diag & Hf & Hp & Hs & Hd').
          exists sap, san, diag. split; [exact Hf |]. split; [done |].
          split; [rewrite Hs; simpl; ring | done].
        * assert (Hzero : (Ax.[jj] == 0)%Q).
          { apply Qle_antisym; [apply Hl; [by left | done] | by apply Q_ltb_zero_false]. }
          destruct (IH (pos + Ax.[jj])%Q neg dg Hl')
            as (sap & san & diag & Hf & Hp & Hs & Hd').
          exists sap, san, diag. split; [exact Hf |].
          split; [rewrite Hp, Hzero; ring |].
          split; [rewrite Hs; simpl; rewrite Hzero; ring | done]. }
  destruct (Hgen (range Ap.[i] Ap.[i + 1]) 0%Q 0%Q 0%Q) as (sap & san & diag & Hf & Hp & Hs & Hd).
  { intros jj Hjj. apply Hoff. by apply elem_of_range, list_elem_of_In. }
  exists sap, san, diag. split; [exact Hf |]. split; [done |].
  split; [rewrite Hs | rewrite Hd]; ring.
Qed.

End DirectSums.

(** X10: in exact arithmetic, direct interpolation reproduces
    constants on a row of M-matrix type.  Let [i] be an F-point with at
    least one strong C-point, all of whose strong C-point entries are
    negative; let no off-diagonal entry of row [i] of [A] be positive,
    the entries of that row sum to zero and its diagonal be nonzero.
    Then the weights that [rs_direct_interpolation_pass2] stores in row
    [i] of the prolongator sum to [1]. *)
Theorem rs_direct_interpolation_weights_sum_to_one
    (n_nodes : Z) (Ap Aj : list Z) (Ax : list Q) (Sp Sj : list Z) (Sx : list Q)
    (splitting Bp0 Bj0 : list Z) (Bx0 : list Q) (i : Z) :
  0 <= n_nodes -> zlen splitting = n_nodes -> n_nodes + 1 <= zlen Bp0 ->
  let Bp := rs_direct_interpolation_pass1 n_nodes Sp Sj splitting Bp0 in
  Bp.[n_nodes] <= zlen Bj0 -> Bp.[n_nodes] <= zlen Bx0 ->
  let B := rs_direct_interpolation_pass2 n_nodes Ap Aj Ax Sp Sj Sx splitting Bp Bj0 Bx0 in
  0 <= i < n_nodes -> splitting.[i] <> C_NODE ->
  strong_C_entries Sp Sj splitting i <> [] ->
  (forall jj, In jj (strong_C_entries Sp Sj splitting i) -> (Sx.[jj] < 0)%Q) ->
  (forall jj, Ap.[i] <= jj < Ap.[i + 1] -> Aj.[jj] <> i -> (Ax.[jj] <= 0)%Q) ->
  (qsum (map (fun jj => Ax.[jj]) (range Ap.[i] Ap.[i + 1])) == 0)%Q ->
  ~ (qsum (map (fun jj => Ax.[jj])
             (List.filter (fun jj => Aj.[jj] =? i) (range Ap.[i] Ap.[i + 1]))) == 0)%Q ->
  (qsum (map snd (csr_row Bp (fst B) (snd B) i)) == 1)%Q.
Proof.
  intros Hn Hspl HlenBp. simpl. intros HBj HBx Hi HF Hsome Hneg Hoff Hrow Hdiag.
  destruct (rs_direct_interpolation_spec n_nodes Ap Aj Ax Sp Sj Sx splitting Bp0 Bj0 Bx0
              Hn Hspl HlenBp HBj HBx) as (_ & _ & Hrows & _).
  rewrite Hrows by done. unfold rs_direct_row.
  destruct (Z.eqb_spec splitting.[i] C_NODE) as [HC | _]; [done |].
  rewrite map_map. simpl.
  set (ents := strong_C_entries Sp Sj splitting i) in *.
  rewrite (map_ext_in _
             (fun jj => (fst (rs_direct_coefficients Ap Aj Ax Sp Sj Sx splitting i)
                         * Sx.[jj])%Q)).
  2:{ intros jj Hjj. unfold rs_direct_weight. by rewrite (Q_ltb_zero_neg Sx.[jj]) by auto. }
  rewrite (qsum_scale _ (fun jj => Sx.[jj])).
  unfold rs_direct_coefficients.
  destruct (direct_strong_sums Sp Sj Sx splitting i Hneg) as (ssn & -> & Hssn).
  destruct (direct_all_sums Ap Aj Ax i Hoff) as (sap & san & diag & -> & Hp & Hs & Hd).
  fold ents in Hssn. rewrite <- Hssn.
  change ((0%Q ==? s_zero)%sc) with true. cbn [fst s_opp s_div s_add Q_Scalar].
  assert (Hssn0 : ~ (ssn == 0)%Q).
  { intros Hz. apply (Qlt_irrefl 0). rewrite <- Hz at 1. rewrite Hssn.
    apply qsum_negative.
    - intros Hnil. apply map_eq_nil in Hnil. done.
    - intros x Hx. apply in_map_iff in Hx as (jj & <- & Hjj). by apply Hneg. }
  assert (Hdiag0 : ~ (diag == 0)%Q) by (by rewrite Hd).
  assert (Hsan : (san == - diag)%Q).
  { rewrite Hrow in Hs.
    assert (Hsplit : (san == san + diag - diag)%Q) by ring.
    rewrite Hsplit, Hs. ring. }
  rewrite Hp, Hsan. field. by split.
Qed.

Lemma rs_direct_interpolation_weights_sum_to_one_witness :
  let Sp := [0;2;5;8;11;13] in
  let Sj := [0;1; 0;1;2; 1;2;3; 2;3;4; 3;4] in
  let Sx := [1;-1; -1;2;-1; -1;2;-1; -1;2;-1; -1;1]%Q in
  let spl := [1;0;1;0;1] in
  let Bp := rs_direct_interpolation_pass1 5 Sp Sj spl [0;0;0;0;0;0] in
  let B := rs_direct_interpolation_pass2 5 Sp Sj Sx Sp Sj Sx spl Bp
             (replicate 7 0) (replicate 7 0%Q) in
  (qsum (map snd (csr_row Bp (fst B) (snd B) 1)) == 1)%Q.
Proof.
  apply (rs_direct_interpolation_weights_sum_to_one 5 [0;2;5;8;11;13]
           [0;1; 0;1;2; 1;2;3; 2;3;4; 3;4]
           [1;-1; -1;2;-1; -1;2;-1; -1;2;-1; -1;1]%Q
           [0;2;5;8;11;13] [0;1; 0;1;2; 1;2;3; 2;3;4; 3;4]
           [1;-1; -1;2;-1; -1;2;-1; -1;2;-1; -1;1]%Q
           [1;0;1;0;1] [0;0;0;0;0;0] (replicate 7 0) (replicate 7 0%Q) 1);
    [lia | reflexivity | change (5 + 1 <= 6); lia | change (7 <= 7); lia
    | change (7 <= 7); lia | lia | done | done | | | reflexivity | done].
  - intros jj Hjj. change (In jj [2; 4]) in Hjj.
    destruct Hjj as [<- | [<- | []]]; reflexivity.
  - change (forall jj, 2 <= jj < 5 ->
              [0;1; 0;1;2; 1;2;3; 2;3;4; 3;4].[jj] <> 1 ->
              ([1;-1; -1;2;-1; -1;2;-1; -1;2;-1; -1;1]%Q.[jj] <= 0)%Q).
    intros jj Hjj Hoff.
    assert (Hcases : jj = 2 \/ jj = 3 \/ jj = 4) by lia.
    destruct Hcases as [-> | [-> | ->]]; [done | | done].
    exfalso. by apply Hoff.
Defined.

(** ** CLJP splitting: what a pass selects *)

Section CLJPSelection.
Context {W : Type} `{ScalarStrict W}.
Variables (n : Z) (Sp Sj Tp Tj : list Z).
Implicit Types (st s : cljp_state W).

(** The second loop of the selection writes only to the cells listed
    in [Dlist]. *)
Lemma cljp_mark_only_selected s :
  let s' := for_ 0 (nD s)
              (fun i st => with_splitting st (c_splitting st).[(Dlist st).[i] <- C_NODE]) s in
  Dlist s' = Dlist s /\ nD s' = nD s
  /\ forall i, ~ in_Dlist s i -> (c_splitting s').[i] = (c_splitting s).[i].
Proof.
  simpl.
  apply (for_invariant (fun s' =>
           Dlist s' = Dlist s /\ nD s' = nD s
           /\ forall i, ~ in_Dlist s i -> (c_splitting s').[i] = (c_splitting s).[i])).
  - done.
  - intros p s' Hp (HD & HnD & Hcells). simpl.
    split; [done |]. split; [done |]. intros i Hi.
    rewrite aget_aset_ne; [by apply Hcells |].
    intros Heq. apply Hi. exists p. split; [lia |]. by rewrite <- HD.
Qed.

Lemma cljp_select_unselected st i :
  cljp_inv n st ->
  ~ in_Dlist (cljp_select n Sp Sj Tp Tj st) i ->
  (c_splitting (cljp_select n Sp Sj Tp Tj st)).[i] = (c_splitting st).[i].
Proof.
  intros (Hun & Hlspl & HlD & HlDl) Hnot. unfold cljp_select in *.
  set (st0 := {| c_splitting := c_splitting st; nD := 0 |}) in *.
  assert (Hn : 0 <= n) by (rewrite <- HlD; apply zlen_nonneg).
  assert (Hspl : c_splitting (for_ 0 n (cljp_consider Sp Sj Tp Tj) st0) = c_splitting st).
  { apply (for_invariant (fun s => c_splitting s = c_splitting st)); [done |].
    intros k s _ Hs. by rewrite c_splitting_consider. }
  set (s := for_ 0 n (cljp_consider Sp Sj Tp Tj) st0) in *.
  destruct (cljp_mark_only_selected s) as (HD & HnD & Hcells).
  rewrite Hcells, Hspl; [done |].
  intros (p & Hp & Hi). apply Hnot. exists p. rewrite HnD, HD. done.
Qed.

End CLJPSelection.

(** X11: the selection step of a CLJP pass (lines 425-459), entered in
    a state where [unassigned] counts the [U] nodes, makes a node [i] a
    C node exactly when [i] is a [U] node and no [U] node stored in row
    [i] of [S] or of [T] has a strictly greater weight; every other
    node keeps its tag, and [unassigned] drops by the number of nodes
    selected. *)
Theorem cljp_select_characterisation {W} `{ScalarStrict W}
    (n : Z) (Sp Sj Tp Tj : list Z) (st : cljp_state W) :
  cljp_inv n st ->
  let st' := cljp_select n Sp Sj Tp Tj st in
  (forall i, in_Dlist st' i <-> selectable Sp Sj Tp Tj st i = true)
  /\ (forall i, (c_splitting st').[i]
                = if selectable Sp Sj Tp Tj st i then C_NODE else (c_splitting st).[i])
  /\ unassigned st' = unassigned st - nD st'
  /\ cljp_inv n st'.
Proof.
  intros Hinv. simpl.
  destruct (cljp_select_full n Sp Sj Tp Tj st Hinv) as (Hinv' & _ & Hun & Hiff & HC).
  split; [done |]. split; [| by split].
  intros i. destruct (selectable Sp Sj Tp Tj st i) eqn:Hsel.
  - by apply HC, Hiff.
  - apply cljp_select_unselected; [done |]. intros Hin. apply Hiff in Hin. congruence.
Qed.

Lemma cljp_select_characterisation_witness :
  let Sp := [0;0;1;2] in let Sj := [0;1] in
  let Tp := [0;1;2;2] in let Tj := [1;2] in
  let st := fst (cljp_init (W:=Q) (constant_rand 0) (fun _ _ _ c => c) tt 3 Sp Sj
                   [0;0;0] 0) in
  let st' := cljp_select 3 Sp Sj Tp Tj st in
  (forall i, in_Dlist st' i <-> selectable Sp Sj Tp Tj st i = true)
  /\ (forall i, (c_splitting st').[i]
                = if selectable Sp Sj Tp Tj st i then C_NODE else (c_splitting st).[i])
  /\ unassigned st' = unassigned st - nD st'
  /\ cljp_inv 3 st'.
Proof.
  apply (cljp_select_characterisation (W:=Q) 3 [0;0;1;2] [0;1] [0;1;2;2] [1;2]).
  apply (cljp_init_inv (constant_rand 0) (fun _ _ _ c => c) 3 [0;0;1;2] [0;1] [0;0;0] 0 tt).
  reflexivity.
Defined.

(** X12: two nodes selected in the same CLJP pass, each stored in a row
    ([S] or [T]) of the other, have weights neither of which is
    strictly greater than the other: only a tie lets neighbours be
    selected together. *)
Theorem cljp_selected_neighbours_tie {W} `{ScalarStrict W}
    (n : Z) (Sp Sj Tp Tj : list Z) (st : cljp_state W) (i j : Z) :
  cljp_inv n st ->
  in_Dlist (cljp_select n Sp Sj Tp Tj st) i ->
  in_Dlist (cljp_select n Sp Sj Tp Tj st) j ->
  In j (csr_cols Sp Sj i) \/ In j (csr_cols Tp Tj i) ->
  In i (csr_cols Sp Sj j) \/ In i (csr_cols Tp Tj j) ->
  ((weight st).[j] >? (weight st).[i])%sc = false
  /\ ((weight st).[i] >? (weight st).[j])%sc = false.
Proof.
  intros Hinv Hi Hj Hij Hji. split.
  - by apply (cljp_select_neighbours n Sp Sj Tp Tj st i j).
  - by apply (cljp_select_neighbours n Sp Sj Tp Tj st j i).
Qed.

Lemma cljp_selected_neighbours_tie_witness :
  let Sp := [0;1;2] in let Sj := [1;0] in
  let st := fst (cljp_init (W:=Q) (constant_rand 0) (fun _ _ _ c => c) tt 2 Sp Sj
                   [0;0] 0) in
  ((weight st).[1] >? (weight st).[0])%sc = false
  /\ ((weight st).[0] >? (weight st).[1])%sc = false.
Proof.
  apply (cljp_selected_neighbours_tie (W:=Q) 2 [0;1;2] [1;0] [0;1;2] [1;0]).
  - apply (cljp_init_inv (constant_rand 0) (fun _ _ _ c => c) 2 [0;1;2] [1;0] [0;0] 0 tt).
    reflexivity.
  - exists 0. split; [vm_compute; split; congruence | reflexivity].
  - exists 1. split; [vm_compute; split; congruence | reflexivity].
  - left. vm_compute. auto.
  - left. vm_compute. auto.
Defined.

(** ** CLJP splitting: the result *)

(** X13: called on a splitting array of [n] cells, [cljp_naive_splitting]
    returns after at most [n] passes of its selection loop, and every
    entry of the splitting it returns is [F_NODE] or [C_NODE]. *)
Theorem cljp_naive_splitting_returns_C_or_F {W} `{ScalarStrict W} {G}
    (libc : libc_rand G) (vertex_coloring_mis : Z -> list Z -> list Z -> list Z -> list Z)
    (g : G) (n : Z) (Sp Sj Tp Tj splitting0 : list Z) (colorflag : Z) :
  zlen splitting0 = n ->
  exists res,
    cljp_naive_splitting (W:=W) libc vertex_coloring_mis (Z.to_nat n) g n Sp Sj Tp Tj
      splitting0 colorflag = Some res
    /\ forall i, 0 <= i < n -> (fst res).[i] = F_NODE \/ (fst res).[i] = C_NODE.
Proof.
  intros Hlen.
  pose proof (cljp_init_inv libc vertex_coloring_mis n Sp Sj splitting0 colorflag g Hlen)
    as Hinit.
  assert (Hret : exists res,
            cljp_naive_splitting (W:=W) libc vertex_coloring_mis (Z.to_nat n) g n
              Sp Sj Tp Tj splitting0 colorflag = Some res).
  { unfold cljp_naive_splitting.
    destruct (cljp_init _ _ _ _ _ _ _ _) as [st0 g'] eqn:Hst0. simpl in Hinit.
    destruct (cljp_loop_terminates n Sp Sj Tp Tj (Z.to_nat n) st0 Hinit) as (st' & -> & _).
    - unfold cljp_init in Hst0.
      destruct (cljp_base_weights _ _ _ _ _ _ _) as [w g'']. injection Hst0 as <- _.
      simpl. rewrite <- Hlen. unfold zlen. lia.
    - by eexists. }
  destruct Hret as [res Hres]. exists res. split; [done |].
  intros i Hi.
  apply (cljp_naive_splitting_all_C_or_F libc vertex_coloring_mis (Z.to_nat n) g n
           Sp Sj Tp Tj splitting0 colorflag res i); [lia | done | done].
Qed.

Lemma cljp_naive_splitting_returns_C_or_F_witness :
  exists res,
    cljp_naive_splitting (W:=Q) (constant_rand 0) (fun _ _ _ c => c) (Z.to_nat 3) tt 3
      [0;0;1;2] [0;1] [0;1;2;2] [1;2] [0;0;0] 0 = Some res
    /\ forall i, 0 <= i < 3 -> (fst res).[i] = F_NODE \/ (fst res).[i] = C_NODE.
Proof.
  apply (cljp_naive_splitting_returns_C_or_F (W:=Q) (constant_rand 0)
           (fun _ _ _ c => c) tt 3 [0;0;1;2] [0;1] [0;1;2;2] [1;2] [0;0;0] 0).
  reflexivity.
Defined.

(** ** Ruge-Stuben splitting: the neighbours of a C node are decided *)

Section RSDecided.
Variables (n_nodes : Z) (Sp Sj Tp Tj : list Z).






End RSDecided.



(** ** Removal of strong F-F connections: a second call changes nothing *)

Section RemoveTwice.
Context {T : Type} `{Scalar T}.
Implicit Types (d : list T) (l : list Z).

Lemma aset_aset_same d p (v : T) : d.[p <- v].[p <- v] = d.[p <- v].
Proof.
  unfold aset. destruct (p <? 0); [done |]. apply list_insert_insert_eq.
Qed.

Lemma aset_aset_comm d p q (v : T) : d.[p <- v].[q <- v] = d.[q <- v].[p <- v].
Proof.
  destruct (Z.eq_dec p q) as [-> | Hne]; [done |].
  unfold aset. destruct (Z.ltb_spec p 0), (Z.ltb_spec q 0); try done.
  apply list_insert_insert_ne. lia.
Qed.

Lemma zero_at_aset l d p : zero_at l (d.[p <- s_zero]) = (zero_at l d).[p <- s_zero].
Proof.
  revert d. induction l as [| q l IH]; intros d; [done |].
  change (zero_at l d.[p <- s_zero].[q <- s_zero] = (zero_at l d.[q <- s_zero]).[p <- s_zero]).
  rewrite <- IH. f_equal. apply aset_aset_comm.
Qed.

Lemma zero_at_twice l d : zero_at l (zero_at l d) = zero_at l d.
Proof.
  revert d. induction l as [| p l IH]; intros d; [done |].
  change (zero_at l (zero_at l d.[p <- s_zero]).[p <- s_zero] = zero_at l d.[p <- s_zero]).
  rewrite <- zero_at_aset, aset_aset_same. apply IH.
Qed.

Lemma zero_at_app l1 l2 d : zero_at (l1 ++ l2) d = zero_at l2 (zero_at l1 d).
Proof. unfold zero_at. by rewrite fold_left_app. Qed.

(** The cells a call clears do not depend on the values stored. *)
Lemma remove_strong_FF_connections_zero_at n_nodes C_rowptr C_colinds d splitting :
  remove_strong_FF_connections n_nodes C_rowptr C_colinds d splitting
  = zero_at (flat_map (removed_in_row C_rowptr C_colinds splitting) (range 0 n_nodes)) d.
Proof.
  unfold remove_strong_FF_connections, for_. revert d.
  induction (range 0 n_nodes) as [| row rows IH]; intros d; simpl; [done |].
  rewrite IH, zero_at_app. f_equal. unfold removed_in_row.
  destruct (splitting.[row] =? F_NODE); [| done].
  generalize (range C_rowptr.[row] C_rowptr.[row + 1]). intros l. revert d.
  induction l as [| jj l IHl]; intros d; simpl; [done |].
  destruct (splitting.[C_colinds.[jj]] =? F_NODE); simpl; [| apply IHl].
  destruct (common_C_point _ _ _ _ _); simpl; apply IHl.
Qed.

End RemoveTwice.

(** X15: [remove_strong_FF_connections] is idempotent: the test that
    clears a cell reads only the pattern and the splitting, so a second
    call on the result of a first one changes nothing, for every input. *)
Theorem remove_strong_FF_connections_idempotent {T} `{Scalar T}
    (n_nodes : Z) (C_rowptr C_colinds : list Z) (C_data : list T) (splitting : list Z) :
  remove_strong_FF_connections n_nodes C_rowptr C_colinds
    (remove_strong_FF_connections n_nodes C_rowptr C_colinds C_data splitting) splitting
  = remove_strong_FF_connections n_nodes C_rowptr C_colinds C_data splitting.
Proof. rewrite !remove_strong_FF_connections_zero_at. apply zero_at_twice. Qed.

(** ** Compatible relaxation: the reordered index array *)

Lemma aget_app_l {A} `{Zero A} (l1 l2 : list A) q :
  0 <= q < zlen l1 -> (l1 ++ l2).[q] = l1.[q].
Proof.
  intros Hq. unfold aget. destruct (Z.ltb_spec q 0); [lia |].
  rewrite lookup_app_l by (unfold zlen in Hq; lia). done.
Qed.

Lemma aget_snoc {A} `{Zero A} (l : list A) x : (l ++ [x]).[zlen l] = x.
Proof.
  apply aget_lookup; [apply zlen_nonneg |]. unfold zlen. rewrite Nat2Z.id.
  rewrite lookup_app_r by lia. by replace (_ - _)%nat with 0%nat by lia.
Qed.

Lemma filter_range_snoc (t : Z -> bool) lo hi :
  lo <= hi ->
  List.filter t (range lo (hi + 1))
  = List.filter t (range lo hi) ++ (if t hi then [hi] else []).
Proof. intros. rewrite range_snoc by done. rewrite List.filter_app. done. Qed.

Lemma cr_points_total n splitting :
  0 <= n -> zlen (cr_F_points n splitting) + zlen (cr_C_points n splitting) = n.
Proof.
  intros Hn. unfold cr_F_points, cr_C_points.
  pose proof (zlen_range 0 n Hn) as Hlen. revert Hlen.
  generalize (range 0 n). intros l Hlen.
  assert (Hsplit : zlen (List.filter (fun i => splitting.[i] =? 0) l)
                   + zlen (List.filter (fun i => negb (splitting.[i] =? 0)) l) = zlen l).
  { clear Hlen. induction l as [| i l IH]; simpl; [done |].
    destruct (splitting.[i] =? 0); simpl; unfold zlen in *; simpl; lia. }
  lia.
Qed.

Lemma cr_reorder_cells n splitting indices :
  0 <= n -> n + 1 <= zlen indices ->
  let indices' := cr_reorder n splitting indices in
  let Fs := cr_F_points n splitting in
  let Cs := cr_C_points n splitting in
  zlen indices' = zlen indices
  /\ indices'.[0] = zlen Fs
  /\ (forall q, 0 <= q < zlen Fs -> indices'.[1 + q] = Fs.[q])
  /\ (forall q, 0 <= q < zlen Cs -> indices'.[n - q] = Cs.[q])
  /\ (forall p, n < p -> indices'.[p] = indices.[p]).
Proof.
  intros Hn Hlen. simpl. unfold cr_reorder.
  pose (P := fun (k : Z) (st : list Z * Z * Z) =>
    let '(ind, nf, nc) := st in
    zlen ind = zlen indices
    /\ ind.[0] = zlen (cr_F_points k splitting)
    /\ nf = 1 + zlen (cr_F_points k splitting)
    /\ nc = n - zlen (cr_C_points k splitting)
    /\ (forall q, 0 <= q < zlen (cr_F_points k splitting) ->
          ind.[1 + q] = (cr_F_points k splitting).[q])
    /\ (forall q, 0 <= q < zlen (cr_C_points k splitting) ->
          ind.[n - q] = (cr_C_points k splitting).[q])
    /\ (forall p, n < p -> ind.[p] = indices.[p])).
  match goal with
  | |- context [for_ 0 n ?body ?st0] => assert (HP : P n (for_ 0 n body st0))
  end.
  { apply (for_induction P); [done | |]; unfold P.
    - unfold cr_F_points, cr_C_points. rewrite range_nil by lia. simpl.
      rewrite zlen_aset, aget_aset_eq by lia. change (zlen []) with 0.
      split; [done |]. split; [done |]. split; [done |]. split; [lia |].
      split; [intros; lia |]. split; [intros; lia |].
      intros p Hp. by rewrite aget_aset_ne by lia.
    - intros k [[ind nf] nc] Hk (Hl & H0 & Hnf & Hnc & HF & HC & Hrest).
      pose proof (cr_points_total k splitting ltac:(lia)) as Htot.
      pose proof (zlen_nonneg (cr_F_points k splitting)) as HFnn.
      pose proof (zlen_nonneg (cr_C_points k splitting)) as HCnn.
      unfold cr_F_points, cr_C_points in *.
      rewrite !filter_range_snoc by lia.
      destruct (splitting.[k] =? 0); simpl.
      + rewrite app_nil_r, !zlen_app. change (zlen [k]) with 1.
        rewrite !zlen_aset. split; [done |].
        split; [rewrite aget_aset_eq by (rewrite zlen_aset; lia);
                rewrite aget_aset_ne by lia; lia |].
        split; [lia |]. split; [lia |]. split; [| split].
        * intros q Hq. rewrite aget_aset_ne by lia.
          destruct (Z.eq_dec q (zlen (List.filter (fun i => splitting.[i] =? 0) (range 0 k))))
            as [-> | Hne].
          -- rewrite aget_snoc. subst nf. apply aget_aset_eq. lia.
          -- rewrite aget_app_l by lia. rewrite aget_aset_ne by lia. apply HF. lia.
        * intros q Hq. rewrite aget_aset_ne by lia. rewrite aget_aset_ne by lia.
          by apply HC.
        * intros p Hp. rewrite aget_aset_ne by lia. rewrite aget_aset_ne by lia.
          by apply Hrest.
      + rewrite app_nil_r, !zlen_app. change (zlen [k]) with 1.
        rewrite !zlen_aset. split; [done |].
        split; [rewrite aget_aset_ne by lia; lia |].
        split; [lia |]. split; [lia |]. split; [| split].
        * intros q Hq. rewrite aget_aset_ne by lia. by apply HF.
        * intros q Hq.
          destruct (Z.eq_dec q (zlen (List.filter (fun i => negb (splitting.[i] =? 0))
                                        (range 0 k)))) as [-> | Hne].
          -- rewrite aget_snoc. subst nc. apply aget_aset_eq. lia.
          -- rewrite aget_app_l by lia. rewrite aget_aset_ne by lia. apply HC. lia.
        * intros p Hp. rewrite aget_aset_ne by lia. by apply Hrest. }
  destruct (for_ 0 n _ _) as [[ind nf] nc]. unfold P in HP.
  destruct HP as (Hl & H0 & _ & _ & HF & HC & Hrest). done.
Qed.

(** ** Compatible relaxation: the independent-set loop *)

Lemma zlen_filter_insert {A} (t : A -> bool) (l : list A) (i : nat) (old v : A) :
  l !! i = Some old ->
  zlen (List.filter t (<[i := v]> l)) + (if t old then 1 else 0)
  = zlen (List.filter t l) + (if t v then 1 else 0).
Proof.
  unfold zlen. revert i. induction l as [| x l IH]; intros i Hi; [done |].
  destruct i as [| i]; simpl in *.
  - injection Hi as ->. destruct (t old), (t v); simpl; lia.
  - specialize (IH i Hi). destruct (t x); simpl; lia.
Qed.

Lemma zero_at_mem {T} `{Scalar T} (l : list Z) (d : list T) p :
  In p l -> (zero_at l d).[p <- s_zero] = zero_at l d.
Proof.
  revert d. induction l as [| q l IH]; intros d; [done |]. intros [-> | Hin].
  - change (zero_at (p :: l) d) with (zero_at l d.[p <- s_zero]).
    by rewrite <- zero_at_aset, aset_aset_same.
  - change (zero_at (q :: l) d) with (zero_at l d.[q <- s_zero]). by apply IH.
Qed.

Section CRFacts.
Context {T : Type} `{ScalarStrict T, !ScalarZero T, !Magnitude T T}.
Variables (A_rowptr A_colinds Uindex : list Z).
Implicit Types (st : cr_state T) (omega : list T).

(** A cell outside the array reads as zero, so a nonzero weight is
    stored in the array. *)
Lemma nonzero_in_bounds omega p :
  (omega.[p] ==? s_zero)%sc = false -> 0 <= p < zlen omega.
Proof.
  intros Hnz. destruct (Z.lt_ge_cases p 0) as [Hneg | Hpos].
  { rewrite aget_oob in Hnz by lia. unfold zero_of, Zero_Scalar in Hnz.
    by rewrite s_eqb_zero in Hnz. }
  destruct (Z.lt_ge_cases p (zlen omega)) as [Hlt | Hge]; [lia |].
  rewrite aget_oob in Hnz by lia. unfold zero_of, Zero_Scalar in Hnz.
  by rewrite s_eqb_zero in Hnz.
Qed.

Lemma nonzero_weights_aset omega p (v : T) :
  0 <= p < zlen omega ->
  nonzero_weights omega.[p <- v] + (if (omega.[p] ==? s_zero)%sc then 0 else 1)
  = nonzero_weights omega + (if (v ==? s_zero)%sc then 0 else 1).
Proof.
  intros Hp. unfold nonzero_weights, aset. destruct (Z.ltb_spec p 0); [lia |].
  pose proof (zlen_filter_insert (fun w => negb (w ==? s_zero)%sc) omega (Z.to_nat p)
                omega.[p] v (lookup_aget omega p Hp)) as Hcount.
  simpl in Hcount. destruct (omega.[p] ==? s_zero)%sc, (v ==? s_zero)%sc; simpl in *; lia.
Qed.

Lemma nonzero_weights_zero omega p :
  nonzero_weights omega.[p <- s_zero] <= nonzero_weights omega.
Proof.
  destruct (Z.lt_ge_cases p 0) as [Hneg | Hpos]; [rewrite aset_oob by lia; lia |].
  destruct (Z.lt_ge_cases p (zlen omega)) as [Hlt | Hge]; [| rewrite aset_oob by lia; lia].
  pose proof (nonzero_weights_aset omega p s_zero ltac:(lia)) as Hcount.
  rewrite s_eqb_zero in Hcount. destruct (omega.[p] ==? s_zero)%sc; lia.
Qed.

Lemma nonzero_weights_zero_at l omega :
  nonzero_weights (zero_at l omega) <= nonzero_weights omega.
Proof.
  revert omega. induction l as [| p l IH]; intros omega; [done |].
  change (zero_at (p :: l) omega) with (zero_at l omega.[p <- s_zero]).
  pose proof (IH omega.[p <- s_zero]). pose proof (nonzero_weights_zero omega p). lia.
Qed.

Lemma nonzero_weights_bump omega p (v : T) :
  (omega.[p] ==? s_zero)%sc = false ->
  nonzero_weights omega.[p <- v] <= nonzero_weights omega.
Proof.
  intros Hnz. pose proof (nonzero_in_bounds omega p Hnz) as Hp.
  pose proof (nonzero_weights_aset omega p v Hp) as Hcount.
  rewrite Hnz in Hcount. destruct (v ==? s_zero)%sc; lia.
Qed.

Lemma nonzero_weights_le_zlen omega : 0 <= nonzero_weights omega <= zlen omega.
Proof.
  unfold nonzero_weights. split; [apply zlen_nonneg |].
  unfold zlen. pose proof (List.filter_length_le (fun w => negb (w ==? s_zero)%sc) omega). lia.
Qed.

(** Lines 727-736: the point found is a candidate of positive weight. *)
Lemma cr_heaviest_spec omega :
  (snd (cr_heaviest Uindex omega) = -1)
  \/ (In (snd (cr_heaviest Uindex omega)) Uindex
      /\ (s_zero <? omega.[snd (cr_heaviest Uindex omega)])%sc = true).
Proof.
  assert (HP : (snd (cr_heaviest Uindex omega) = -1
                /\ fst (cr_heaviest Uindex omega) = s_zero)
               \/ (In (snd (cr_heaviest Uindex omega)) Uindex
                   /\ omega.[snd (cr_heaviest Uindex omega)] = fst (cr_heaviest Uindex omega)
                   /\ (s_zero <? fst (cr_heaviest Uindex omega))%sc = true)).
  { unfold cr_heaviest.
    apply (for_invariant (fun r : T * Z =>
             (snd r = -1 /\ fst r = s_zero)
             \/ (In (snd r) Uindex /\ omega.[snd r] = fst r
                 /\ (s_zero <? fst r)%sc = true))).
    - left. done.
    - intros i [mw np] Hi Hr. simpl in *.
      destruct (mw <? omega.[Uindex.[i]])%sc eqn:Hlt; [| done].
      right. simpl. split; [| split; [done |]].
      + apply list_elem_of_In, list_elem_of_lookup. exists (Z.to_nat i).
        rewrite (lookup_aget Uindex i Hi). done.
      + destruct Hr as [[_ ->] | (_ & _ & Hpos)]; [done |].
        by apply (s_ltb_trans _ mw). }
  destruct HP as [[Hnone _] | (Hin & Hw & Hpos)]; [by left |]. right. split; [done |].
  by rewrite Hw.
Qed.

End CRFacts.

Section CRLoop.
Context {T : Type} `{ScalarStrict T, !ScalarZero T, !Magnitude T T}.
Variables (A_rowptr A_colinds Uindex : list Z).
Implicit Types (st : cr_state T) (omega : list T).

(** Lines 745-752: the neighbours of the new C-point are collected and
    their weights cleared. *)
Lemma cr_clear_neighbours lo hi omega :
  for_ lo hi
    (fun i '(neighbors, omega) =>
       let temp := A_colinds.[i] in (neighbors ++ [temp], omega.[temp <- s_zero]))
    ([], omega)
  = (map (fun i => A_colinds.[i]) (range lo hi),
     zero_at (map (fun i => A_colinds.[i]) (range lo hi)) omega).
Proof.
  unfold for_.
  assert (Hgen : forall l (nb : list Z) om,
            fold_left
              (fun s i =>
                 (fun i '(neighbors, omega) =>
                    let temp := A_colinds.[i] in
                    (neighbors ++ [temp], omega.[temp <- s_zero])) i s) l (nb, om)
            = (nb ++ map (fun i => A_colinds.[i]) l,
               zero_at (map (fun i => A_colinds.[i]) l) om)).
  { induction l as [| i l IH]; intros nb om; simpl; [by rewrite app_nil_r |].
    rewrite IH. by rewrite <- app_assoc. }
  apply Hgen.
Qed.

(** Lines 756-768 never turn a zero weight into a nonzero one. *)
Lemma cr_bump_neighbours (neighbors : list Z) omega :
  let omega' :=
    for_ 0 (zlen neighbors)
      (fun i omega =>
         let pt := neighbors.[i] in
         for_ A_rowptr.[pt] A_rowptr.[pt + 1]
           (fun j omega =>
              let temp := A_colinds.[j] in
              if negb (omega.[temp] ==? s_zero)%sc
              then omega.[temp <- (omega.[temp] + s_one)%sc] else omega)
           omega)
      omega in
  zlen omega' = zlen omega /\ nonzero_weights omega' <= nonzero_weights omega.
Proof.
  simpl.
  apply (for_invariant (fun o => zlen o = zlen omega
                                 /\ nonzero_weights o <= nonzero_weights omega)); [done |].
  intros i o _ Ho.
  apply (for_invariant (fun o => zlen o = zlen omega
                                 /\ nonzero_weights o <= nonzero_weights omega)); [done |].
  intros j o' _ [Hl Hc]. destruct (o'.[A_colinds.[j]] ==? s_zero)%sc eqn:Hz; simpl; [done |].
  rewrite zlen_aset. split; [done |].
  pose proof (nonzero_weights_bump o' A_colinds.[j] (o'.[A_colinds.[j]] + s_one)%sc Hz). lia.
Qed.

Lemma zlen_zero_at (l : list Z) omega : zlen (zero_at l omega) = zlen omega.
Proof.
  revert omega. induction l as [| p l IH]; intros omega; [done |].
  change (zero_at (p :: l) omega) with (zero_at l omega.[p <- s_zero]).
  by rewrite IH, zlen_aset.
Qed.

(** One pass of the loop: what it writes, and the count of nonzero
    weights, which drops when the new C-point is stored in its own row. *)
Lemma cr_add_C_point_spec new_pt st :
  let st' := cr_add_C_point A_rowptr A_colinds new_pt st in
  cr_e st' = cr_e st /\ cr_indices st' = cr_indices st
  /\ cr_splitting st' = (cr_splitting st).[new_pt <- 1]
  /\ cr_gamma st' = (cr_gamma st).[new_pt <- s_zero]
  /\ zlen (cr_omega st') = zlen (cr_omega st)
  /\ nonzero_weights (cr_omega st') <= nonzero_weights (cr_omega st)
  /\ (In new_pt (csr_cols A_rowptr A_colinds new_pt) ->
      ((cr_omega st).[new_pt] ==? s_zero)%sc = false ->
      nonzero_weights (cr_omega st') < nonzero_weights (cr_omega st)).
Proof.
  simpl. unfold cr_add_C_point. rewrite cr_clear_neighbours.
  set (cols := map (fun i => A_colinds.[i]) (range A_rowptr.[new_pt] A_rowptr.[new_pt + 1])).
  destruct (cr_bump_neighbours cols (zero_at cols (cr_omega st))) as [Hl Hc].
  cbv zeta in Hl, Hc. simpl.
  split; [done |]. split; [done |]. split; [done |]. split; [done |].
  split; [by rewrite Hl, zlen_zero_at |].
  pose proof (nonzero_weights_zero_at cols (cr_omega st)) as Hz.
  split; [lia |].
  intros Hdiag Hnz. change (csr_cols A_rowptr A_colinds new_pt) with cols in Hdiag.
  pose proof (nonzero_in_bounds _ _ Hnz) as Hp.
  pose proof (nonzero_weights_aset (cr_omega st) new_pt s_zero Hp) as Hcount.
  rewrite Hnz, s_eqb_zero in Hcount.
  pose proof (nonzero_weights_zero_at cols (cr_omega st).[new_pt <- s_zero]) as Hz'.
  rewrite zero_at_aset, zero_at_mem in Hz' by done. lia.
Qed.

(** The loop ends once no weight is nonzero; with every candidate
    stored in its own row of [A], each pass clears a nonzero weight. *)
Lemma cr_loop_terminates (fuel : nat) st :
  (forall pt, In pt Uindex -> In pt (csr_cols A_rowptr A_colinds pt)) ->
  nonzero_weights (cr_omega st) <= Z.of_nat fuel ->
  exists st', cr_loop fuel A_rowptr A_colinds Uindex st = Some st'.
Proof.
  intros Hdiag. revert st. induction fuel as [| fuel IH]; intros st Hfuel.
  - simpl. destruct (cr_heaviest Uindex (cr_omega st)) as [mw np] eqn:Hh.
    destruct (Z.ltb_spec np 0) as [Hneg | Hpos]; [by eexists |].
    destruct (cr_heaviest_spec Uindex (cr_omega st)) as [Hnone | [Hin Hw]];
      rewrite Hh in *; simpl in *; [lia |].
    apply s_pos_nonzero in Hw. pose proof (nonzero_in_bounds _ _ Hw) as Hp.
    pose proof (nonzero_weights_aset (cr_omega st) np s_zero Hp) as Hcount.
    rewrite Hw, s_eqb_zero in Hcount.
    pose proof (nonzero_weights_le_zlen (cr_omega st).[np <- s_zero]). lia.
  - simpl. destruct (cr_heaviest Uindex (cr_omega st)) as [mw np] eqn:Hh.
    destruct (Z.ltb_spec np 0) as [Hneg | Hpos]; [by eexists |].
    destruct (cr_heaviest_spec Uindex (cr_omega st)) as [Hnone | [Hin Hw]];
      rewrite Hh in *; simpl in *; [lia |].
    apply s_pos_nonzero in Hw.
    destruct (cr_add_C_point_spec np st) as (_ & _ & _ & _ & _ & _ & Hdec).
    apply IH. specialize (Hdec (Hdiag np Hin) Hw). lia.
Qed.

(** Whatever the loop does to [splitting], it only stores [1], and only
    for candidates; [e] and [indices] are not written. *)
Lemma cr_loop_spec (fuel : nat) st st' :
  cr_loop fuel A_rowptr A_colinds Uindex st = Some st' ->
  cr_e st' = cr_e st /\ cr_indices st' = cr_indices st
  /\ length (cr_splitting st') = length (cr_splitting st)
  /\ forall x, (cr_splitting st').[x] = (cr_splitting st).[x]
               \/ ((cr_splitting st').[x] = 1 /\ In x Uindex).
Proof.
  revert st. induction fuel as [| fuel IH]; intros st; simpl.
  - destruct (cr_heaviest Uindex (cr_omega st)) as [mw np].
    destruct (np <? 0); [| done]. intros [= <-]. repeat split; auto.
  - destruct (cr_heaviest Uindex (cr_omega st)) as [mw np] eqn:Hh.
    destruct (Z.ltb_spec np 0) as [Hneg | Hpos]; [intros [= <-]; repeat split; auto |].
    intros Hloop. apply IH in Hloop as (He & Hi & Hl & Hcells).
    destruct (cr_add_C_point_spec np st) as (He' & Hi' & Hs' & _).
    cbv zeta in He', Hi', Hs'. rewrite Hs' in *.
    split; [congruence |]. split; [congruence |].
    split; [by rewrite Hl, length_aset |].
    intros x. destruct (Hcells x) as [Hsame | Hone]; [| by right].
    rewrite Hsame. destruct (aget_aset (cr_splitting st) np x 1) as [-> | [<- ->]]; [by left |].
    right. split; [done |].
    destruct (cr_heaviest_spec Uindex (cr_omega st)) as [Hnone | [Hin _]];
      rewrite Hh in *; simpl in *; [lia | done].
Qed.

End CRLoop.

Section CRRuns.
Context {T : Type} `{ScalarStrict T, !ScalarZero T, !Magnitude T T}.
Variables (A_rowptr A_colinds : list Z) (B : list T) (indices : list Z) (thetacs : T).

(** Lines 697-705: a candidate is one of the F-points listed in
    [indices]. *)
Lemma cr_candidates_listed (e : list T) (inf_norm : T) (gamma : list T) pt :
  In pt (snd (cr_candidates indices e inf_norm thetacs gamma)) ->
  exists i, 1 <= i <= indices.[0] /\ indices.[i] = pt.
Proof.
  unfold cr_candidates.
  apply (for_invariant (fun r : list T * list Z =>
           In pt (snd r) -> exists i, 1 <= i <= indices.[0] /\ indices.[i] = pt)).
  - intros [].
  - intros i [gm U] Hi HU. simpl in *.
    destruct (_ <? _)%sc; [| done]. intros Hin. apply in_app_or in Hin as [Hin | [<- | []]].
    + by apply HU.
    + exists i. split; [lia | done].
Qed.

Lemma zlen_cr_weights n splitting (gamma : list T) Uindex :
  0 <= n -> zlen (cr_weights n A_rowptr A_colinds splitting gamma Uindex) = n.
Proof.
  intros Hn. unfold cr_weights.
  apply (for_invariant (fun o : list T => zlen o = n)); [by apply zlen_vector |].
  intros i o _ Ho. by rewrite zlen_aset.
Qed.

Lemma cr_helper_returns_spec (e : list T) (splitting : list Z) (gamma : list T) :
  (forall i, 1 <= i <= indices.[0] ->
     In indices.[i] (csr_cols A_rowptr A_colinds indices.[i])) ->
  exists e' indices' splitting' gamma',
    cr_helper (Z.to_nat (zlen splitting)) A_rowptr A_colinds B e indices splitting gamma
      thetacs = Some (e', indices', splitting', gamma')
    /\ length splitting' = length splitting
    /\ forall x, splitting'.[x] = splitting.[x]
                 \/ (splitting'.[x] = 1
                     /\ exists i, 1 <= i <= indices.[0] /\ indices.[i] = x).
Proof.
  intros Hdiag. unfold cr_helper.
  destruct (cr_scale B indices e) as [e1 inf_norm].
  destruct (cr_candidates indices e1 inf_norm thetacs gamma) as [gamma1 Uindex] eqn:Hcand.
  assert (HU : forall pt, In pt Uindex -> exists i, 1 <= i <= indices.[0] /\ indices.[i] = pt).
  { intros pt Hpt. apply (cr_candidates_listed e1 inf_norm gamma). by rewrite Hcand. }
  set (omega := cr_weights _ _ _ _ _ _).
  set (st0 := {| cr_e := e1; cr_omega := omega |}).
  destruct (cr_loop_terminates A_rowptr A_colinds Uindex (Z.to_nat (zlen splitting)) st0)
    as [st' Hloop].
  { intros pt Hpt. destruct (HU pt Hpt) as (i & Hi & <-). by apply Hdiag. }
  { simpl. pose proof (nonzero_weights_le_zlen omega) as Hle.
    assert (Hom : zlen omega = zlen splitting) by (apply zlen_cr_weights, zlen_nonneg).
    pose proof (zlen_nonneg splitting). lia. }
  rewrite Hloop.
  destruct (cr_loop_spec A_rowptr A_colinds Uindex _ st0 st' Hloop) as (_ & _ & Hl & Hcells).
  eexists _, _, _, _. split; [reflexivity |]. split; [exact Hl |].
  intros x. destruct (Hcells x) as [Hsame | [Hone Hin]]; [by left |].
  right. split; [done | by apply HU].
Qed.

End CRRuns.

Section CRLayout.
Context {T : Type} `{Scalar T, !Magnitude T T}.
Variables (A_rowptr A_colinds : list Z) (B : list T) (indices : list Z) (thetacs : T).

(** The loop does not write to [indices]. *)
Lemma cr_loop_indices Uindex (fuel : nat) (st st' : cr_state T) :
  cr_loop fuel A_rowptr A_colinds Uindex st = Some st' -> cr_indices st' = cr_indices st.
Proof.
  revert st. induction fuel as [| fuel IH]; intros st; simpl.
  - destruct (cr_heaviest Uindex (cr_omega st)) as [mw np].
    destruct (np <? 0); [| done]. by intros [= <-].
  - destruct (cr_heaviest Uindex (cr_omega st)) as [mw np].
    destruct (np <? 0); [by intros [= <-] |].
    intros Hloop. apply IH in Hloop. rewrite Hloop. unfold cr_add_C_point.
    by destruct (for_ _ _ _ _).
Qed.

Lemma cr_helper_layout_spec (fuel : nat) (e : list T) (splitting : list Z) (gamma : list T)
    e' indices' splitting' gamma' :
  zlen splitting + 1 <= zlen indices ->
  cr_helper fuel A_rowptr A_colinds B e indices splitting gamma thetacs
  = Some (e', indices', splitting', gamma') ->
  let n := zlen splitting in
  let Fs := cr_F_points n splitting' in
  let Cs := cr_C_points n splitting' in
  zlen indices' = zlen indices
  /\ indices'.[0] = zlen Fs
  /\ (forall q, 0 <= q < zlen Fs -> indices'.[1 + q] = Fs.[q])
  /\ (forall q, 0 <= q < zlen Cs -> indices'.[n - q] = Cs.[q])
  /\ zlen Fs + zlen Cs = n
  /\ (forall p, n < p -> indices'.[p] = indices.[p]).
Proof.
  intros Hlen. unfold cr_helper.
  destruct (cr_scale B indices e) as [e1 inf_norm].
  destruct (cr_candidates indices e1 inf_norm thetacs gamma) as [gamma1 Uindex].
  set (st0 := {| cr_e := e1 |}).
  destruct (cr_loop fuel A_rowptr A_colinds Uindex st0) as [st' |] eqn:Hloop; [| done].
  intros [= <- <- <- <-]. simpl.
  rewrite (cr_loop_indices Uindex _ st0 st' Hloop). simpl.
  pose proof (zlen_nonneg splitting) as Hn.
  destruct (cr_reorder_cells (zlen splitting) (cr_splitting st') indices Hn Hlen)
    as (Hl & Hcount & HF & HC & Hrest).
  pose proof (cr_points_total (zlen splitting) (cr_splitting st') Hn) as Htot.
  done.
Qed.

(** A candidate of positive weight whose row of [A] is empty is found
    again by every pass: the loop does not end. *)
Lemma cr_loop_empty_row Uindex (fuel : nat) (st : cr_state T) :
  0 <= snd (cr_heaviest Uindex (cr_omega st)) ->
  A_rowptr.[snd (cr_heaviest Uindex (cr_omega st)) + 1]
  <= A_rowptr.[snd (cr_heaviest Uindex (cr_omega st))] ->
  cr_loop fuel A_rowptr A_colinds Uindex st = None.
Proof.
  revert st. induction fuel as [| fuel IH]; intros st Hpos Hrow; simpl.
  - destruct (cr_heaviest Uindex (cr_omega st)) as [mw np]. simpl in *.
    by destruct (Z.ltb_spec np 0); [lia |].
  - destruct (cr_heaviest Uindex (cr_omega st)) as [mw np] eqn:Hh. simpl in *.
    destruct (Z.ltb_spec np 0); [lia |].
    assert (Hom : cr_omega (cr_add_C_point A_rowptr A_colinds np st) = cr_omega st).
    { unfold cr_add_C_point. rewrite for_nil by done. simpl.
      change (zlen []) with 0. by rewrite for_nil by lia. }
    apply IH; rewrite Hom, Hh; done.
Qed.

End CRLayout.

#[global] Instance Q_ScalarZero : ScalarZero Q.
Proof.
  split; simpl.
  - reflexivity.
  - intros a Hpos. apply negb_true_iff in Hpos.
    destruct (Qeq_bool a 0) eqn:Heq; [| done].
    apply Qeq_bool_iff in Heq. exfalso.
    assert (Hle : Qle_bool a 0 = true) by (apply Qle_bool_iff; rewrite Heq; apply Qle_refl).
    congruence.
Qed.

(** X16: when every F-point listed in [indices] is stored in its own
    row of [A] (the diagonal is stored), [cr_helper] returns after at
    most [n] passes of its loop, [n] being the length of [splitting];
    the splitting keeps its length, and a tag is changed only to [1]
    and only for a point listed in [indices]. *)
Theorem cr_helper_returns {T} `{ScalarStrict T, !ScalarZero T, !Magnitude T T}
    (A_rowptr A_colinds : list Z) (B e : list T) (indices splitting : list Z)
    (gamma : list T) (thetacs : T) :
  (forall i, 1 <= i <= indices.[0] ->
     In indices.[i] (csr_cols A_rowptr A_colinds indices.[i])) ->
  exists e' indices' splitting' gamma',
    cr_helper (Z.to_nat (zlen splitting)) A_rowptr A_colinds B e indices splitting gamma
      thetacs = Some (e', indices', splitting', gamma')
    /\ length splitting' = length splitting
    /\ forall x, splitting'.[x] = splitting.[x]
                 \/ (splitting'.[x] = 1
                     /\ exists i, 1 <= i <= indices.[0] /\ indices.[i] = x).
Proof. apply cr_helper_returns_spec. Qed.

Lemma cr_helper_returns_witness :
  exists e' indices' splitting' gamma',
    cr_helper (T:=Q) (Z.to_nat (zlen [0;0;0])) [0;2;5;7] [0;1;0;1;2;1;2] [1;1;1]%Q
      [1;2;1]%Q [3;0;1;2] [0;0;0] [0;0;0]%Q (1 # 2)%Q
    = Some (e', indices', splitting', gamma')
    /\ length splitting' = length [0;0;0]
    /\ forall x, splitting'.[x] = [0;0;0].[x]
                 \/ (splitting'.[x] = 1
                     /\ exists i, 1 <= i <= [3;0;1;2].[0] /\ [3;0;1;2].[i] = x).
Proof.
  apply (cr_helper_returns (T:=Q) [0;2;5;7] [0;1;0;1;2;1;2] [1;1;1]%Q [1;2;1]%Q
           [3;0;1;2] [0;0;0] [0;0;0]%Q (1 # 2)%Q).
  intros i Hi. change ([3;0;1;2].[0]) with 3 in Hi.
  assert (Hcases : i = 1 \/ i = 2 \/ i = 3) by lia.
  destruct Hcases as [-> | [-> | ->]]; vm_compute; auto.
Defined.

(** X17: whenever [cr_helper] returns, [indices] is laid out for the
    splitting it returns: [indices[0]] is the number of points tagged
    [0] (the F-points), cells [1 .. nf] list them in increasing order,
    and cells [n], [n-1], ..., [nf+1] list the other points (the
    C-points) in increasing order, so that each of the [n] points is
    listed once; cells after [n] are not changed. *)
Theorem cr_helper_indices_layout {T} `{Scalar T, !Magnitude T T}
    (fuel : nat) (A_rowptr A_colinds : list Z) (B e : list T) (indices splitting : list Z)
    (gamma : list T) (thetacs : T)
    (e' : list T) (indices' splitting' : list Z) (gamma' : list T) :
  zlen splitting + 1 <= zlen indices ->
  cr_helper fuel A_rowptr A_colinds B e indices splitting gamma thetacs
  = Some (e', indices', splitting', gamma') ->
  let n := zlen splitting in
  let Fs := cr_F_points n splitting' in
  let Cs := cr_C_points n splitting' in
  zlen indices' = zlen indices
  /\ indices'.[0] = zlen Fs
  /\ (forall q, 0 <= q < zlen Fs -> indices'.[1 + q] = Fs.[q])
  /\ (forall q, 0 <= q < zlen Cs -> indices'.[n - q] = Cs.[q])
  /\ zlen Fs + zlen Cs = n
  /\ (forall p, n < p -> indices'.[p] = indices.[p]).
Proof. apply cr_helper_layout_spec. Qed.

Lemma cr_helper_indices_layout_witness :
  let indices' := [2; 1; 3; 4; 2; 0] in
  let splitting' := [1; 0; 1; 0; 1] in
  let Fs := cr_F_points 5 splitting' in
  let Cs := cr_C_points 5 splitting' in
  zlen indices' = 6
  /\ indices'.[0] = zlen Fs
  /\ (forall q, 0 <= q < zlen Fs -> indices'.[1 + q] = Fs.[q])
  /\ (forall q, 0 <= q < zlen Cs -> indices'.[5 - q] = Cs.[q])
  /\ zlen Fs + zlen Cs = 5
  /\ (forall p, 5 < p -> indices'.[p] = [5;0;1;2;3;4].[p]).
Proof.
  apply (cr_helper_indices_layout (T:=Q) 5 [0;2;5;8;11;13]
           [0;1; 0;1;2; 1;2;3; 2;3;4; 3;4] [1;1;1;1;1]%Q [2;1;2;1;2]%Q
           [5;0;1;2;3;4] [0;0;0;0;0] [0;0;0;0;0]%Q (1 # 2)%Q
           [2;1;2;1;2]%Q [2; 1; 3; 4; 2; 0] [1; 0; 1; 0; 1]
           [0; 1 # 2; 0; 1 # 2; 0]%Q);
    [change (5 + 1 <= 6); lia | vm_compute; reflexivity].
Defined.

(** X18: [cr_helper] relies on the diagonal being stored.  If the
    candidate of greatest positive weight found on entry to the loop
    has an empty row in [A], no pass changes a weight, the same point
    is found again by every pass, and the call does not return,
    whatever the fuel. *)
Theorem cr_helper_empty_row_never_returns {T} `{Scalar T, !Magnitude T T}
    (A_rowptr A_colinds : list Z) (B e : list T) (indices splitting : list Z)
    (gamma : list T) (thetacs : T) :
  let scaled := cr_scale B indices e in
  let cand := cr_candidates indices (fst scaled) (snd scaled) thetacs gamma in
  let omega := cr_weights (zlen splitting) A_rowptr A_colinds splitting (fst cand)
                 (snd cand) in
  let new_pt := snd (cr_heaviest (snd cand) omega) in
  0 <= new_pt -> A_rowptr.[new_pt + 1] <= A_rowptr.[new_pt] ->
  forall fuel : nat,
    cr_helper fuel A_rowptr A_colinds B e indices splitting gamma thetacs = None.
Proof.
  intros scaled cand omega new_pt Hpos Hrow fuel. unfold cr_helper.
  fold scaled. destruct scaled as [e1 inf_norm]. simpl in cand.
  fold cand. destruct cand as [gamma1 Uindex]. simpl in omega. fold omega.
  by rewrite cr_loop_empty_row.
Qed.

Lemma cr_helper_empty_row_never_returns_witness :
  cr_helper (T:=Q) 1000 [0;0] [] [1]%Q [1]%Q [1;0] [0] [0]%Q 0%Q = None.
Proof.
  apply (cr_helper_empty_row_never_returns (T:=Q) [0;0] [] [1]%Q [1]%Q [1;0] [0] [0]%Q 0%Q);
    vm_compute; congruence.
Defined.

(** ** Standard interpolation: the rows of the prolongator *)

(** [rows_loop] for a loop that carries more state than the two
    arrays. *)
Lemma rows_loop_proj {T} `{Scalar T} {St} (proj : St -> list Z * list T)
    (row : Z -> list (Z * T)) (body : Z -> St -> St) (n : Z) (Bp : list Z) (s0 : St) :
  0 <= n -> Bp.[0] = 0 ->
  (forall i, 0 <= i < n -> Bp.[i + 1] = Bp.[i] + zlen (row i)) ->
  (forall i s, 0 <= i < n ->
     proj (body i s) = (write_from (fst (proj s)) Bp.[i] (map fst (row i)),
                        write_from (snd (proj s)) Bp.[i] (map snd (row i)))) ->
  Bp.[n] <= zlen (fst (proj s0)) -> Bp.[n] <= zlen (snd (proj s0)) ->
  let all := flat_map row (range 0 n) in
  proj (for_ 0 n body s0)
  = (map fst all ++ drop (length all) (fst (proj s0)),
     map snd all ++ drop (length all) (snd (proj s0))).
Proof.
  intros Hn HBp0 HBp Hbody HBj HBx. simpl.
  pose (body' := fun (i : Z) (B : list Z * list T) =>
                   (write_from (fst B) Bp.[i] (map fst (row i)),
                    write_from (snd B) Bp.[i] (map snd (row i)))).
  assert (Hproj : proj (for_ 0 n body s0) = for_ 0 n body' (proj s0)).
  { apply (for_induction (fun k s => proj s = for_ 0 k body' (proj s0))); [done | |].
    - by rewrite for_nil by lia.
    - intros k s Hk Hs. rewrite for_snoc by lia. rewrite Hbody by done. by rewrite <- Hs. }
  rewrite Hproj. destruct (proj s0) as [Bj0 Bx0].
  by apply (rows_loop row body' n Bp Hn HBp0 HBp).
Qed.

Lemma write_loop_log {A B L} (t : Z -> bool) (c : Z -> A) (w : Z -> B)
    (body : Z -> list A * list B * L * Z -> list A * list B * L * Z) lo hi a b o p :
  (forall jj a b o nnz,
     exists o',
       body jj (a, b, o, nnz)
       = if t jj then (a.[nnz <- c jj], b.[nnz <- w jj], o', nnz + 1) else (a, b, o, nnz)) ->
  exists o',
    for_ lo hi body (a, b, o, p)
    = (write_from a p (map c (List.filter t (range lo hi))),
       write_from b p (map w (List.filter t (range lo hi))), o',
       p + zlen (List.filter t (range lo hi))).
Proof.
  intros Hbody. unfold for_. revert a b o p.
  induction (range lo hi) as [| jj l IH]; intros a b o p; simpl.
  - exists o. unfold zlen. simpl. f_equal. lia.
  - destruct (Hbody jj a b o p) as [o1 ->]. destruct (t jj); simpl.
    + destruct (IH a.[p <- c jj] b.[p <- w jj] o1 (p + 1)) as [o' ->]. exists o'.
      f_equal. unfold zlen. simpl. lia.
    + apply IH.
Qed.

Section StandardFacts.
Context {T : Type} `{Scalar T, !Magnitude T T}.
Variables (n_nodes : Z).
Variables (A_rowptr A_colinds : list Z) (A_data : list T).
Variables (C_rowptr C_colinds : list Z) (C_data : list T).
Variables (splitting P_rowptr : list Z).

Local Abbreviation rs_standard_numerator :=
  (rs_standard_numerator A_rowptr A_colinds A_data C_rowptr C_colinds C_data splitting).
Local Abbreviation rs_standard_weight :=
  (rs_standard_weight A_rowptr A_colinds A_data C_rowptr C_colinds C_data splitting).
Local Abbreviation rs_standard_row :=
  (rs_standard_row A_rowptr A_colinds A_data C_rowptr C_colinds C_data splitting).
Local Abbreviation rs_standard_F_row :=
  (rs_standard_F_row A_rowptr A_colinds A_data C_rowptr C_colinds C_data splitting
     P_rowptr).

(** The numerator does not depend on what was printed before. *)
Lemma rs_standard_numerator_fst i jj out :
  fst (rs_standard_numerator i jj out) = fst (rs_standard_numerator i jj []).
Proof.
  unfold rs_standard_numerator, for_.
  match goal with
  | |- fst (fold_left ?F ?l (?num, _)) = _ =>
      assert (Hgen : forall l' num' (o1 o2 : list message),
                fst (fold_left F l' (num', o1)) = fst (fold_left F l' (num', o2)))
  end.
  { induction l' as [| kk l' IH]; intros num' o1 o2; simpl; [done |].
    destruct (_ && _); [| apply IH]. destruct (_ <? _)%sc; apply IH. }
  apply Hgen.
Qed.

(** Without a strong F-point other than [i] in row [i], the numerator
    is the entry itself. *)
Lemma rs_standard_numerator_no_FF i jj out :
  (forall kk, C_rowptr.[i] <= kk < C_rowptr.[i + 1] ->
     splitting.[C_colinds.[kk]] = F_NODE -> C_colinds.[kk] = i) ->
  fst (rs_standard_numerator i jj out) = C_data.[jj].
Proof.
  intros HnoFF. unfold rs_standard_numerator.
  apply (for_invariant (fun r : T * list message => fst r = C_data.[jj])); [done |].
  intros kk [num o] Hkk Hr. simpl in *.
  destruct (Z.eqb_spec splitting.[C_colinds.[kk]] F_NODE) as [HF | HnF]; simpl; [| done].
  rewrite (HnoFF kk Hkk HF), Z.eqb_refl. done.
Qed.

(** In an F-point row the entries written are those of the strong
    C-points other than [i]. *)
Lemma strong_C_entries_F_row i :
  splitting.[i] <> C_NODE ->
  List.filter (fun jj => splitting.[C_colinds.[jj]] =? C_NODE)
    (range C_rowptr.[i] C_rowptr.[i + 1])
  = strong_C_entries C_rowptr C_colinds splitting i.
Proof.
  intros HF. unfold strong_C_entries. apply List.filter_ext. intros jj.
  destruct (Z.eqb_spec splitting.[C_colinds.[jj]] C_NODE) as [HC | HnC]; [| done].
  destruct (Z.eqb_spec C_colinds.[jj] i) as [Heq | Hne]; [| done].
  rewrite Heq in HC. done.
Qed.

Lemma rs_standard_F_row_writes i (Pc : list Z) (Pd : list T) (out : list message) :
  splitting.[i] <> C_NODE ->
  exists out',
    rs_standard_F_row i (Pc, Pd, out)
    = (write_from Pc P_rowptr.[i]
         (map (fun jj => C_colinds.[jj]) (strong_C_entries C_rowptr C_colinds splitting i)),
       write_from Pd P_rowptr.[i]
         (map (rs_standard_weight i) (strong_C_entries C_rowptr C_colinds splitting i)),
       out').
Proof.
  intros HF. unfold rs_standard_F_row. rewrite <- (strong_C_entries_F_row i HF).
  match goal with
  | |- context [for_ ?lo ?hi ?body (Pc, Pd, out, ?p)] =>
      destruct (write_loop_log (fun jj => splitting.[C_colinds.[jj]] =? C_NODE)
                  (fun jj => C_colinds.[jj]) (rs_standard_weight i)
                  body lo hi Pc Pd out p) as [o' ->]
  end.
  - intros jj a b o nnz. destruct (splitting.[C_colinds.[jj]] =? C_NODE); [| by exists o].
    pose proof (rs_standard_numerator_fst i jj o) as Hnum.
    destruct (rs_standard_numerator i jj o) as [num o1]. simpl in Hnum.
    eexists. unfold rs_standard_weight. rewrite <- Hnum. reflexivity.
  - by exists o'.
Qed.

Lemma zlen_rs_standard_row col i :
  zlen (rs_standard_row col i) = P_row_size C_rowptr C_colinds splitting i.
Proof.
  unfold rs_standard_row, P_row_size. destruct (_ =? C_NODE); [done |].
  unfold zlen. by rewrite length_map.
Qed.

Lemma rs_standard_row_cols i c v :
  0 <= i < zlen splitting -> In (c, v) (rs_standard_row (fun c => c) i) ->
  0 <= c < zlen splitting.
Proof.
  intros Hi. unfold rs_standard_row. destruct (_ =? C_NODE).
  - intros [[= <- _] | []]. done.
  - intros Hin. apply in_map_iff in Hin as (jj & [= <- _] & Hjj).
    unfold strong_C_entries in Hjj. apply filter_In in Hjj as [_ Ht].
    apply andb_true_iff in Ht as [HC _]. apply Z.eqb_eq in HC.
    destruct (Z.lt_ge_cases C_colinds.[jj] 0) as [Hneg | Hpos].
    { rewrite aget_oob in HC by lia. done. }
    destruct (Z.lt_ge_cases C_colinds.[jj] (zlen splitting)) as [Hlt | Hge]; [lia |].
    rewrite aget_oob in HC by lia. done.
Qed.

Lemma rs_standard_row_renumber (f col : Z -> Z) i :
  (forall c v, In (c, v) (rs_standard_row (fun c => c) i) -> f c = col c) ->
  map (fun cv => (f (fst cv), snd cv)) (rs_standard_row (fun c => c) i)
  = rs_standard_row col i.
Proof.
  unfold rs_standard_row. destruct (_ =? C_NODE); simpl.
  - intros Hf. by rewrite (Hf i s_one) by (by left).
  - intros Hf. rewrite map_map. apply map_ext_in. intros jj Hjj. simpl.
    rewrite (Hf C_colinds.[jj] (rs_standard_weight i jj)); [done |].
    apply in_map_iff. by exists jj.
Qed.

Lemma rs_standard_interpolation_pass2_rows (Pc0 : list Z) (Pd0 : list T) :
  0 <= n_nodes -> zlen splitting = n_nodes ->
  P_rowptr.[0] = 0 ->
  (forall i, 0 <= i < n_nodes ->
     P_rowptr.[i + 1] = P_rowptr.[i] + P_row_size C_rowptr C_colinds splitting i) ->
  P_rowptr.[n_nodes] <= zlen Pc0 -> P_rowptr.[n_nodes] <= zlen Pd0 ->
  let all := flat_map (rs_standard_row (coarse_index splitting)) (range 0 n_nodes) in
  fst (rs_standard_interpolation_pass2 n_nodes A_rowptr A_colinds A_data
         C_rowptr C_colinds C_data splitting P_rowptr Pc0 Pd0)
  = (map fst all ++ drop (length all) Pc0, map snd all ++ drop (length all) Pd0).
Proof.
  intros Hn Hspl HBp0 HBp HBj HBx. simpl. unfold rs_standard_interpolation_pass2.
  pose (raw := rs_standard_row (fun c => c)).
  assert (Hraw : forall i, 0 <= i < n_nodes ->
            P_rowptr.[i + 1] = P_rowptr.[i] + zlen (raw i)).
  { intros i Hi. unfold raw. rewrite zlen_rs_standard_row. by apply HBp. }
  match goal with
  | |- context [for_ 0 n_nodes ?body (Pc0, Pd0, [])] =>
      pose proof (rows_loop_proj (fun s : list Z * list T * list message => fst s)
                    raw body n_nodes P_rowptr (Pc0, Pd0, []) Hn HBp0 Hraw) as Hloop
  end.
  cbv zeta in Hloop. cbn [fst snd] in Hloop.
  match type of Hloop with
  | ?A -> _ => assert (Hbody : A)
  end.
  { intros i [[Pc Pd] out] Hi. unfold raw, rs_standard_row. cbv beta iota.
    destruct (Z.eqb_spec splitting.[i] C_NODE) as [HC | HF]; [done |].
    destruct (rs_standard_F_row_writes i Pc Pd out HF) as [out' ->]. simpl.
    by rewrite !map_map. }
  specialize (Hloop Hbody HBj HBx).
  destruct (for_ 0 n_nodes _ (Pc0, Pd0, [])) as [[Pc1 Pd1] out1]. simpl in Hloop.
  injection Hloop as -> ->.
  destruct (for_ 0 n_nodes _ (vector n_nodes 0, 0)) as [mp sum] eqn:Hmap.
  assert (Hmp : forall c, 0 <= c < n_nodes -> mp.[c] = coarse_index splitting c).
  { intros c Hc. pose proof (coarse_map_spec n_nodes splitting c Hc) as Hcm.
    by rewrite Hmap in Hcm. }
  pose proof (row_pointer_prefix raw n_nodes P_rowptr Hn HBp0 Hraw n_nodes ltac:(lia))
    as Hall.
  set (allraw := flat_map raw (range 0 n_nodes)) in *.
  assert (Hren : map (fun cv => (mp.[fst cv], snd cv)) allraw
                 = flat_map (rs_standard_row (coarse_index splitting)) (range 0 n_nodes)).
  { unfold allraw. rewrite map_flat_map. apply flat_map_ext_in. intros i Hi.
    apply list_elem_of_In, elem_of_range in Hi.
    apply rs_standard_row_renumber. intros c v Hin. apply Hmp.
    rewrite <- Hspl. apply (rs_standard_row_cols i c v); [lia | done]. }
  rewrite Hall.
  pose proof (renumber_loop (fun c => mp.[c]) [] (map fst allraw)
                (drop (length allraw) Pc0)) as Hloop.
  simpl in Hloop. change (zlen []) with 0 in Hloop.
  replace (0 + zlen (map fst allraw)) with (zlen allraw) in Hloop
    by (unfold zlen; rewrite length_map; lia).
  simpl. rewrite Hloop. rewrite <- Hren.
  rewrite !map_map, !length_map. done.
Qed.

End StandardFacts.

(** Rows stored one after the other at the front of two arrays form the
    CSR matrix of these rows. *)
Lemma csr_of_rows {T} `{Scalar T} (row : Z -> list (Z * T)) (n : Z) (Bp Bj0 : list Z)
    (Bx0 : list T) :
  0 <= n -> Bp.[0] = 0 ->
  (forall i, 0 <= i < n -> Bp.[i + 1] = Bp.[i] + zlen (row i)) ->
  Bp.[n] <= zlen Bj0 -> Bp.[n] <= zlen Bx0 ->
  let all := flat_map row (range 0 n) in
  let Bj := map fst all ++ drop (length all) Bj0 in
  let Bx := map snd all ++ drop (length all) Bx0 in
  length Bj = length Bj0 /\ length Bx = length Bx0
  /\ (forall i, 0 <= i < n -> csr_row Bp Bj Bx i = row i)
  /\ (forall p, Bp.[n] <= p -> Bj.[p] = Bj0.[p] /\ Bx.[p] = Bx0.[p]).
Proof.
  intros Hn HBp0 Hrow HBj HBx.
  pose proof (row_pointer_prefix row n Bp Hn HBp0 Hrow n ltac:(lia)) as Hall.
  set (all := flat_map row (range 0 n)) in *. simpl.
  assert (Hlen : forall {A} (f : Z * T -> A) (a : list A),
            zlen all <= zlen a -> length (map f all ++ drop (length all) a) = length a).
  { intros A f a Hle. rewrite length_app, length_map, length_drop. unfold zlen in Hle. lia. }
  split; [apply Hlen; lia |]. split; [apply Hlen; lia |]. split.
  - intros i Hi. by apply (csr_row_concat row n Bp Hn HBp0 Hrow _ _ _ _ i eq_refl eq_refl).
  - intros p Hp. pose proof (zlen_nonneg all) as Hnonneg.
    assert (Hcell : forall {A} `{Zero A} (pre a : list A),
              length pre = length all -> zlen all <= zlen a ->
              (pre ++ drop (length all) a).[p] = a.[p]).
    { intros A ? pre a Hpre Hle. unfold aget.
      destruct (Z.ltb_spec p 0) as [Hneg | _]; [lia |].
      rewrite lookup_app_r by (unfold zlen in *; lia).
      rewrite lookup_drop. do 2 f_equal. unfold zlen in *. lia. }
    split; apply Hcell; try (by rewrite length_map); lia.
Qed.

Lemma rs_standard_interpolation_spec {T} `{Scalar T, !Magnitude T T}
    (n_nodes : Z) (A_rowptr A_colinds : list Z) (A_data : list T)
    (C_rowptr C_colinds : list Z) (C_data : list T)
    (splitting P_rowptr0 P_colinds0 : list Z) (P_data0 : list T) :
  0 <= n_nodes -> zlen splitting = n_nodes -> n_nodes + 1 <= zlen P_rowptr0 ->
  let P_rowptr :=
    rs_standard_interpolation_pass1 n_nodes C_rowptr C_colinds splitting P_rowptr0 in
  P_rowptr.[n_nodes] <= zlen P_colinds0 -> P_rowptr.[n_nodes] <= zlen P_data0 ->
  let P := fst (rs_standard_interpolation_pass2 n_nodes A_rowptr A_colinds A_data
                  C_rowptr C_colinds C_data splitting P_rowptr P_colinds0 P_data0) in
  length (fst P) = length P_colinds0 /\ length (snd P) = length P_data0
  /\ (forall i, 0 <= i < n_nodes ->
        csr_row P_rowptr (fst P) (snd P) i
        = rs_standard_row A_rowptr A_colinds A_data C_rowptr C_colinds C_data splitting
            (coarse_index splitting) i)
  /\ (forall p, P_rowptr.[n_nodes] <= p ->
        (fst P).[p] = P_colinds0.[p] /\ (snd P).[p] = P_data0.[p]).
Proof.
  intros Hn Hspl HlenBp. simpl. intros HBj HBx.
  destruct (rs_direct_interpolation_pass1_row_pointer n_nodes C_rowptr C_colinds splitting
              P_rowptr0 Hn HlenBp) as (_ & HBp0 & HBp & _).
  change (rs_direct_interpolation_pass1 n_nodes C_rowptr C_colinds splitting P_rowptr0)
    with (rs_standard_interpolation_pass1 n_nodes C_rowptr C_colinds splitting P_rowptr0)
    in *.
  set (P_rowptr := rs_standard_interpolation_pass1 _ _ _ _ _) in *.
  rewrite (rs_standard_interpolation_pass2_rows n_nodes A_rowptr A_colinds A_data
             C_rowptr C_colinds C_data splitting P_rowptr P_colinds0 P_data0
             Hn Hspl HBp0 HBp HBj HBx).
  apply (csr_of_rows _ n_nodes P_rowptr P_colinds0 P_data0 Hn HBp0); [| done | done].
  intros i Hi. rewrite zlen_rs_standard_row. by apply HBp.
Qed.

(** X19: with the row pointer of [rs_standard_interpolation_pass1],
    [rs_standard_interpolation_pass2] leaves in
    [(P_rowptr, P_colinds, P_data)] the CSR matrix whose row [i] is, for
    a C-point, the single entry [1] in the column that numbers [i]
    among the C-points, and, for an F-point, one entry
    [-numerator / denominator] per C-point other than [i] stored in row
    [i] of the strength matrix, in its order and in the column that
    numbers that C-point; what is printed does not change a value.  The
    arrays keep their lengths and the cells from [P_rowptr[n_nodes]] on
    keep their values. *)
Theorem rs_standard_interpolation_rows {T} `{Scalar T, !Magnitude T T}
    (n_nodes : Z) (A_rowptr A_colinds : list Z) (A_data : list T)
    (C_rowptr C_colinds : list Z) (C_data : list T)
    (splitting P_rowptr0 P_colinds0 : list Z) (P_data0 : list T) :
  0 <= n_nodes -> zlen splitting = n_nodes -> n_nodes + 1 <= zlen P_rowptr0 ->
  let P_rowptr :=
    rs_standard_interpolation_pass1 n_nodes C_rowptr C_colinds splitting P_rowptr0 in
  P_rowptr.[n_nodes] <= zlen P_colinds0 -> P_rowptr.[n_nodes] <= zlen P_data0 ->
  let P := fst (rs_standard_interpolation_pass2 n_nodes A_rowptr A_colinds A_data
                  C_rowptr C_colinds C_data splitting P_rowptr P_colinds0 P_data0) in
  length (fst P) = length P_colinds0 /\ length (snd P) = length P_data0
  /\ (forall i, 0 <= i < n_nodes ->
        csr_row P_rowptr (fst P) (snd P) i
        = rs_standard_row A_rowptr A_colinds A_data C_rowptr C_colinds C_data splitting
            (coarse_index splitting) i)
  /\ (forall p, P_rowptr.[n_nodes] <= p ->
        (fst P).[p] = P_colinds0.[p] /\ (snd P).[p] = P_data0.[p]).
Proof. apply rs_standard_interpolation_spec. Qed.

Lemma rs_standard_interpolation_rows_witness :
  let Sp := [0;3;6;9] in
  let Sj := [0;1;2; 0;1;2; 0;1;2] in
  let Sx := [2;-1;-1; -1;2;-1; -1;-1;2]%float in
  let spl := [1;0;0] in
  let P_rowptr := rs_standard_interpolation_pass1 3 Sp Sj spl [0;0;0;0] in
  let P := fst (rs_standard_interpolation_pass2 (T:=double) 3 Sp Sj Sx Sp Sj Sx spl P_rowptr
                  (replicate 3 0) (replicate 3 0%float)) in
  length (fst P) = 3%nat /\ length (snd P) = 3%nat
  /\ (forall i, 0 <= i < 3 ->
        csr_row P_rowptr (fst P) (snd P) i
        = rs_standard_row Sp Sj Sx Sp Sj Sx spl (coarse_index spl) i)
  /\ (forall p, P_rowptr.[3] <= p ->
        (fst P).[p] = (replicate 3 0).[p] /\ (snd P).[p] = (replicate 3 0%float).[p]).
Proof.
  apply (rs_standard_interpolation_rows (T:=double) 3 [0;3;6;9] [0;1;2; 0;1;2; 0;1;2]
           [2;-1;-1; -1;2;-1; -1;-1;2]%float [0;3;6;9] [0;1;2; 0;1;2; 0;1;2]
           [2;-1;-1; -1;2;-1; -1;-1;2]%float [1;0;0] [0;0;0;0]
           (replicate 3 0) (replicate 3 0%float));
    [lia | reflexivity | change (3 + 1 <= 4); lia
    | change (3 <= 3); lia | change (3 <= 3); lia].
Defined.

(** X20: for an F-point [i] with no strong F-point neighbour (every
    entry of row [i] of the strength matrix is a C-point or [i] itself),
    standard interpolation reduces to
    [w_ij = -a_ij / (a_ii + sum of the weak a_ik)]: the value stored for
    the strong C-point at [jj] is [-C_data[jj] / denominator]. *)
Theorem rs_standard_interpolation_without_strong_F {T} `{Scalar T, !Magnitude T T}
    (n_nodes : Z) (A_rowptr A_colinds : list Z) (A_data : list T)
    (C_rowptr C_colinds : list Z) (C_data : list T)
    (splitting P_rowptr0 P_colinds0 : list Z) (P_data0 : list T) (i : Z) :
  0 <= n_nodes -> zlen splitting = n_nodes -> n_nodes + 1 <= zlen P_rowptr0 ->
  let P_rowptr :=
    rs_standard_interpolation_pass1 n_nodes C_rowptr C_colinds splitting P_rowptr0 in
  P_rowptr.[n_nodes] <= zlen P_colinds0 -> P_rowptr.[n_nodes] <= zlen P_data0 ->
  let P := fst (rs_standard_interpolation_pass2 n_nodes A_rowptr A_colinds A_data
                  C_rowptr C_colinds C_data splitting P_rowptr P_colinds0 P_data0) in
  0 <= i < n_nodes -> splitting.[i] <> C_NODE ->
  (forall kk, C_rowptr.[i] <= kk < C_rowptr.[i + 1] ->
     splitting.[C_colinds.[kk]] = F_NODE -> C_colinds.[kk] = i) ->
  csr_row P_rowptr (fst P) (snd P) i
  = map (fun jj =>
           (coarse_index splitting C_colinds.[jj],
            (- C_data.[jj]
             / rs_standard_denominator A_rowptr A_data C_rowptr C_colinds C_data i)%sc))
      (strong_C_entries C_rowptr C_colinds splitting i).
Proof.
  intros Hn Hspl HlenBp. simpl. intros HBj HBx Hi HF HnoFF.
  destruct (rs_standard_interpolation_spec n_nodes A_rowptr A_colinds A_data
              C_rowptr C_colinds C_data splitting P_rowptr0 P_colinds0 P_data0
              Hn Hspl HlenBp HBj HBx) as (_ & _ & Hrows & _).
  rewrite Hrows by done. unfold rs_standard_row.
  destruct (Z.eqb_spec splitting.[i] C_NODE) as [HC | _]; [done |].
  apply map_ext. intros jj. unfold rs_standard_weight.
  by rewrite rs_standard_numerator_no_FF.
Qed.

Lemma rs_standard_interpolation_without_strong_F_witness :
  let Sp := [0;2;5;7] in
  let Sj := [0;1; 0;1;2; 1;2] in
  let Sx := [2;-1; -1;2;-1; -1;2]%float in
  let spl := [1;0;1] in
  let P_rowptr := rs_standard_interpolation_pass1 3 Sp Sj spl [0;0;0;0] in
  let P := fst (rs_standard_interpolation_pass2 (T:=double) 3 Sp Sj Sx Sp Sj Sx spl P_rowptr
                  (replicate 4 0) (replicate 4 0%float)) in
  csr_row P_rowptr (fst P) (snd P) 1
  = map (fun jj =>
           (coarse_index spl Sj.[jj],
            (- Sx.[jj] / rs_standard_denominator Sp Sx Sp Sj Sx 1)%sc))
      (strong_C_entries Sp Sj spl 1).
Proof.
  apply (rs_standard_interpolation_without_strong_F (T:=double) 3 [0;2;5;7]
           [0;1; 0;1;2; 1;2] [2;-1; -1;2;-1; -1;2]%float [0;2;5;7] [0;1; 0;1;2; 1;2]
           [2;-1; -1;2;-1; -1;2]%float [1;0;1] [0;0;0;0]
           (replicate 4 0) (replicate 4 0%float) 1);
    [lia | reflexivity | change (3 + 1 <= 4); lia
    | change (4 <= 4); lia | change (4 <= 4); lia | lia | done |].
  change (forall kk, 2 <= kk < 5 ->
            [1;0;1].[[0;1; 0;1;2; 1;2].[kk]] = F_NODE -> [0;1; 0;1;2; 1;2].[kk] = 1).
  intros kk Hkk HF.
  assert (Hcases : kk = 2 \/ kk = 3 \/ kk = 4) by lia.
  destruct Hcases as [-> | [-> | ->]]; [done | done | done].
Defined.

(** ** Modified standard and distance-two interpolation: the rows *)

Lemma write_from_concat {A} (a : list A) p (l1 l2 : list A) :
  write_from a p (l1 ++ l2) = write_from (write_from a p l1) (p + zlen l1) l2.
Proof.
  revert a p. induction l1 as [| v l1 IH]; intros a p; simpl.
  - f_equal. unfold zlen. simpl. lia.
  - rewrite IH. f_equal. unfold zlen. simpl. lia.
Qed.

(** A loop that appends a list of entries per step. *)
Lemma write_lists_loop {A B L} (items : Z -> list (A * B))
    (body : Z -> list A * list B * L * Z -> list A * list B * L * Z) lo hi a b o p :
  (forall jj a b o nnz,
     exists o',
       body jj (a, b, o, nnz)
       = (write_from a nnz (map fst (items jj)), write_from b nnz (map snd (items jj)), o',
          nnz + zlen (items jj))) ->
  exists o',
    for_ lo hi body (a, b, o, p)
    = (write_from a p (map fst (flat_map items (range lo hi))),
       write_from b p (map snd (flat_map items (range lo hi))), o',
       p + zlen (flat_map items (range lo hi))).
Proof.
  intros Hbody. unfold for_. revert a b o p.
  induction (range lo hi) as [| jj l IH]; intros a b o p; simpl.
  - exists o. unfold zlen. simpl. f_equal. lia.
  - destruct (Hbody jj a b o p) as [o1 ->].
    destruct (IH (write_from a p (map fst (items jj))) (write_from b p (map snd (items jj)))
                o1 (p + zlen (items jj))) as [o' ->].
    exists o'. rewrite !map_app, !write_from_concat, zlen_app.
    unfold zlen. rewrite !length_map. f_equal. lia.
Qed.

Lemma zlen_flat_map {A B} (f : A -> list B) (l : list A) :
  zlen (flat_map f l) = zsum (map (fun x => zlen (f x)) l).
Proof.
  induction l as [| x l IH]; simpl; [done |]. rewrite zlen_app. lia.
Qed.

(** A point marked [C_NODE] is a point of the splitting. *)
Lemma C_point_in_range (splitting : list Z) c :
  splitting.[c] = C_NODE -> 0 <= c < zlen splitting.
Proof.
  intros HC. destruct (Z.lt_ge_cases c 0) as [Hneg | Hpos].
  { rewrite aget_oob in HC by lia. done. }
  destruct (Z.lt_ge_cases c (zlen splitting)) as [Hlt | Hge]; [lia |].
  rewrite aget_oob in HC by lia. done.
Qed.

(** The frame shared by the second passes: injection for the C-point
    rows, [F_row] for the others, then the renumbering of the columns. *)
Lemma interpolation_rows_spec {T} `{Scalar T} (n_nodes : Z) (splitting P_rowptr : list Z)
    (F_row : Z -> list Z * list T * list message -> list Z * list T * list message)
    (entries : Z -> list (Z * T)) (Pc0 : list Z) (Pd0 : list T) :
  0 <= n_nodes -> zlen splitting = n_nodes -> P_rowptr.[0] = 0 ->
  (forall i, 0 <= i < n_nodes ->
     P_rowptr.[i + 1]
     = P_rowptr.[i] + zlen (interpolation_row splitting entries (fun c => c) i)) ->
  (forall i Pc Pd out, splitting.[i] <> C_NODE ->
     exists out',
       F_row i (Pc, Pd, out)
       = (write_from Pc P_rowptr.[i] (map fst (entries i)),
          write_from Pd P_rowptr.[i] (map snd (entries i)), out')) ->
  (forall i c v, splitting.[i] <> C_NODE -> In (c, v) (entries i) ->
     splitting.[c] = C_NODE) ->
  P_rowptr.[n_nodes] <= zlen Pc0 -> P_rowptr.[n_nodes] <= zlen Pd0 ->
  let P :=
    fst (let '(P_colinds, P_data, out) :=
           for_ 0 n_nodes
             (fun i '(P_colinds, P_data, out) =>
                if splitting.[i] =? C_NODE
                then (P_colinds.[P_rowptr.[i] <- i], P_data.[P_rowptr.[i] <- s_one], out)
                else F_row i (P_colinds, P_data, out))
             (Pc0, Pd0, []) in
         let '(map, _) :=
           for_ 0 n_nodes
             (fun i '(map, sum) => (map.[i <- sum], sum + splitting.[i]))
             (vector n_nodes 0, 0) in
         let P_colinds :=
           for_ 0 P_rowptr.[n_nodes]
             (fun i P_colinds => P_colinds.[i <- map.[P_colinds.[i]]]) P_colinds in
         (P_colinds, P_data, out)) in
  length (fst P) = length Pc0 /\ length (snd P) = length Pd0
  /\ (forall i, 0 <= i < n_nodes ->
        csr_row P_rowptr (fst P) (snd P) i
        = interpolation_row splitting entries (coarse_index splitting) i)
  /\ (forall p, P_rowptr.[n_nodes] <= p -> (fst P).[p] = Pc0.[p] /\ (snd P).[p] = Pd0.[p]).
Proof.
  intros Hn Hspl HBp0 Hraw HF Hcols HBj HBx.
  pose (raw := interpolation_row splitting entries (fun c => c)).
  assert (Hrows :
    fst (let '(P_colinds, P_data, out) :=
           for_ 0 n_nodes
             (fun i '(P_colinds, P_data, out) =>
                if splitting.[i] =? C_NODE
                then (P_colinds.[P_rowptr.[i] <- i], P_data.[P_rowptr.[i] <- s_one], out)
                else F_row i (P_colinds, P_data, out))
             (Pc0, Pd0, []) in
         let '(map, _) :=
           for_ 0 n_nodes
             (fun i '(map, sum) => (map.[i <- sum], sum + splitting.[i]))
             (vector n_nodes 0, 0) in
         let P_colinds :=
           for_ 0 P_rowptr.[n_nodes]
             (fun i P_colinds => P_colinds.[i <- map.[P_colinds.[i]]]) P_colinds in
         (P_colinds, P_data, out))
    = (let all := flat_map (interpolation_row splitting entries (coarse_index splitting))
                    (range 0 n_nodes) in
       (map fst all ++ drop (length all) Pc0, map snd all ++ drop (length all) Pd0))).
  { match goal with
    | |- context [for_ 0 n_nodes ?body (Pc0, Pd0, [])] =>
        pose proof (rows_loop_proj (fun s : list Z * list T * list message => fst s)
                      raw body n_nodes P_rowptr (Pc0, Pd0, []) Hn HBp0 Hraw) as Hloop
    end.
    cbv zeta in Hloop. cbn [fst snd] in Hloop.
    match type of Hloop with
    | ?A -> _ => assert (Hbody : A)
    end.
    { intros i [[Pc Pd] out] Hi. unfold raw, interpolation_row. cbv beta iota.
      destruct (Z.eqb_spec splitting.[i] C_NODE) as [HC | HnC]; [done |].
      destruct (HF i Pc Pd out HnC) as [out' ->]. simpl.
      rewrite !map_map. simpl. done. }
    specialize (Hloop Hbody HBj HBx).
    destruct (for_ 0 n_nodes _ (Pc0, Pd0, [])) as [[Pc1 Pd1] out1]. simpl in Hloop.
    injection Hloop as -> ->.
    destruct (for_ 0 n_nodes _ (vector n_nodes 0, 0)) as [mp sum] eqn:Hmap.
    assert (Hmp : forall c, 0 <= c < n_nodes -> mp.[c] = coarse_index splitting c).
    { intros c Hc. pose proof (coarse_map_spec n_nodes splitting c Hc) as Hcm.
      by rewrite Hmap in Hcm. }
    pose proof (row_pointer_prefix raw n_nodes P_rowptr Hn HBp0 Hraw n_nodes ltac:(lia))
      as Hall.
    set (allraw := flat_map raw (range 0 n_nodes)) in *.
    assert (Hren : map (fun cv => (mp.[fst cv], snd cv)) allraw
                   = flat_map (interpolation_row splitting entries (coarse_index splitting))
                       (range 0 n_nodes)).
    { unfold allraw. rewrite map_flat_map. apply flat_map_ext_in. intros i Hi.
      apply list_elem_of_In, elem_of_range in Hi.
      unfold raw, interpolation_row.
      destruct (Z.eqb_spec splitting.[i] C_NODE) as [HC | HnC]; simpl.
      - rewrite Hmp by lia. done.
      - rewrite map_map. apply map_ext_in. intros [c v] Hin. simpl.
        rewrite Hmp; [done |]. rewrite <- Hspl. apply C_point_in_range.
        by apply (Hcols i c v). }
    rewrite Hall.
    pose proof (renumber_loop (fun c => mp.[c]) [] (map fst allraw)
                  (drop (length allraw) Pc0)) as Hloop.
    simpl in Hloop. change (zlen []) with 0 in Hloop.
    replace (0 + zlen (map fst allraw)) with (zlen allraw) in Hloop
      by (unfold zlen; rewrite length_map; lia).
    simpl. rewrite Hloop. rewrite <- Hren.
    rewrite !map_map, !length_map. done. }
  intros P. subst P. rewrite Hrows.
  assert (Hsize : forall i, 0 <= i < n_nodes ->
            P_rowptr.[i + 1]
            = P_rowptr.[i]
              + zlen (interpolation_row splitting entries (coarse_index splitting) i)).
  { intros i Hi. rewrite (Hraw i Hi). unfold interpolation_row.
    destruct (_ =? C_NODE); [done |]. unfold zlen. by rewrite !length_map. }
  apply (csr_of_rows _ n_nodes P_rowptr Pc0 Pd0 Hn HBp0 Hsize HBj HBx).
Qed.

Section SignedFacts.
Context {T : Type} `{Scalar T, !Magnitude T T}.
Context (signof : T -> T).
Variables (A_rowptr A_colinds : list Z) (A_data : list T).
Variables (C_rowptr C_colinds : list Z) (C_data : list T).
Variables (splitting P_rowptr : list Z).

Local Abbreviation signed_numerator :=
  (signed_numerator signof A_rowptr A_colinds A_data C_rowptr C_colinds C_data splitting).
Local Abbreviation signed_weight :=
  (signed_weight signof A_rowptr A_colinds A_data C_rowptr C_colinds C_data splitting).
Local Abbreviation mod_standard_entries :=
  (mod_standard_entries signof A_rowptr A_colinds A_data C_rowptr C_colinds C_data splitting).
Local Abbreviation mod_standard_F_row :=
  (mod_standard_F_row signof A_rowptr A_colinds A_data C_rowptr C_colinds C_data splitting
     P_rowptr).
Local Abbreviation distance_two_targets :=
  (distance_two_targets A_rowptr A_colinds A_data C_rowptr C_colinds C_data splitting).
Local Abbreviation distance_two_row_entries :=
  (distance_two_row_entries signof A_rowptr A_colinds A_data C_rowptr C_colinds C_data
     splitting).
Local Abbreviation distance_two_entries :=
  (distance_two_entries signof A_rowptr A_colinds A_data C_rowptr C_colinds C_data splitting
     P_rowptr).
Local Abbreviation extended_plusi_denominator :=
  (extended_plusi_denominator signof A_rowptr A_colinds A_data C_rowptr C_colinds C_data
     splitting).
Local Abbreviation extended_denominator :=
  (extended_denominator A_rowptr A_colinds A_data C_rowptr C_colinds C_data splitting).

(** The numerator does not depend on what was printed before. *)
Lemma signed_numerator_fst inner i j a out :
  fst (signed_numerator inner i j a out) = fst (signed_numerator inner i j a []).
Proof.
  unfold signed_numerator, for_.
  match goal with
  | |- fst (fold_left ?F ?l (?num, _)) = _ =>
      assert (Hgen : forall l' num' (o1 o2 : list message),
                fst (fold_left F l' (num', o1)) = fst (fold_left F l' (num', o2)))
  end.
  { induction l' as [| kk l' IH]; intros num' o1 o2; simpl; [done |].
    destruct (_ && _); [| apply IH].
    destruct (search_a_kj_a_kk _ _ _ _ _) as [a_kj a_kk].
    destruct (_ <? _)%sc; apply IH. }
  apply Hgen.
Qed.

(** Without a strong F-point other than [i] in row [i], the numerator
    keeps its start value. *)
Lemma signed_numerator_no_FF inner i j a out :
  (forall kk, C_rowptr.[i] <= kk < C_rowptr.[i + 1] ->
     splitting.[C_colinds.[kk]] = F_NODE -> C_colinds.[kk] = i) ->
  fst (signed_numerator inner i j a out) = a.
Proof.
  intros HnoFF. unfold signed_numerator.
  apply (for_invariant (fun r : T * list message => fst r = a)); [done |].
  intros kk [num o] Hkk Hr. simpl in *.
  destruct (Z.eqb_spec splitting.[C_colinds.[kk]] F_NODE) as [HF | HnF]; simpl; [| done].
  rewrite (HnoFF kk Hkk HF), Z.eqb_refl. done.
Qed.

(** The outer denominator of extended+i does not depend on what was
    printed before. *)
Lemma extended_plusi_denominator_fst i out :
  fst (extended_plusi_denominator i out) = fst (extended_plusi_denominator i []).
Proof.
  unfold extended_plusi_denominator, for_.
  match goal with
  | |- fst (fold_left ?F ?l (?den, _)) = _ =>
      assert (Hgen : forall l' den' (o1 o2 : list message),
                fst (fold_left F l' (den', o1)) = fst (fold_left F l' (den', o2)))
  end.
  { induction l' as [| kk l' IH]; intros den' o1 o2; simpl; [done |].
    destruct (_ && _); [| apply IH].
    destruct (search_a_kj_a_kk _ _ _ _ _) as [a_ki a_kk].
    destruct (_ <? _)%sc; apply IH. }
  apply Hgen.
Qed.

Lemma mod_standard_F_row_writes i (Pc : list Z) (Pd : list T) (out : list message) :
  splitting.[i] <> C_NODE ->
  exists out',
    mod_standard_F_row i (Pc, Pd, out)
    = (write_from Pc P_rowptr.[i] (map fst (mod_standard_entries i)),
       write_from Pd P_rowptr.[i] (map snd (mod_standard_entries i)), out').
Proof.
  intros HF. unfold mod_standard_F_row, mod_standard_entries.
  rewrite <- (strong_C_entries_F_row C_rowptr C_colinds splitting i HF).
  rewrite !map_map. cbn [fst snd].
  match goal with
  | |- context [for_ ?lo ?hi ?body (Pc, Pd, out, ?p)] =>
      destruct (write_loop_log (fun jj => splitting.[C_colinds.[jj]] =? C_NODE)
                  (fun jj => C_colinds.[jj])
                  (fun jj =>
                     signed_weight
                       (mod_standard_inner_denominator signof A_rowptr A_colinds A_data
                          C_rowptr C_colinds splitting)
                       (rs_standard_denominator A_rowptr A_data C_rowptr C_colinds C_data i)
                       i C_colinds.[jj] C_data.[jj])
                  body lo hi Pc Pd out p) as [o' ->]
  end.
  - intros jj a b o nnz. destruct (splitting.[C_colinds.[jj]] =? C_NODE); [| by exists o].
    match goal with
    | |- context [signed_numerator ?inner i ?j ?a0 o] =>
        pose proof (signed_numerator_fst inner i j a0 o) as Hnum;
        destruct (signed_numerator inner i j a0 o) as [num o1]
    end.
    simpl in Hnum. eexists. unfold signed_weight. rewrite <- Hnum. reflexivity.
  - by exists o'.
Qed.

(** One step of the entries of a distance-two row: the weight of the
    point [j] is stored at [nnz]. *)
Lemma distance_two_entries_writes inner denominator i (Pc : list Z) (Pd : list T)
    (out : list message) :
  let entries :=
    map (fun ja => (fst ja, signed_weight inner denominator i (fst ja) (snd ja)))
      (distance_two_targets i) in
  exists out',
    distance_two_entries inner denominator i (Pc, Pd, out)
    = (write_from Pc P_rowptr.[i] (map fst entries),
       write_from Pd P_rowptr.[i] (map snd entries), out').
Proof.
  simpl. unfold distance_two_entries, distance_two_targets.
  rewrite map_flat_map.
  match goal with
  | |- context [for_ ?lo ?hi ?body (Pc, Pd, out, ?p)] =>
      match goal with
      | |- context [flat_map ?items (range lo hi)] =>
          destruct (write_lists_loop items body lo hi Pc Pd out p) as [o' ->]
      end
  end.
  - intros jj a b o nnz. cbv beta zeta.
    destruct (splitting.[C_colinds.[jj]] =? C_NODE).
    + match goal with
      | |- context [signed_numerator inner i ?j ?a0 o] =>
          pose proof (signed_numerator_fst inner i j a0 o) as Hnum;
          destruct (signed_numerator inner i j a0 o) as [num o1]
      end.
      simpl in Hnum. eexists. unfold signed_weight. simpl. rewrite <- Hnum.
      change (zlen [_]) with 1. reflexivity.
    + destruct (negb (C_colinds.[jj] =? i)).
      * match goal with
        | |- context [for_ ?lo ?hi ?body (a, b, o, nnz)] =>
            destruct (write_loop_log (fun dd => splitting.[C_colinds.[dd]] =? C_NODE)
                        (fun dd => C_colinds.[dd])
                        (fun dd =>
                           signed_weight inner denominator i C_colinds.[dd]
                             (first_entry A_rowptr A_colinds A_data i C_colinds.[dd]))
                        body lo hi a b o nnz) as [o1 ->]
        end.
        -- intros dd a' b' o' nnz'.
           destruct (splitting.[C_colinds.[dd]] =? C_NODE); [| by exists o'].
           match goal with
           | |- context [signed_numerator inner i ?j ?a0 o'] =>
               pose proof (signed_numerator_fst inner i j a0 o') as Hnum;
               destruct (signed_numerator inner i j a0 o') as [num o1]
           end.
           simpl in Hnum. eexists. unfold signed_weight. rewrite <- Hnum. reflexivity.
        -- exists o1. rewrite !map_map. cbn [fst snd]. unfold zlen.
           by rewrite !length_map.
      * exists o. simpl. unfold zlen. simpl. f_equal. lia.
  - by exists o'.
Qed.

End SignedFacts.

Section SignedRows.
Context {T : Type} `{Scalar T, !Magnitude T T}.
Context (signof : T -> T).
Variables (A_rowptr A_colinds : list Z) (A_data : list T).
Variables (C_rowptr C_colinds : list Z) (C_data : list T).
Variables (splitting : list Z).

Local Abbreviation mod_standard_entries :=
  (mod_standard_entries signof A_rowptr A_colinds A_data C_rowptr C_colinds C_data splitting).
Local Abbreviation distance_two_targets :=
  (distance_two_targets A_rowptr A_colinds A_data C_rowptr C_colinds C_data splitting).
Local Abbreviation distance_two_row_entries :=
  (distance_two_row_entries signof A_rowptr A_colinds A_data C_rowptr C_colinds C_data
     splitting).

Lemma mod_standard_entries_C i c v :
  In (c, v) (mod_standard_entries i) -> splitting.[c] = C_NODE.
Proof.
  unfold mod_standard_entries. intros Hin.
  apply in_map_iff in Hin as (jj & [= <- _] & Hjj).
  unfold strong_C_entries in Hjj. apply filter_In in Hjj as [_ Ht].
  apply andb_true_iff in Ht as [HC _]. by apply Z.eqb_eq in HC.
Qed.

Lemma zlen_mod_standard_row col i :
  zlen (interpolation_row splitting mod_standard_entries col i)
  = P_row_size C_rowptr C_colinds splitting i.
Proof.
  unfold interpolation_row, P_row_size, mod_standard_entries.
  destruct (_ =? C_NODE); [done |]. unfold zlen. by rewrite !length_map.
Qed.

Lemma distance_two_targets_C i c a :
  In (c, a) (distance_two_targets i) -> splitting.[c] = C_NODE.
Proof.
  unfold distance_two_targets. intros Hin.
  apply in_flat_map in Hin as (jj & _ & Hin). cbv zeta in Hin.
  destruct (Z.eqb_spec splitting.[C_colinds.[jj]] C_NODE) as [HC | HnC].
  - destruct Hin as [[= <- _] | []]. done.
  - destruct (negb (C_colinds.[jj] =? i)); [| done].
    apply in_map_iff in Hin as (dd & [= <- _] & Hdd).
    apply filter_In in Hdd as [_ Ht]. by apply Z.eqb_eq in Ht.
Qed.

Lemma distance_two_row_entries_C inner denominator i c v :
  In (c, v) (distance_two_row_entries inner denominator i) -> splitting.[c] = C_NODE.
Proof.
  unfold distance_two_row_entries. intros Hin.
  apply in_map_iff in Hin as ([c' a] & [= <- _] & Hin). simpl.
  by apply (distance_two_targets_C i c' a).
Qed.

Lemma zlen_distance_two_row inner denominator col i :
  zlen (interpolation_row splitting (distance_two_row_entries inner denominator) col i)
  = P_row_size_distance_two C_rowptr C_colinds splitting i.
Proof.
  unfold interpolation_row, P_row_size_distance_two, distance_two_row_entries.
  destruct (_ =? C_NODE); [done |].
  replace (zlen (map _ (map _ (distance_two_targets i))))
    with (zlen (distance_two_targets i)) by (unfold zlen; by rewrite !length_map).
  unfold distance_two_targets. rewrite zlen_flat_map. f_equal. apply map_ext.
  intros jj. cbv zeta.
  destruct (splitting.[C_colinds.[jj]] =? C_NODE); [done |].
  destruct (negb (C_colinds.[jj] =? i)); [| done].
  unfold C_points_in_row, zlen. by rewrite length_map.
Qed.

(** With no point other than [i] and the C-points in row [i] of [C],
    an F-point row interpolates from its strong C-points only. *)
Lemma distance_two_targets_distance_one i :
  splitting.[i] <> C_NODE ->
  (forall kk, C_rowptr.[i] <= kk < C_rowptr.[i + 1] ->
     splitting.[C_colinds.[kk]] <> C_NODE -> C_colinds.[kk] = i) ->
  distance_two_targets i
  = map (fun jj => (C_colinds.[jj], C_data.[jj]))
      (strong_C_entries C_rowptr C_colinds splitting i).
Proof.
  intros HF Hno. unfold distance_two_targets, strong_C_entries.
  assert (Hin : forall jj, In jj (range C_rowptr.[i] C_rowptr.[i + 1]) ->
            C_rowptr.[i] <= jj < C_rowptr.[i + 1]).
  { intros jj Hjj. by apply list_elem_of_In, elem_of_range in Hjj. }
  induction (range C_rowptr.[i] C_rowptr.[i + 1]) as [| jj l IH]; simpl; [done |].
  rewrite IH by (intros kk Hkk; apply Hin; by right).
  destruct (Z.eqb_spec splitting.[C_colinds.[jj]] C_NODE) as [HC | HnC]; simpl.
  - destruct (Z.eqb_spec C_colinds.[jj] i) as [Heq | Hne]; [| done].
    rewrite Heq in HC. done.
  - rewrite (Hno jj (Hin jj ltac:(by left)) HnC), Z.eqb_refl. done.
Qed.

(** The outer denominators of the distance-two formulas are then the
    one of standard interpolation. *)
Lemma extended_denominator_distance_one i :
  (forall kk, C_rowptr.[i] <= kk < C_rowptr.[i + 1] ->
     splitting.[C_colinds.[kk]] <> C_NODE -> C_colinds.[kk] = i) ->
  extended_denominator A_rowptr A_colinds A_data C_rowptr C_colinds C_data splitting i
  = rs_standard_denominator A_rowptr A_data C_rowptr C_colinds C_data i.
Proof.
  intros Hno. unfold extended_denominator, rs_standard_denominator. cbv zeta.
  generalize (for_ A_rowptr.[i] A_rowptr.[i + 1]
                (fun (mm : Z) (denominator : T) => (denominator + A_data.[mm])%sc) s_zero).
  intros d0.
  assert (Hin : forall jj, In jj (range C_rowptr.[i] C_rowptr.[i + 1]) ->
            C_rowptr.[i] <= jj < C_rowptr.[i + 1]).
  { intros jj Hjj. by apply list_elem_of_In, elem_of_range in Hjj. }
  unfold for_. revert d0.
  induction (range C_rowptr.[i] C_rowptr.[i + 1]) as [| mm l IH]; intros d0; simpl; [done |].
  rewrite <- IH by (intros kk Hkk; apply Hin; by right). f_equal.
  destruct (Z.eqb_spec splitting.[C_colinds.[mm]] F_NODE) as [HFn | HnF]; simpl; [| done].
  assert (Heq : C_colinds.[mm] = i).
  { apply Hno; [apply Hin; by left |]. rewrite HFn. done. }
  rewrite Heq, Z.eqb_refl. done.
Qed.

Lemma extended_plusi_denominator_distance_one i out :
  (forall kk, C_rowptr.[i] <= kk < C_rowptr.[i + 1] ->
     splitting.[C_colinds.[kk]] <> C_NODE -> C_colinds.[kk] = i) ->
  fst (extended_plusi_denominator signof A_rowptr A_colinds A_data C_rowptr C_colinds C_data
         splitting i out)
  = rs_standard_denominator A_rowptr A_data C_rowptr C_colinds C_data i.
Proof.
  intros Hno. rewrite <- (extended_denominator_distance_one i Hno).
  unfold extended_plusi_denominator.
  apply (for_invariant
           (fun r : T * list message =>
              fst r = extended_denominator A_rowptr A_colinds A_data C_rowptr C_colinds
                        C_data splitting i)); [done |].
  intros kk [den o] Hkk Hr. simpl in *.
  destruct (Z.eqb_spec splitting.[C_colinds.[kk]] F_NODE) as [HFn | HnF]; simpl; [| done].
  assert (Heq : C_colinds.[kk] = i).
  { apply Hno; [done |]. rewrite HFn. done. }
  rewrite Heq, Z.eqb_refl. done.
Qed.

End SignedRows.

Lemma mod_standard_interpolation_spec {T} `{Scalar T, !Magnitude T T} (signof : T -> T)
    (n_nodes : Z) (A_rowptr A_colinds : list Z) (A_data : list T)
    (C_rowptr C_colinds : list Z) (C_data : list T)
    (splitting P_rowptr0 P_colinds0 : list Z) (P_data0 : list T) :
  0 <= n_nodes -> zlen splitting = n_nodes -> n_nodes + 1 <= zlen P_rowptr0 ->
  let P_rowptr :=
    rs_standard_interpolation_pass1 n_nodes C_rowptr C_colinds splitting P_rowptr0 in
  P_rowptr.[n_nodes] <= zlen P_colinds0 -> P_rowptr.[n_nodes] <= zlen P_data0 ->
  let P := fst (mod_standard_interpolation_pass2 signof n_nodes A_rowptr A_colinds A_data
                  C_rowptr C_colinds C_data splitting P_rowptr P_colinds0 P_data0) in
  length (fst P) = length P_colinds0 /\ length (snd P) = length P_data0
  /\ (forall i, 0 <= i < n_nodes ->
        csr_row P_rowptr (fst P) (snd P) i
        = interpolation_row splitting
            (mod_standard_entries signof A_rowptr A_colinds A_data C_rowptr C_colinds C_data
               splitting)
            (coarse_index splitting) i)
  /\ (forall p, P_rowptr.[n_nodes] <= p ->
        (fst P).[p] = P_colinds0.[p] /\ (snd P).[p] = P_data0.[p]).
Proof.
  intros Hn Hspl HlenBp. simpl. intros HBj HBx.
  destruct (rs_direct_interpolation_pass1_row_pointer n_nodes C_rowptr C_colinds splitting
              P_rowptr0 Hn HlenBp) as (_ & HBp0 & HBp & _).
  change (rs_direct_interpolation_pass1 n_nodes C_rowptr C_colinds splitting P_rowptr0)
    with (rs_standard_interpolation_pass1 n_nodes C_rowptr C_colinds splitting P_rowptr0)
    in *.
  set (P_rowptr := rs_standard_interpolation_pass1 _ _ _ _ _) in *.
  unfold mod_standard_interpolation_pass2.
  apply (interpolation_rows_spec n_nodes splitting P_rowptr
           (mod_standard_F_row signof A_rowptr A_colinds A_data C_rowptr C_colinds C_data
              splitting P_rowptr)
           (mod_standard_entries signof A_rowptr A_colinds A_data C_rowptr C_colinds C_data
              splitting)
           P_colinds0 P_data0 Hn Hspl HBp0); [| | | done | done].
  - intros i Hi. rewrite zlen_mod_standard_row. by apply HBp.
  - intros i Pc Pd out HF. by apply mod_standard_F_row_writes.
  - intros i c v _. apply mod_standard_entries_C.
Qed.

Lemma extended_interpolation_spec {T} `{Scalar T, !Magnitude T T} (signof : T -> T)
    (n_nodes : Z) (A_rowptr A_colinds : list Z) (A_data : list T)
    (C_rowptr C_colinds : list Z) (C_data : list T)
    (splitting P_rowptr0 P_colinds0 : list Z) (P_data0 : list T) :
  0 <= n_nodes -> zlen splitting = n_nodes -> n_nodes + 1 <= zlen P_rowptr0 ->
  let P_rowptr :=
    distance_two_amg_interpolation_pass1 n_nodes C_rowptr C_colinds splitting P_rowptr0 in
  P_rowptr.[n_nodes] <= zlen P_colinds0 -> P_rowptr.[n_nodes] <= zlen P_data0 ->
  let P := fst (extended_interpolation_pass2 signof n_nodes A_rowptr A_colinds A_data
                  C_rowptr C_colinds C_data splitting P_rowptr P_colinds0 P_data0) in
  length (fst P) = length P_colinds0 /\ length (snd P) = length P_data0
  /\ (forall i, 0 <= i < n_nodes ->
        csr_row P_rowptr (fst P) (snd P) i
        = interpolation_row splitting
            (extended_entries signof A_rowptr A_colinds A_data C_rowptr C_colinds C_data
               splitting)
            (coarse_index splitting) i)
  /\ (forall p, P_rowptr.[n_nodes] <= p ->
        (fst P).[p] = P_colinds0.[p] /\ (snd P).[p] = P_data0.[p]).
Proof.
  intros Hn Hspl HlenBp. simpl. intros HBj HBx.
  destruct (distance_two_pass1_row_pointer n_nodes C_rowptr C_colinds splitting
              P_rowptr0 Hn HlenBp) as (_ & HBp0 & HBp & _).
  set (P_rowptr := distance_two_amg_interpolation_pass1 _ _ _ _ _) in *.
  unfold extended_interpolation_pass2.
  apply (interpolation_rows_spec n_nodes splitting P_rowptr
           (fun i P =>
              distance_two_entries signof A_rowptr A_colinds A_data C_rowptr C_colinds C_data
                splitting P_rowptr
                (extended_inner_denominator signof A_rowptr A_colinds A_data
                   C_rowptr C_colinds splitting)
                (extended_denominator A_rowptr A_colinds A_data C_rowptr C_colinds C_data
                   splitting i)
                i P)
           (extended_entries signof A_rowptr A_colinds A_data C_rowptr C_colinds C_data
              splitting)
           P_colinds0 P_data0 Hn Hspl HBp0); [| | | done | done].
  - intros i Hi. unfold extended_entries. rewrite zlen_distance_two_row. by apply HBp.
  - intros i Pc Pd out _. apply distance_two_entries_writes.
  - intros i c v _. apply distance_two_row_entries_C.
Qed.

Lemma extended_plusi_interpolation_spec {T} `{Scalar T, !Magnitude T T} (signof : T -> T)
    (n_nodes : Z) (A_rowptr A_colinds : list Z) (A_data : list T)
    (C_rowptr C_colinds : list Z) (C_data : list T)
    (splitting P_rowptr0 P_colinds0 : list Z) (P_data0 : list T) :
  0 <= n_nodes -> zlen splitting = n_nodes -> n_nodes + 1 <= zlen P_rowptr0 ->
  let P_rowptr :=
    distance_two_amg_interpolation_pass1 n_nodes C_rowptr C_colinds splitting P_rowptr0 in
  P_rowptr.[n_nodes] <= zlen P_colinds0 -> P_rowptr.[n_nodes] <= zlen P_data0 ->
  let P := fst (extended_plusi_interpolation_pass2 signof n_nodes A_rowptr A_colinds A_data
                  C_rowptr C_colinds C_data splitting P_rowptr P_colinds0 P_data0) in
  length (fst P) = length P_colinds0 /\ length (snd P) = length P_data0
  /\ (forall i, 0 <= i < n_nodes ->
        csr_row P_rowptr (fst P) (snd P) i
        = interpolation_row splitting
            (extended_plusi_entries signof A_rowptr A_colinds A_data C_rowptr C_colinds C_data
               splitting)
            (coarse_index splitting) i)
  /\ (forall p, P_rowptr.[n_nodes] <= p ->
        (fst P).[p] = P_colinds0.[p] /\ (snd P).[p] = P_data0.[p]).
Proof.
  intros Hn Hspl HlenBp. simpl. intros HBj HBx.
  destruct (distance_two_pass1_row_pointer n_nodes C_rowptr C_colinds splitting
              P_rowptr0 Hn HlenBp) as (_ & HBp0 & HBp & _).
  set (P_rowptr := distance_two_amg_interpolation_pass1 _ _ _ _ _) in *.
  unfold extended_plusi_interpolation_pass2.
  apply (interpolation_rows_spec n_nodes splitting P_rowptr
           (fun i '(P_colinds, P_data, out) =>
              let '(denominator, out) :=
                extended_plusi_denominator signof A_rowptr A_colinds A_data
                  C_rowptr C_colinds C_data splitting i out in
              distance_two_entries signof A_rowptr A_colinds A_data C_rowptr C_colinds C_data
                splitting P_rowptr
                (extended_plusi_inner_denominator signof A_rowptr A_colinds A_data
                   C_rowptr C_colinds splitting)
                denominator i (P_colinds, P_data, out))
           (extended_plusi_entries signof A_rowptr A_colinds A_data C_rowptr C_colinds C_data
              splitting)
           P_colinds0 P_data0 Hn Hspl HBp0); [| | | done | done].
  - intros i Hi. unfold extended_plusi_entries. rewrite zlen_distance_two_row. by apply HBp.
  - intros i Pc Pd out _. cbv beta iota.
    pose proof (extended_plusi_denominator_fst signof A_rowptr A_colinds A_data
                  C_rowptr C_colinds C_data splitting i out) as Hden.
    destruct (extended_plusi_denominator _ _ _ _ _ _ _ _ i out) as [den o1].
    simpl in Hden. unfold extended_plusi_entries, distance_two_row_entries.
    rewrite <- Hden. apply distance_two_entries_writes.
  - intros i c v _. apply distance_two_row_entries_C.
Qed.

(** X21: with the row pointer of [rs_standard_interpolation_pass1],
    [mod_standard_interpolation_pass2] leaves in
    [(P_rowptr, P_colinds, P_data)] the CSR matrix whose row [i] is, for
    a C-point, the single entry [1] in the column that numbers [i]
    among the C-points, and, for an F-point, one entry
    [-numerator / denominator] per C-point other than [i] stored in row
    [i] of [C], in its order and in the column that numbers that
    C-point, whatever [signof] is and whatever is printed.  The arrays
    keep their lengths and the cells from [P_rowptr[n_nodes]] on keep
    their values. *)
Theorem mod_standard_interpolation_rows {T} `{Scalar T, !Magnitude T T} (signof : T -> T)
    (n_nodes : Z) (A_rowptr A_colinds : list Z) (A_data : list T)
    (C_rowptr C_colinds : list Z) (C_data : list T)
    (splitting P_rowptr0 P_colinds0 : list Z) (P_data0 : list T) :
  0 <= n_nodes -> zlen splitting = n_nodes -> n_nodes + 1 <= zlen P_rowptr0 ->
  let P_rowptr :=
    rs_standard_interpolation_pass1 n_nodes C_rowptr C_colinds splitting P_rowptr0 in
  P_rowptr.[n_nodes] <= zlen P_colinds0 -> P_rowptr.[n_nodes] <= zlen P_data0 ->
  let P := fst (mod_standard_interpolation_pass2 signof n_nodes A_rowptr A_colinds A_data
                  C_rowptr C_colinds C_data splitting P_rowptr P_colinds0 P_data0) in
  length (fst P) = length P_colinds0 /\ length (snd P) = length P_data0
  /\ (forall i, 0 <= i < n_nodes ->
        csr_row P_rowptr (fst P) (snd P) i
        = interpolation_row splitting
            (mod_standard_entries signof A_rowptr A_colinds A_data C_rowptr C_colinds C_data
               splitting)
            (coarse_index splitting) i)
  /\ (forall p, P_rowptr.[n_nodes] <= p ->
        (fst P).[p] = P_colinds0.[p] /\ (snd P).[p] = P_data0.[p]).
Proof. apply mod_standard_interpolation_spec. Qed.

Lemma mod_standard_interpolation_rows_witness :
  let sg := fun x : double => if (x <? s_zero)%sc then (-1)%float else 1%float in
  let Sp := [0;2;5;8;10] in
  let Sj := [0;1; 0;1;2; 1;2;3; 2;3] in
  let Sx := [2;-1; -1;2;-1; -1;2;-1; -1;2]%float in
  let spl := [1;0;0;1] in
  let P_rowptr := rs_standard_interpolation_pass1 4 Sp Sj spl [0;0;0;0;0] in
  let P := fst (mod_standard_interpolation_pass2 (T:=double) sg 4 Sp Sj Sx Sp Sj Sx spl
                  P_rowptr (replicate 4 0) (replicate 4 0%float)) in
  length (fst P) = 4%nat /\ length (snd P) = 4%nat
  /\ (forall i, 0 <= i < 4 ->
        csr_row P_rowptr (fst P) (snd P) i
        = interpolation_row spl (mod_standard_entries sg Sp Sj Sx Sp Sj Sx spl)
            (coarse_index spl) i)
  /\ (forall p, P_rowptr.[4] <= p ->
        (fst P).[p] = (replicate 4 0).[p] /\ (snd P).[p] = (replicate 4 0%float).[p]).
Proof.
  apply (mod_standard_interpolation_rows (T:=double)
           (fun x : double => if (x <? s_zero)%sc then (-1)%float else 1%float)
           4 [0;2;5;8;10] [0;1; 0;1;2; 1;2;3; 2;3]
           [2;-1; -1;2;-1; -1;2;-1; -1;2]%float [0;2;5;8;10] [0;1; 0;1;2; 1;2;3; 2;3]
           [2;-1; -1;2;-1; -1;2;-1; -1;2]%float [1;0;0;1] [0;0;0;0;0]
           (replicate 4 0) (replicate 4 0%float));
    [lia | reflexivity | change (4 + 1 <= 5); lia
    | change (4 <= 4); lia | change (4 <= 4); lia].
Defined.

(** X22: on a row [i] of [C] in which no F-point other than [i] is
    stored, [mod_standard_interpolation_pass2] and
    [rs_standard_interpolation_pass2] leave the same row of the
    prolongator, whatever [signof] is. *)
Theorem mod_standard_interpolation_agrees_with_standard {T} `{Scalar T, !Magnitude T T}
    (signof : T -> T)
    (n_nodes : Z) (A_rowptr A_colinds : list Z) (A_data : list T)
    (C_rowptr C_colinds : list Z) (C_data : list T)
    (splitting P_rowptr0 P_colinds0 : list Z) (P_data0 : list T) (i : Z) :
  0 <= n_nodes -> zlen splitting = n_nodes -> n_nodes + 1 <= zlen P_rowptr0 ->
  let P_rowptr :=
    rs_standard_interpolation_pass1 n_nodes C_rowptr C_colinds splitting P_rowptr0 in
  P_rowptr.[n_nodes] <= zlen P_colinds0 -> P_rowptr.[n_nodes] <= zlen P_data0 ->
  let P := fst (mod_standard_interpolation_pass2 signof n_nodes A_rowptr A_colinds A_data
                  C_rowptr C_colinds C_data splitting P_rowptr P_colinds0 P_data0) in
  let P' := fst (rs_standard_interpolation_pass2 n_nodes A_rowptr A_colinds A_data
                   C_rowptr C_colinds C_data splitting P_rowptr P_colinds0 P_data0) in
  0 <= i < n_nodes ->
  (forall kk, C_rowptr.[i] <= kk < C_rowptr.[i + 1] ->
     splitting.[C_colinds.[kk]] = F_NODE -> C_colinds.[kk] = i) ->
  csr_row P_rowptr (fst P) (snd P) i = csr_row P_rowptr (fst P') (snd P') i.
Proof.
  intros Hn Hspl HlenBp. simpl. intros HBj HBx Hi HnoFF.
  destruct (mod_standard_interpolation_spec signof n_nodes A_rowptr A_colinds A_data
              C_rowptr C_colinds C_data splitting P_rowptr0 P_colinds0 P_data0
              Hn Hspl HlenBp HBj HBx) as (_ & _ & Hrows & _).
  destruct (rs_standard_interpolation_spec n_nodes A_rowptr A_colinds A_data
              C_rowptr C_colinds C_data splitting P_rowptr0 P_colinds0 P_data0
              Hn Hspl HlenBp HBj HBx) as (_ & _ & Hrows' & _).
  rewrite Hrows, Hrows' by done.
  unfold interpolation_row, rs_standard_row, mod_standard_entries.
  destruct (splitting.[i] =? C_NODE); [done |].
  rewrite map_map. apply map_ext. intros jj. cbn [fst snd].
  unfold signed_weight, rs_standard_weight.
  rewrite signed_numerator_no_FF by done. by rewrite rs_standard_numerator_no_FF.
Qed.

Lemma mod_standard_interpolation_agrees_with_standard_witness :
  let sg := fun x : double => if (x <? s_zero)%sc then (-1)%float else 1%float in
  let Sp := [0;2;5;7] in
  let Sj := [0;1; 0;1;2; 1;2] in
  let Sx := [2;-1; -1;2;-1; -1;2]%float in
  let spl := [1;0;1] in
  let P_rowptr := rs_standard_interpolation_pass1 3 Sp Sj spl [0;0;0;0] in
  let P := fst (mod_standard_interpolation_pass2 (T:=double) sg 3 Sp Sj Sx Sp Sj Sx spl
                  P_rowptr (replicate 4 0) (replicate 4 0%float)) in
  let P' := fst (rs_standard_interpolation_pass2 (T:=double) 3 Sp Sj Sx Sp Sj Sx spl
                   P_rowptr (replicate 4 0) (replicate 4 0%float)) in
  csr_row P_rowptr (fst P) (snd P) 1 = csr_row P_rowptr (fst P') (snd P') 1.
Proof.
  apply (mod_standard_interpolation_agrees_with_standard (T:=double)
           (fun x : double => if (x <? s_zero)%sc then (-1)%float else 1%float)
           3 [0;2;5;7] [0;1; 0;1;2; 1;2] [2;-1; -1;2;-1; -1;2]%float
           [0;2;5;7] [0;1; 0;1;2; 1;2] [2;-1; -1;2;-1; -1;2]%float [1;0;1] [0;0;0;0]
           (replicate 4 0) (replicate 4 0%float) 1);
    [lia | reflexivity | change (3 + 1 <= 4); lia
    | change (4 <= 4); lia | change (4 <= 4); lia | lia |].
  change (forall kk, 2 <= kk < 5 ->
            [1;0;1].[[0;1; 0;1;2; 1;2].[kk]] = F_NODE -> [0;1; 0;1;2; 1;2].[kk] = 1).
  intros kk Hkk HF.
  assert (Hcases : kk = 2 \/ kk = 3 \/ kk = 4) by lia.
  destruct Hcases as [-> | [-> | ->]]; [done | done | done].
Defined.

(** X23: with the row pointer of [distance_two_amg_interpolation_pass1],
    [extended_interpolation_pass2] leaves in
    [(P_rowptr, P_colinds, P_data)] the CSR matrix whose row [i] is, for
    a C-point, the single entry [1] in the column that numbers [i]
    among the C-points, and, for an F-point, one entry
    [-numerator / denominator] for every C-point stored in row [i] of
    [C] and, for every other point [k] of that row different from [i],
    for every C-point stored in row [k] of [C], in this order and in the
    columns that number these C-points: the first pass reserves exactly
    the cells the second pass fills.  The arrays keep their lengths and
    the cells from [P_rowptr[n_nodes]] on keep their values. *)
Theorem extended_interpolation_rows {T} `{Scalar T, !Magnitude T T} (signof : T -> T)
    (n_nodes : Z) (A_rowptr A_colinds : list Z) (A_data : list T)
    (C_rowptr C_colinds : list Z) (C_data : list T)
    (splitting P_rowptr0 P_colinds0 : list Z) (P_data0 : list T) :
  0 <= n_nodes -> zlen splitting = n_nodes -> n_nodes + 1 <= zlen P_rowptr0 ->
  let P_rowptr :=
    distance_two_amg_interpolation_pass1 n_nodes C_rowptr C_colinds splitting P_rowptr0 in
  P_rowptr.[n_nodes] <= zlen P_colinds0 -> P_rowptr.[n_nodes] <= zlen P_data0 ->
  let P := fst (extended_interpolation_pass2 signof n_nodes A_rowptr A_colinds A_data
                  C_rowptr C_colinds C_data splitting P_rowptr P_colinds0 P_data0) in
  length (fst P) = length P_colinds0 /\ length (snd P) = length P_data0
  /\ (forall i, 0 <= i < n_nodes ->
        csr_row P_rowptr (fst P) (snd P) i
        = interpolation_row splitting
            (extended_entries signof A_rowptr A_colinds A_data C_rowptr C_colinds C_data
               splitting)
            (coarse_index splitting) i)
  /\ (forall p, P_rowptr.[n_nodes] <= p ->
        (fst P).[p] = P_colinds0.[p] /\ (snd P).[p] = P_data0.[p]).
Proof. apply extended_interpolation_spec. Qed.

Lemma extended_interpolation_rows_witness :
  let sg := fun x : double => if (x <? s_zero)%sc then (-1)%float else 1%float in
  let Sp := [0;2;5;8;10] in
  let Sj := [0;1; 0;1;2; 1;2;3; 2;3] in
  let Sx := [2;-1; -1;2;-1; -1;2;-1; -1;2]%float in
  let spl := [1;0;0;1] in
  let P_rowptr := distance_two_amg_interpolation_pass1 4 Sp Sj spl [0;0;0;0;0] in
  let P := fst (extended_interpolation_pass2 (T:=double) sg 4 Sp Sj Sx Sp Sj Sx spl
                  P_rowptr (replicate 6 0) (replicate 6 0%float)) in
  length (fst P) = 6%nat /\ length (snd P) = 6%nat
  /\ (forall i, 0 <= i < 4 ->
        csr_row P_rowptr (fst P) (snd P) i
        = interpolation_row spl (extended_entries sg Sp Sj Sx Sp Sj Sx spl)
            (coarse_index spl) i)
  /\ (forall p, P_rowptr.[4] <= p ->
        (fst P).[p] = (replicate 6 0).[p] /\ (snd P).[p] = (replicate 6 0%float).[p]).
Proof.
  apply (extended_interpolation_rows (T:=double)
           (fun x : double => if (x <? s_zero)%sc then (-1)%float else 1%float)
           4 [0;2;5;8;10] [0;1; 0;1;2; 1;2;3; 2;3]
           [2;-1; -1;2;-1; -1;2;-1; -1;2]%float [0;2;5;8;10] [0;1; 0;1;2; 1;2;3; 2;3]
           [2;-1; -1;2;-1; -1;2;-1; -1;2]%float [1;0;0;1] [0;0;0;0;0]
           (replicate 6 0) (replicate 6 0%float));
    [lia | reflexivity | change (4 + 1 <= 5); lia
    | change (6 <= 6); lia | change (6 <= 6); lia].
Defined.

(** X24: with the row pointer of [distance_two_amg_interpolation_pass1],
    [extended_plusi_interpolation_pass2] leaves in
    [(P_rowptr, P_colinds, P_data)] the CSR matrix with the rows of the
    same shape as [extended_interpolation_pass2], the values being
    [-numerator / denominator] with the denominators of the extended+i
    formula; neither the values nor the columns depend on what is
    printed.  The arrays keep their lengths and the cells from
    [P_rowptr[n_nodes]] on keep their values. *)
Theorem extended_plusi_interpolation_rows {T} `{Scalar T, !Magnitude T T} (signof : T -> T)
    (n_nodes : Z) (A_rowptr A_colinds : list Z) (A_data : list T)
    (C_rowptr C_colinds : list Z) (C_data : list T)
    (splitting P_rowptr0 P_colinds0 : list Z) (P_data0 : list T) :
  0 <= n_nodes -> zlen splitting = n_nodes -> n_nodes + 1 <= zlen P_rowptr0 ->
  let P_rowptr :=
    distance_two_amg_interpolation_pass1 n_nodes C_rowptr C_colinds splitting P_rowptr0 in
  P_rowptr.[n_nodes] <= zlen P_colinds0 -> P_rowptr.[n_nodes] <= zlen P_data0 ->
  let P := fst (extended_plusi_interpolation_pass2 signof n_nodes A_rowptr A_colinds A_data
                  C_rowptr C_colinds C_data splitting P_rowptr P_colinds0 P_data0) in
  length (fst P) = length P_colinds0 /\ length (snd P) = length P_data0
  /\ (forall i, 0 <= i < n_nodes ->
        csr_row P_rowptr (fst P) (snd P) i
        = interpolation_row splitting
            (extended_plusi_entries signof A_rowptr A_colinds A_data C_rowptr C_colinds C_data
               splitting)
            (coarse_index splitting) i)
  /\ (forall p, P_rowptr.[n_nodes] <= p ->
        (fst P).[p] = P_colinds0.[p] /\ (snd P).[p] = P_data0.[p]).
Proof. apply extended_plusi_interpolation_spec. Qed.

Lemma extended_plusi_interpolation_rows_witness :
  let sg := fun x : double => if (x <? s_zero)%sc then (-1)%float else 1%float in
  let Sp := [0;2;5;8;10] in
  let Sj := [0;1; 0;1;2; 1;2;3; 2;3] in
  let Sx := [2;-1; -1;2;-1; -1;2;-1; -1;2]%float in
  let spl := [1;0;0;1] in
  let P_rowptr := distance_two_amg_interpolation_pass1 4 Sp Sj spl [0;0;0;0;0] in
  let P := fst (extended_plusi_interpolation_pass2 (T:=double) sg 4 Sp Sj Sx Sp Sj Sx spl
                  P_rowptr (replicate 6 0) (replicate 6 0%float)) in
  length (fst P) = 6%nat /\ length (snd P) = 6%nat
  /\ (forall i, 0 <= i < 4 ->
        csr_row P_rowptr (fst P) (snd P) i
        = interpolation_row spl (extended_plusi_entries sg Sp Sj Sx Sp Sj Sx spl)
            (coarse_index spl) i)
  /\ (forall p, P_rowptr.[4] <= p ->
        (fst P).[p] = (replicate 6 0).[p] /\ (snd P).[p] = (replicate 6 0%float).[p]).
Proof.
  apply (extended_plusi_interpolation_rows (T:=double)
           (fun x : double => if (x <? s_zero)%sc then (-1)%float else 1%float)
           4 [0;2;5;8;10] [0;1; 0;1;2; 1;2;3; 2;3]
           [2;-1; -1;2;-1; -1;2;-1; -1;2]%float [0;2;5;8;10] [0;1; 0;1;2; 1;2;3; 2;3]
           [2;-1; -1;2;-1; -1;2;-1; -1;2]%float [1;0;0;1] [0;0;0;0;0]
           (replicate 6 0) (replicate 6 0%float));
    [lia | reflexivity | change (4 + 1 <= 5); lia
    | change (6 <= 6); lia | change (6 <= 6); lia].
Defined.

(** X25: for an F-point [i] whose row of [C] holds only C-points and
    [i] itself, the two distance-two formulas reduce to
    [w_ij = -a_ij / (a_ii + sum of the weak a_ik)]:
    [extended_interpolation_pass2] and
    [extended_plusi_interpolation_pass2] both store
    [-C_data[jj] / denominator], with the denominator of standard
    interpolation, for the strong C-point at [jj], and nothing else in
    the row. *)
Theorem distance_two_interpolation_without_strong_F {T} `{Scalar T, !Magnitude T T}
    (signof : T -> T)
    (n_nodes : Z) (A_rowptr A_colinds : list Z) (A_data : list T)
    (C_rowptr C_colinds : list Z) (C_data : list T)
    (splitting P_rowptr0 P_colinds0 : list Z) (P_data0 : list T) (i : Z) :
  0 <= n_nodes -> zlen splitting = n_nodes -> n_nodes + 1 <= zlen P_rowptr0 ->
  let P_rowptr :=
    distance_two_amg_interpolation_pass1 n_nodes C_rowptr C_colinds splitting P_rowptr0 in
  P_rowptr.[n_nodes] <= zlen P_colinds0 -> P_rowptr.[n_nodes] <= zlen P_data0 ->
  let P := fst (extended_interpolation_pass2 signof n_nodes A_rowptr A_colinds A_data
                  C_rowptr C_colinds C_data splitting P_rowptr P_colinds0 P_data0) in
  let P' := fst (extended_plusi_interpolation_pass2 signof n_nodes A_rowptr A_colinds A_data
                   C_rowptr C_colinds C_data splitting P_rowptr P_colinds0 P_data0) in
  0 <= i < n_nodes -> splitting.[i] <> C_NODE ->
  (forall kk, C_rowptr.[i] <= kk < C_rowptr.[i + 1] ->
     splitting.[C_colinds.[kk]] <> C_NODE -> C_colinds.[kk] = i) ->
  let row :=
    map (fun jj =>
           (coarse_index splitting C_colinds.[jj],
            (- C_data.[jj]
             / rs_standard_denominator A_rowptr A_data C_rowptr C_colinds C_data i)%sc))
      (strong_C_entries C_rowptr C_colinds splitting i) in
  csr_row P_rowptr (fst P) (snd P) i = row
  /\ csr_row P_rowptr (fst P') (snd P') i = row.
Proof.
  intros Hn Hspl HlenBp. simpl. intros HBj HBx Hi HF Hno.
  destruct (extended_interpolation_spec signof n_nodes A_rowptr A_colinds A_data
              C_rowptr C_colinds C_data splitting P_rowptr0 P_colinds0 P_data0
              Hn Hspl HlenBp HBj HBx) as (_ & _ & Hrows & _).
  destruct (extended_plusi_interpolation_spec signof n_nodes A_rowptr A_colinds A_data
              C_rowptr C_colinds C_data splitting P_rowptr0 P_colinds0 P_data0
              Hn Hspl HlenBp HBj HBx) as (_ & _ & Hrows' & _).
  rewrite Hrows, Hrows' by done.
  assert (HnoFF : forall kk, C_rowptr.[i] <= kk < C_rowptr.[i + 1] ->
            splitting.[C_colinds.[kk]] = F_NODE -> C_colinds.[kk] = i).
  { intros kk Hkk HFn. apply Hno; [done |]. rewrite HFn. done. }
  unfold interpolation_row, extended_entries, extended_plusi_entries,
    distance_two_row_entries.
  destruct (Z.eqb_spec splitting.[i] C_NODE) as [HC | _]; [done |].
  rewrite (distance_two_targets_distance_one A_rowptr A_colinds A_data C_rowptr C_colinds
             C_data splitting i HF Hno).
  rewrite !map_map. cbn [fst snd].
  split; apply map_ext; intros jj; unfold signed_weight;
    rewrite signed_numerator_no_FF by done.
  - by rewrite extended_denominator_distance_one.
  - by rewrite extended_plusi_denominator_distance_one.
Qed.

Lemma distance_two_interpolation_without_strong_F_witness :
  let sg := fun x : double => if (x <? s_zero)%sc then (-1)%float else 1%float in
  let Sp := [0;2;5;7] in
  let Sj := [0;1; 0;1;2; 1;2] in
  let Sx := [2;-1; -1;2;-1; -1;2]%float in
  let spl := [1;0;1] in
  let P_rowptr := distance_two_amg_interpolation_pass1 3 Sp Sj spl [0;0;0;0] in
  let P := fst (extended_interpolation_pass2 (T:=double) sg 3 Sp Sj Sx Sp Sj Sx spl
                  P_rowptr (replicate 4 0) (replicate 4 0%float)) in
  let P' := fst (extended_plusi_interpolation_pass2 (T:=double) sg 3 Sp Sj Sx Sp Sj Sx spl
                   P_rowptr (replicate 4 0) (replicate 4 0%float)) in
  let row :=
    map (fun jj =>
           (coarse_index spl Sj.[jj],
            (- Sx.[jj] / rs_standard_denominator Sp Sx Sp Sj Sx 1)%sc))
      (strong_C_entries Sp Sj spl 1) in
  csr_row P_rowptr (fst P) (snd P) 1 = row
  /\ csr_row P_rowptr (fst P') (snd P') 1 = row.
Proof.
  apply (distance_two_interpolation_without_strong_F (T:=double)
           (fun x : double => if (x <? s_zero)%sc then (-1)%float else 1%float)
           3 [0;2;5;7] [0;1; 0;1;2; 1;2] [2;-1; -1;2;-1; -1;2]%float
           [0;2;5;7] [0;1; 0;1;2; 1;2] [2;-1; -1;2;-1; -1;2]%float [1;0;1] [0;0;0;0]
           (replicate 4 0) (replicate 4 0%float) 1);
    [lia | reflexivity | change (3 + 1 <= 4); lia
    | change (4 <= 4); lia | change (4 <= 4); lia | lia | done |].
  change (forall kk, 2 <= kk < 5 ->
            [1;0;1].[[0;1; 0;1;2; 1;2].[kk]] <> C_NODE -> [0;1; 0;1;2; 1;2].[kk] = 1).
  intros kk Hkk HnC.
  assert (Hcases : kk = 2 \/ kk = 3 \/ kk = 4) by lia.
  destruct Hcases as [-> | [-> | ->]]; [| done |]; exfalso; apply HnC; reflexivity.
Defined.

(** X26: when [splitting] holds only the tags [F_NODE] and [C_NODE],
    every column index that [extended_interpolation_pass2] or
    [extended_plusi_interpolation_pass2] leaves in a row of the
    prolongator lies in [[0, n_C)], where [n_C] is the number of
    C-points, and the two kernels leave the same column indices in
    every row: they differ in the values only. *)
Theorem distance_two_interpolation_columns {T} `{Scalar T, !Magnitude T T}
    (signof : T -> T)
    (n_nodes : Z) (A_rowptr A_colinds : list Z) (A_data : list T)
    (C_rowptr C_colinds : list Z) (C_data : list T)
    (splitting P_rowptr0 P_colinds0 : list Z) (P_data0 : list T) (i : Z) :
  0 <= n_nodes -> zlen splitting = n_nodes -> n_nodes + 1 <= zlen P_rowptr0 ->
  (forall k, 0 <= k < n_nodes -> splitting.[k] = F_NODE \/ splitting.[k] = C_NODE) ->
  let P_rowptr :=
    distance_two_amg_interpolation_pass1 n_nodes C_rowptr C_colinds splitting P_rowptr0 in
  P_rowptr.[n_nodes] <= zlen P_colinds0 -> P_rowptr.[n_nodes] <= zlen P_data0 ->
  let P := fst (extended_interpolation_pass2 signof n_nodes A_rowptr A_colinds A_data
                  C_rowptr C_colinds C_data splitting P_rowptr P_colinds0 P_data0) in
  let P' := fst (extended_plusi_interpolation_pass2 signof n_nodes A_rowptr A_colinds A_data
                   C_rowptr C_colinds C_data splitting P_rowptr P_colinds0 P_data0) in
  0 <= i < n_nodes ->
  map fst (csr_row P_rowptr (fst P) (snd P) i)
  = map fst (csr_row P_rowptr (fst P') (snd P') i)
  /\ (forall c, In c (map fst (csr_row P_rowptr (fst P) (snd P) i)) ->
        0 <= c < zlen (List.filter (fun t => t =? C_NODE) splitting)).
Proof.
  intros Hn Hspl HlenBp Htags. simpl. intros HBj HBx Hi.
  destruct (extended_interpolation_spec signof n_nodes A_rowptr A_colinds A_data
              C_rowptr C_colinds C_data splitting P_rowptr0 P_colinds0 P_data0
              Hn Hspl HlenBp HBj HBx) as (_ & _ & Hrows & _).
  destruct (extended_plusi_interpolation_spec signof n_nodes A_rowptr A_colinds A_data
              C_rowptr C_colinds C_data splitting P_rowptr0 P_colinds0 P_data0
              Hn Hspl HlenBp HBj HBx) as (_ & _ & Hrows' & _).
  rewrite Hrows, Hrows' by done. rewrite <- Hspl in Htags.
  unfold interpolation_row, extended_entries, extended_plusi_entries,
    distance_two_row_entries.
  destruct (Z.eqb_spec splitting.[i] C_NODE) as [HC | HF].
  - split; [done |]. intros c [<- | []]. by apply coarse_index_C_point.
  - rewrite !map_map. cbn [fst snd]. split; [done |].
    intros c Hin. apply in_map_iff in Hin as ([c' a] & <- & Hin). simpl.
    apply coarse_index_C_point; [done |].
    by apply (distance_two_targets_C A_rowptr A_colinds A_data C_rowptr C_colinds C_data
                splitting i c' a).
Qed.

Lemma distance_two_interpolation_columns_witness :
  let sg := fun x : double => if (x <? s_zero)%sc then (-1)%float else 1%float in
  let Sp := [0;2;5;8;10] in
  let Sj := [0;1; 0;1;2; 1;2;3; 2;3] in
  let Sx := [2;-1; -1;2;-1; -1;2;-1; -1;2]%float in
  let spl := [1;0;0;1] in
  let P_rowptr := distance_two_amg_interpolation_pass1 4 Sp Sj spl [0;0;0;0;0] in
  let P := fst (extended_interpolation_pass2 (T:=double) sg 4 Sp Sj Sx Sp Sj Sx spl
                  P_rowptr (replicate 6 0) (replicate 6 0%float)) in
  let P' := fst (extended_plusi_interpolation_pass2 (T:=double) sg 4 Sp Sj Sx Sp Sj Sx spl
                   P_rowptr (replicate 6 0) (replicate 6 0%float)) in
  map fst (csr_row P_rowptr (fst P) (snd P) 1)
  = map fst (csr_row P_rowptr (fst P') (snd P') 1)
  /\ (forall c, In c (map fst (csr_row P_rowptr (fst P) (snd P) 1)) ->
        0 <= c < zlen (List.filter (fun t => t =? C_NODE) spl)).
Proof.
  apply (distance_two_interpolation_columns (T:=double)
           (fun x : double => if (x <? s_zero)%sc then (-1)%float else 1%float)
           4 [0;2;5;8;10] [0;1; 0;1;2; 1;2;3; 2;3]
           [2;-1; -1;2;-1; -1;2;-1; -1;2]%float [0;2;5;8;10] [0;1; 0;1;2; 1;2;3; 2;3]
           [2;-1; -1;2;-1; -1;2;-1; -1;2]%float [1;0;0;1] [0;0;0;0;0]
           (replicate 6 0) (replicate 6 0%float) 1);
    [lia | reflexivity | change (4 + 1 <= 5); lia | | change (6 <= 6); lia
    | change (6 <= 6); lia | lia].
  intros k Hk.
  assert (Hcases : k = 0 \/ k = 1 \/ k = 2 \/ k = 3) by lia.
  destruct Hcases as [-> | [-> | [-> | ->]]]; vm_compute; auto.
Defined.
